(** * SSA back end: stack-slot allocation and MIPS rewrite rules

    A shallow embedding of two files of [cmd/compile/internal/ssa]:

    - [stackalloc.go]: [stackalloc], [liveSpills], [getHome], [setHome]
      and [isStackPhi];
    - the generated MIPS rewriter ([rewriteValueMIPS], its per-op rule
      functions, and [rewriteBlockMIPS]).

    Values and blocks are referred to by their dense IDs, as the passes
    themselves do through their id-indexed side tables.  Go run-time
    panics are made explicit in the [result] monad. *)

From Stdlib Require Import ZArith List Bool Lia.
From stdpp Require Import base decidable option list gmap fin_sets functions.

Open Scope Z_scope.

(* ===================================================================== *)
(** * Shared data model                                                   *)
(* ===================================================================== *)

Module SSA.

(** What a Go function can do besides returning.  [OutOfFuel] belongs to
    the embedding of unbounded [for] loops, [DanglingRef] to the arena
    (a pointer to a value that is not in the function: Go cannot build
    one). *)
Inductive error : Set :=
  | DivideByZero
  | IndexOutOfRange
  | TypeAssertion
  | NilDereference
  | DanglingRef
  | OutOfFuel.

Inductive result (A : Type) : Type :=
  | Ok (a : A)
  | Fail (e : error).
Arguments Ok {A} a.
Arguments Fail {A} e.

#[global] Instance result_ret : MRet result := λ A a, Ok a.
#[global] Instance result_bind : MBind result :=
  λ A B k m, match m with Ok a => k a | Fail e => Fail e end.

Fixpoint foldlM {A B : Type} (k : B → A → result B) (l : list A) (b : B)
  : result B :=
  match l with
  | [] => Ok b
  | x :: l' => b' ← k b x; foldlM k l' b'
  end.

(** [l[i]] with Go's bounds check. *)
Definition go_index {A : Type} (l : list A) (i : nat) : result A :=
  match l !! i with
  | Some x => Ok x
  | None => Fail IndexOutOfRange
  end.

(** [type ID int32]; the function's allocator hands out dense,
    non-negative IDs. *)
Abbreviation ID := nat (only parsing).

(** The opcodes that the embedded code mentions: the generic ops of the
    examples and a part of the MIPS ops that the rules of the rewriter
    do not lead out of. *)
Inductive Op : Set :=
  | OpInvalid | OpCopy | OpPhi | OpArg | OpStoreReg | OpLoadReg
  | OpConst32 | OpAdd32 | OpAdd32carry | OpSub32carry
  | OpSelect0 | OpSelect1
  | OpMIPSADD | OpMIPSADDconst | OpMIPSSUB | OpMIPSSUBconst | OpMIPSNEG
  | OpMIPSAND | OpMIPSANDconst | OpMIPSOR | OpMIPSORconst
  | OpMIPSXOR | OpMIPSXORconst | OpMIPSNOR | OpMIPSNORconst
  | OpMIPSMUL | OpMIPSMULTU | OpMIPSDIV | OpMIPSDIVU
  | OpMIPSMOVWconst | OpMIPSMOVWaddr | OpMIPSMOVWload | OpMIPSMOVWstore
  | OpMIPSMOVBload | OpMIPSMOVBUload | OpMIPSMOVHload | OpMIPSMOVHUload
  | OpMIPSMOVBstore | OpMIPSMOVHstore
  | OpMIPSMOVBstorezero | OpMIPSMOVHstorezero | OpMIPSMOVWstorezero
  | OpMIPSMOVBreg | OpMIPSMOVBUreg | OpMIPSMOVHreg | OpMIPSMOVHUreg
  | OpMIPSMOVWreg | OpMIPSMOVWnop
  | OpMIPSCMOVZ | OpMIPSCMOVZzero | OpMIPSSRLconst | OpMIPSSLLconst
  | OpMIPSSGT | OpMIPSSGTU | OpMIPSSGTconst | OpMIPSSGTUconst
  | OpMIPSSGTzero | OpMIPSSGTUzero
  | OpMIPSFPFlagTrue | OpMIPSFPFlagFalse.

#[global] Instance Op_eq_dec : EqDecision Op.
Proof. solve_decision. Defined.

(** Modelled from the spec: the [Type] interface is declared outside
    src/.  The spec keeps of a type its size, its signedness and "a
    memory/flag/tuple indicator"; [TypeMem] is the distinguished memory
    type that [isStackPhi] compares against. *)
Inductive Typ : Set :=
  | TypeInvalid
  | TypeMem
  | TypeFlags
  | TypeBool
  | TypeInt (size : Z) (signed : bool)
  | TypeFloat (size : Z)
  | TypePtr
  | TypeTuple (t0 t1 : Typ).

#[global] Instance Typ_eq_dec : EqDecision Typ.
Proof. solve_decision. Defined.

(** Modelled from the spec: [Type.Equal] is declared outside src/; "types
    that are not equal (different size or alignment) never share a
    slot".  A missing table entry (a nil [Type]) is equal to nothing. *)
Definition Equal (t : Typ) (u : option Typ) : bool :=
  match u with
  | Some u' => bool_decide (t = u')
  | None => false
  end.

(** [GCNode]: a front-end variable, identified by its address. *)
Abbreviation GCNode := nat (only parsing).

(** [Aux interface{}]: nil, a symbol, or a front-end node. *)
Inductive AuxVal : Set :=
  | AuxNil
  | AuxSym (s : nat)
  | AuxNode (n : GCNode).

#[global] Instance AuxVal_eq_dec : EqDecision AuxVal.
Proof. solve_decision. Defined.

Record LocalSlot : Set := mkLocalSlot {
  N : option GCNode;
  SlotType : Typ;
  Off : Z;
}.

#[global] Instance LocalSlot_eq_dec : EqDecision LocalSlot.
Proof. solve_decision. Defined.

(** [Location]: a register or a stack slot; a nil [Location] is [None]. *)
Inductive Location : Set :=
  | LocReg (r : nat)
  | LocSlot (s : LocalSlot).

#[global] Instance Location_eq_dec : EqDecision Location.
Proof. solve_decision. Defined.

(** A value.  [v_Args] and [v_Block] hold the IDs of the values and of
    the block that the Go fields point to. *)
Record Value : Set := mkValue {
  v_ID : ID;
  v_Op : Op;
  v_Type : Typ;
  v_AuxInt : Z;
  v_Aux : AuxVal;
  v_Args : list ID;
  v_Block : ID;
  v_Uses : Z;
}.

#[global] Instance Value_eq_dec : EqDecision Value.
Proof. solve_decision. Defined.

(** [v.Args[i].ID] *)
Definition arg (v : Value) (i : nat) : result ID := go_index (v_Args v) i.

End SSA.

(* ===================================================================== *)
(** * stackalloc.go                                                       *)
(* ===================================================================== *)

Module Stackalloc.
Import SSA.

(** Blocks as [stackalloc] reads them: it never changes a value or a
    block, so a block carries its values; predecessors and successors
    are block IDs. *)
Record Block : Set := mkBlock {
  b_ID : ID;
  b_Values : list Value;
  b_Preds : list ID;
  b_Succs : list ID;
}.

#[global] Instance Block_eq_dec : EqDecision Block.
Proof. solve_decision. Defined.

(** The fields of [Func] that [stackalloc] uses.  [f_NamedValues] is a Go
    map: a missing key reads as the empty list.  [f_autos] is the state
    of the front end behind [f.Config.fe.Auto]: the next node it will
    create. *)
Record Func : Type := mkFunc {
  f_Blocks : list Block;
  f_Entry : Block;
  f_RegAlloc : list (option Location);
  f_Names : list LocalSlot;
  f_NamedValues : LocalSlot → list ID;
  f_autos : GCNode;
}.

Definition with_RegAlloc (f : Func) (ra : list (option Location)) : Func :=
  mkFunc (f_Blocks f) (f_Entry f) ra (f_Names f) (f_NamedValues f) (f_autos f).

(** [f.Config.fe.Auto(t)]: every call makes a new node (as the test
    front end's [Auto] does with [ir.NewNameAt]). *)
Definition Auto (f : Func) (t : Typ) : GCNode * Func :=
  (f_autos f,
   mkFunc (f_Blocks f) (f_Entry f) (f_RegAlloc f) (f_Names f)
          (f_NamedValues f) (S (f_autos f))).

(** ** The home map *)

Definition getHome (f : Func) (vid : ID) : option Location :=
  match f_RegAlloc f !! vid with
  | None => None                      (* int(vid) >= len(f.RegAlloc) *)
  | Some h => h                       (* f.RegAlloc[vid] *)
  end.

(** [for v.ID >= ID(len(f.RegAlloc)) { f.RegAlloc = append(f.RegAlloc, nil) }] *)
Definition growRegAlloc (ra : list (option Location)) (vid : ID)
  : list (option Location) :=
  ra ++ replicate (S vid - length ra) None.

Definition setHome (f : Func) (vid : ID) (loc : option Location) : Func :=
  with_RegAlloc f (<[vid := loc]> (growRegAlloc (f_RegAlloc f) vid)).

Definition isStackPhi (f : Func) (v : Value) : bool :=
  if negb (bool_decide (v_Op v = OpPhi)) then false
  else if bool_decide (v_Type v = TypeMem) then false
  else match f_RegAlloc f !! v_ID v with
       | None => true                 (* int(v.ID) >= len(RegAlloc) *)
       | Some h => bool_decide (h = None)
       end.

(** ** liveSpills *)

(** [newSparseSet] is declared outside src/; a sparse set of IDs is a
    finite set, [contents()] its elements and [size()] their number.
    The id-indexed tables made with [make(.., f.NumValues())] or
    [f.NumBlocks()] are finite maps whose missing entries read as the Go
    zero value: every ID of the function is below those bounds. *)
Abbreviation sparseSet := (gset nat).
Abbreviation LiveMap := (gmap nat (list (list nat))).

(** [p := b.Preds[i]]: the block of [f.Blocks] with that ID.  A
    predecessor outside [f.Blocks] has no row in [live], and the Go code
    panics on its first index into it. *)
Definition blockOf (f : Func) (bid : ID) : result Block :=
  match find (λ b, bool_decide (b_ID b = bid)) (f_Blocks f) with
  | Some b => Ok b
  | None => Fail IndexOutOfRange
  end.

(** [live[bid][j]] *)
Definition liveAt (live : LiveMap) (bid : ID) (j : nat) : result (list ID) :=
  go_index (default [] (live !! bid)) j.

(** [s.clear(); for i := 0; i < len(b.Succs); i++ { s.addAll(live[b.ID][i]) }] *)
Definition liveAtEnd (live : LiveMap) (b : Block) : result sparseSet :=
  foldlM (λ (s : sparseSet) i,
            l ← liveAt live (b_ID b) i; Ok (s ∪ list_to_set l))
         (seq 0 (length (b_Succs b))) ∅.

(** One step of the backward walk of [liveSpills] over [b.Values]. *)
Definition spillStep (f : Func) (acc : sparseSet * list Value) (v : Value)
  : result (sparseSet * list Value) :=
  let '(s, phis) := acc in
  if bool_decide (v_Op v = OpStoreReg) then Ok (s ∖ {[v_ID v]}, phis)
  else if bool_decide (v_Op v = OpLoadReg) then
    a ← arg v 0; Ok (s ∪ {[a]}, phis)
  else if isStackPhi f v then Ok (s ∖ {[v_ID v]}, phis ++ [v])
  else Ok (s, phis).

(** The set [s] and the saved stack phis once the walk of [b] reaches
    the start of the block. *)
Definition liveAtStart (f : Func) (live : LiveMap) (b : Block)
  : result (sparseSet * list Value) :=
  s ← liveAtEnd live b;
  foldlM (spillStep f) (rev (b_Values b)) (s, []).

(** [for j = 0; j < len(p.Succs); j++ { if p.Succs[j] == b { break } }] *)
Fixpoint succIndex (succs : list ID) (bid : ID) : nat :=
  match succs with
  | [] => 0%nat
  | s :: succs' => if bool_decide (s = bid) then 0%nat
                   else S (succIndex succs' bid)
  end.

(** The body of [for i, p := range b.Preds]. *)
Definition growPred (f : Func) (b : Block) (s : sparseSet) (phis : list Value)
    (st : LiveMap * bool) (ip : nat * ID) : result (LiveMap * bool) :=
  let '(live, changed) := st in
  let '(i, pid) := ip in
  p ← blockOf f pid;
  let j := succIndex (b_Succs p) (b_ID b) in
  old ← liveAt live (b_ID p) j;
  let t : sparseSet := list_to_set old ∪ s in
  t ← foldlM (λ (t : sparseSet) v, a ← arg v i; Ok (t ∪ {[a]})) phis t;
  if bool_decide (size t = length old) then Ok (live, changed)
  else Ok (<[b_ID p := <[j := elements t]> (default [] (live !! b_ID p))]> live,
           true).

(** The body of [for _, b := range po]. *)
Definition liveBlock (f : Func) (st : LiveMap * bool) (b : Block)
  : result (LiveMap * bool) :=
  '(s, phis) ← liveAtStart f (st.1) b;
  foldlM (growPred f b s phis) (imap (λ i p, (i, p)) (b_Preds b)) st.

(** One round of the outer [for] loop; the flag is [changed]. *)
Definition livePass (f : Func) (po : list Block) (live : LiveMap)
  : result (LiveMap * bool) :=
  foldlM (liveBlock f) po (live, false).

Fixpoint liveLoop (fuel : nat) (f : Func) (po : list Block) (live : LiveMap)
  : result LiveMap :=
  match fuel with
  | O => Fail OutOfFuel
  | S fuel' =>
      '(live', changed) ← livePass f po live;
      if changed : bool then liveLoop fuel' f po live' else Ok live'
  end.

(** [live[b.ID] = make([][]ID, len(b.Succs))] for every block. *)
Definition liveInit (f : Func) : LiveMap :=
  foldl (λ (live : LiveMap) b,
           <[b_ID b := replicate (length (b_Succs b)) []]> live)
        ∅ (f_Blocks f).

(** ** stackalloc *)

Abbreviation Interfere := (gmap nat (list nat)).

(** [types[v.ID] = v.Type] *)
Definition valueTypes (f : Func) : gmap nat Typ :=
  foldl (λ ty b, foldl (λ ty v, <[v_ID v := v_Type v]> ty) ty (b_Values b))
        ∅ (f_Blocks f).

(** [interfere[a]] and [interfere[a] = append(interfere[a], b)] *)
Definition interfering (itf : Interfere) (a : ID) : list ID :=
  default [] (itf !! a).

Definition addEdge (itf : Interfere) (a b : ID) : Interfere :=
  <[a := interfering itf a ++ [b]]> itf.

(** One step of the backward walk that builds the interference graph. *)
Definition interfereStep (f : Func) (types : gmap nat Typ)
    (acc : sparseSet * Interfere) (v : Value) : result (sparseSet * Interfere) :=
  let '(s, itf) := acc in
  if bool_decide (v_Op v = OpStoreReg) || isStackPhi f v then
    let s' := s ∖ {[v_ID v]} in
    Ok (s',
        foldl (λ itf id,
                 if Equal (v_Type v) (types !! id)
                 then addEdge (addEdge itf (v_ID v) id) id (v_ID v)
                 else itf)
              itf (elements s'))
  else if bool_decide (v_Op v = OpLoadReg) then
    a ← arg v 0; Ok (s ∪ {[a]}, itf)
  else Ok (s, itf).                     (* OpArg and everything else *)

Definition interfereBlock (f : Func) (types : gmap nat Typ) (live : LiveMap)
    (itf : Interfere) (b : Block) : result Interfere :=
  s ← liveAtEnd live b;
  '(_, itf') ← foldlM (interfereStep f types) (rev (b_Values b)) (s, itf);
  Ok itf'.

Definition buildInterference (f : Func) (live : LiveMap) : result Interfere :=
  foldlM (interfereBlock f (valueTypes f) live) (f_Blocks f) ∅.

(** [names[v.ID] = name]; a value without a name reads as the zero
    [LocalSlot], whose [N] is nil. *)
Definition buildNames (f : Func) : gmap nat LocalSlot :=
  foldl (λ names name,
           foldl (λ names vid, <[vid := name]> names) names
                 (f_NamedValues f name))
        ∅ (f_Names f).

(** [phiArg[a.ID] = true] for the arguments of every stack phi. *)
Definition buildPhiArg (f : Func) : gset nat :=
  foldl (λ pa b,
           foldl (λ (pa : gset nat) v,
                    if isStackPhi f v then pa ∪ list_to_set (v_Args v) else pa)
                 pa (b_Values b))
        ∅ (f_Blocks f).

(** "Allocate args to their assigned locations." *)
Definition allocArgs (f : Func) : result Func :=
  foldlM (λ f v,
            if negb (bool_decide (v_Op v = OpArg)) then Ok f
            else match v_Aux v with
                 | AuxNode n =>
                     Ok (setHome f (v_ID v)
                           (Some (LocSlot (mkLocalSlot (Some n) (v_Type v)
                                                       (v_AuxInt v)))))
                 | _ => Fail TypeAssertion          (* v.Aux.(GCNode) *)
                 end)
         (b_Values (f_Entry f)) f.

(** The state of the slot-picking loop. *)
Record SlotState : Type := mkSlotState {
  ss_f : Func;
  ss_locations : Typ → list LocalSlot;
  ss_slots : gmap nat nat;            (* a missing entry is -1 *)
  ss_used : gset nat;                 (* the indices i with used[i] *)
}.

(** [h := f.getHome(id); if h != nil && h.(LocalSlot) == name { goto noname }]
    over [ids]; [true] is the jump. *)
Fixpoint nameTaken (f : Func) (name : LocalSlot) (ids : list ID) : result bool :=
  match ids with
  | [] => Ok false
  | id :: ids' =>
      match getHome f id with
      | None => nameTaken f name ids'
      | Some (LocSlot s) =>
          if bool_decide (s = name) then Ok true else nameTaken f name ids'
      | Some (LocReg _) => Fail TypeAssertion
      end
  end.

(** The ids met by [for _, a := range v.Args { for _, id := range interfere[a.ID] ] *)
Definition argsInterfering (itf : Interfere) (v : Value) : list ID :=
  mjoin (interfering itf <$> v_Args v).

(** [slot := slots[xid]; if slot >= 0 { used[slot] = true }] over [ids]. *)
Definition markUsed (slots : gmap nat nat) (used : gset nat) (ids : list ID)
  : gset nat :=
  foldl (λ (used : gset nat) xid,
           match slots !! xid with
           | Some slot => used ∪ {[slot]}
           | None => used
           end)
        used ids.

(** [for i = 0; i < len(locs); i++ { if !used[i] { break } }], started at
    [i] with [n] indices left. *)
Fixpoint firstUnused (used : gset nat) (i n : nat) : nat :=
  match n with
  | O => i
  | S n' => if bool_decide (i ∈ used) then firstUnused used (S i) n' else i
  end.

(** [f.setHome(v, loc)] and, for a phi, [f.setHome(a, loc)] for its args. *)
Definition setHomes (f : Func) (v : Value) (loc : LocalSlot) : Func :=
  let f := setHome f (v_ID v) (Some (LocSlot loc)) in
  if bool_decide (v_Op v = OpPhi)
  then foldl (λ f a, setHome f a (Some (LocSlot loc))) f (v_Args v)
  else f.

(** The code from the label [noname] to the end of the loop body. *)
Definition pickNoname (itf : Interfere) (st : SlotState) (v : Value)
  : result SlotState :=
  let locs := ss_locations st (v_Type v) in
  let used := ss_used st ∖ list_to_set (seq 0 (length locs)) in
  let used := markUsed (ss_slots st) used (interfering itf (v_ID v)) in
  let used := if bool_decide (v_Op v = OpPhi)
              then markUsed (ss_slots st) used (argsInterfering itf v)
              else used in
  let i := firstUnused used 0 (length locs) in
  let '(locs, locations, f) :=
    if bool_decide (i = length locs) then
      let '(n, f') := Auto (ss_f st) (v_Type v) in
      let locs' := locs ++ [mkLocalSlot (Some n) (v_Type v) 0] in
      (locs', <[v_Type v := locs']> (ss_locations st), f')
    else (locs, ss_locations st, ss_f st) in
  loc ← go_index locs i;
  let slots := <[v_ID v := i]> (ss_slots st) in
  let slots := if bool_decide (v_Op v = OpPhi)
               then foldl (λ slots a, <[a := i]> slots) slots (v_Args v)
               else slots in
  Ok (mkSlotState (setHomes f v loc) locations slots used).

(** The body of the slot-picking loop. *)
Definition pickSlot (names : gmap nat LocalSlot) (phiArg : gset nat)
    (itf : Interfere) (st : SlotState) (v : Value) : result SlotState :=
  if negb (bool_decide (v_Op v = OpStoreReg)) && negb (isStackPhi (ss_f st) v)
  then Ok st
  else if bool_decide (v_ID v ∈ phiArg) then Ok st
  else
    name ← (if bool_decide (v_Op v = OpStoreReg)
            then a ← arg v 0; Ok (names !! a)
            else Ok (names !! v_ID v));
    match name with
    | Some name =>
        if bool_decide (N name ≠ None) && Equal (v_Type v) (Some (SlotType name))
        then
          taken ← nameTaken (ss_f st) name (interfering itf (v_ID v));
          if taken : bool then pickNoname itf st v
          else
            taken ← (if bool_decide (v_Op v = OpPhi)
                     then nameTaken (ss_f st) name (argsInterfering itf v)
                     else Ok false);
            if taken : bool then pickNoname itf st v
            else Ok (mkSlotState (setHomes (ss_f st) v name)
                                 (ss_locations st) (ss_slots st) (ss_used st))
        else pickNoname itf st v
    | None => pickNoname itf st v
    end.

Definition pickSlots (names : gmap nat LocalSlot) (phiArg : gset nat)
    (itf : Interfere) (f : Func) (st : SlotState) : result SlotState :=
  foldlM (λ st b, foldlM (pickSlot names phiArg itf) (b_Values b) st)
         (f_Blocks f) st.

Section WithPostorder.

(** [postorder] is declared outside src/. *)
Variable postorder : Func → list Block.

Definition liveSpills (fuel : nat) (f : Func) : result LiveMap :=
  liveLoop fuel f (postorder f) (liveInit f).

Definition stackalloc (fuel : nat) (f : Func) : result Func :=
  live ← liveSpills fuel f;
  itf ← buildInterference f live;
  let names := buildNames f in
  let phiArg := buildPhiArg f in
  f ← allocArgs f;
  st ← pickSlots names phiArg itf f (mkSlotState f (λ _, []) ∅ ∅);
  Ok (ss_f st).

End WithPostorder.

(** ** Vocabulary of the statements *)

Definition allValues (f : Func) : list Value :=
  mjoin (b_Values <$> f_Blocks f).

(** The control-flow graph as [liveSpills] needs it: blocks have their
    own IDs, the traversal visits blocks of the function, every
    predecessor is a block that has the block among its successors, a
    LoadReg has its operand and a stack phi one argument for each
    predecessor. *)
Record wfCFG (po : list Block) (f : Func) : Prop := mkWfCFG {
  wf_blockIDs : NoDup (b_ID <$> f_Blocks f);
  wf_po : ∀ b, b ∈ po → b ∈ f_Blocks f;
  wf_preds : ∀ b pid, b ∈ po → pid ∈ b_Preds b →
             ∃ p, p ∈ f_Blocks f ∧ b_ID p = pid ∧ b_ID b ∈ b_Succs p;
  wf_loads : ∀ v, v ∈ allValues f → v_Op v = OpLoadReg → v_Args v ≠ [];
  wf_phis : ∀ b v, b ∈ po → v ∈ b_Values b → isStackPhi f v = true →
            (length (b_Preds b) ≤ length (v_Args v))%nat;
}.

(** The list stored at [live[bid][j]], if there is one. *)
Definition rowAt (live : LiveMap) (bid : ID) (j : nat) : option (list ID) :=
  default [] (live !! bid) !! j.

(** The triples (block, successor index, value) of a live map, and the
    triples that a live map of the same shape can hold when its values
    come from [U]. *)
Definition flat (live : LiveMap) : gset (nat * nat * nat) :=
  list_to_set (br ← map_to_list live;
               jl ← imap (λ j l, (j, l)) (br.2);
               x ← jl.2;
               [(br.1, jl.1, x)]).

Definition bound (live : LiveMap) (U : gset nat) : gset (nat * nat * nat) :=
  list_to_set (br ← map_to_list live;
               j ← seq 0 (length (br.2));
               x ← elements U;
               [(br.1, j, x)]).

(** The IDs that [liveSpills] can put in a set: the operand of a
    LoadReg and the arguments of a stack phi. *)
Definition spillArgs (f : Func) (v : Value) : list ID :=
  if bool_decide (v_Op v = OpLoadReg) then take 1 (v_Args v)
  else if isStackPhi f v then v_Args v
  else [].

Definition universe (f : Func) : gset nat :=
  list_to_set (v ← allValues f; spillArgs f v).

(** What every round of [liveSpills] keeps: the shape that [liveInit]
    gave the map, and lists without repetition whose elements are
    arguments of values. *)
Definition liveInv (f : Func) (live : LiveMap) : Prop :=
  (∀ bid j, is_Some (rowAt live bid j) ↔ is_Some (rowAt (liveInit f) bid j)) ∧
  (∀ bid j l, rowAt live bid j = Some l →
              NoDup l ∧ ∀ x, x ∈ l → x ∈ universe f).

(** C8, for one block: on the edge from each predecessor the live list
    holds the argument that each stack phi of the block takes from that
    predecessor. *)
Definition phiInputsOnEdges (f : Func) (live : LiveMap) (b : Block) : Prop :=
  ∀ i pid, b_Preds b !! i = Some pid →
    ∃ p l, blockOf f pid = Ok p ∧
           liveAt live (b_ID p) (succIndex (b_Succs p) (b_ID b)) = Ok l ∧
           ∀ v, v ∈ b_Values b → isStackPhi f v = true →
                ∃ a, arg v i = Ok a ∧ a ∈ l.

(** C8, for one block: what is in the set at the start of the block is
    live at its end or loaded in it; being the input of a phi of the
    block puts nothing there. *)
Definition startExcludesPhiInputs (f : Func) (live : LiveMap) (b : Block)
  : Prop :=
  ∃ s phis, liveAtStart f live b = Ok (s, phis) ∧
    ∀ x, x ∈ s →
         (∃ i l, (i < length (b_Succs b))%nat ∧
                 liveAt live (b_ID b) i = Ok l ∧ x ∈ l) ∨
         (∃ v, v ∈ b_Values b ∧ v_Op v = OpLoadReg ∧ arg v 0 = Ok x).

(** The values that [stackalloc] gives a slot: StoreReg ops and stack
    phis. *)
Definition spillClass (f : Func) (v : Value) : Prop :=
  v_Op v = OpStoreReg ∨ isStackPhi f v = true.

(** The IDs that the interference graph can mention. *)
Definition spillRef (f : Func) (id : ID) : Prop :=
  id ∈ universe f ∨ ∃ v, v ∈ allValues f ∧ spillClass f v ∧ v_ID v = id.

Definition symmetric (itf : Interfere) : Prop :=
  ∀ x y, y ∈ interfering itf x → x ∈ interfering itf y.

(** The IDs that get a home when a slot is picked for [v]: [v] itself
    and, for a phi, its arguments. *)
Definition assigned (v : Value) : list ID :=
  v_ID v :: (if bool_decide (v_Op v = OpPhi) then v_Args v else []).

(** Two IDs of the group of one stack phi: the phi and its arguments. *)
Definition coalesced (f : Func) (x y : ID) : Prop :=
  ∃ p, p ∈ allValues f ∧ isStackPhi f p = true ∧
       x ∈ assigned p ∧ y ∈ assigned p.

(** What [stackalloc] expects of the register allocator's output:
    values have their own IDs; the entry block is a block and its Arg
    values carry their variable; a StoreReg has its operand; the
    arguments of a stack phi are not phis, and each belongs to one stack
    phi only; nothing that the interference graph can mention has a
    register; the named variables exist before the allocator makes new
    ones. *)
Record wfSpill (f : Func) : Prop := mkWfSpill {
  ws_ids : NoDup (v_ID <$> allValues f);
  ws_entry : f_Entry f ∈ f_Blocks f;
  ws_args : ∀ v, v ∈ b_Values (f_Entry f) → v_Op v = OpArg →
            ∃ n, v_Aux v = AuxNode n;
  ws_store : ∀ v, v ∈ allValues f → v_Op v = OpStoreReg → v_Args v ≠ [];
  ws_phiargs : ∀ p v, p ∈ allValues f → isStackPhi f p = true →
               v ∈ allValues f → v_ID v ∈ v_Args p → v_Op v ≠ OpPhi;
  ws_owner : ∀ p q a, p ∈ allValues f → q ∈ allValues f →
             isStackPhi f p = true → isStackPhi f q = true →
             a ∈ v_Args p → a ∈ v_Args q → p = q;
  ws_noreg : ∀ id r, spillRef f id → getHome f id ≠ Some (LocReg r);
  ws_names : ∀ nm k, nm ∈ f_Names f → N nm = Some k → (k < f_autos f)%nat;
}.


(** The ids that the slot-picking step for [v] looks at. *)
Definition checked (itf : Interfere) (v : Value) : list ID :=
  interfering itf (v_ID v) ++
  (if bool_decide (v_Op v = OpPhi) then argsInterfering itf v else []).

(** The values for which the slot-picking loop picks a slot: StoreReg
    ops and stack phis that are not the argument of a stack phi. *)
Definition pickedAlone (f : Func) (v : Value) : Prop :=
  spillClass f v ∧ v_ID v ∉ buildPhiArg f.

(** The IDs that have their home once the values of [done] are done. *)
Definition slotted (f : Func) (done : list Value) (id : ID) : Prop :=
  ∃ v, v ∈ done ∧ pickedAlone f v ∧ id ∈ assigned v.

(** What the slot-picking loop keeps, after the values of [done]: [f0]
    is the function given to [stackalloc], [f1] the function after the
    Arg values got their homes. *)
Record pickInv (f0 f1 : Func) (itf : Interfere) (done : list Value)
    (st : SlotState) : Prop := mkPickInv {
  inv_autos : (f_autos f0 ≤ f_autos (ss_f st))%nat;
  inv_reg : ∀ id r, getHome (ss_f st) id = Some (LocReg r) →
                    getHome f1 id = Some (LocReg r);
  inv_grow : ∀ id, getHome (ss_f st) id = None → getHome f1 id = None;
  inv_same : ∀ v, v ∈ done → pickedAlone f0 v →
             ∃ loc, ∀ id, id ∈ assigned v →
                          getHome (ss_f st) id = Some (LocSlot loc);
  inv_frame : ∀ id, ¬ slotted f0 done id →
              getHome (ss_f st) id = getHome f1 id ∧ ss_slots st !! id = None;
  inv_pool : ∀ t i l, ss_locations st t !! i = Some l →
             ∃ k, (f_autos f0 ≤ k < f_autos (ss_f st))%nat ∧
                  l = mkLocalSlot (Some k) t 0;
  inv_inj : ∀ t i j l, ss_locations st t !! i = Some l →
            ss_locations st t !! j = Some l → i = j;
  inv_home : ∀ id, slotted f0 done id →
             ∃ l, getHome (ss_f st) id = Some (LocSlot l) ∧
                  match ss_slots st !! id with
                  | None => ∃ k, N l = Some k ∧ (k < f_autos f0)%nat
                  | Some i => ∃ t, ss_locations st t !! i = Some l
                  end;
  inv_distinct : ∀ x y, slotted f0 done x → slotted f0 done y → x ≠ y →
                 y ∈ interfering itf x → ¬ coalesced f0 x y →
                 getHome (ss_f st) x ≠ getHome (ss_f st) y;
}.

(** [wfCFG] and [wfSpill] as computations. *)
Definition wfCFGb (po : list Block) (f : Func) : bool :=
  bool_decide (NoDup (b_ID <$> f_Blocks f)) &&
  forallb (λ b, bool_decide (b ∈ f_Blocks f)) po &&
  forallb (λ b,
     forallb (λ pid,
        existsb (λ p, bool_decide (b_ID p = pid) &&
                      bool_decide (b_ID b ∈ b_Succs p)) (f_Blocks f))
       (b_Preds b)) po &&
  forallb (λ v, negb (bool_decide (v_Op v = OpLoadReg)) ||
                negb (bool_decide (v_Args v = []))) (allValues f) &&
  forallb (λ b,
     forallb (λ v, negb (isStackPhi f v) ||
                   bool_decide (length (b_Preds b) ≤ length (v_Args v))%nat)
       (b_Values b)) po.

Definition noRegb (f : Func) (id : ID) : bool :=
  match getHome f id with
  | Some (LocReg _) => false
  | _ => true
  end.

Definition wfSpillb (f : Func) : bool :=
  let vs := allValues f in
  bool_decide (NoDup (v_ID <$> vs)) &&
  bool_decide (f_Entry f ∈ f_Blocks f) &&
  forallb (λ v, negb (bool_decide (v_Op v = OpArg)) ||
                match v_Aux v with AuxNode _ => true | _ => false end)
          (b_Values (f_Entry f)) &&
  forallb (λ v, negb (bool_decide (v_Op v = OpStoreReg)) ||
                negb (bool_decide (v_Args v = []))) vs &&
  forallb (λ p, negb (isStackPhi f p) ||
                forallb (λ v, negb (bool_decide (v_ID v ∈ v_Args p)) ||
                              negb (bool_decide (v_Op v = OpPhi))) vs) vs &&
  forallb (λ p, negb (isStackPhi f p) ||
                forallb (λ q, negb (isStackPhi f q) ||
                              (bool_decide (p = q) ||
                               forallb (λ a, negb (bool_decide (a ∈ v_Args q)))
                                       (v_Args p))) vs) vs &&
  forallb (λ v, forallb (noRegb f) (spillArgs f v) &&
                (negb (bool_decide (v_Op v = OpStoreReg) || isStackPhi f v) ||
                 noRegb f (v_ID v))) vs &&
  forallb (λ nm, match N nm with
                 | Some k => bool_decide (k < f_autos f)%nat
                 | None => true
                 end) (f_Names f).


End Stackalloc.

(* ===================================================================== *)
(** * The MIPS rewriter                                                   *)
(* ===================================================================== *)

Module RewriteMIPS.
Import SSA.

(** ** Machine integers *)

(** [int32(x)], [uint32(x)], [int16(x)] and the wrap-around of [int64]
    arithmetic, on [Z]. *)
Definition int64 (x : Z) : Z := (x + 2 ^ 63) mod 2 ^ 64 - 2 ^ 63.
Definition int32 (x : Z) : Z := (x + 2 ^ 31) mod 2 ^ 32 - 2 ^ 31.
Definition int16 (x : Z) : Z := (x + 2 ^ 15) mod 2 ^ 16 - 2 ^ 15.
Definition uint32 (x : Z) : Z := x mod 2 ^ 32.
(** [int8(x)], [uint8(x)] and [uint16(x)]. *)
Definition int8 (x : Z) : Z := (x + 2 ^ 7) mod 2 ^ 8 - 2 ^ 7.
Definition uint8 (x : Z) : Z := x mod 2 ^ 8.
Definition uint16 (x : Z) : Z := x mod 2 ^ 16.

(** Go's [/] and [%] on two [int32]: a zero divisor panics, the quotient
    truncates toward zero and wraps for [MinInt32 / -1]. *)
Definition div32 (c d : Z) : result Z :=
  if bool_decide (d = 0) then Fail DivideByZero else Ok (int32 (Z.quot c d)).
Definition mod32 (c d : Z) : result Z :=
  if bool_decide (d = 0) then Fail DivideByZero else Ok (int32 (Z.rem c d)).
(** The same on two [uint32]. *)
Definition divu32 (c d : Z) : result Z :=
  if bool_decide (d = 0) then Fail DivideByZero else Ok (c / d).
Definition modu32 (c d : Z) : result Z :=
  if bool_decide (d = 0) then Fail DivideByZero else Ok (c mod d).

(** Modelled from the spec: [is16Bit] is declared outside src/; the
    displacement "fits the machine immediate field", 16 signed bits on
    MIPS. *)
Definition is16Bit (n : Z) : bool := bool_decide (n = int16 n).

(** ** Blocks and functions *)

Inductive BlockKind : Set :=
  | BlockInvalid | BlockPlain | BlockIf | BlockFirst
  | BlockMIPSEQ | BlockMIPSNE | BlockMIPSLTZ | BlockMIPSLEZ
  | BlockMIPSGTZ | BlockMIPSGEZ | BlockMIPSFPT | BlockMIPSFPF.

#[global] Instance BlockKind_eq_dec : EqDecision BlockKind.
Proof. solve_decision. Defined.

(** [b_Controls] lists the non-nil entries of [Controls [2]*Value]. *)
Record Block : Set := mkBlock {
  b_ID : ID;
  b_Kind : BlockKind;
  b_Values : list ID;
  b_Succs : list ID;
  b_Controls : list ID;
}.

(** The arena: values and blocks by ID, and the next value ID that the
    function's allocator will hand out. *)
Record Func : Type := mkFunc {
  f_values : gmap nat Value;
  f_blocks : gmap nat Block;
  f_nextID : ID;
}.

(** A value is found in the arena under its own ID. *)
Definition deref (f : Func) (vid : ID) : result Value :=
  match f_values f !! vid with
  | Some v => if bool_decide (v_ID v = vid) then Ok v else Fail DanglingRef
  | None => Fail DanglingRef
  end.

Definition derefBlock (f : Func) (bid : ID) : result Block :=
  match f_blocks f !! bid with
  | Some b => if bool_decide (b_ID b = bid) then Ok b else Fail DanglingRef
  | None => Fail DanglingRef
  end.

(** [v.Args[i]], with the bounds check. *)
Definition argv (f : Func) (v : Value) (i : nat) : result Value :=
  a ← arg v i; deref f a.

Definition setValue (f : Func) (v : Value) : Func :=
  mkFunc (<[v_ID v := v]> (f_values f)) (f_blocks f) (f_nextID f).

Definition setBlock (f : Func) (b : Block) : Func :=
  mkFunc (f_values f) (<[b_ID b := b]> (f_blocks f)) (f_nextID f).

Definition with_Op (v : Value) (op : Op) : Value :=
  mkValue (v_ID v) op (v_Type v) (v_AuxInt v) (v_Aux v) (v_Args v)
          (v_Block v) (v_Uses v).
Definition with_Type (v : Value) (t : Typ) : Value :=
  mkValue (v_ID v) (v_Op v) t (v_AuxInt v) (v_Aux v) (v_Args v)
          (v_Block v) (v_Uses v).
Definition with_AuxInt (v : Value) (c : Z) : Value :=
  mkValue (v_ID v) (v_Op v) (v_Type v) c (v_Aux v) (v_Args v)
          (v_Block v) (v_Uses v).
Definition with_Aux (v : Value) (a : AuxVal) : Value :=
  mkValue (v_ID v) (v_Op v) (v_Type v) (v_AuxInt v) a (v_Args v)
          (v_Block v) (v_Uses v).
Definition with_Args (v : Value) (args : list ID) : Value :=
  mkValue (v_ID v) (v_Op v) (v_Type v) (v_AuxInt v) (v_Aux v) args
          (v_Block v) (v_Uses v).
Definition with_Uses (v : Value) (n : Z) : Value :=
  mkValue (v_ID v) (v_Op v) (v_Type v) (v_AuxInt v) (v_Aux v) (v_Args v)
          (v_Block v) n.

(** [w.Uses += d] *)
Definition addUses (d : Z) (f : Func) (w : ID) : result Func :=
  x ← deref f w; Ok (setValue f (with_Uses x (v_Uses x + d))).

(** Modelled from the spec: the methods of [Value] and [Block] are
    declared outside src/.  "Rewriting a value mutates its Op, Type, Aux,
    AuxInt, and Args in place"; resetting a value sets its Op and "clears
    its arguments"; rules "reduce uses".  [reset] gives the value its new
    Op, drops its arguments (one use less for each) and clears [AuxInt]
    and [Aux]; [AddArg] appends an argument and counts the use. *)
Definition reset (f : Func) (vid : ID) (op : Op) : result Func :=
  v ← deref f vid;
  f ← foldlM (addUses (-1)) (v_Args v) f;
  v ← deref f vid;
  Ok (setValue f (with_Aux (with_AuxInt (with_Args (with_Op v op) []) 0) AuxNil)).

Definition AddArg (f : Func) (vid : ID) (w : ID) : result Func :=
  v ← deref f vid;
  f ← addUses 1 (setValue f (with_Args v (v_Args v ++ [w]))) w;
  Ok f.

Definition setAuxInt (f : Func) (vid : ID) (c : Z) : result Func :=
  v ← deref f vid; Ok (setValue f (with_AuxInt v c)).
Definition setAux (f : Func) (vid : ID) (a : AuxVal) : result Func :=
  v ← deref f vid; Ok (setValue f (with_Aux v a)).
Definition setType (f : Func) (vid : ID) (t : Typ) : result Func :=
  v ← deref f vid; Ok (setValue f (with_Type v t)).

(** Modelled from the spec: [b.NewValue0(pos, op, t)] makes a value with
    a new ID, no arguments and no uses, "in the same block". *)
Definition NewValue0 (f : Func) (bid : ID) (op : Op) (t : Typ)
  : result (ID * Func) :=
  b ← derefBlock f bid;
  let vid := f_nextID f in
  let v := mkValue vid op t 0 AuxNil [] bid 0 in
  let b' := mkBlock (b_ID b) (b_Kind b) (b_Values b ++ [vid]) (b_Succs b)
                    (b_Controls b) in
  Ok (vid, mkFunc (<[vid := v]> (f_values f)) (<[b_ID b := b']> (f_blocks f))
                  (S vid)).

(** Modelled from the spec: the block rewriter "may rewrite a kind, swap
    successors"; [Reset] sets the kind and drops the controls,
    [AddControl] adds one, [swapSuccessors] exchanges the two successors
    of a two-way block (anything else is an invariant violation, which
    "aborts compilation"). *)
Definition blockReset (f : Func) (bid : ID) (kind : BlockKind) : result Func :=
  b ← derefBlock f bid;
  f ← foldlM (addUses (-1)) (b_Controls b) f;
  Ok (setBlock f (mkBlock (b_ID b) kind (b_Values b) (b_Succs b) [])).

Definition AddControl (f : Func) (bid : ID) (w : ID) : result Func :=
  b ← derefBlock f bid;
  if bool_decide (2 ≤ length (b_Controls b))%nat then Fail IndexOutOfRange
  else
    f ← addUses 1 f w;
    Ok (setBlock f (mkBlock (b_ID b) (b_Kind b) (b_Values b) (b_Succs b)
                            (b_Controls b ++ [w]))).

Definition swapSuccessors (f : Func) (bid : ID) : result Func :=
  b ← derefBlock f bid;
  match b_Succs b with
  | [s0; s1] =>
      Ok (setBlock f (mkBlock (b_ID b) (b_Kind b) (b_Values b) [s1; s0]
                              (b_Controls b)))
  | _ => Fail IndexOutOfRange
  end.

(** ** Rule combinators *)

(** A rule gives [Ok None] when it does not match ([break] or the last
    [continue]), [Ok (Some f)] when it fired and returned [true]. *)
Abbreviation rule := (result (option Func)).

Definition nomatch : rule := Ok None.
Definition fired (f : Func) : rule := Ok (Some f).

(** Rules in source order: the first that fires wins. *)
Definition orElse (r1 r2 : rule) : rule :=
  match r1 with
  | Ok None => r2
  | _ => r1
  end.
Infix "<||>" := orElse (at level 60, right associativity).

(** [for _i0 := 0; _i0 <= 1; _i0, v_0, v_1 = _i0+1, v_1, v_0 { .. }] *)
Definition commute (body : Value → Value → rule) (v_0 v_1 : Value) : rule :=
  body v_0 v_1 <||> body v_1 v_0.

(** [return true] after a rule fired, [return false] at the end. *)
Definition finish (f : Func) (r : rule) : result (Func * bool) :=
  match r with
  | Ok (Some f') => Ok (f', true)
  | Ok None => Ok (f, false)
  | Fail e => Fail e
  end.

Definition hasOp (v : Value) (op : Op) : bool := bool_decide (v_Op v = op).

(** ** Lowering of generic ops *)

Definition rewriteValueMIPS_OpAdd32 (f : Func) (vid : ID) : result (Func * bool) :=
  v ← deref f vid;
  v_1 ← argv f v 1;
  v_0 ← argv f v 0;
  finish f (
    (* match: (Add32 x y)   result: (ADD x y) *)
    let x := v_0 in
    let y := v_1 in
    f ← reset f vid OpMIPSADD;
    f ← AddArg f vid (v_ID x);
    f ← AddArg f vid (v_ID y);
    fired f).

Definition rewriteValueMIPS_OpConst32 (f : Func) (vid : ID) : result (Func * bool) :=
  v ← deref f vid;
  finish f (
    (* match: (Const32 [val])   result: (MOVWconst [val]) *)
    let val := v_AuxInt v in
    f ← reset f vid OpMIPSMOVWconst;
    f ← setAuxInt f vid val;
    fired f).

(** ** Machine ops *)

Definition rewriteValueMIPS_OpMIPSADD (f : Func) (vid : ID) : result (Func * bool) :=
  v ← deref f vid;
  v_1 ← argv f v 1;
  v_0 ← argv f v 0;
  finish f (
    (* match: (ADD x (MOVWconst [c]))   result: (ADDconst [c] x) *)
    commute (λ v_0 v_1,
      let x := v_0 in
      if negb (hasOp v_1 OpMIPSMOVWconst) then nomatch else
      let c := v_AuxInt v_1 in
      f ← reset f vid OpMIPSADDconst;
      f ← setAuxInt f vid c;
      f ← AddArg f vid (v_ID x);
      fired f) v_0 v_1
    <||>
    (* match: (ADD x (NEG y))   result: (SUB x y) *)
    commute (λ v_0 v_1,
      let x := v_0 in
      if negb (hasOp v_1 OpMIPSNEG) then nomatch else
      y ← arg v_1 0;
      f ← reset f vid OpMIPSSUB;
      f ← AddArg f vid (v_ID x);
      f ← AddArg f vid y;
      fired f) v_0 v_1).

Definition rewriteValueMIPS_OpMIPSADDconst (f : Func) (vid : ID) : result (Func * bool) :=
  v ← deref f vid;
  v_0 ← argv f v 0;
  finish f (
    (* match: (ADDconst [off1] (MOVWaddr [off2] {sym} ptr))
       result: (MOVWaddr [off1+off2] {sym} ptr) *)
    (let off1 := v_AuxInt v in
     if negb (hasOp v_0 OpMIPSMOVWaddr) then nomatch else
     let off2 := v_AuxInt v_0 in
     let sym := v_Aux v_0 in
     ptr ← arg v_0 0;
     f ← reset f vid OpMIPSMOVWaddr;
     f ← setAuxInt f vid (int64 (off1 + off2));
     f ← setAux f vid sym;
     f ← AddArg f vid ptr;
     fired f)
    <||>
    (* match: (ADDconst [0] x)   result: x *)
    (if negb (bool_decide (v_AuxInt v = 0)) then nomatch else
     let x := v_0 in
     f ← reset f vid OpCopy;
     f ← setType f vid (v_Type x);
     f ← AddArg f vid (v_ID x);
     fired f)
    <||>
    (* match: (ADDconst [c] (MOVWconst [d]))
       result: (MOVWconst [int64(int32(c+d))]) *)
    (let c := v_AuxInt v in
     if negb (hasOp v_0 OpMIPSMOVWconst) then nomatch else
     let d := v_AuxInt v_0 in
     f ← reset f vid OpMIPSMOVWconst;
     f ← setAuxInt f vid (int32 (int64 (c + d)));
     fired f)
    <||>
    (* match: (ADDconst [c] (ADDconst [d] x))
       result: (ADDconst [int64(int32(c+d))] x) *)
    (let c := v_AuxInt v in
     if negb (hasOp v_0 OpMIPSADDconst) then nomatch else
     let d := v_AuxInt v_0 in
     x ← arg v_0 0;
     f ← reset f vid OpMIPSADDconst;
     f ← setAuxInt f vid (int32 (int64 (c + d)));
     f ← AddArg f vid x;
     fired f)
    <||>
    (* match: (ADDconst [c] (SUBconst [d] x))
       result: (ADDconst [int64(int32(c-d))] x) *)
    (let c := v_AuxInt v in
     if negb (hasOp v_0 OpMIPSSUBconst) then nomatch else
     let d := v_AuxInt v_0 in
     x ← arg v_0 0;
     f ← reset f vid OpMIPSADDconst;
     f ← setAuxInt f vid (int32 (int64 (c - d)));
     f ← AddArg f vid x;
     fired f)).

Definition rewriteValueMIPS_OpMIPSSUB (f : Func) (vid : ID) : result (Func * bool) :=
  v ← deref f vid;
  v_1 ← argv f v 1;
  v_0 ← argv f v 0;
  finish f (
    (* match: (SUB x (MOVWconst [c]))   result: (SUBconst [c] x) *)
    (let x := v_0 in
     if negb (hasOp v_1 OpMIPSMOVWconst) then nomatch else
     let c := v_AuxInt v_1 in
     f ← reset f vid OpMIPSSUBconst;
     f ← setAuxInt f vid c;
     f ← AddArg f vid (v_ID x);
     fired f)
    <||>
    (* match: (SUB x x)   result: (MOVWconst [0]) *)
    (let x := v_0 in
     if negb (bool_decide (v_ID x = v_ID v_1)) then nomatch else
     f ← reset f vid OpMIPSMOVWconst;
     f ← setAuxInt f vid 0;
     fired f)
    <||>
    (* match: (SUB (MOVWconst [0]) x)   result: (NEG x) *)
    (if negb (hasOp v_0 OpMIPSMOVWconst) || negb (bool_decide (v_AuxInt v_0 = 0))
     then nomatch else
     let x := v_1 in
     f ← reset f vid OpMIPSNEG;
     f ← AddArg f vid (v_ID x);
     fired f)).

Definition rewriteValueMIPS_OpMIPSSUBconst (f : Func) (vid : ID) : result (Func * bool) :=
  v ← deref f vid;
  v_0 ← argv f v 0;
  finish f (
    (* match: (SUBconst [0] x)   result: x *)
    (if negb (bool_decide (v_AuxInt v = 0)) then nomatch else
     let x := v_0 in
     f ← reset f vid OpCopy;
     f ← setType f vid (v_Type x);
     f ← AddArg f vid (v_ID x);
     fired f)
    <||>
    (* match: (SUBconst [c] (MOVWconst [d]))
       result: (MOVWconst [int64(int32(d-c))]) *)
    (let c := v_AuxInt v in
     if negb (hasOp v_0 OpMIPSMOVWconst) then nomatch else
     let d := v_AuxInt v_0 in
     f ← reset f vid OpMIPSMOVWconst;
     f ← setAuxInt f vid (int32 (int64 (d - c)));
     fired f)
    <||>
    (* match: (SUBconst [c] (SUBconst [d] x))
       result: (ADDconst [int64(int32(-c-d))] x) *)
    (let c := v_AuxInt v in
     if negb (hasOp v_0 OpMIPSSUBconst) then nomatch else
     let d := v_AuxInt v_0 in
     x ← arg v_0 0;
     f ← reset f vid OpMIPSADDconst;
     f ← setAuxInt f vid (int32 (int64 (int64 (- c) - d)));
     f ← AddArg f vid x;
     fired f)
    <||>
    (* match: (SUBconst [c] (ADDconst [d] x))
       result: (ADDconst [int64(int32(-c+d))] x) *)
    (let c := v_AuxInt v in
     if negb (hasOp v_0 OpMIPSADDconst) then nomatch else
     let d := v_AuxInt v_0 in
     x ← arg v_0 0;
     f ← reset f vid OpMIPSADDconst;
     f ← setAuxInt f vid (int32 (int64 (int64 (- c) + d)));
     f ← AddArg f vid x;
     fired f)).

Definition rewriteValueMIPS_OpMIPSAND (f : Func) (vid : ID) : result (Func * bool) :=
  v ← deref f vid;
  v_1 ← argv f v 1;
  v_0 ← argv f v 0;
  let b := v_Block v in
  finish f (
    (* match: (AND x (MOVWconst [c]))   result: (ANDconst [c] x) *)
    commute (λ v_0 v_1,
      let x := v_0 in
      if negb (hasOp v_1 OpMIPSMOVWconst) then nomatch else
      let c := v_AuxInt v_1 in
      f ← reset f vid OpMIPSANDconst;
      f ← setAuxInt f vid c;
      f ← AddArg f vid (v_ID x);
      fired f) v_0 v_1
    <||>
    (* match: (AND x x)   result: x *)
    (let x := v_0 in
     if negb (bool_decide (v_ID x = v_ID v_1)) then nomatch else
     f ← reset f vid OpCopy;
     f ← setType f vid (v_Type x);
     f ← AddArg f vid (v_ID x);
     fired f)
    <||>
    (* match: (AND (SGTUconst [1] x) (SGTUconst [1] y))
       result: (SGTUconst [1] (OR <x.Type> x y)) *)
    commute (λ v_0 v_1,
      if negb (hasOp v_0 OpMIPSSGTUconst) || negb (bool_decide (v_AuxInt v_0 = 1))
      then nomatch else
      x ← argv f v_0 0;
      if negb (hasOp v_1 OpMIPSSGTUconst) || negb (bool_decide (v_AuxInt v_1 = 1))
      then nomatch else
      y ← arg v_1 0;
      f ← reset f vid OpMIPSSGTUconst;
      f ← setAuxInt f vid 1;
      '(v0, f) ← NewValue0 f b OpMIPSOR (v_Type x);
      f ← AddArg f v0 (v_ID x);
      f ← AddArg f v0 y;
      f ← AddArg f vid v0;
      fired f) v_0 v_1).

Definition rewriteValueMIPS_OpMIPSNOR (f : Func) (vid : ID) : result (Func * bool) :=
  v ← deref f vid;
  v_1 ← argv f v 1;
  v_0 ← argv f v 0;
  finish f (
    (* match: (NOR x (MOVWconst [c]))   result: (NORconst [c] x) *)
    commute (λ v_0 v_1,
      let x := v_0 in
      if negb (hasOp v_1 OpMIPSMOVWconst) then nomatch else
      let c := v_AuxInt v_1 in
      f ← reset f vid OpMIPSNORconst;
      f ← setAuxInt f vid c;
      f ← AddArg f vid (v_ID x);
      fired f) v_0 v_1).

Definition rewriteValueMIPS_OpMIPSOR (f : Func) (vid : ID) : result (Func * bool) :=
  v ← deref f vid;
  v_1 ← argv f v 1;
  v_0 ← argv f v 0;
  let b := v_Block v in
  finish f (
    (* match: (OR x (MOVWconst [c]))   result: (ORconst [c] x) *)
    commute (λ v_0 v_1,
      let x := v_0 in
      if negb (hasOp v_1 OpMIPSMOVWconst) then nomatch else
      let c := v_AuxInt v_1 in
      f ← reset f vid OpMIPSORconst;
      f ← setAuxInt f vid c;
      f ← AddArg f vid (v_ID x);
      fired f) v_0 v_1
    <||>
    (* match: (OR x x)   result: x *)
    (let x := v_0 in
     if negb (bool_decide (v_ID x = v_ID v_1)) then nomatch else
     f ← reset f vid OpCopy;
     f ← setType f vid (v_Type x);
     f ← AddArg f vid (v_ID x);
     fired f)
    <||>
    (* match: (OR (SGTUzero x) (SGTUzero y))
       result: (SGTUzero (OR <x.Type> x y)) *)
    commute (λ v_0 v_1,
      if negb (hasOp v_0 OpMIPSSGTUzero) then nomatch else
      x ← argv f v_0 0;
      if negb (hasOp v_1 OpMIPSSGTUzero) then nomatch else
      y ← arg v_1 0;
      f ← reset f vid OpMIPSSGTUzero;
      '(v0, f) ← NewValue0 f b OpMIPSOR (v_Type x);
      f ← AddArg f v0 (v_ID x);
      f ← AddArg f v0 y;
      f ← AddArg f vid v0;
      fired f) v_0 v_1).

Definition rewriteValueMIPS_OpMIPSXOR (f : Func) (vid : ID) : result (Func * bool) :=
  v ← deref f vid;
  v_1 ← argv f v 1;
  v_0 ← argv f v 0;
  finish f (
    (* match: (XOR x (MOVWconst [c]))   result: (XORconst [c] x) *)
    commute (λ v_0 v_1,
      let x := v_0 in
      if negb (hasOp v_1 OpMIPSMOVWconst) then nomatch else
      let c := v_AuxInt v_1 in
      f ← reset f vid OpMIPSXORconst;
      f ← setAuxInt f vid c;
      f ← AddArg f vid (v_ID x);
      fired f) v_0 v_1
    <||>
    (* match: (XOR x x)   result: (MOVWconst [0]) *)
    (let x := v_0 in
     if negb (bool_decide (v_ID x = v_ID v_1)) then nomatch else
     f ← reset f vid OpMIPSMOVWconst;
     f ← setAuxInt f vid 0;
     fired f)).

(** The helpers of rewrite.go and of the type package that the rules
    below call; they are declared outside src/.  [clobber(x)] is called
    last in a rule's condition, for what it does to [x]; the rule goes on
    with the function that it leaves. *)
Class Helpers : Type := mkHelpers {
  isPowerOfTwo : Z → bool;
  log2 : Z → Z;
  FieldType : Typ → Z → Typ;
  canMergeSym : AuxVal → AuxVal → bool;
  mergeSym : AuxVal → AuxVal → AuxVal;
  isSamePtr : Func → ID → ID → bool;
  clobber : Func → ID → result Func;
}.

Section WithHelpers.
Context `{Helpers}.

(** The three rules of [rewriteValueMIPS_OpMIPSMOVWload], in source
    order. *)

(* match: (MOVWload [off1] {sym} x:(ADDconst [off2] ptr) mem)
   cond: (is16Bit(off1+off2) || x.Uses == 1)
   result: (MOVWload [off1+off2] {sym} ptr mem) *)
Definition MOVWload_ADDconst (f : Func) (vid : ID) (v v_0 v_1 : Value) : rule :=
  let off1 := v_AuxInt v in
  let sym := v_Aux v in
  let x := v_0 in
  if negb (hasOp x OpMIPSADDconst) then nomatch else
  let off2 := v_AuxInt x in
  ptr ← arg x 0;
  let mem := v_1 in
  if negb (is16Bit (int64 (off1 + off2)) || bool_decide (v_Uses x = 1))
  then nomatch else
  f ← reset f vid OpMIPSMOVWload;
  f ← setAuxInt f vid (int64 (off1 + off2));
  f ← setAux f vid sym;
  f ← AddArg f vid ptr;
  f ← AddArg f vid (v_ID mem);
  fired f.

(* match: (MOVWload [off1] {sym1} (MOVWaddr [off2] {sym2} ptr) mem)
   cond: canMergeSym(sym1,sym2)
   result: (MOVWload [off1+off2] {mergeSym(sym1,sym2)} ptr mem) *)
Definition MOVWload_MOVWaddr (f : Func) (vid : ID) (v v_0 v_1 : Value) : rule :=
  let off1 := v_AuxInt v in
  let sym1 := v_Aux v in
  if negb (hasOp v_0 OpMIPSMOVWaddr) then nomatch else
  let off2 := v_AuxInt v_0 in
  let sym2 := v_Aux v_0 in
  ptr ← arg v_0 0;
  let mem := v_1 in
  if negb (canMergeSym sym1 sym2) then nomatch else
  f ← reset f vid OpMIPSMOVWload;
  f ← setAuxInt f vid (int64 (off1 + off2));
  f ← setAux f vid (mergeSym sym1 sym2);
  f ← AddArg f vid ptr;
  f ← AddArg f vid (v_ID mem);
  fired f.

(* match: (MOVWload [off] {sym} ptr (MOVWstore [off2] {sym2} ptr2 x _))
   cond: sym == sym2 && off == off2 && isSamePtr(ptr, ptr2)
   result: x *)
Definition MOVWload_MOVWstore (f : Func) (vid : ID) (v v_0 v_1 : Value) : rule :=
  let off := v_AuxInt v in
  let sym := v_Aux v in
  let ptr := v_0 in
  if negb (hasOp v_1 OpMIPSMOVWstore) then nomatch else
  let off2 := v_AuxInt v_1 in
  let sym2 := v_Aux v_1 in
  _ ← arg v_1 2;
  ptr2 ← arg v_1 0;
  x ← argv f v_1 1;
  if negb (bool_decide (sym = sym2) && bool_decide (off = off2)
           && isSamePtr f (v_ID ptr) ptr2)
  then nomatch else
  f ← reset f vid OpCopy;
  f ← setType f vid (v_Type x);
  f ← AddArg f vid (v_ID x);
  fired f.

Definition rewriteValueMIPS_OpMIPSMOVWload (f : Func) (vid : ID) : result (Func * bool) :=
  v ← deref f vid;
  v_1 ← argv f v 1;
  v_0 ← argv f v 0;
  finish f (MOVWload_ADDconst f vid v v_0 v_1
            <||> MOVWload_MOVWaddr f vid v v_0 v_1
            <||> MOVWload_MOVWstore f vid v v_0 v_1).

(** [(MOVWconst [k])] as the first operand of a MULTU, either way round. *)
Definition multuConst (f : Func) (v_0 : Value)
    (body : Value → Value → rule) : rule :=
  if negb (hasOp v_0 OpMIPSMULTU) then nomatch else
  _ ← arg v_0 1;
  v_0_0 ← argv f v_0 0;
  v_0_1 ← argv f v_0 1;
  commute body v_0_0 v_0_1.

Definition rewriteValueMIPS_OpSelect0 (f : Func) (vid : ID) : result (Func * bool) :=
  v ← deref f vid;
  v_0 ← argv f v 0;
  let b := v_Block v in
  finish f (
    (* match: (Select0 (Add32carry <t> x y))
       result: (ADD <t.FieldType(0)> x y) *)
    (if negb (hasOp v_0 OpAdd32carry) then nomatch else
     let t := v_Type v_0 in
     y ← arg v_0 1;
     x ← arg v_0 0;
     f ← reset f vid OpMIPSADD;
     f ← setType f vid (FieldType t 0);
     f ← AddArg f vid x;
     f ← AddArg f vid y;
     fired f)
    <||>
    (* match: (Select0 (Sub32carry <t> x y))
       result: (SUB <t.FieldType(0)> x y) *)
    (if negb (hasOp v_0 OpSub32carry) then nomatch else
     let t := v_Type v_0 in
     y ← arg v_0 1;
     x ← arg v_0 0;
     f ← reset f vid OpMIPSSUB;
     f ← setType f vid (FieldType t 0);
     f ← AddArg f vid x;
     f ← AddArg f vid y;
     fired f)
    <||>
    (* match: (Select0 (MULTU (MOVWconst [0]) _ ))   result: (MOVWconst [0]) *)
    multuConst f v_0 (λ v_0_0 v_0_1,
      if negb (hasOp v_0_0 OpMIPSMOVWconst) || negb (bool_decide (v_AuxInt v_0_0 = 0))
      then nomatch else
      f ← reset f vid OpMIPSMOVWconst;
      f ← setAuxInt f vid 0;
      fired f)
    <||>
    (* match: (Select0 (MULTU (MOVWconst [1]) _ ))   result: (MOVWconst [0]) *)
    multuConst f v_0 (λ v_0_0 v_0_1,
      if negb (hasOp v_0_0 OpMIPSMOVWconst) || negb (bool_decide (v_AuxInt v_0_0 = 1))
      then nomatch else
      f ← reset f vid OpMIPSMOVWconst;
      f ← setAuxInt f vid 0;
      fired f)
    <||>
    (* match: (Select0 (MULTU (MOVWconst [-1]) x ))
       result: (CMOVZ (ADDconst <x.Type> [-1] x) (MOVWconst [0]) x) *)
    multuConst f v_0 (λ v_0_0 v_0_1,
      if negb (hasOp v_0_0 OpMIPSMOVWconst) || negb (bool_decide (v_AuxInt v_0_0 = -1))
      then nomatch else
      let x := v_0_1 in
      f ← reset f vid OpMIPSCMOVZ;
      '(v0, f) ← NewValue0 f b OpMIPSADDconst (v_Type x);
      f ← setAuxInt f v0 (-1);
      f ← AddArg f v0 (v_ID x);
      f ← AddArg f vid v0;
      '(v1, f) ← NewValue0 f b OpMIPSMOVWconst (TypeInt 4 false);
      f ← setAuxInt f v1 0;
      f ← AddArg f vid v1;
      f ← AddArg f vid (v_ID x);
      fired f)
    <||>
    (* match: (Select0 (MULTU (MOVWconst [c]) x ))
       cond: isPowerOfTwo(int64(uint32(c)))
       result: (SRLconst [32-log2(int64(uint32(c)))] x) *)
    multuConst f v_0 (λ v_0_0 v_0_1,
      if negb (hasOp v_0_0 OpMIPSMOVWconst) then nomatch else
      let c := v_AuxInt v_0_0 in
      let x := v_0_1 in
      if negb (isPowerOfTwo (uint32 c)) then nomatch else
      f ← reset f vid OpMIPSSRLconst;
      f ← setAuxInt f vid (int64 (32 - log2 (uint32 c)));
      f ← AddArg f vid (v_ID x);
      fired f)
    <||>
    (* match: (Select0 (MULTU (MOVWconst [c]) (MOVWconst [d])))
       result: (MOVWconst [(c*d)>>32]) *)
    multuConst f v_0 (λ v_0_0 v_0_1,
      if negb (hasOp v_0_0 OpMIPSMOVWconst) then nomatch else
      let c := v_AuxInt v_0_0 in
      if negb (hasOp v_0_1 OpMIPSMOVWconst) then nomatch else
      let d := v_AuxInt v_0_1 in
      f ← reset f vid OpMIPSMOVWconst;
      f ← setAuxInt f vid (Z.shiftr (int64 (c * d)) 32);
      fired f)
    <||>
    (* match: (Select0 (DIV (MOVWconst [c]) (MOVWconst [d])))
       result: (MOVWconst [int64(int32(c)%int32(d))]) *)
    (if negb (hasOp v_0 OpMIPSDIV) then nomatch else
     _ ← arg v_0 1;
     v_0_0 ← argv f v_0 0;
     if negb (hasOp v_0_0 OpMIPSMOVWconst) then nomatch else
     let c := v_AuxInt v_0_0 in
     v_0_1 ← argv f v_0 1;
     if negb (hasOp v_0_1 OpMIPSMOVWconst) then nomatch else
     let d := v_AuxInt v_0_1 in
     f ← reset f vid OpMIPSMOVWconst;
     r ← mod32 (int32 c) (int32 d);
     f ← setAuxInt f vid r;
     fired f)
    <||>
    (* match: (Select0 (DIVU (MOVWconst [c]) (MOVWconst [d])))
       result: (MOVWconst [int64(int32(uint32(c)%uint32(d)))]) *)
    (if negb (hasOp v_0 OpMIPSDIVU) then nomatch else
     _ ← arg v_0 1;
     v_0_0 ← argv f v_0 0;
     if negb (hasOp v_0_0 OpMIPSMOVWconst) then nomatch else
     let c := v_AuxInt v_0_0 in
     v_0_1 ← argv f v_0 1;
     if negb (hasOp v_0_1 OpMIPSMOVWconst) then nomatch else
     let d := v_AuxInt v_0_1 in
     f ← reset f vid OpMIPSMOVWconst;
     r ← modu32 (uint32 c) (uint32 d);
     f ← setAuxInt f vid (int32 r);
     fired f)).

Definition rewriteValueMIPS_OpSelect1 (f : Func) (vid : ID) : result (Func * bool) :=
  v ← deref f vid;
  v_0 ← argv f v 0;
  let b := v_Block v in
  finish f (
    (* match: (Select1 (Add32carry <t> x y))
       result: (SGTU <typ.Bool> x (ADD <t.FieldType(0)> x y)) *)
    (if negb (hasOp v_0 OpAdd32carry) then nomatch else
     let t := v_Type v_0 in
     y ← arg v_0 1;
     x ← arg v_0 0;
     f ← reset f vid OpMIPSSGTU;
     f ← setType f vid TypeBool;
     f ← AddArg f vid x;
     '(v0, f) ← NewValue0 f b OpMIPSADD (FieldType t 0);
     f ← AddArg f v0 x;
     f ← AddArg f v0 y;
     f ← AddArg f vid v0;
     fired f)
    <||>
    (* match: (Select1 (Sub32carry <t> x y))
       result: (SGTU <typ.Bool> (SUB <t.FieldType(0)> x y) x) *)
    (if negb (hasOp v_0 OpSub32carry) then nomatch else
     let t := v_Type v_0 in
     y ← arg v_0 1;
     x ← arg v_0 0;
     f ← reset f vid OpMIPSSGTU;
     f ← setType f vid TypeBool;
     '(v0, f) ← NewValue0 f b OpMIPSSUB (FieldType t 0);
     f ← AddArg f v0 x;
     f ← AddArg f v0 y;
     f ← AddArg f vid v0;
     f ← AddArg f vid x;
     fired f)
    <||>
    (* match: (Select1 (MULTU (MOVWconst [0]) _ ))   result: (MOVWconst [0]) *)
    multuConst f v_0 (λ v_0_0 v_0_1,
      if negb (hasOp v_0_0 OpMIPSMOVWconst) || negb (bool_decide (v_AuxInt v_0_0 = 0))
      then nomatch else
      f ← reset f vid OpMIPSMOVWconst;
      f ← setAuxInt f vid 0;
      fired f)
    <||>
    (* match: (Select1 (MULTU (MOVWconst [1]) x ))   result: x *)
    multuConst f v_0 (λ v_0_0 v_0_1,
      if negb (hasOp v_0_0 OpMIPSMOVWconst) || negb (bool_decide (v_AuxInt v_0_0 = 1))
      then nomatch else
      let x := v_0_1 in
      f ← reset f vid OpCopy;
      f ← setType f vid (v_Type x);
      f ← AddArg f vid (v_ID x);
      fired f)
    <||>
    (* match: (Select1 (MULTU (MOVWconst [-1]) x ))   result: (NEG <x.Type> x) *)
    multuConst f v_0 (λ v_0_0 v_0_1,
      if negb (hasOp v_0_0 OpMIPSMOVWconst) || negb (bool_decide (v_AuxInt v_0_0 = -1))
      then nomatch else
      let x := v_0_1 in
      f ← reset f vid OpMIPSNEG;
      f ← setType f vid (v_Type x);
      f ← AddArg f vid (v_ID x);
      fired f)
    <||>
    (* match: (Select1 (MULTU (MOVWconst [c]) x ))
       cond: isPowerOfTwo(int64(uint32(c)))
       result: (SLLconst [log2(int64(uint32(c)))] x) *)
    multuConst f v_0 (λ v_0_0 v_0_1,
      if negb (hasOp v_0_0 OpMIPSMOVWconst) then nomatch else
      let c := v_AuxInt v_0_0 in
      let x := v_0_1 in
      if negb (isPowerOfTwo (uint32 c)) then nomatch else
      f ← reset f vid OpMIPSSLLconst;
      f ← setAuxInt f vid (log2 (uint32 c));
      f ← AddArg f vid (v_ID x);
      fired f)
    <||>
    (* match: (Select1 (MULTU (MOVWconst [c]) (MOVWconst [d])))
       result: (MOVWconst [int64(int32(uint32(c)*uint32(d)))]) *)
    multuConst f v_0 (λ v_0_0 v_0_1,
      if negb (hasOp v_0_0 OpMIPSMOVWconst) then nomatch else
      let c := v_AuxInt v_0_0 in
      if negb (hasOp v_0_1 OpMIPSMOVWconst) then nomatch else
      let d := v_AuxInt v_0_1 in
      f ← reset f vid OpMIPSMOVWconst;
      f ← setAuxInt f vid (int32 (uint32 (uint32 c * uint32 d)));
      fired f)
    <||>
    (* match: (Select1 (DIV (MOVWconst [c]) (MOVWconst [d])))
       result: (MOVWconst [int64(int32(c)/int32(d))]) *)
    (if negb (hasOp v_0 OpMIPSDIV) then nomatch else
     _ ← arg v_0 1;
     v_0_0 ← argv f v_0 0;
     if negb (hasOp v_0_0 OpMIPSMOVWconst) then nomatch else
     let c := v_AuxInt v_0_0 in
     v_0_1 ← argv f v_0 1;
     if negb (hasOp v_0_1 OpMIPSMOVWconst) then nomatch else
     let d := v_AuxInt v_0_1 in
     f ← reset f vid OpMIPSMOVWconst;
     q ← div32 (int32 c) (int32 d);
     f ← setAuxInt f vid q;
     fired f)
    <||>
    (* match: (Select1 (DIVU (MOVWconst [c]) (MOVWconst [d])))
       result: (MOVWconst [int64(int32(uint32(c)/uint32(d)))]) *)
    (if negb (hasOp v_0 OpMIPSDIVU) then nomatch else
     _ ← arg v_0 1;
     v_0_0 ← argv f v_0 0;
     if negb (hasOp v_0_0 OpMIPSMOVWconst) then nomatch else
     let c := v_AuxInt v_0_0 in
     v_0_1 ← argv f v_0 1;
     if negb (hasOp v_0_1 OpMIPSMOVWconst) then nomatch else
     let d := v_AuxInt v_0_1 in
     f ← reset f vid OpMIPSMOVWconst;
     q ← divu32 (uint32 c) (uint32 d);
     f ← setAuxInt f vid (int32 q);
     fired f)).

(** ** Rule functions of the immediate forms *)

(** [uint32(d) << uint32(c)] and [uint32(d) >> uint32(c)]: a count of 32
    or more gives 0. *)
Definition shl32 (d c : Z) : Z :=
  if bool_decide (uint32 c < 32) then uint32 (Z.shiftl (uint32 d) (uint32 c))
  else 0.
Definition shr32 (d c : Z) : Z :=
  if bool_decide (uint32 c < 32) then Z.shiftr (uint32 d) (uint32 c) else 0.

Definition rewriteValueMIPS_OpMIPSANDconst (f : Func) (vid : ID) : result (Func * bool) :=
  v ← deref f vid;
  v_0 ← argv f v 0;
  finish f (
    (* match: (ANDconst [0] _)   result: (MOVWconst [0]) *)
    (if negb (bool_decide (v_AuxInt v = 0)) then nomatch else
     f ← reset f vid OpMIPSMOVWconst;
     f ← setAuxInt f vid 0;
     fired f)
    <||>
    (* match: (ANDconst [-1] x)   result: x *)
    (if negb (bool_decide (v_AuxInt v = -1)) then nomatch else
     let x := v_0 in
     f ← reset f vid OpCopy;
     f ← setType f vid (v_Type x);
     f ← AddArg f vid (v_ID x);
     fired f)
    <||>
    (* match: (ANDconst [c] (MOVWconst [d]))   result: (MOVWconst [c&d]) *)
    (let c := v_AuxInt v in
     if negb (hasOp v_0 OpMIPSMOVWconst) then nomatch else
     let d := v_AuxInt v_0 in
     f ← reset f vid OpMIPSMOVWconst;
     f ← setAuxInt f vid (Z.land c d);
     fired f)
    <||>
    (* match: (ANDconst [c] (ANDconst [d] x))   result: (ANDconst [c&d] x) *)
    (let c := v_AuxInt v in
     if negb (hasOp v_0 OpMIPSANDconst) then nomatch else
     let d := v_AuxInt v_0 in
     x ← arg v_0 0;
     f ← reset f vid OpMIPSANDconst;
     f ← setAuxInt f vid (Z.land c d);
     f ← AddArg f vid x;
     fired f)).

Definition rewriteValueMIPS_OpMIPSORconst (f : Func) (vid : ID) : result (Func * bool) :=
  v ← deref f vid;
  v_0 ← argv f v 0;
  finish f (
    (* match: (ORconst [0] x)   result: x *)
    (if negb (bool_decide (v_AuxInt v = 0)) then nomatch else
     let x := v_0 in
     f ← reset f vid OpCopy;
     f ← setType f vid (v_Type x);
     f ← AddArg f vid (v_ID x);
     fired f)
    <||>
    (* match: (ORconst [-1] _)   result: (MOVWconst [-1]) *)
    (if negb (bool_decide (v_AuxInt v = -1)) then nomatch else
     f ← reset f vid OpMIPSMOVWconst;
     f ← setAuxInt f vid (-1);
     fired f)
    <||>
    (* match: (ORconst [c] (MOVWconst [d]))   result: (MOVWconst [c|d]) *)
    (let c := v_AuxInt v in
     if negb (hasOp v_0 OpMIPSMOVWconst) then nomatch else
     let d := v_AuxInt v_0 in
     f ← reset f vid OpMIPSMOVWconst;
     f ← setAuxInt f vid (Z.lor c d);
     fired f)
    <||>
    (* match: (ORconst [c] (ORconst [d] x))   result: (ORconst [c|d] x) *)
    (let c := v_AuxInt v in
     if negb (hasOp v_0 OpMIPSORconst) then nomatch else
     let d := v_AuxInt v_0 in
     x ← arg v_0 0;
     f ← reset f vid OpMIPSORconst;
     f ← setAuxInt f vid (Z.lor c d);
     f ← AddArg f vid x;
     fired f)).

Definition rewriteValueMIPS_OpMIPSXORconst (f : Func) (vid : ID) : result (Func * bool) :=
  v ← deref f vid;
  v_0 ← argv f v 0;
  finish f (
    (* match: (XORconst [0] x)   result: x *)
    (if negb (bool_decide (v_AuxInt v = 0)) then nomatch else
     let x := v_0 in
     f ← reset f vid OpCopy;
     f ← setType f vid (v_Type x);
     f ← AddArg f vid (v_ID x);
     fired f)
    <||>
    (* match: (XORconst [-1] x)   result: (NORconst [0] x) *)
    (if negb (bool_decide (v_AuxInt v = -1)) then nomatch else
     let x := v_0 in
     f ← reset f vid OpMIPSNORconst;
     f ← setAuxInt f vid 0;
     f ← AddArg f vid (v_ID x);
     fired f)
    <||>
    (* match: (XORconst [c] (MOVWconst [d]))   result: (MOVWconst [c^d]) *)
    (let c := v_AuxInt v in
     if negb (hasOp v_0 OpMIPSMOVWconst) then nomatch else
     let d := v_AuxInt v_0 in
     f ← reset f vid OpMIPSMOVWconst;
     f ← setAuxInt f vid (Z.lxor c d);
     fired f)
    <||>
    (* match: (XORconst [c] (XORconst [d] x))   result: (XORconst [c^d] x) *)
    (let c := v_AuxInt v in
     if negb (hasOp v_0 OpMIPSXORconst) then nomatch else
     let d := v_AuxInt v_0 in
     x ← arg v_0 0;
     f ← reset f vid OpMIPSXORconst;
     f ← setAuxInt f vid (Z.lxor c d);
     f ← AddArg f vid x;
     fired f)).

Definition rewriteValueMIPS_OpMIPSNORconst (f : Func) (vid : ID) : result (Func * bool) :=
  v ← deref f vid;
  v_0 ← argv f v 0;
  finish f (
    (* match: (NORconst [c] (MOVWconst [d]))   result: (MOVWconst [^(c|d)]) *)
    (let c := v_AuxInt v in
     if negb (hasOp v_0 OpMIPSMOVWconst) then nomatch else
     let d := v_AuxInt v_0 in
     f ← reset f vid OpMIPSMOVWconst;
     f ← setAuxInt f vid (Z.lnot (Z.lor c d));
     fired f)).

Definition rewriteValueMIPS_OpMIPSNEG (f : Func) (vid : ID) : result (Func * bool) :=
  v ← deref f vid;
  v_0 ← argv f v 0;
  finish f (
    (* match: (NEG (MOVWconst [c]))   result: (MOVWconst [int64(int32(-c))]) *)
    (if negb (hasOp v_0 OpMIPSMOVWconst) then nomatch else
     let c := v_AuxInt v_0 in
     f ← reset f vid OpMIPSMOVWconst;
     f ← setAuxInt f vid (int32 (int64 (- c)));
     fired f)).

Definition rewriteValueMIPS_OpMIPSSLLconst (f : Func) (vid : ID) : result (Func * bool) :=
  v ← deref f vid;
  v_0 ← argv f v 0;
  finish f (
    (* match: (SLLconst [c] (MOVWconst [d]))
       result: (MOVWconst [int64(int32(uint32(d)<<uint32(c)))]) *)
    (let c := v_AuxInt v in
     if negb (hasOp v_0 OpMIPSMOVWconst) then nomatch else
     let d := v_AuxInt v_0 in
     f ← reset f vid OpMIPSMOVWconst;
     f ← setAuxInt f vid (int32 (shl32 d c));
     fired f)).

Definition rewriteValueMIPS_OpMIPSSRLconst (f : Func) (vid : ID) : result (Func * bool) :=
  v ← deref f vid;
  v_0 ← argv f v 0;
  finish f (
    (* match: (SRLconst [c] (MOVWconst [d]))
       result: (MOVWconst [int64(uint32(d)>>uint32(c))]) *)
    (let c := v_AuxInt v in
     if negb (hasOp v_0 OpMIPSMOVWconst) then nomatch else
     let d := v_AuxInt v_0 in
     f ← reset f vid OpMIPSMOVWconst;
     f ← setAuxInt f vid (shr32 d c);
     fired f)).

Definition rewriteValueMIPS_OpMIPSSGTzero (f : Func) (vid : ID) : result (Func * bool) :=
  v ← deref f vid;
  v_0 ← argv f v 0;
  finish f (
    (* match: (SGTzero (MOVWconst [d]))   cond: int32(d) > 0
       result: (MOVWconst [1]) *)
    (if negb (hasOp v_0 OpMIPSMOVWconst) then nomatch else
     let d := v_AuxInt v_0 in
     if negb (bool_decide (int32 d > 0)) then nomatch else
     f ← reset f vid OpMIPSMOVWconst;
     f ← setAuxInt f vid 1;
     fired f)
    <||>
    (* match: (SGTzero (MOVWconst [d]))   cond: int32(d) <= 0
       result: (MOVWconst [0]) *)
    (if negb (hasOp v_0 OpMIPSMOVWconst) then nomatch else
     let d := v_AuxInt v_0 in
     if negb (bool_decide (int32 d <= 0)) then nomatch else
     f ← reset f vid OpMIPSMOVWconst;
     f ← setAuxInt f vid 0;
     fired f)).

Definition rewriteValueMIPS_OpMIPSSGTUzero (f : Func) (vid : ID) : result (Func * bool) :=
  v ← deref f vid;
  v_0 ← argv f v 0;
  finish f (
    (* match: (SGTUzero (MOVWconst [d]))   cond: uint32(d) != 0
       result: (MOVWconst [1]) *)
    (if negb (hasOp v_0 OpMIPSMOVWconst) then nomatch else
     let d := v_AuxInt v_0 in
     if negb (bool_decide (uint32 d ≠ 0)) then nomatch else
     f ← reset f vid OpMIPSMOVWconst;
     f ← setAuxInt f vid 1;
     fired f)
    <||>
    (* match: (SGTUzero (MOVWconst [d]))   cond: uint32(d) == 0
       result: (MOVWconst [0]) *)
    (if negb (hasOp v_0 OpMIPSMOVWconst) then nomatch else
     let d := v_AuxInt v_0 in
     if negb (bool_decide (uint32 d = 0)) then nomatch else
     f ← reset f vid OpMIPSMOVWconst;
     f ← setAuxInt f vid 0;
     fired f)).

Definition rewriteValueMIPS_OpMIPSSGT (f : Func) (vid : ID) : result (Func * bool) :=
  v ← deref f vid;
  v_1 ← argv f v 1;
  v_0 ← argv f v 0;
  finish f (
    (* match: (SGT (MOVWconst [c]) x)   result: (SGTconst [c] x) *)
    (if negb (hasOp v_0 OpMIPSMOVWconst) then nomatch else
     let c := v_AuxInt v_0 in
     let x := v_1 in
     f ← reset f vid OpMIPSSGTconst;
     f ← setAuxInt f vid c;
     f ← AddArg f vid (v_ID x);
     fired f)
    <||>
    (* match: (SGT x (MOVWconst [0]))   result: (SGTzero x) *)
    (let x := v_0 in
     if negb (hasOp v_1 OpMIPSMOVWconst) || negb (bool_decide (v_AuxInt v_1 = 0))
     then nomatch else
     f ← reset f vid OpMIPSSGTzero;
     f ← AddArg f vid (v_ID x);
     fired f)).

Definition rewriteValueMIPS_OpMIPSSGTU (f : Func) (vid : ID) : result (Func * bool) :=
  v ← deref f vid;
  v_1 ← argv f v 1;
  v_0 ← argv f v 0;
  finish f (
    (* match: (SGTU (MOVWconst [c]) x)   result: (SGTUconst [c] x) *)
    (if negb (hasOp v_0 OpMIPSMOVWconst) then nomatch else
     let c := v_AuxInt v_0 in
     let x := v_1 in
     f ← reset f vid OpMIPSSGTUconst;
     f ← setAuxInt f vid c;
     f ← AddArg f vid (v_ID x);
     fired f)
    <||>
    (* match: (SGTU x (MOVWconst [0]))   result: (SGTUzero x) *)
    (let x := v_0 in
     if negb (hasOp v_1 OpMIPSMOVWconst) || negb (bool_decide (v_AuxInt v_1 = 0))
     then nomatch else
     f ← reset f vid OpMIPSSGTUzero;
     f ← AddArg f vid (v_ID x);
     fired f)).

Definition rewriteValueMIPS_OpMIPSMUL (f : Func) (vid : ID) : result (Func * bool) :=
  v ← deref f vid;
  v_1 ← argv f v 1;
  v_0 ← argv f v 0;
  finish f (
    (* match: (MUL (MOVWconst [0]) _ )   result: (MOVWconst [0]) *)
    commute (λ v_0 v_1,
      if negb (hasOp v_0 OpMIPSMOVWconst) || negb (bool_decide (v_AuxInt v_0 = 0))
      then nomatch else
      f ← reset f vid OpMIPSMOVWconst;
      f ← setAuxInt f vid 0;
      fired f) v_0 v_1
    <||>
    (* match: (MUL (MOVWconst [1]) x )   result: x *)
    commute (λ v_0 v_1,
      if negb (hasOp v_0 OpMIPSMOVWconst) || negb (bool_decide (v_AuxInt v_0 = 1))
      then nomatch else
      let x := v_1 in
      f ← reset f vid OpCopy;
      f ← setType f vid (v_Type x);
      f ← AddArg f vid (v_ID x);
      fired f) v_0 v_1
    <||>
    (* match: (MUL (MOVWconst [-1]) x )   result: (NEG x) *)
    commute (λ v_0 v_1,
      if negb (hasOp v_0 OpMIPSMOVWconst) || negb (bool_decide (v_AuxInt v_0 = -1))
      then nomatch else
      let x := v_1 in
      f ← reset f vid OpMIPSNEG;
      f ← AddArg f vid (v_ID x);
      fired f) v_0 v_1
    <||>
    (* match: (MUL (MOVWconst [c]) x )
       cond: isPowerOfTwo(int64(uint32(c)))
       result: (SLLconst [log2(int64(uint32(c)))] x) *)
    commute (λ v_0 v_1,
      if negb (hasOp v_0 OpMIPSMOVWconst) then nomatch else
      let c := v_AuxInt v_0 in
      let x := v_1 in
      if negb (isPowerOfTwo (uint32 c)) then nomatch else
      f ← reset f vid OpMIPSSLLconst;
      f ← setAuxInt f vid (log2 (uint32 c));
      f ← AddArg f vid (v_ID x);
      fired f) v_0 v_1
    <||>
    (* match: (MUL (MOVWconst [c]) (MOVWconst [d]))
       result: (MOVWconst [int64(int32(c)*int32(d))]) *)
    commute (λ v_0 v_1,
      if negb (hasOp v_0 OpMIPSMOVWconst) then nomatch else
      let c := v_AuxInt v_0 in
      if negb (hasOp v_1 OpMIPSMOVWconst) then nomatch else
      let d := v_AuxInt v_1 in
      f ← reset f vid OpMIPSMOVWconst;
      f ← setAuxInt f vid (int32 (int32 c * int32 d));
      fired f) v_0 v_1).

(** ** Conditional moves *)

Definition rewriteValueMIPS_OpMIPSCMOVZ (f : Func) (vid : ID) : result (Func * bool) :=
  v ← deref f vid;
  v_2 ← argv f v 2;
  v_1 ← argv f v 1;
  v_0 ← argv f v 0;
  finish f (
    (* match: (CMOVZ _ f (MOVWconst [0]))   result: f
       (the operand that the source calls f is fv here) *)
    (let fv := v_1 in
     if negb (hasOp v_2 OpMIPSMOVWconst) || negb (bool_decide (v_AuxInt v_2 = 0))
     then nomatch else
     f ← reset f vid OpCopy;
     f ← setType f vid (v_Type fv);
     f ← AddArg f vid (v_ID fv);
     fired f)
    <||>
    (* match: (CMOVZ a _ (MOVWconst [c]))   cond: c!=0   result: a *)
    (let a := v_0 in
     if negb (hasOp v_2 OpMIPSMOVWconst) then nomatch else
     let c := v_AuxInt v_2 in
     if negb (bool_decide (c ≠ 0)) then nomatch else
     f ← reset f vid OpCopy;
     f ← setType f vid (v_Type a);
     f ← AddArg f vid (v_ID a);
     fired f)
    <||>
    (* match: (CMOVZ a (MOVWconst [0]) c)   result: (CMOVZzero a c) *)
    (let a := v_0 in
     if negb (hasOp v_1 OpMIPSMOVWconst) || negb (bool_decide (v_AuxInt v_1 = 0))
     then nomatch else
     let c := v_2 in
     f ← reset f vid OpMIPSCMOVZzero;
     f ← AddArg f vid (v_ID a);
     f ← AddArg f vid (v_ID c);
     fired f)).

Definition rewriteValueMIPS_OpMIPSCMOVZzero (f : Func) (vid : ID) : result (Func * bool) :=
  v ← deref f vid;
  v_1 ← argv f v 1;
  v_0 ← argv f v 0;
  finish f (
    (* match: (CMOVZzero _ (MOVWconst [0]))   result: (MOVWconst [0]) *)
    (if negb (hasOp v_1 OpMIPSMOVWconst) || negb (bool_decide (v_AuxInt v_1 = 0))
     then nomatch else
     f ← reset f vid OpMIPSMOVWconst;
     f ← setAuxInt f vid 0;
     fired f)
    <||>
    (* match: (CMOVZzero a (MOVWconst [c]))   cond: c!=0   result: a *)
    (let a := v_0 in
     if negb (hasOp v_1 OpMIPSMOVWconst) then nomatch else
     let c := v_AuxInt v_1 in
     if negb (bool_decide (c ≠ 0)) then nomatch else
     f ← reset f vid OpCopy;
     f ← setType f vid (v_Type a);
     f ← AddArg f vid (v_ID a);
     fired f)).

(** ** Comparisons with an immediate *)

(** [0xffffffff>>uint32(d)], a [uint32] shift. *)
Definition ones32 (d : Z) : Z := Z.shiftr 4294967295 (uint32 d).

(** [(op [c] (MOVWconst [d]))] with the rule's condition on [c] and [d],
    and [(op [c] (inner ..))] with a condition on [c] and on the
    immediate of the operand: both leave [(MOVWconst [r])]. *)
Definition decided (f : Func) (vid : ID) (v v_0 : Value) (inner : Op)
    (cond : Z → Z → bool) (r : Z) : rule :=
  let c := v_AuxInt v in
  if negb (hasOp v_0 inner) then nomatch else
  let d := v_AuxInt v_0 in
  if negb (cond c d) then nomatch else
  f ← reset f vid OpMIPSMOVWconst;
  f ← setAuxInt f vid r;
  fired f.

Definition rewriteValueMIPS_OpMIPSSGTUconst (f : Func) (vid : ID) : result (Func * bool) :=
  v ← deref f vid;
  v_0 ← argv f v 0;
  finish f (
    (* match: (SGTUconst [c] (MOVWconst [d]))   cond: uint32(c)>uint32(d)
       result: (MOVWconst [1]) *)
    decided f vid v v_0 OpMIPSMOVWconst
      (λ c d, bool_decide (uint32 c > uint32 d)) 1
    <||>
    (* match: (SGTUconst [c] (MOVWconst [d]))   cond: uint32(c)<=uint32(d)
       result: (MOVWconst [0]) *)
    decided f vid v v_0 OpMIPSMOVWconst
      (λ c d, bool_decide (uint32 c <= uint32 d)) 0
    <||>
    (* match: (SGTUconst [c] (MOVBUreg _))   cond: 0xff < uint32(c)
       result: (MOVWconst [1]) *)
    decided f vid v v_0 OpMIPSMOVBUreg
      (λ c _, bool_decide (255 < uint32 c)) 1
    <||>
    (* match: (SGTUconst [c] (MOVHUreg _))   cond: 0xffff < uint32(c)
       result: (MOVWconst [1]) *)
    decided f vid v v_0 OpMIPSMOVHUreg
      (λ c _, bool_decide (65535 < uint32 c)) 1
    <||>
    (* match: (SGTUconst [c] (ANDconst [m] _))   cond: uint32(m) < uint32(c)
       result: (MOVWconst [1]) *)
    decided f vid v v_0 OpMIPSANDconst
      (λ c m, bool_decide (uint32 m < uint32 c)) 1
    <||>
    (* match: (SGTUconst [c] (SRLconst _ [d]))
       cond: uint32(d) <= 31 && 0xffffffff>>uint32(d) < uint32(c)
       result: (MOVWconst [1]) *)
    decided f vid v v_0 OpMIPSSRLconst
      (λ c d, bool_decide (uint32 d <= 31)
              && bool_decide (ones32 d < uint32 c)) 1).

Definition rewriteValueMIPS_OpMIPSSGTconst (f : Func) (vid : ID) : result (Func * bool) :=
  v ← deref f vid;
  v_0 ← argv f v 0;
  finish f (
    (* match: (SGTconst [c] (MOVWconst [d]))   cond: int32(c) > int32(d)
       result: (MOVWconst [1]) *)
    decided f vid v v_0 OpMIPSMOVWconst
      (λ c d, bool_decide (int32 c > int32 d)) 1
    <||>
    (* match: (SGTconst [c] (MOVWconst [d]))   cond: int32(c) <= int32(d)
       result: (MOVWconst [0]) *)
    decided f vid v v_0 OpMIPSMOVWconst
      (λ c d, bool_decide (int32 c <= int32 d)) 0
    <||>
    (* match: (SGTconst [c] (MOVBreg _))   cond: 0x7f < int32(c)
       result: (MOVWconst [1]) *)
    decided f vid v v_0 OpMIPSMOVBreg
      (λ c _, bool_decide (127 < int32 c)) 1
    <||>
    (* match: (SGTconst [c] (MOVBreg _))   cond: int32(c) <= -0x80
       result: (MOVWconst [0]) *)
    decided f vid v v_0 OpMIPSMOVBreg
      (λ c _, bool_decide (int32 c <= -128)) 0
    <||>
    (* match: (SGTconst [c] (MOVBUreg _))   cond: 0xff < int32(c)
       result: (MOVWconst [1]) *)
    decided f vid v v_0 OpMIPSMOVBUreg
      (λ c _, bool_decide (255 < int32 c)) 1
    <||>
    (* match: (SGTconst [c] (MOVBUreg _))   cond: int32(c) < 0
       result: (MOVWconst [0]) *)
    decided f vid v v_0 OpMIPSMOVBUreg
      (λ c _, bool_decide (int32 c < 0)) 0
    <||>
    (* match: (SGTconst [c] (MOVHreg _))   cond: 0x7fff < int32(c)
       result: (MOVWconst [1]) *)
    decided f vid v v_0 OpMIPSMOVHreg
      (λ c _, bool_decide (32767 < int32 c)) 1
    <||>
    (* match: (SGTconst [c] (MOVHreg _))   cond: int32(c) <= -0x8000
       result: (MOVWconst [0]) *)
    decided f vid v v_0 OpMIPSMOVHreg
      (λ c _, bool_decide (int32 c <= -32768)) 0
    <||>
    (* match: (SGTconst [c] (MOVHUreg _))   cond: 0xffff < int32(c)
       result: (MOVWconst [1]) *)
    decided f vid v v_0 OpMIPSMOVHUreg
      (λ c _, bool_decide (65535 < int32 c)) 1
    <||>
    (* match: (SGTconst [c] (MOVHUreg _))   cond: int32(c) < 0
       result: (MOVWconst [0]) *)
    decided f vid v v_0 OpMIPSMOVHUreg
      (λ c _, bool_decide (int32 c < 0)) 0
    <||>
    (* match: (SGTconst [c] (ANDconst [m] _))
       cond: 0 <= int32(m) && int32(m) < int32(c)
       result: (MOVWconst [1]) *)
    decided f vid v v_0 OpMIPSANDconst
      (λ c m, bool_decide (0 <= int32 m) && bool_decide (int32 m < int32 c)) 1
    <||>
    (* match: (SGTconst [c] (SRLconst _ [d]))
       cond: 0 <= int32(c) && uint32(d) <= 31 && 0xffffffff>>uint32(d) < uint32(c)
       result: (MOVWconst [1]) *)
    decided f vid v v_0 OpMIPSSRLconst
      (λ c d, bool_decide (0 <= int32 c) && bool_decide (uint32 d <= 31)
              && bool_decide (ones32 d < uint32 c)) 1).

(** ** Loads, stores and extensions *)

(** The first two rules of every load and of every store of zero, for
    the op itself:
<<
  (op [off1] {sym} x:(ADDconst [off2] ptr) mem)
     && (is16Bit(off1+off2) || x.Uses == 1) => (op [off1+off2] {sym} ptr mem)
  (op [off1] {sym1} (MOVWaddr [off2] {sym2} ptr) mem)
     && canMergeSym(sym1,sym2) => (op [off1+off2] {mergeSym(sym1,sym2)} ptr mem)
>> *)
Definition addr_ADDconst (op : Op) (f : Func) (vid : ID) (v v_0 v_1 : Value)
  : rule :=
  let off1 := v_AuxInt v in
  let sym := v_Aux v in
  let x := v_0 in
  if negb (hasOp x OpMIPSADDconst) then nomatch else
  let off2 := v_AuxInt x in
  ptr ← arg x 0;
  let mem := v_1 in
  if negb (is16Bit (int64 (off1 + off2)) || bool_decide (v_Uses x = 1))
  then nomatch else
  f ← reset f vid op;
  f ← setAuxInt f vid (int64 (off1 + off2));
  f ← setAux f vid sym;
  f ← AddArg f vid ptr;
  f ← AddArg f vid (v_ID mem);
  fired f.

Definition addr_MOVWaddr (op : Op) (f : Func) (vid : ID) (v v_0 v_1 : Value)
  : rule :=
  let off1 := v_AuxInt v in
  let sym1 := v_Aux v in
  if negb (hasOp v_0 OpMIPSMOVWaddr) then nomatch else
  let off2 := v_AuxInt v_0 in
  let sym2 := v_Aux v_0 in
  ptr ← arg v_0 0;
  let mem := v_1 in
  if negb (canMergeSym sym1 sym2) then nomatch else
  f ← reset f vid op;
  f ← setAuxInt f vid (int64 (off1 + off2));
  f ← setAux f vid (mergeSym sym1 sym2);
  f ← AddArg f vid ptr;
  f ← AddArg f vid (v_ID mem);
  fired f.

(** The third rule of the narrow loads:
<<
  (load [off] {sym} ptr (store [off2] {sym2} ptr2 x _))
     && sym == sym2 && off == off2 && isSamePtr(ptr, ptr2) => (ext x)
>> *)
Definition load_store (store ext : Op) (f : Func) (vid : ID)
    (v v_0 v_1 : Value) : rule :=
  let off := v_AuxInt v in
  let sym := v_Aux v in
  let ptr := v_0 in
  if negb (hasOp v_1 store) then nomatch else
  let off2 := v_AuxInt v_1 in
  let sym2 := v_Aux v_1 in
  _ ← arg v_1 2;
  ptr2 ← arg v_1 0;
  x ← arg v_1 1;
  if negb (bool_decide (sym = sym2) && bool_decide (off = off2)
           && isSamePtr f (v_ID ptr) ptr2)
  then nomatch else
  f ← reset f vid ext;
  f ← AddArg f vid x;
  fired f.

Definition narrowLoad (op store ext : Op) (f : Func) (vid : ID)
  : result (Func * bool) :=
  v ← deref f vid;
  v_1 ← argv f v 1;
  v_0 ← argv f v 0;
  finish f (addr_ADDconst op f vid v v_0 v_1
            <||> addr_MOVWaddr op f vid v v_0 v_1
            <||> load_store store ext f vid v v_0 v_1).

Definition rewriteValueMIPS_OpMIPSMOVBUload :=
  narrowLoad OpMIPSMOVBUload OpMIPSMOVBstore OpMIPSMOVBUreg.
Definition rewriteValueMIPS_OpMIPSMOVBload :=
  narrowLoad OpMIPSMOVBload OpMIPSMOVBstore OpMIPSMOVBreg.
Definition rewriteValueMIPS_OpMIPSMOVHUload :=
  narrowLoad OpMIPSMOVHUload OpMIPSMOVHstore OpMIPSMOVHUreg.
Definition rewriteValueMIPS_OpMIPSMOVHload :=
  narrowLoad OpMIPSMOVHload OpMIPSMOVHstore OpMIPSMOVHreg.

(** The stores of zero have the two address rules only. *)
Definition storeZero (op : Op) (f : Func) (vid : ID) : result (Func * bool) :=
  v ← deref f vid;
  v_1 ← argv f v 1;
  v_0 ← argv f v 0;
  finish f (addr_ADDconst op f vid v v_0 v_1
            <||> addr_MOVWaddr op f vid v v_0 v_1).

Definition rewriteValueMIPS_OpMIPSMOVBstorezero := storeZero OpMIPSMOVBstorezero.
Definition rewriteValueMIPS_OpMIPSMOVHstorezero := storeZero OpMIPSMOVHstorezero.
Definition rewriteValueMIPS_OpMIPSMOVWstorezero := storeZero OpMIPSMOVWstorezero.

(** The rules of the stores, for the op itself:
<<
  (op [off1] {sym} x:(ADDconst [off2] ptr) val mem)
     && (is16Bit(off1+off2) || x.Uses == 1) => (op [off1+off2] {sym} ptr val mem)
  (op [off1] {sym1} (MOVWaddr [off2] {sym2} ptr) val mem)
     && canMergeSym(sym1,sym2) => (op [off1+off2] {mergeSym(sym1,sym2)} ptr val mem)
  (op [off] {sym} ptr (MOVWconst [0]) mem) => (zero [off] {sym} ptr mem)
  (op [off] {sym} ptr (ext x) mem) => (op [off] {sym} ptr x mem)
>> *)
Definition store_ADDconst (op : Op) (f : Func) (vid : ID)
    (v v_0 v_1 v_2 : Value) : rule :=
  let off1 := v_AuxInt v in
  let sym := v_Aux v in
  let x := v_0 in
  if negb (hasOp x OpMIPSADDconst) then nomatch else
  let off2 := v_AuxInt x in
  ptr ← arg x 0;
  let val := v_1 in
  let mem := v_2 in
  if negb (is16Bit (int64 (off1 + off2)) || bool_decide (v_Uses x = 1))
  then nomatch else
  f ← reset f vid op;
  f ← setAuxInt f vid (int64 (off1 + off2));
  f ← setAux f vid sym;
  f ← AddArg f vid ptr;
  f ← AddArg f vid (v_ID val);
  f ← AddArg f vid (v_ID mem);
  fired f.

Definition store_MOVWaddr (op : Op) (f : Func) (vid : ID)
    (v v_0 v_1 v_2 : Value) : rule :=
  let off1 := v_AuxInt v in
  let sym1 := v_Aux v in
  if negb (hasOp v_0 OpMIPSMOVWaddr) then nomatch else
  let off2 := v_AuxInt v_0 in
  let sym2 := v_Aux v_0 in
  ptr ← arg v_0 0;
  let val := v_1 in
  let mem := v_2 in
  if negb (canMergeSym sym1 sym2) then nomatch else
  f ← reset f vid op;
  f ← setAuxInt f vid (int64 (off1 + off2));
  f ← setAux f vid (mergeSym sym1 sym2);
  f ← AddArg f vid ptr;
  f ← AddArg f vid (v_ID val);
  f ← AddArg f vid (v_ID mem);
  fired f.

Definition store_zero (zero : Op) (f : Func) (vid : ID)
    (v v_0 v_1 v_2 : Value) : rule :=
  let off := v_AuxInt v in
  let sym := v_Aux v in
  let ptr := v_0 in
  if negb (hasOp v_1 OpMIPSMOVWconst) || negb (bool_decide (v_AuxInt v_1 = 0))
  then nomatch else
  let mem := v_2 in
  f ← reset f vid zero;
  f ← setAuxInt f vid off;
  f ← setAux f vid sym;
  f ← AddArg f vid (v_ID ptr);
  f ← AddArg f vid (v_ID mem);
  fired f.

Definition store_ext (op ext : Op) (f : Func) (vid : ID)
    (v v_0 v_1 v_2 : Value) : rule :=
  let off := v_AuxInt v in
  let sym := v_Aux v in
  let ptr := v_0 in
  if negb (hasOp v_1 ext) then nomatch else
  x ← arg v_1 0;
  let mem := v_2 in
  f ← reset f vid op;
  f ← setAuxInt f vid off;
  f ← setAux f vid sym;
  f ← AddArg f vid (v_ID ptr);
  f ← AddArg f vid x;
  f ← AddArg f vid (v_ID mem);
  fired f.

Definition rewriteValueMIPS_OpMIPSMOVBstore (f : Func) (vid : ID) : result (Func * bool) :=
  v ← deref f vid;
  v_2 ← argv f v 2;
  v_1 ← argv f v 1;
  v_0 ← argv f v 0;
  finish f (store_ADDconst OpMIPSMOVBstore f vid v v_0 v_1 v_2
            <||> store_MOVWaddr OpMIPSMOVBstore f vid v v_0 v_1 v_2
            <||> store_zero OpMIPSMOVBstorezero f vid v v_0 v_1 v_2
            <||> store_ext OpMIPSMOVBstore OpMIPSMOVBreg f vid v v_0 v_1 v_2
            <||> store_ext OpMIPSMOVBstore OpMIPSMOVBUreg f vid v v_0 v_1 v_2
            <||> store_ext OpMIPSMOVBstore OpMIPSMOVHreg f vid v v_0 v_1 v_2
            <||> store_ext OpMIPSMOVBstore OpMIPSMOVHUreg f vid v v_0 v_1 v_2
            <||> store_ext OpMIPSMOVBstore OpMIPSMOVWreg f vid v v_0 v_1 v_2).

Definition rewriteValueMIPS_OpMIPSMOVHstore (f : Func) (vid : ID) : result (Func * bool) :=
  v ← deref f vid;
  v_2 ← argv f v 2;
  v_1 ← argv f v 1;
  v_0 ← argv f v 0;
  finish f (store_ADDconst OpMIPSMOVHstore f vid v v_0 v_1 v_2
            <||> store_MOVWaddr OpMIPSMOVHstore f vid v v_0 v_1 v_2
            <||> store_zero OpMIPSMOVHstorezero f vid v v_0 v_1 v_2
            <||> store_ext OpMIPSMOVHstore OpMIPSMOVHreg f vid v v_0 v_1 v_2
            <||> store_ext OpMIPSMOVHstore OpMIPSMOVHUreg f vid v v_0 v_1 v_2
            <||> store_ext OpMIPSMOVHstore OpMIPSMOVWreg f vid v v_0 v_1 v_2).

Definition rewriteValueMIPS_OpMIPSMOVWstore (f : Func) (vid : ID) : result (Func * bool) :=
  v ← deref f vid;
  v_2 ← argv f v 2;
  v_1 ← argv f v 1;
  v_0 ← argv f v 0;
  finish f (store_ADDconst OpMIPSMOVWstore f vid v v_0 v_1 v_2
            <||> store_MOVWaddr OpMIPSMOVWstore f vid v v_0 v_1 v_2
            <||> store_zero OpMIPSMOVWstorezero f vid v v_0 v_1 v_2
            <||> store_ext OpMIPSMOVWstore OpMIPSMOVWreg f vid v v_0 v_1 v_2).

(** The rules of the sign and zero extensions:
<<
  (ext x:(inner ..)) => (MOVWreg x)
  (ext <t> x:(load [off] {sym} ptr mem)) && x.Uses == 1 && clobber(x)
     => @x.Block (other <t> [off] {sym} ptr mem)
  (ext (ANDconst [c] x)) && cond(c) => (ANDconst [c&mask] x)
  (ext (MOVWconst [c])) => (MOVWconst [wrap(c)])
>>
    [two] is the bounds check [_ = x.Args[1]] that the rules on a load
    make. *)
Definition ext_same (inner : Op) (two : bool) (f : Func) (vid : ID)
    (v_0 : Value) : rule :=
  let x := v_0 in
  if negb (hasOp x inner) then nomatch else
  _ ← (if two then arg x 1 else Ok 0%nat);
  f ← reset f vid OpMIPSMOVWreg;
  f ← AddArg f vid (v_ID x);
  fired f.

Definition ext_load (load other : Op) (f : Func) (vid : ID) (v v_0 : Value)
  : rule :=
  let t := v_Type v in
  let x := v_0 in
  if negb (hasOp x load) then nomatch else
  let off := v_AuxInt x in
  let sym := v_Aux x in
  mem ← arg x 1;
  ptr ← arg x 0;
  if negb (bool_decide (v_Uses x = 1)) then nomatch else
  f ← clobber f (v_ID x);
  let b := v_Block x in
  '(v0, f) ← NewValue0 f b other t;
  f ← reset f vid OpCopy;
  f ← AddArg f vid v0;
  f ← setAuxInt f v0 off;
  f ← setAux f v0 sym;
  f ← AddArg f v0 ptr;
  f ← AddArg f v0 mem;
  fired f.

Definition ext_ANDconst (cond : Z → bool) (mask : Z) (f : Func) (vid : ID)
    (v_0 : Value) : rule :=
  if negb (hasOp v_0 OpMIPSANDconst) then nomatch else
  let c := v_AuxInt v_0 in
  x ← arg v_0 0;
  if negb (cond c) then nomatch else
  f ← reset f vid OpMIPSANDconst;
  f ← setAuxInt f vid (Z.land c mask);
  f ← AddArg f vid x;
  fired f.

Definition ext_MOVWconst (wrap : Z → Z) (f : Func) (vid : ID) (v_0 : Value)
  : rule :=
  if negb (hasOp v_0 OpMIPSMOVWconst) then nomatch else
  let c := v_AuxInt v_0 in
  f ← reset f vid OpMIPSMOVWconst;
  f ← setAuxInt f vid (wrap c);
  fired f.

Definition rewriteValueMIPS_OpMIPSMOVBUreg (f : Func) (vid : ID) : result (Func * bool) :=
  v ← deref f vid;
  v_0 ← argv f v 0;
  finish f (
    (* (MOVBUreg x:(MOVBUload _ _)) => (MOVWreg x) *)
    ext_same OpMIPSMOVBUload true f vid v_0
    (* (MOVBUreg x:(MOVBUreg _)) => (MOVWreg x) *)
    <||> ext_same OpMIPSMOVBUreg false f vid v_0
    (* (MOVBUreg <t> x:(MOVBload [off] {sym} ptr mem)) && x.Uses == 1 && clobber(x)
       => @x.Block (MOVBUload <t> [off] {sym} ptr mem) *)
    <||> ext_load OpMIPSMOVBload OpMIPSMOVBUload f vid v v_0
    (* (MOVBUreg (ANDconst [c] x)) => (ANDconst [c&0xff] x) *)
    <||> ext_ANDconst (λ _, true) 255 f vid v_0
    (* (MOVBUreg (MOVWconst [c])) => (MOVWconst [int64(uint8(c))]) *)
    <||> ext_MOVWconst uint8 f vid v_0).

Definition rewriteValueMIPS_OpMIPSMOVBreg (f : Func) (vid : ID) : result (Func * bool) :=
  v ← deref f vid;
  v_0 ← argv f v 0;
  finish f (
    (* (MOVBreg x:(MOVBload _ _)) => (MOVWreg x) *)
    ext_same OpMIPSMOVBload true f vid v_0
    (* (MOVBreg x:(MOVBreg _)) => (MOVWreg x) *)
    <||> ext_same OpMIPSMOVBreg false f vid v_0
    (* (MOVBreg <t> x:(MOVBUload [off] {sym} ptr mem)) && x.Uses == 1 && clobber(x)
       => @x.Block (MOVBload <t> [off] {sym} ptr mem) *)
    <||> ext_load OpMIPSMOVBUload OpMIPSMOVBload f vid v v_0
    (* (MOVBreg (ANDconst [c] x)) && c & 0x80 == 0 => (ANDconst [c&0x7f] x) *)
    <||> ext_ANDconst (λ c, bool_decide (Z.land c 128 = 0)) 127 f vid v_0
    (* (MOVBreg (MOVWconst [c])) => (MOVWconst [int64(int8(c))]) *)
    <||> ext_MOVWconst int8 f vid v_0).

Definition rewriteValueMIPS_OpMIPSMOVHUreg (f : Func) (vid : ID) : result (Func * bool) :=
  v ← deref f vid;
  v_0 ← argv f v 0;
  finish f (
    (* (MOVHUreg x:(MOVBUload _ _)) => (MOVWreg x) *)
    ext_same OpMIPSMOVBUload true f vid v_0
    (* (MOVHUreg x:(MOVHUload _ _)) => (MOVWreg x) *)
    <||> ext_same OpMIPSMOVHUload true f vid v_0
    (* (MOVHUreg x:(MOVBUreg _)) => (MOVWreg x) *)
    <||> ext_same OpMIPSMOVBUreg false f vid v_0
    (* (MOVHUreg x:(MOVHUreg _)) => (MOVWreg x) *)
    <||> ext_same OpMIPSMOVHUreg false f vid v_0
    (* (MOVHUreg <t> x:(MOVHload [off] {sym} ptr mem)) && x.Uses == 1 && clobber(x)
       => @x.Block (MOVHUload <t> [off] {sym} ptr mem) *)
    <||> ext_load OpMIPSMOVHload OpMIPSMOVHUload f vid v v_0
    (* (MOVHUreg (ANDconst [c] x)) => (ANDconst [c&0xffff] x) *)
    <||> ext_ANDconst (λ _, true) 65535 f vid v_0
    (* (MOVHUreg (MOVWconst [c])) => (MOVWconst [int64(uint16(c))]) *)
    <||> ext_MOVWconst uint16 f vid v_0).

Definition rewriteValueMIPS_OpMIPSMOVHreg (f : Func) (vid : ID) : result (Func * bool) :=
  v ← deref f vid;
  v_0 ← argv f v 0;
  finish f (
    (* (MOVHreg x:(MOVBload _ _)) => (MOVWreg x) *)
    ext_same OpMIPSMOVBload true f vid v_0
    (* (MOVHreg x:(MOVBUload _ _)) => (MOVWreg x) *)
    <||> ext_same OpMIPSMOVBUload true f vid v_0
    (* (MOVHreg x:(MOVHload _ _)) => (MOVWreg x) *)
    <||> ext_same OpMIPSMOVHload true f vid v_0
    (* (MOVHreg x:(MOVBreg _)) => (MOVWreg x) *)
    <||> ext_same OpMIPSMOVBreg false f vid v_0
    (* (MOVHreg x:(MOVBUreg _)) => (MOVWreg x) *)
    <||> ext_same OpMIPSMOVBUreg false f vid v_0
    (* (MOVHreg x:(MOVHreg _)) => (MOVWreg x) *)
    <||> ext_same OpMIPSMOVHreg false f vid v_0
    (* (MOVHreg <t> x:(MOVHUload [off] {sym} ptr mem)) && x.Uses == 1 && clobber(x)
       => @x.Block (MOVHload <t> [off] {sym} ptr mem) *)
    <||> ext_load OpMIPSMOVHUload OpMIPSMOVHload f vid v v_0
    (* (MOVHreg (ANDconst [c] x)) && c & 0x8000 == 0 => (ANDconst [c&0x7fff] x) *)
    <||> ext_ANDconst (λ c, bool_decide (Z.land c 32768 = 0)) 32767 f vid v_0
    (* (MOVHreg (MOVWconst [c])) => (MOVWconst [int64(int16(c))]) *)
    <||> ext_MOVWconst int16 f vid v_0).

Definition rewriteValueMIPS_OpMIPSMOVWreg (f : Func) (vid : ID) : result (Func * bool) :=
  v ← deref f vid;
  v_0 ← argv f v 0;
  finish f (
    (* match: (MOVWreg x)   cond: x.Uses == 1   result: (MOVWnop x) *)
    (let x := v_0 in
     if negb (bool_decide (v_Uses x = 1)) then nomatch else
     f ← reset f vid OpMIPSMOVWnop;
     f ← AddArg f vid (v_ID x);
     fired f)
    <||>
    (* match: (MOVWreg (MOVWconst [c]))   result: (MOVWconst [c]) *)
    (if negb (hasOp v_0 OpMIPSMOVWconst) then nomatch else
     let c := v_AuxInt v_0 in
     f ← reset f vid OpMIPSMOVWconst;
     f ← setAuxInt f vid c;
     fired f)).

(** The dispatcher.  The source has no case for the ops of the last
    arm. *)
Definition rewriteValueMIPS (f : Func) (vid : ID) : result (Func * bool) :=
  v ← deref f vid;
  match v_Op v with
  | OpAdd32 => rewriteValueMIPS_OpAdd32 f vid
  | OpConst32 => rewriteValueMIPS_OpConst32 f vid
  | OpMIPSADD => rewriteValueMIPS_OpMIPSADD f vid
  | OpMIPSADDconst => rewriteValueMIPS_OpMIPSADDconst f vid
  | OpMIPSAND => rewriteValueMIPS_OpMIPSAND f vid
  | OpMIPSANDconst => rewriteValueMIPS_OpMIPSANDconst f vid
  | OpMIPSCMOVZ => rewriteValueMIPS_OpMIPSCMOVZ f vid
  | OpMIPSCMOVZzero => rewriteValueMIPS_OpMIPSCMOVZzero f vid
  | OpMIPSMOVBUload => rewriteValueMIPS_OpMIPSMOVBUload f vid
  | OpMIPSMOVBUreg => rewriteValueMIPS_OpMIPSMOVBUreg f vid
  | OpMIPSMOVBload => rewriteValueMIPS_OpMIPSMOVBload f vid
  | OpMIPSMOVBreg => rewriteValueMIPS_OpMIPSMOVBreg f vid
  | OpMIPSMOVBstore => rewriteValueMIPS_OpMIPSMOVBstore f vid
  | OpMIPSMOVBstorezero => rewriteValueMIPS_OpMIPSMOVBstorezero f vid
  | OpMIPSMOVHUload => rewriteValueMIPS_OpMIPSMOVHUload f vid
  | OpMIPSMOVHUreg => rewriteValueMIPS_OpMIPSMOVHUreg f vid
  | OpMIPSMOVHload => rewriteValueMIPS_OpMIPSMOVHload f vid
  | OpMIPSMOVHreg => rewriteValueMIPS_OpMIPSMOVHreg f vid
  | OpMIPSMOVHstore => rewriteValueMIPS_OpMIPSMOVHstore f vid
  | OpMIPSMOVHstorezero => rewriteValueMIPS_OpMIPSMOVHstorezero f vid
  | OpMIPSMOVWload => rewriteValueMIPS_OpMIPSMOVWload f vid
  | OpMIPSMOVWreg => rewriteValueMIPS_OpMIPSMOVWreg f vid
  | OpMIPSMOVWstore => rewriteValueMIPS_OpMIPSMOVWstore f vid
  | OpMIPSMOVWstorezero => rewriteValueMIPS_OpMIPSMOVWstorezero f vid
  | OpMIPSMUL => rewriteValueMIPS_OpMIPSMUL f vid
  | OpMIPSNEG => rewriteValueMIPS_OpMIPSNEG f vid
  | OpMIPSNOR => rewriteValueMIPS_OpMIPSNOR f vid
  | OpMIPSNORconst => rewriteValueMIPS_OpMIPSNORconst f vid
  | OpMIPSOR => rewriteValueMIPS_OpMIPSOR f vid
  | OpMIPSORconst => rewriteValueMIPS_OpMIPSORconst f vid
  | OpMIPSSGT => rewriteValueMIPS_OpMIPSSGT f vid
  | OpMIPSSGTU => rewriteValueMIPS_OpMIPSSGTU f vid
  | OpMIPSSGTUconst => rewriteValueMIPS_OpMIPSSGTUconst f vid
  | OpMIPSSGTUzero => rewriteValueMIPS_OpMIPSSGTUzero f vid
  | OpMIPSSGTconst => rewriteValueMIPS_OpMIPSSGTconst f vid
  | OpMIPSSGTzero => rewriteValueMIPS_OpMIPSSGTzero f vid
  | OpMIPSSLLconst => rewriteValueMIPS_OpMIPSSLLconst f vid
  | OpMIPSSRLconst => rewriteValueMIPS_OpMIPSSRLconst f vid
  | OpMIPSSUB => rewriteValueMIPS_OpMIPSSUB f vid
  | OpMIPSSUBconst => rewriteValueMIPS_OpMIPSSUBconst f vid
  | OpMIPSXOR => rewriteValueMIPS_OpMIPSXOR f vid
  | OpMIPSXORconst => rewriteValueMIPS_OpMIPSXORconst f vid
  | OpSelect0 => rewriteValueMIPS_OpSelect0 f vid
  | OpSelect1 => rewriteValueMIPS_OpSelect1 f vid
  | OpInvalid | OpCopy | OpPhi | OpArg | OpStoreReg | OpLoadReg
  | OpAdd32carry | OpSub32carry | OpMIPSMULTU | OpMIPSDIV | OpMIPSDIVU
  | OpMIPSMOVWconst | OpMIPSMOVWaddr | OpMIPSMOVWnop | OpMIPSFPFlagTrue
  | OpMIPSFPFlagFalse => Ok (f, false)
  end.

End WithHelpers.

(** ** The block rewriter *)

(** [b.Controls[0]]: a nil control makes the read of its [Op] panic. *)
Definition control0 (f : Func) (b : Block) : result Value :=
  match b_Controls b with
  | c :: _ => deref f c
  | [] => Fail NilDereference
  end.

(** [b.Reset(kind); b.AddControl(c); return true] *)
Definition retarget (f : Func) (bid : ID) (kind : BlockKind) (c : ID) : rule :=
  f ← blockReset f bid kind;
  f ← AddControl f bid c;
  fired f.

(** [(FPFlagTrue cmp)] or [(FPFlagFalse cmp)] as the control. *)
Definition fpFlagRule (f : Func) (bid : ID) (v_0 : Value) (op : Op)
    (kind : BlockKind) : rule :=
  if negb (hasOp v_0 op) then nomatch else
  cmp ← arg v_0 0;
  retarget f bid kind cmp.

(** [(XORconst [1] cmp:(op ..))] as the control; [two] is the bounds
    check [_ = cmp.Args[1]] of the two-operand comparisons. *)
Definition xorconstRule (f : Func) (bid : ID) (v_0 : Value) (op : Op)
    (two : bool) (kind : BlockKind) : rule :=
  if negb (hasOp v_0 OpMIPSXORconst) then nomatch else
  if negb (bool_decide (v_AuxInt v_0 = 1)) then nomatch else
  cmp ← argv f v_0 0;
  if negb (hasOp cmp op) then nomatch else
  _ ← (if two then arg cmp 1 else Ok 0%nat);
  retarget f bid kind (v_ID cmp).

(** The six [XORconst [1]] rules of a kind, in source order. *)
Definition xorconstRules (f : Func) (bid : ID) (v_0 : Value)
    (kind : BlockKind) : rule :=
  xorconstRule f bid v_0 OpMIPSSGT true kind
  <||> xorconstRule f bid v_0 OpMIPSSGTU true kind
  <||> xorconstRule f bid v_0 OpMIPSSGTconst false kind
  <||> xorconstRule f bid v_0 OpMIPSSGTUconst false kind
  <||> xorconstRule f bid v_0 OpMIPSSGTzero false kind
  <||> xorconstRule f bid v_0 OpMIPSSGTUzero false kind.

(** [(op [k] x)] as the control, for the given immediate if any. *)
Definition cmpRule (f : Func) (bid : ID) (v_0 : Value) (op : Op)
    (k : option Z) (kind : BlockKind) : rule :=
  if negb (hasOp v_0 op) then nomatch else
  if negb (match k with Some k => bool_decide (v_AuxInt v_0 = k) | None => true end)
  then nomatch else
  x ← arg v_0 0;
  retarget f bid kind x.

(** [(MOVWconst [c])] as the control, with the rule's condition on [c];
    [swap] is the call of [b.swapSuccessors()]. *)
Definition constRule (f : Func) (bid : ID) (v_0 : Value) (cond : Z → bool)
    (swap : bool) : rule :=
  if negb (hasOp v_0 OpMIPSMOVWconst) then nomatch else
  let c := v_AuxInt v_0 in
  if negb (cond c) then nomatch else
  f ← blockReset f bid BlockFirst;
  f ← (if swap then swapSuccessors f bid else Ok f);
  fired f.

Definition rewriteBlockMIPS (f : Func) (bid : ID) : result (Func * bool) :=
  b ← derefBlock f bid;
  match b_Kind b with
  | BlockMIPSEQ =>
      v_0 ← control0 f b;
      finish f (
        (* (EQ (FPFlagTrue cmp) yes no) => (FPF cmp yes no) *)
        fpFlagRule f bid v_0 OpMIPSFPFlagTrue BlockMIPSFPF
        (* (EQ (FPFlagFalse cmp) yes no) => (FPT cmp yes no) *)
        <||> fpFlagRule f bid v_0 OpMIPSFPFlagFalse BlockMIPSFPT
        (* (EQ (XORconst [1] cmp:(SGT.. _)) yes no) => (NE cmp yes no) *)
        <||> xorconstRules f bid v_0 BlockMIPSNE
        (* (EQ (SGTUconst [1] x) yes no) => (NE x yes no) *)
        <||> cmpRule f bid v_0 OpMIPSSGTUconst (Some 1) BlockMIPSNE
        (* (EQ (SGTUzero x) yes no) => (EQ x yes no) *)
        <||> cmpRule f bid v_0 OpMIPSSGTUzero None BlockMIPSEQ
        (* (EQ (SGTconst [0] x) yes no) => (GEZ x yes no) *)
        <||> cmpRule f bid v_0 OpMIPSSGTconst (Some 0) BlockMIPSGEZ
        (* (EQ (SGTzero x) yes no) => (LEZ x yes no) *)
        <||> cmpRule f bid v_0 OpMIPSSGTzero None BlockMIPSLEZ
        (* (EQ (MOVWconst [0]) yes no) => (First yes no) *)
        <||> constRule f bid v_0 (λ c, bool_decide (c = 0)) false
        (* (EQ (MOVWconst [c]) yes no) && c != 0 => (First no yes) *)
        <||> constRule f bid v_0 (λ c, bool_decide (c ≠ 0)) true)
  | BlockMIPSGEZ =>
      v_0 ← control0 f b;
      finish f (
        (* (GEZ (MOVWconst [c]) yes no) && int32(c) >= 0 => (First yes no) *)
        constRule f bid v_0 (λ c, bool_decide (int32 c >= 0)) false
        (* (GEZ (MOVWconst [c]) yes no) && int32(c) < 0 => (First no yes) *)
        <||> constRule f bid v_0 (λ c, bool_decide (int32 c < 0)) true)
  | BlockMIPSGTZ =>
      v_0 ← control0 f b;
      finish f (
        (* (GTZ (MOVWconst [c]) yes no) && int32(c) > 0 => (First yes no) *)
        constRule f bid v_0 (λ c, bool_decide (int32 c > 0)) false
        (* (GTZ (MOVWconst [c]) yes no) && int32(c) <= 0 => (First no yes) *)
        <||> constRule f bid v_0 (λ c, bool_decide (int32 c <= 0)) true)
  | BlockIf =>
      (* (If cond yes no) => (NE cond yes no) *)
      cond ← control0 f b;
      finish f (retarget f bid BlockMIPSNE (v_ID cond))
  | BlockMIPSLEZ =>
      v_0 ← control0 f b;
      finish f (
        (* (LEZ (MOVWconst [c]) yes no) && int32(c) <= 0 => (First yes no) *)
        constRule f bid v_0 (λ c, bool_decide (int32 c <= 0)) false
        (* (LEZ (MOVWconst [c]) yes no) && int32(c) > 0 => (First no yes) *)
        <||> constRule f bid v_0 (λ c, bool_decide (int32 c > 0)) true)
  | BlockMIPSLTZ =>
      v_0 ← control0 f b;
      finish f (
        (* (LTZ (MOVWconst [c]) yes no) && int32(c) < 0 => (First yes no) *)
        constRule f bid v_0 (λ c, bool_decide (int32 c < 0)) false
        (* (LTZ (MOVWconst [c]) yes no) && int32(c) >= 0 => (First no yes) *)
        <||> constRule f bid v_0 (λ c, bool_decide (int32 c >= 0)) true)
  | BlockMIPSNE =>
      v_0 ← control0 f b;
      finish f (
        (* (NE (FPFlagTrue cmp) yes no) => (FPT cmp yes no) *)
        fpFlagRule f bid v_0 OpMIPSFPFlagTrue BlockMIPSFPT
        (* (NE (FPFlagFalse cmp) yes no) => (FPF cmp yes no) *)
        <||> fpFlagRule f bid v_0 OpMIPSFPFlagFalse BlockMIPSFPF
        (* (NE (XORconst [1] cmp:(SGT.. _)) yes no) => (EQ cmp yes no) *)
        <||> xorconstRules f bid v_0 BlockMIPSEQ
        (* (NE (SGTUconst [1] x) yes no) => (EQ x yes no) *)
        <||> cmpRule f bid v_0 OpMIPSSGTUconst (Some 1) BlockMIPSEQ
        (* (NE (SGTUzero x) yes no) => (NE x yes no) *)
        <||> cmpRule f bid v_0 OpMIPSSGTUzero None BlockMIPSNE
        (* (NE (SGTconst [0] x) yes no) => (LTZ x yes no) *)
        <||> cmpRule f bid v_0 OpMIPSSGTconst (Some 0) BlockMIPSLTZ
        (* (NE (SGTzero x) yes no) => (GTZ x yes no) *)
        <||> cmpRule f bid v_0 OpMIPSSGTzero None BlockMIPSGTZ
        (* (NE (MOVWconst [0]) yes no) => (First no yes) *)
        <||> constRule f bid v_0 (λ c, bool_decide (c = 0)) true
        (* (NE (MOVWconst [c]) yes no) && c != 0 => (First yes no) *)
        <||> constRule f bid v_0 (λ c, bool_decide (c ≠ 0)) false)
  | BlockInvalid | BlockPlain | BlockFirst | BlockMIPSFPT | BlockMIPSFPF =>
      Ok (f, false)
  end.

(** ** The fixpoint driver *)

Section WithDriver.
Context `{Helpers}.

(** The order in which a round visits the blocks; it is computed
    outside src/. *)
Variable blockOrder : Func → list ID.

(** Modelled from the spec: the driver that applies the rule functions is
    declared outside src/.  "For each block in reverse topological order,
    for each value in the block, dispatch on Op to the matcher; if any
    rule fires, replace the value in place and mark the block changed;
    iterate to fixpoint over the entire function." *)
Definition rewriteValuesOf (st : Func * bool) (bid : ID) : result (Func * bool) :=
  b ← derefBlock (st.1) bid;
  foldlM (λ '(f, changed) vid,
            '(f', fired) ← rewriteValueMIPS f vid;
            Ok (f', changed || fired))
         (b_Values b) st.

Definition rewriteRound (f : Func) : result (Func * bool) :=
  foldlM rewriteValuesOf (blockOrder f) (f, false).

Fixpoint applyRewrite (fuel : nat) (f : Func) : result Func :=
  match fuel with
  | O => Fail OutOfFuel
  | S fuel' =>
      '(f', changed) ← rewriteRound f;
      if changed : bool then applyRewrite fuel' f' else Ok f'
  end.

End WithDriver.

(** ** Vocabulary of the statements *)

(** The value under an ID, its use count aside. *)
Definition look (f : Func) (k : ID) : option Value :=
  match deref f k with
  | Ok v => Some (with_Uses v 0)
  | Fail _ => None
  end.

(** [upd f f' k v]: [f'] is [f] with [v] under [k], use counts aside. *)
Definition upd (f f' : Func) (k : ID) (v : Value) : Prop :=
  ∀ j, look f' j = if decide (j = k) then Some (with_Uses v 0) else look f j.

(** [same f f']: the same values, use counts aside. *)
Definition same (f f' : Func) : Prop := ∀ j, look f' j = look f j.

(** The immediate form of the commutative ops that have one. *)
Definition immediateForm (op : Op) : option Op :=
  match op with
  | OpMIPSADD => Some OpMIPSADDconst
  | OpMIPSAND => Some OpMIPSANDconst
  | OpMIPSOR => Some OpMIPSORconst
  | OpMIPSXOR => Some OpMIPSXORconst
  | OpMIPSNOR => Some OpMIPSNORconst
  | _ => None
  end.

(** The fields of a rewritten value, as a rule's result lists them. *)
Definition rewritten (v : Value) (op : Op) (c : Z) (a : AuxVal)
    (args : list ID) : Value :=
  mkValue (v_ID v) op (v_Type v) c a args (v_Block v) 0.

End RewriteMIPS.

(* ===================================================================== *)
(** * Example graphs                                                      *)
(* ===================================================================== *)

Module RewriteExamples.
Import SSA RewriteMIPS.

(** An instance of the helpers, for running the rules on examples. *)
Definition exampleHelpers : Helpers :=
  mkHelpers (λ n, bool_decide (0 < n) && bool_decide (Z.land n (n - 1) = 0))
            Z.log2
            (λ t i, match t with
                    | TypeTuple t0 t1 => if bool_decide (i = 0) then t0 else t1
                    | _ => TypeInvalid
                    end)
            (λ a b, bool_decide (a = AuxNil) || bool_decide (b = AuxNil))
            (λ a b, if bool_decide (a = AuxNil) then b else a)
            (λ _ p q, bool_decide (p = q))
            (λ f x, reset f x OpInvalid).

Definition I32 : Typ := TypeInt 4 true.

(** A value of block 1. *)
Definition val (id : ID) (op : Op) (t : Typ) (c : Z) (args : list ID)
    (uses : Z) : Value :=
  mkValue id op t c AuxNil args 1%nat uses.

(** A function of one block, number 1, with the given values, kind,
    successors and controls. *)
Definition graph (vs : list Value) (kind : BlockKind) (succs ctl : list ID)
  : Func :=
  mkFunc (list_to_map (map (λ v, (v_ID v, v)) vs))
         {[ 1%nat := mkBlock 1 kind (map v_ID vs) succs ctl ]}
         (S (foldr Nat.max 0%nat (map v_ID vs))).

Definition arena (vs : list Value) : Func := graph vs BlockPlain [] [].

Definition oneBlock (f : Func) : list ID := [1%nat].

(** [v3 = Add32 (Const32 [14]) (Const32 [26])] *)
Definition addFunc : Func :=
  arena [val 1 OpConst32 I32 14 [] 1; val 2 OpConst32 I32 26 [] 1;
         val 3 OpAdd32 I32 0 [1%nat; 2%nat] 0].

(** [v4 = Select1 (DIV (MOVWconst [c]) (MOVWconst [d]))] and [v5], the
    [Select0] of the same division. *)
Definition divFunc (c d : Z) : Func :=
  arena [val 1 OpMIPSMOVWconst I32 c [] 1; val 2 OpMIPSMOVWconst I32 d [] 1;
         val 3 OpMIPSDIV (TypeTuple I32 I32) 0 [1%nat; 2%nat] 2;
         val 4 OpSelect1 I32 0 [3%nat] 0; val 5 OpSelect0 I32 0 [3%nat] 0].

(** [v4 = MOVWload [off1] (ADDconst [off2] base) mem], the address being
    used [uses] times. *)
Definition loadFunc (off1 off2 uses : Z) : Func :=
  arena [val 1 OpArg TypePtr 0 [] 1; val 2 OpMIPSADDconst TypePtr off2 [1%nat] uses;
         val 3 OpArg TypeMem 0 [] 1;
         val 4 OpMIPSMOVWload I32 off1 [2%nat; 3%nat] 0].

(** [v3 = SUB x (MOVWconst [5])] *)
Definition subFunc : Func :=
  arena [val 1 OpArg I32 0 [] 1; val 2 OpMIPSMOVWconst I32 5 [] 1;
         val 3 OpMIPSSUB I32 0 [1%nat; 2%nat] 0].

(** [v3 = ADD (MOVWconst [5]) x], the constant on the left. *)
Definition addLeftFunc : Func :=
  arena [val 1 OpArg I32 0 [] 1; val 2 OpMIPSMOVWconst I32 5 [] 1;
         val 3 OpMIPSADD I32 0 [2%nat; 1%nat] 0].

(** A two-way block of the given kind on [MOVWconst [c]]. *)
Definition branchFunc (kind : BlockKind) (c : Z) : Func :=
  graph [val 1 OpMIPSMOVWconst TypeBool c [] 1] kind [2%nat; 3%nat] [1%nat].

End RewriteExamples.

(* ===================================================================== *)
(** * Functions for stackalloc                                            *)
(* ===================================================================== *)

Module StackExamples.
Import SSA Stackalloc.

Definition sval (id : nat) (op : Op) (t : Typ) (args : list nat) : Value :=
  mkValue id op t 0 AuxNil args 0%nat 0.

Definition I32 : Typ := TypeInt 4 true.

(** A [RegAlloc] slice of length [n] with the registers of [l]. *)
Definition regs (l : list (nat * nat)) (n : nat) : list (option Location) :=
  (λ i, LocReg <$> (list_to_map l : gmap nat nat) !! i) <$> seq 0 n.

Definition noNames : LocalSlot → list nat := λ _, [].

(** A traversal order for the examples: the blocks from last to first. *)
Definition revOrder (f : Func) : list Block := rev (f_Blocks f).

(** A loop whose variable lives on the stack:
<<
  b0:  v12 = Copy <mem>;  v10 = MOVWconst;  v1 = StoreReg v10      -> b1
  b1:  v5 = Phi <mem> v12 v5;  v2 = Phi v1 v3                      -> b2
  b2:  v11 = MOVWconst;  v3 = StoreReg v11                         -> b1 b3
  b3:  v4 = LoadReg v2
>>
    v2 is a stack phi; v4, v10 and v11 have registers. *)
Definition loopEntry : Block :=
  mkBlock 0 [sval 12 OpCopy TypeMem []; sval 10 OpMIPSMOVWconst I32 [];
             sval 1 OpStoreReg I32 [10%nat]] [] [1%nat].

Definition loopBlocks : list Block :=
  [ loopEntry;
    mkBlock 1 [sval 5 OpPhi TypeMem [12%nat; 5%nat];
               sval 2 OpPhi I32 [1%nat; 3%nat]] [0%nat; 2%nat] [2%nat];
    mkBlock 2 [sval 11 OpMIPSMOVWconst I32 []; sval 3 OpStoreReg I32 [11%nat]]
              [1%nat] [1%nat; 3%nat];
    mkBlock 3 [sval 4 OpLoadReg I32 [2%nat]] [2%nat] [] ].

Definition loopFunc : Func :=
  mkFunc loopBlocks loopEntry (regs [(4, 2); (10, 1); (11, 1)]%nat 13)
         [] noNames 100.

(** Two spills that are live together:
<<
  b0:  v10 = MOVWconst;  v11 = MOVWconst;  v1 = StoreReg v10;
       v2 = StoreReg v11;  v3 = LoadReg v1;  v4 = LoadReg v2
>> *)
Definition spillEntry : Block :=
  mkBlock 0 [sval 10 OpMIPSMOVWconst I32 []; sval 11 OpMIPSMOVWconst I32 [];
             sval 1 OpStoreReg I32 [10%nat]; sval 2 OpStoreReg I32 [11%nat];
             sval 3 OpLoadReg I32 [1%nat]; sval 4 OpLoadReg I32 [2%nat]] [] [].

Definition spillFunc : Func :=
  mkFunc [spillEntry] spillEntry
         (regs [(3, 1); (4, 2); (10, 1); (11, 2)]%nat 12) [] noNames 100.




End StackExamples.

(* ===================================================================== *)
(** * More of the MIPS rewriter: rule functions and terms               *)
(* ===================================================================== *)

Module RewriteMIPSRules.
Import SSA RewriteMIPS RewriteExamples.

(** A sign-extended 32-bit value, as [MOVWconst] holds one. *)
Definition isInt32 (c : Z) : Prop := - 2 ^ 31 ≤ c < 2 ^ 31.

(** The value that a rule leaves when its result is an operand [x]
    itself: a copy of [x], of the type of [x]. *)
Definition copyOf (v x : Value) : Value :=
  mkValue (v_ID v) OpCopy (v_Type x) 0 AuxNil [v_ID x] (v_Block v) 0.

(** The rule function [F] makes the value [v] of [f] the constant
    [MOVWconst [r]]. *)
Definition folds (F : Func → ID → result (Func * bool)) (f : Func) (vid : ID)
    (v : Value) (r : Z) : Prop :=
  ∃ f', F f vid = Ok (f', true) ∧
        upd f f' vid (rewritten v OpMIPSMOVWconst r AuxNil []).

(** The rule function [F] fires on the value [vid] of [f] and leaves the
    value [w] in its place, all other values as they were. *)
Definition rewritesTo (F : Func → ID → result (Func * bool)) (f : Func)
    (vid : ID) (w : Value) : Prop :=
  ∃ f', F f vid = Ok (f', true) ∧ upd f f' vid w.

(** The test that a block of the kind makes on its control [c]. *)
Definition signTest (kind : BlockKind) (c : Z) : option bool :=
  match kind with
  | BlockMIPSGEZ => Some (bool_decide (0 ≤ int32 c))
  | BlockMIPSGTZ => Some (bool_decide (0 < int32 c))
  | BlockMIPSLEZ => Some (bool_decide (int32 c ≤ 0))
  | BlockMIPSLTZ => Some (bool_decide (int32 c < 0))
  | _ => None
  end.

(** The kind that branches the other way. *)
Definition negKind (k : BlockKind) : BlockKind :=
  match k with
  | BlockMIPSEQ => BlockMIPSNE
  | BlockMIPSNE => BlockMIPSEQ
  | BlockMIPSGEZ => BlockMIPSLTZ
  | BlockMIPSLTZ => BlockMIPSGEZ
  | BlockMIPSGTZ => BlockMIPSLEZ
  | BlockMIPSLEZ => BlockMIPSGTZ
  | BlockMIPSFPT => BlockMIPSFPF
  | BlockMIPSFPF => BlockMIPSFPT
  | k => k
  end.

(** The block that branches the other way on the same controls; for a
    First block, the one that goes to the other successor. *)
Definition opposite (b : Block) : Block :=
  mkBlock (b_ID b) (negKind (b_Kind b)) (b_Values b)
          (if bool_decide (b_Kind b = BlockFirst) then rev (b_Succs b)
           else b_Succs b)
          (b_Controls b).

(** Two outcomes of a rule on the block [bid] that differ by [opposite]. *)
Definition mirror (bid : ID) (r r' : rule) : Prop :=
  match r with
  | Ok (Some f1) =>
      ∃ b1, derefBlock f1 bid = Ok b1 ∧ r' = Ok (Some (setBlock f1 (opposite b1)))
  | Ok None => r' = Ok None
  | Fail e => r' = Fail e
  end.

(** [v2 = op [c] (MOVWconst [d])] *)
Definition constOperand (op : Op) (c d : Z) : Func :=
  arena [val 1 OpMIPSMOVWconst I32 d [] 1; val 2 op I32 c [1%nat] 0].

(** [v2 = op [c] x] *)
Definition argOperand (op : Op) (c : Z) : Func :=
  arena [val 1 OpArg I32 0 [] 1; val 2 op I32 c [1%nat] 0].

(** [v3 = op [c] (op' [d] x)] *)
Definition stackedImm (op : Op) (c : Z) (op' : Op) (d : Z) : Func :=
  arena [val 1 OpArg I32 0 [] 1; val 2 op' I32 d [1%nat] 1;
         val 3 op I32 c [2%nat] 0].

(** [v2 = op x x] *)
Definition sameOperand (op : Op) : Func :=
  arena [val 1 OpArg I32 0 [] 2; val 2 op I32 0 [1%nat; 1%nat] 0].

(** [v3 = op (MOVWconst [c]) x] and [v3 = op x (MOVWconst [c])] *)
Definition constLeft (op : Op) (c : Z) : Func :=
  arena [val 1 OpArg I32 0 [] 1; val 2 OpMIPSMOVWconst I32 c [] 1;
         val 3 op I32 0 [2%nat; 1%nat] 0].
Definition constRight (op : Op) (c : Z) : Func :=
  arena [val 1 OpArg I32 0 [] 1; val 2 OpMIPSMOVWconst I32 c [] 1;
         val 3 op I32 0 [1%nat; 2%nat] 0].

(** [v4 = MOVWload [off1] (MOVWaddr [off2] base) mem] *)
Definition addrLoadFunc (off1 off2 : Z) : Func :=
  arena [val 1 OpArg TypePtr 0 [] 1; val 2 OpMIPSMOVWaddr TypePtr off2 [1%nat] 1;
         val 3 OpArg TypeMem 0 [] 1;
         val 4 OpMIPSMOVWload I32 off1 [2%nat; 3%nat] 0].

(** [v5 = MOVWload [off] p (MOVWstore [off2] p x mem)] *)
Definition storeLoadFunc (off off2 : Z) : Func :=
  arena [val 1 OpArg TypePtr 0 [] 2; val 2 OpArg I32 0 [] 1;
         val 3 OpArg TypeMem 0 [] 1;
         val 4 OpMIPSMOVWstore TypeMem off2 [1%nat; 2%nat; 3%nat] 1;
         val 5 OpMIPSMOVWload I32 off [1%nat; 4%nat] 0].

(** [v4 = Select1 (op (MOVWconst [c]) (MOVWconst [d]))] and [v5], the
    [Select0] of the same value. *)
Definition tupleFunc (op : Op) (c d : Z) : Func :=
  arena [val 1 OpMIPSMOVWconst I32 c [] 1; val 2 OpMIPSMOVWconst I32 d [] 1;
         val 3 op (TypeTuple I32 I32) 0 [1%nat; 2%nat] 2;
         val 4 OpSelect1 I32 0 [3%nat] 0; val 5 OpSelect0 I32 0 [3%nat] 0].

End RewriteMIPSRules.

(* ===================================================================== *)
(** * More of stackalloc: terms for its properties                       *)
(* ===================================================================== *)

Module StackallocTerms.
Import SSA Stackalloc StackExamples.

(** The slot that [stackalloc] gives an Arg value whose [Aux] is the
    variable [n]. *)
Definition argSlot (v : Value) (n : GCNode) : LocalSlot :=
  mkLocalSlot (Some n) (v_Type v) (v_AuxInt v).

(** The Arg values among [vs]. *)
Definition argValues (vs : list Value) : list Value :=
  filter (λ v, v_Op v = OpArg) vs.

(** [v] writes the slot of [x]: it is the StoreReg or the stack phi with
    that ID.  [v] reads it: it is a LoadReg of [x]. *)
Definition defines (f : Func) (x : ID) (v : Value) : Prop :=
  (v_Op v = OpStoreReg ∨ isStackPhi f v = true) ∧ v_ID v = x.

Definition loads (x : ID) (v : Value) : Prop :=
  v_Op v = OpLoadReg ∧ arg v 0 = Ok x.

(** Nothing in [vs] writes the slot of [x]; [x] is read in [vs] before
    anything writes it. *)
Definition transparent (f : Func) (x : ID) (vs : list Value) : Prop :=
  ∀ w, w ∈ vs → ¬ defines f x w.

Definition exposed (f : Func) (x : ID) (vs : list Value) : Prop :=
  ∃ pre v post, vs = pre ++ v :: post ∧ loads x v ∧ transparent f x pre.

(** The slot of [x] is read on a path from the start of the block before
    it is written: in the block itself, or in a successor that the block
    reaches without writing it, or through a stack phi of a successor
    that takes [x] from the block. *)
Inductive wanted (f : Func) (po : list Block) (x : ID) : Block → Prop :=
  | wanted_load b :
      b ∈ po → exposed f x (b_Values b) → wanted f po x b
  | wanted_succ b c i :
      b ∈ po → c ∈ po → b_Preds c !! i = Some (b_ID b) →
      transparent f x (b_Values b) → wanted f po x c → wanted f po x b
  | wanted_phi b c i v :
      b ∈ po → c ∈ po → b_Preds c !! i = Some (b_ID b) →
      v ∈ b_Values c → isStackPhi f v = true → arg v i = Ok x →
      transparent f x (b_Values b) → wanted f po x b.

(** The set [s] that [liveSpills] has at the start of [b]. *)
Definition liveIn (f : Func) (live : LiveMap) (b : Block) (x : ID) : Prop :=
  ∃ s phis, liveAtStart f live b = Ok (s, phis) ∧ x ∈ s.

(** [g] is [f] but for its homes and the variables that the front end
    made: the blocks, the entry block and the names are the same, and
    [RegAlloc] is not shorter. *)
Definition sameCode (f g : Func) : Prop :=
  f_Blocks g = f_Blocks f ∧ f_Entry g = f_Entry f ∧ f_Names g = f_Names f ∧
  f_NamedValues g = f_NamedValues f ∧
  (f_autos f ≤ f_autos g)%nat ∧
  (length (f_RegAlloc f) ≤ length (f_RegAlloc g))%nat.

(** The slot [l] suits the value [v] of the function [f] when
    [stackalloc] has made [g] of it: it has the type of [v], and it is a
    name of [f] or a variable that the front end made in between, at
    offset 0. *)
Definition slotFor (f g : Func) (v : Value) (l : LocalSlot) : Prop :=
  SlotType l = v_Type v ∧
  ((l ∈ f_Names f ∧ N l ≠ None) ∨
   ∃ k, (f_autos f ≤ k < f_autos g)%nat ∧ l = mkLocalSlot (Some k) (v_Type v) 0).

(** Two arguments and a spill of the first:
<<
  b0:  v1 = Arg {n7} [8];  v2 = Arg {n9} [12];  v3 = StoreReg v1;
       v4 = LoadReg v3
>> *)
Definition argsEntry : Block :=
  mkBlock 0 [mkValue 1 OpArg I32 8 (AuxNode 7%nat) [] 0%nat 0;
             mkValue 2 OpArg I32 12 (AuxNode 9%nat) [] 0%nat 0;
             sval 3 OpStoreReg I32 [1%nat]; sval 4 OpLoadReg I32 [3%nat]] [] [].

Definition argsFunc : Func :=
  mkFunc [argsEntry] argsEntry (regs [(1, 1); (2, 2); (4, 1)]%nat 5)
         [] noNames 100.

End StackallocTerms.

(* ===================================================================== *)
(** * Properties of stackalloc.go                                         *)
(* ===================================================================== *)

Module StackallocProofs.
Import SSA Stackalloc.

(** ** The home map *)

Lemma growRegAlloc_length ra vid : (vid < length (growRegAlloc ra vid))%nat.
Proof. unfold growRegAlloc. rewrite length_app, length_replicate. lia. Qed.

Lemma growRegAlloc_lookup ra vid j :
  mjoin (growRegAlloc ra vid !! j) = mjoin (ra !! j).
Proof.
  unfold growRegAlloc. destruct (decide (j < length ra)%nat).
  - by rewrite lookup_app_l.
  - rewrite lookup_app_r by lia. rewrite (lookup_ge_None_2 ra j) by lia.
    destruct (replicate _ _ !! _) eqn:E; [|done].
    by apply lookup_replicate in E as [-> _].
Qed.

Lemma getHome_mjoin f vid : getHome f vid = mjoin (f_RegAlloc f !! vid).
Proof. unfold getHome. by destruct (f_RegAlloc f !! vid). Qed.

Lemma getHome_setHome_eq f vid loc : getHome (setHome f vid loc) vid = loc.
Proof.
  unfold getHome, setHome. simpl.
  rewrite list_lookup_insert_eq; [done|apply growRegAlloc_length].
Qed.

Lemma getHome_setHome_ne f vid loc w :
  w ≠ vid → getHome (setHome f vid loc) w = getHome f w.
Proof.
  intros Hne. rewrite !getHome_mjoin. unfold setHome. simpl.
  rewrite list_lookup_insert_ne by done. apply growRegAlloc_lookup.
Qed.

Lemma getHome_setHome f vid loc w :
  getHome (setHome f vid loc) w = if decide (w = vid) then loc else getHome f w.
Proof.
  case_decide as Hw; [subst; apply getHome_setHome_eq|].
  by apply getHome_setHome_ne.
Qed.

(** C9.  After [setHome(v, loc)] the home of [v] is [loc] and every other
    home is as before; the store made by [setHome] is within the grown
    slice; [getHome] of an ID at or beyond the length of [RegAlloc] is
    nil; so an ID that no [setHome] was called for, on a function that
    starts without homes, reads as nil. *)
Theorem home_map_consistent (f : Func) (v : Value) (loc : option Location) :
  getHome (setHome f (v_ID v) loc) (v_ID v) = loc ∧
  (v_ID v < length (growRegAlloc (f_RegAlloc f) (v_ID v)))%nat ∧
  (∀ w, w ≠ v_ID v → getHome (setHome f (v_ID v) loc) w = getHome f w) ∧
  (∀ vid, (length (f_RegAlloc f) ≤ vid)%nat → getHome f vid = None) ∧
  (∀ (sets : list (ID * option Location)) vid,
     f_RegAlloc f = [] → vid ∉ sets.*1 →
     getHome (foldl (λ f s, setHome f s.1 s.2) f sets) vid = None).
Proof.
  split; [apply getHome_setHome_eq|].
  split; [apply growRegAlloc_length|].
  split; [intros; by apply getHome_setHome_ne|].
  split.
  - intros vid Hlen. unfold getHome. by rewrite lookup_ge_None_2.
  - intros sets vid Hnil Hnotin.
    assert (getHome f vid = None) as Hf.
    { unfold getHome. by rewrite Hnil. }
    clear Hnil. revert f Hf. induction sets as [|[w l] sets IH]; intros f Hf.
    + done.
    + simpl. apply IH.
      * intros Hin. apply Hnotin. simpl. by right.
      * rewrite getHome_setHome_ne; [done|].
        intros ->. apply Hnotin. simpl. by left.
Qed.

(** ** isStackPhi *)

Lemma isStackPhi_spec f v :
  isStackPhi f v = true ↔
  v_Op v = OpPhi ∧ v_Type v ≠ TypeMem ∧ getHome f (v_ID v) = None.
Proof.
  unfold isStackPhi, getHome.
  destruct (decide (v_Op v = OpPhi)) as [Hop|Hop].
  2:{ rewrite bool_decide_false by done. simpl.
      split; [done|]. by intros [? _]. }
  rewrite bool_decide_true by done. simpl.
  destruct (decide (v_Type v = TypeMem)) as [Ht|Ht].
  { rewrite bool_decide_true by done. split; [done|]. by intros (_ & ? & _). }
  rewrite bool_decide_false by done.
  destruct (f_RegAlloc f !! v_ID v) as [h|]; [|done].
  rewrite bool_decide_eq_true. split; [by intros ->|]. by intros (_ & _ & ?).
Qed.

(** ** Monadic folds *)

Lemma foldlM_cons {A B} (k : B → A → result B) x l b :
  foldlM k (x :: l) b = (b' ← k b x; foldlM k l b').
Proof. done. Qed.

Lemma foldlM_app {A B} (k : B → A → result B) l1 l2 b :
  foldlM k (l1 ++ l2) b = (b' ← foldlM k l1 b; foldlM k l2 b').
Proof.
  revert b. induction l1 as [|x l1 IH]; intros b; simpl; [done|].
  destruct (k b x); simpl; [apply IH|done].
Qed.

Lemma foldlM_join {A B} (k : B → A → result B) (ls : list (list A)) b :
  foldlM (λ b l, foldlM k l b) ls b = foldlM k (mjoin ls) b.
Proof.
  revert b. induction ls as [|l ls IH]; intros b; simpl; [done|].
  rewrite foldlM_app. destruct (foldlM k l b); simpl; [apply IH|done].
Qed.

(** A fold whose every step keeps an invariant succeeds and keeps it. *)
Lemma foldlM_inv {A B} (P : B → Prop) (k : B → A → result B) l b :
  P b →
  (∀ b x, x ∈ l → P b → ∃ b', k b x = Ok b' ∧ P b') →
  ∃ b', foldlM k l b = Ok b' ∧ P b'.
Proof.
  revert b. induction l as [|x l IH]; intros b Hb Hstep; simpl; [eauto|].
  destruct (Hstep b x) as (b1 & -> & Hb1); [by left|done|]. simpl.
  apply IH; [done|]. intros b2 y Hy. apply Hstep. by right.
Qed.

(** What holds of the result of a fold that succeeded. *)
Lemma foldlM_post {A B} (P : B → Prop) (k : B → A → result B) l b b' :
  foldlM k l b = Ok b' → P b →
  (∀ b x b', x ∈ l → P b → k b x = Ok b' → P b') →
  P b'.
Proof.
  revert b. induction l as [|x l IH]; intros b; simpl.
  - by intros [= <-].
  - destruct (k b x) as [b1|] eqn:E; simpl; [|done].
    intros Hf Hb Hstep. eapply IH; [exact Hf| |].
    + eapply Hstep; [by left|exact Hb|exact E].
    + intros b2 y b3 Hy. apply Hstep. by right.
Qed.

(** ** liveSpills *)

Lemma liveAt_rowAt live bid j :
  liveAt live bid j = match rowAt live bid j with
                      | Some l => Ok l
                      | None => Fail IndexOutOfRange
                      end.
Proof. done. Qed.

Lemma rowAt_Some live bid j l :
  rowAt live bid j = Some l ↔
  ∃ rows, live !! bid = Some rows ∧ rows !! j = Some l.
Proof.
  unfold rowAt. destruct (live !! bid) as [rows|]; simpl.
  - split; [eauto|]. by intros (? & [= <-] & ?).
  - split; [done|]. by intros (? & ? & ?).
Qed.

Lemma elem_of_flat live bid j x :
  (bid, j, x) ∈ flat live ↔ ∃ l, rowAt live bid j = Some l ∧ x ∈ l.
Proof.
  unfold flat. rewrite elem_of_list_to_set, list_elem_of_bind. split.
  - intros ([bid' rows] & Hin & Hbr). simpl in Hin.
    apply list_elem_of_bind in Hin as ([j' l] & Hin & Hjl). simpl in Hin.
    apply list_elem_of_bind in Hin as (x' & Hin & Hx).
    apply list_elem_of_singleton in Hin as [= -> -> ->].
    apply elem_of_map_to_list in Hbr.
    apply elem_of_lookup_imap in Hjl as (j'' & l' & [= -> ->] & Hl).
    exists l'. split; [|done]. apply rowAt_Some. eauto.
  - intros (l & Hrow & Hx). apply rowAt_Some in Hrow as (rows & Hrows & Hl).
    exists (bid, rows). split; [|by apply elem_of_map_to_list].
    simpl. apply list_elem_of_bind. exists (j, l). split.
    + simpl. apply list_elem_of_bind. exists x. split; [|done]. by left.
    + apply elem_of_lookup_imap. eauto.
Qed.

Lemma elem_of_bound live U bid j x :
  (bid, j, x) ∈ bound live U ↔ is_Some (rowAt live bid j) ∧ x ∈ U.
Proof.
  unfold bound. rewrite elem_of_list_to_set, list_elem_of_bind. split.
  - intros ([bid' rows] & Hin & Hbr). simpl in Hin.
    apply list_elem_of_bind in Hin as (j' & Hin & Hj).
    apply list_elem_of_bind in Hin as (x' & Hin & Hx).
    apply list_elem_of_singleton in Hin as [= -> -> ->].
    apply elem_of_map_to_list in Hbr. apply elem_of_seq in Hj.
    apply elem_of_elements in Hx. split; [|done].
    unfold rowAt. rewrite Hbr. simpl. apply lookup_lt_is_Some. lia.
  - intros ([l Hrow] & Hx). apply rowAt_Some in Hrow as (rows & Hrows & Hl).
    exists (bid, rows). split; [|by apply elem_of_map_to_list].
    simpl. apply list_elem_of_bind. exists j. split.
    + apply list_elem_of_bind. exists x. split; [by left|].
      by apply elem_of_elements.
    + apply elem_of_seq. apply lookup_lt_Some in Hl. lia.
Qed.

Lemma liveInv_flat_bound f live :
  liveInv f live → flat live ⊆ bound (liveInit f) (universe f).
Proof.
  intros [Hshape Hcont] [[bid j] x] Hin.
  apply elem_of_flat in Hin as (l & Hrow & Hx).
  apply elem_of_bound. split.
  - apply Hshape. eauto.
  - by eapply Hcont.
Qed.

(** Writing one list of a live map. *)
Lemma rowAt_insert live pid j old l' bid j' :
  rowAt live pid j = Some old →
  rowAt (<[pid := <[j := l']> (default [] (live !! pid))]> live) bid j' =
  if decide (bid = pid ∧ j' = j) then Some l' else rowAt live bid j'.
Proof.
  intros Hold. pose proof Hold as Hold'.
  apply rowAt_Some in Hold' as (rows & Hrows & Hl).
  unfold rowAt. destruct (decide (bid = pid)) as [->|Hne].
  - rewrite lookup_insert_eq, Hrows. simpl.
    destruct (decide (j' = j)) as [->|Hj].
    + rewrite decide_True by done. apply list_lookup_insert_eq.
      by eapply lookup_lt_Some.
    + rewrite decide_False by tauto. by apply list_lookup_insert_ne.
  - rewrite lookup_insert_ne by done. rewrite decide_False by tauto. done.
Qed.

Lemma liveInit_fold_notin (bs : list Block) (m : LiveMap) k :
  k ∉ fmap b_ID bs →
  foldl (λ (live : LiveMap) b,
           <[b_ID b := replicate (length (b_Succs b)) []]> live) m bs !! k
  = m !! k.
Proof.
  revert m. induction bs as [|b bs IH]; intros m Hk; simpl; [done|].
  rewrite IH.
  - apply lookup_insert_ne. intros Heq. apply Hk.
    rewrite fmap_cons, elem_of_cons. by left.
  - intros Hin. apply Hk. rewrite fmap_cons, elem_of_cons. by right.
Qed.

Lemma liveInit_fold_in (bs : list Block) (m : LiveMap) b :
  NoDup (fmap b_ID bs) → b ∈ bs →
  foldl (λ (live : LiveMap) b,
           <[b_ID b := replicate (length (b_Succs b)) []]> live) m bs
    !! b_ID b
  = Some (replicate (length (b_Succs b)) []).
Proof.
  revert m. induction bs as [|b' bs IH]; intros m Hnd Hb; simpl.
  - by apply elem_of_nil in Hb.
  - rewrite fmap_cons in Hnd. apply list.NoDup_cons in Hnd as [Hnotin Hnd].
    apply elem_of_cons in Hb as [->|Hb].
    + rewrite liveInit_fold_notin by done. apply lookup_insert_eq.
    + by apply IH.
Qed.

Lemma liveInit_fold_rows (bs : list Block) (m : LiveMap) k rows :
  foldl (λ (live : LiveMap) b,
           <[b_ID b := replicate (length (b_Succs b)) []]> live) m bs !! k
  = Some rows →
  m !! k = Some rows ∨ ∃ n, rows = replicate n [].
Proof.
  revert m. induction bs as [|b bs IH]; intros m; simpl; [by left|].
  intros Hk. apply IH in Hk as [Hk|Hk]; [|by right].
  destruct (decide (b_ID b = k)) as [<-|Hne].
  - rewrite lookup_insert_eq in Hk. injection Hk as <-. right. eauto.
  - rewrite lookup_insert_ne in Hk by done. by left.
Qed.

Lemma liveInit_rowAt f b j :
  NoDup (fmap b_ID (f_Blocks f)) → b ∈ f_Blocks f →
  (j < length (b_Succs b))%nat →
  rowAt (liveInit f) (b_ID b) j = Some [].
Proof.
  intros Hnd Hb Hj. unfold rowAt, liveInit.
  rewrite liveInit_fold_in by done. simpl.
  by apply lookup_replicate_2.
Qed.

Lemma liveInv_init f : liveInv f (liveInit f).
Proof.
  split; [done|]. intros bid j l Hrow.
  apply rowAt_Some in Hrow as (rows & Hrows & Hl).
  apply liveInit_fold_rows in Hrows as [Hrows|[n ->]].
  - by rewrite lookup_empty in Hrows.
  - apply lookup_replicate in Hl as [-> _]. split; [constructor|].
    intros x Hx. by apply elem_of_nil in Hx.
Qed.

(** The set at the end of a block. *)
Lemma liveAtEnd_fold live bid (idxs : list nat) (s0 : gset nat) :
  (∀ i, i ∈ idxs → is_Some (rowAt live bid i)) →
  ∃ s, foldlM (λ (s : gset nat) i,
                 l ← liveAt live bid i; Ok (s ∪ list_to_set l)) idxs s0 = Ok s ∧
       ∀ x, x ∈ s ↔
            x ∈ s0 ∨ ∃ i l, i ∈ idxs ∧ rowAt live bid i = Some l ∧ x ∈ l.
Proof.
  revert s0. induction idxs as [|i idxs IH]; intros s0 His; simpl.
  - exists s0. split; [done|]. intros x. split; [by left|].
    intros [?|(i & l & Hi & _)]; [done|]. by apply elem_of_nil in Hi.
  - destruct (His i) as [l Hl]; [by left|].
    rewrite liveAt_rowAt, Hl. simpl.
    destruct (IH (s0 ∪ list_to_set l)) as (s & -> & Hs).
    { intros i' Hi'. apply His. by right. }
    exists s. split; [done|]. intros x. rewrite Hs.
    rewrite elem_of_union, elem_of_list_to_set. split.
    + intros [[?|?]|(i' & l' & Hi' & Hl' & Hx)]; [by left| |].
      * right. exists i, l. split; [by left|done].
      * right. exists i', l'. split; [by right|done].
    + intros [?|(i' & l' & Hi' & Hl' & Hx)]; [by left; left|].
      apply elem_of_cons in Hi' as [->|Hi'].
      * left. right. by simplify_eq.
      * right. eauto.
Qed.

Lemma liveAtEnd_ok f live b :
  NoDup (fmap b_ID (f_Blocks f)) → b ∈ f_Blocks f → liveInv f live →
  ∃ s, liveAtEnd live b = Ok s ∧
       ∀ x, x ∈ s ↔ ∃ i l, (i < length (b_Succs b))%nat ∧
                           rowAt live (b_ID b) i = Some l ∧ x ∈ l.
Proof.
  intros Hnd Hb [Hshape _]. unfold liveAtEnd.
  destruct (liveAtEnd_fold live (b_ID b) (seq 0 (length (b_Succs b))) ∅)
    as (s & -> & Hs).
  { intros i Hi. apply elem_of_seq in Hi. apply Hshape.
    rewrite liveInit_rowAt by (done || lia). eauto. }
  exists s. split; [done|]. intros x. rewrite Hs. split.
  - intros [Hx|(i & l & Hi & ?)]; [by apply elem_of_empty in Hx|].
    apply elem_of_seq in Hi. exists i, l. split; [lia|done].
  - intros (i & l & Hi & ?). right. exists i, l. split; [|done].
    apply elem_of_seq. lia.
Qed.

(** The backward walk over the values of a block. *)
Lemma spillStep_step f (s0 : gset nat) phis0 v :
  (v_Op v = OpLoadReg → v_Args v ≠ []) →
  ∃ s1, spillStep f (s0, phis0) v
        = Ok (s1, phis0 ++ filter (λ v, isStackPhi f v = true) [v]) ∧
        ∀ x, x ∈ s1 → x ∈ s0 ∨ v_Op v = OpLoadReg ∧ arg v 0 = Ok x.
Proof.
  intros Hload. unfold spillStep.
  assert (v_Op v ≠ OpPhi →
          filter (λ v, isStackPhi f v = true) [v] = []) as Hnophi.
  { intros Hop. rewrite filter_cons_False, filter_nil; [done|].
    intros Hphi. apply isStackPhi_spec in Hphi as [? _]. congruence. }
  destruct (decide (v_Op v = OpStoreReg)) as [Hst|Hst].
  { rewrite bool_decide_true by done. rewrite Hnophi by congruence.
    rewrite app_nil_r. eexists; split; [done|]. intros x Hx. left.
    by apply elem_of_difference in Hx as [? _]. }
  rewrite bool_decide_false by done.
  destruct (decide (v_Op v = OpLoadReg)) as [Hld|Hld].
  { rewrite bool_decide_true by done. rewrite Hnophi by congruence.
    rewrite app_nil_r.
    destruct (arg v 0) as [a|] eqn:Ha.
    2:{ exfalso. unfold arg, go_index in Ha.
        destruct (v_Args v) eqn:E; [|done]. by apply Hload. }
    simpl. eexists; split; [done|]. intros x Hx.
    apply elem_of_union in Hx as [?|Hx]; [by left|].
    apply elem_of_singleton in Hx as ->. by right. }
  rewrite bool_decide_false by done.
  destruct (isStackPhi f v) eqn:Hphi.
  - rewrite filter_cons_True, filter_nil by done.
    eexists; split; [done|]. intros x Hx. left.
    by apply elem_of_difference in Hx as [? _].
  - rewrite filter_cons_False, filter_nil, app_nil_r by (by rewrite Hphi).
    eexists; split; [done|]. intros x Hx. by left.
Qed.

Lemma spillStep_fold f (vs : list Value) (s0 : gset nat) phis0 :
  (∀ v, v ∈ vs → v_Op v = OpLoadReg → v_Args v ≠ []) →
  ∃ s, foldlM (spillStep f) vs (s0, phis0)
       = Ok (s, phis0 ++ filter (λ v, isStackPhi f v = true) vs) ∧
       ∀ x, x ∈ s →
            x ∈ s0 ∨ ∃ v, v ∈ vs ∧ v_Op v = OpLoadReg ∧ arg v 0 = Ok x.
Proof.
  revert s0 phis0. induction vs as [|v vs IH]; intros s0 phis0 Hload.
  - exists s0. simpl. rewrite app_nil_r. split; [done|]. by left.
  - rewrite foldlM_cons.
    destruct (spillStep_step f s0 phis0 v) as (s1 & -> & Hs1).
    { apply Hload. by left. }
    simpl.
    destruct (IH s1 (phis0 ++ filter (λ v, isStackPhi f v = true) [v]))
      as (s & -> & Hs).
    { intros v' Hv'. apply Hload. by right. }
    exists s. split.
    + f_equal. f_equal. rewrite <- app_assoc. f_equal.
      by rewrite <- list.filter_app.
    + intros x Hx. apply Hs in Hx as [Hx|(v' & ? & ? & ?)].
      * apply Hs1 in Hx as [?|[? ?]]; [by left|].
        right. exists v. split; [by left|done].
      * right. exists v'. split; [by right|done].
Qed.

Lemma succIndex_lookup (succs : list ID) bid :
  bid ∈ succs → succs !! succIndex succs bid = Some bid.
Proof.
  induction succs as [|s succs IH]; intros Hin; simpl.
  - by apply elem_of_nil in Hin.
  - case_bool_decide as Hs; [by subst|].
    apply elem_of_cons in Hin as [->|Hin]; [done|]. by apply IH.
Qed.

Lemma find_block (bs : list Block) p :
  NoDup (b_ID <$> bs) → p ∈ bs →
  find (λ b, bool_decide (b_ID b = b_ID p)) bs = Some p.
Proof.
  induction bs as [|b bs IH]; intros Hnd Hp; simpl.
  - by apply elem_of_nil in Hp.
  - rewrite fmap_cons in Hnd. apply list.NoDup_cons in Hnd as [Hnotin Hnd].
    apply elem_of_cons in Hp as [->|Hp].
    + by rewrite bool_decide_true.
    + rewrite bool_decide_false; [by apply IH|].
      intros Heq. apply Hnotin. rewrite Heq. by apply list_elem_of_fmap_2.
Qed.

Lemma blockOf_in f p :
  NoDup (b_ID <$> f_Blocks f) → p ∈ f_Blocks f → blockOf f (b_ID p) = Ok p.
Proof. intros Hnd Hp. unfold blockOf. by rewrite find_block. Qed.

Lemma phiArgs_fold (phis : list Value) (i : nat) (t0 : gset nat) :
  (∀ v, v ∈ phis → is_Some (v_Args v !! i)) →
  ∃ t, foldlM (λ (t : gset nat) v, a ← arg v i; Ok (t ∪ {[a]})) phis t0 = Ok t ∧
       ∀ x, x ∈ t ↔ x ∈ t0 ∨ ∃ v, v ∈ phis ∧ arg v i = Ok x.
Proof.
  revert t0. induction phis as [|v phis IH]; intros t0 Hargs.
  - exists t0. split; [done|]. intros x. split; [by left|].
    intros [?|(v & Hv & _)]; [done|]. by apply elem_of_nil in Hv.
  - rewrite foldlM_cons. destruct (Hargs v) as [a Ha]; [by left|].
    assert (arg v i = Ok a) as Harg by (unfold arg, go_index; by rewrite Ha).
    rewrite Harg. simpl.
    destruct (IH (t0 ∪ {[a]})) as (t & -> & Ht).
    { intros v' Hv'. apply Hargs. by right. }
    exists t. split; [done|]. intros x. rewrite Ht, elem_of_union,
      elem_of_singleton. split.
    + intros [[?| ->]|(v' & Hv' & ?)]; [by left| |].
      * right. exists v. split; [by left|done].
      * right. exists v'. split; [by right|done].
    + intros [?|(v' & Hv' & Hx)]; [by left; left|].
      apply elem_of_cons in Hv' as [->|Hv'].
      * left. right. congruence.
      * right. eauto.
Qed.

Lemma elem_of_universe f a :
  a ∈ universe f ↔ ∃ v, v ∈ allValues f ∧ a ∈ spillArgs f v.
Proof.
  unfold universe. rewrite elem_of_list_to_set, list_elem_of_bind.
  split; intros (v & ? & ?); eauto.
Qed.

Lemma elem_of_universe_load f v a :
  v ∈ allValues f → v_Op v = OpLoadReg → arg v 0 = Ok a → a ∈ universe f.
Proof.
  intros Hv Hop Ha. apply elem_of_universe. exists v. split; [done|].
  unfold spillArgs. rewrite bool_decide_true by done.
  unfold arg, go_index in Ha. destruct (v_Args v) as [|a' args]; [done|].
  injection Ha as ->. simpl. by left.
Qed.

Lemma elem_of_universe_phi f v a :
  v ∈ allValues f → isStackPhi f v = true → a ∈ v_Args v → a ∈ universe f.
Proof.
  intros Hv Hphi Ha. apply elem_of_universe. exists v. split; [done|].
  unfold spillArgs. rewrite bool_decide_false, Hphi; [done|].
  apply isStackPhi_spec in Hphi as [-> _]. done.
Qed.

Lemma elem_of_allValues f b v :
  b ∈ f_Blocks f → v ∈ b_Values b → v ∈ allValues f.
Proof.
  intros Hb Hv. unfold allValues. apply list_elem_of_join.
  exists (b_Values b). split; [done|]. by apply list_elem_of_fmap_2.
Qed.

Lemma arg_elem_of v i a : arg v i = Ok a → a ∈ v_Args v.
Proof.
  unfold arg, go_index. destruct (v_Args v !! i) eqn:E; [|done].
  intros [= <-]. by eapply list_elem_of_lookup_2.
Qed.

Lemma elem_of_set_list (x : nat) (l : list nat) :
  x ∈ (list_to_set l : gset nat) → x ∈ l.
Proof. apply elem_of_list_to_set. Qed.

Lemma set_list_elem_of (x : nat) (l : list nat) :
  x ∈ l → x ∈ (list_to_set l : gset nat).
Proof. apply elem_of_list_to_set. Qed.

Section Live.
Variable f : Func.
Variable po : list Block.
Hypothesis Hwf : wfCFG po f.

(** The body of the loop over the predecessors: it succeeds, keeps the
    invariant and only adds to the live map; either it changes nothing,
    and then the edge already holds the set at the start of the block and
    the phi inputs, or it raises the flag and the live map grows. *)
Lemma growPred_step b (s : gset nat) phis live (c : bool) i pid :
  liveInv f live → b ∈ po →
  (∀ x, x ∈ s → x ∈ universe f) →
  (∀ v, v ∈ phis → v ∈ b_Values b ∧ isStackPhi f v = true) →
  b_Preds b !! i = Some pid →
  ∃ p old live' c',
    blockOf f pid = Ok p ∧
    rowAt live (b_ID p) (succIndex (b_Succs p) (b_ID b)) = Some old ∧
    growPred f b s phis (live, c) (i, pid) = Ok (live', c') ∧
    liveInv f live' ∧ flat live ⊆ flat live' ∧
    ((live' = live ∧ c' = c ∧ (∀ x, x ∈ s → x ∈ old) ∧
      (∀ v a, v ∈ phis → arg v i = Ok a → a ∈ old)) ∨
     (c' = true ∧ flat live ⊂ flat live')).
Proof.
  intros Hinv Hb Hs Hphis Hpid.
  destruct Hwf as [Hnd Hpo Hpreds Hloads Hphiargs].
  destruct (Hpreds b pid Hb) as (p & Hp & <- & Hsucc).
  { by eapply list_elem_of_lookup_2. }
  set (j := succIndex (b_Succs p) (b_ID b)).
  assert (j < length (b_Succs p))%nat as Hj.
  { eapply lookup_lt_Some. by apply succIndex_lookup. }
  destruct Hinv as [Hshape Hcont].
  destruct (proj2 (Hshape (b_ID p) j)) as [old Hold].
  { rewrite liveInit_rowAt by done. eauto. }
  destruct (Hcont _ _ _ Hold) as [Hnodup HoldU].
  destruct (phiArgs_fold phis i (list_to_set old ∪ s)) as (t & Ht & Htin).
  { intros v Hv. destruct (Hphis v Hv) as [Hvb Hphi].
    apply lookup_lt_is_Some. eapply Nat.lt_le_trans.
    - eapply lookup_lt_Some. exact Hpid.
    - by eapply Hphiargs. }
  assert (∀ x, x ∈ t → x ∈ universe f) as HtU.
  { intros x Hx. apply Htin in Hx as [Hx|(v & Hv & Hx)].
    - apply elem_of_union in Hx as [Hx|Hx]; [|by apply Hs].
      apply elem_of_list_to_set in Hx. by apply HoldU.
    - destruct (Hphis v Hv) as [Hvb Hphi].
      eapply elem_of_universe_phi; [|exact Hphi|by eapply arg_elem_of].
      eapply elem_of_allValues; [by apply Hpo|done]. }
  assert (list_to_set old ⊆ t) as Hsub.
  { intros x Hx. apply Htin. left. by apply elem_of_union_l. }
  exists p, old.
  unfold growPred. rewrite blockOf_in by done. simpl. fold j.
  rewrite liveAt_rowAt, Hold. simpl. rewrite Ht. simpl.
  case_bool_decide as Hsize.
  - exists live, c. do 3 (split; [done|]). split; [by split|].
    split; [done|]. left. do 2 (split; [done|]).
    assert (t = list_to_set old) as ->.
    { symmetry. apply set_subseteq_size_eq; [done|].
      rewrite size_list_to_set by done. lia. }
    split.
    + intros x Hx. apply elem_of_set_list, Htin. left.
      by apply elem_of_union_r.
    + intros v a Hv Ha. apply elem_of_set_list, Htin. right. eauto.
  - eexists _, true. do 3 (split; [done|]).
    set (live' := <[b_ID p := _]> live).
    assert (∀ bid j', rowAt live' bid j' =
              if decide (bid = b_ID p ∧ j' = j) then Some (elements t)
              else rowAt live bid j') as Hrow.
    { intros bid j'. unfold live'. by erewrite rowAt_insert. }
    assert (flat live ⊆ flat live') as Hmono.
    { intros [[bid j'] x] Hin. apply elem_of_flat in Hin as (l & Hl & Hx).
      apply elem_of_flat. rewrite Hrow. case_decide as Hd; [|eauto].
      destruct Hd as [-> ->]. exists (elements t). split; [done|].
      apply elem_of_elements, Hsub, elem_of_list_to_set. congruence. }
    split; [|split; [done|]].
    + split.
      * intros bid j'. rewrite Hrow. case_decide as Hd; [|apply Hshape].
        destruct Hd as [-> ->]. rewrite <- Hshape, Hold. split; eauto.
      * intros bid j' l. rewrite Hrow. case_decide as Hd; [|apply Hcont].
        intros [= <-]. split; [apply NoDup_elements|].
        intros x Hx. apply HtU. by apply elem_of_elements.
    + right. split; [done|]. split; [done|].
      intros Hback. apply Hsize.
      assert (t = list_to_set old) as ->.
      { symmetry. apply (anti_symm (⊆)); [done|].
        intros x Hx. apply elem_of_list_to_set.
        assert ((b_ID p, j, x) ∈ flat live) as Hin.
        { apply Hback, elem_of_flat. rewrite Hrow, decide_True by done.
          exists (elements t). split; [done|]. by apply elem_of_elements. }
        apply elem_of_flat in Hin as (l & Hl & Hx'). congruence. }
      by rewrite size_list_to_set.
Qed.

Lemma growPred_flag b (s : gset nat) phis live i pid live' c' :
  growPred f b s phis (live, true) (i, pid) = Ok (live', c') → c' = true.
Proof.
  unfold growPred. destruct (blockOf f pid); simpl; [|done].
  destruct (liveAt live _ _); simpl; [|done].
  destruct (foldlM _ phis _); simpl; [|done].
  case_bool_decide; by intros [= _ <-].
Qed.

(** The set at the start of a block and the stack phis that the walk
    saved. *)
Lemma liveAtStart_ok b live :
  liveInv f live → b ∈ po →
  ∃ s, liveAtStart f live b
       = Ok (s, filter (λ v, isStackPhi f v = true) (rev (b_Values b))) ∧
       (∀ x, x ∈ s → x ∈ universe f) ∧
       (∀ x, x ∈ s →
             (∃ i l, (i < length (b_Succs b))%nat ∧
                     rowAt live (b_ID b) i = Some l ∧ x ∈ l) ∨
             (∃ v, v ∈ b_Values b ∧ v_Op v = OpLoadReg ∧ arg v 0 = Ok x)).
Proof.
  intros Hinv Hb. pose proof Hwf as [Hnd Hpo Hpreds Hloads Hphiargs].
  destruct (liveAtEnd_ok f live b Hnd (Hpo b Hb) Hinv) as (s0 & Hs0 & Hin0).
  unfold liveAtStart. rewrite Hs0. simpl.
  destruct (spillStep_fold f (rev (b_Values b)) s0 []) as (s & -> & Hs).
  { intros v Hv. apply Hloads. eapply elem_of_allValues; [by apply Hpo|].
    apply list_elem_of_In. apply in_rev. by apply list_elem_of_In. }
  exists s. split; [done|].
  assert (∀ x, x ∈ s →
             (∃ i l, (i < length (b_Succs b))%nat ∧
                     rowAt live (b_ID b) i = Some l ∧ x ∈ l) ∨
             (∃ v, v ∈ b_Values b ∧ v_Op v = OpLoadReg ∧ arg v 0 = Ok x))
    as Hchar.
  { intros x Hx. apply Hs in Hx as [Hx|(v & Hv & ? & ?)].
    - left. by apply Hin0.
    - right. exists v. split; [|done].
      apply list_elem_of_In. apply in_rev. by apply list_elem_of_In. }
  split; [|done].
  intros x Hx. apply Hchar in Hx as [(i & l & _ & Hl & Hx)|(v & Hv & Hop & Ha)].
  - destruct Hinv as [_ Hcont]. by eapply Hcont.
  - eapply elem_of_universe_load; [|exact Hop|exact Ha].
    eapply elem_of_allValues; [by apply Hpo|done].
Qed.

(** One block of a round. *)
Lemma liveBlock_step b live (c : bool) :
  liveInv f live → b ∈ po →
  ∃ live' c',
    liveBlock f (live, c) b = Ok (live', c') ∧
    liveInv f live' ∧ flat live ⊆ flat live' ∧
    ((live' = live ∧ c' = c) ∨ (c' = true ∧ flat live ⊂ flat live')).
Proof.
  intros Hinv Hb.
  destruct (liveAtStart_ok b live Hinv Hb) as (s & Hstart & HsU & _).
  unfold liveBlock. simpl. rewrite Hstart. simpl.
  set (phis := filter _ _).
  destruct (foldlM_inv
    (λ st : LiveMap * bool,
       liveInv f st.1 ∧ flat live ⊆ flat st.1 ∧
       ((st.1 = live ∧ st.2 = c) ∨ (st.2 = true ∧ flat live ⊂ flat st.1)))
    (growPred f b s phis) (imap (λ i p, (i, p)) (b_Preds b)) (live, c))
    as ([live' c'] & Hfold & Hinv' & Hsub & Hcase).
  { simpl. split; [done|]. split; [done|]. by left. }
  { intros [live1 c1] [i pid] Hin (Hinv1 & Hsub1 & Hcase1). simpl in *.
    apply elem_of_lookup_imap in Hin as (i' & pid' & [= <- <-] & Hpid).
    destruct (growPred_step b s phis live1 c1 i pid Hinv1 Hb HsU)
      as (p & old & live2 & c2 & _ & _ & Hstep & Hinv2 & Hsub2 & Hcase2);
      [|done|].
    { intros v Hv. unfold phis in Hv.
      apply list_elem_of_filter in Hv as [Hphi Hv]. split; [|done].
      apply list_elem_of_In. apply in_rev. by apply list_elem_of_In. }
    exists (live2, c2). split; [done|]. simpl.
    split; [done|]. split; [by etrans|].
    destruct Hcase2 as [(-> & -> & _)|[-> Hstrict]]; [done|].
    right. split; [done|]. eapply strict_trans_r; [|exact Hstrict].
    done. }
  exists live', c'. done.
Qed.

(** One round. *)
Lemma livePass_step live :
  liveInv f live →
  ∃ live' c,
    livePass f po live = Ok (live', c) ∧
    liveInv f live' ∧
    ((live' = live ∧ c = false) ∨ (c = true ∧ flat live ⊂ flat live')).
Proof.
  intros Hinv. unfold livePass.
  destruct (foldlM_inv
    (λ st : LiveMap * bool,
       liveInv f st.1 ∧ flat live ⊆ flat st.1 ∧
       ((st.1 = live ∧ st.2 = false) ∨ (st.2 = true ∧ flat live ⊂ flat st.1)))
    (liveBlock f) po (live, false))
    as ([live' c'] & Hfold & Hinv' & Hsub & Hcase).
  { simpl. split; [done|]. split; [done|]. by left. }
  { intros [live1 c1] b Hb (Hinv1 & Hsub1 & Hcase1). simpl in *.
    destruct (liveBlock_step b live1 c1 Hinv1 Hb)
      as (live2 & c2 & Hstep & Hinv2 & Hsub2 & Hcase2).
    exists (live2, c2). split; [done|]. simpl.
    split; [done|]. split; [by etrans|].
    destruct Hcase2 as [[-> ->]|[-> Hstrict]]; [done|].
    right. split; [done|]. eapply strict_trans_r; [|exact Hstrict].
    done. }
  exists live', c'. done.
Qed.

(** The loop stops: a round that changes something makes the live map
    strictly larger, within a finite bound. *)
Lemma liveLoop_terminates fuel : ∀ live,
  liveInv f live →
  (size (bound (liveInit f) (universe f)) - size (flat live) < fuel)%nat →
  ∃ live', liveLoop fuel f po live = Ok live' ∧ liveInv f live' ∧
           livePass f po live' = Ok (live', false).
Proof.
  induction fuel as [|fuel IH]; intros live Hinv Hfuel; [lia|].
  simpl. destruct (livePass_step live Hinv) as (live' & c & Hpass & Hinv' & Hc).
  rewrite Hpass. simpl.
  destruct Hc as [[-> ->]|[-> Hstrict]].
  - exists live. done.
  - apply IH; [done|].
    apply subset_size in Hstrict.
    pose proof (subseteq_size _ _ (liveInv_flat_bound f live' Hinv')). lia.
Qed.

Lemma growPreds_flag b (s : gset nat) phis l : ∀ live live' c',
  foldlM (growPred f b s phis) l (live, true) = Ok (live', c') → c' = true.
Proof.
  induction l as [|[i pid] l IH]; intros live live' c'.
  - by intros [= _ <-].
  - rewrite foldlM_cons.
    destruct (growPred f b s phis (live, true) (i, pid)) as [[live1 c1]|] eqn:E;
      simpl; [|done].
    apply growPred_flag in E as ->. apply IH.
Qed.

Lemma liveBlock_flag b live live' c' :
  liveBlock f (live, true) b = Ok (live', c') → c' = true.
Proof.
  unfold liveBlock. simpl.
  destruct (liveAtStart f live b) as [[s phis]|]; simpl; [|done].
  apply growPreds_flag.
Qed.

Lemma liveBlocks_flag l : ∀ live live' c',
  foldlM (liveBlock f) l (live, true) = Ok (live', c') → c' = true.
Proof.
  induction l as [|b l IH]; intros live live' c'.
  - by intros [= _ <-].
  - rewrite foldlM_cons.
    destruct (liveBlock f (live, true) b) as [[live1 c1]|] eqn:E;
      simpl; [|done].
    apply liveBlock_flag in E as ->. apply IH.
Qed.

(** A loop over the predecessors that leaves the flag down has changed
    nothing, and every edge holds what the loop would add. *)
Lemma growPreds_fixed b (s : gset nat) phis live l live' :
  liveInv f live → b ∈ po →
  (∀ x, x ∈ s → x ∈ universe f) →
  (∀ v, v ∈ phis → v ∈ b_Values b ∧ isStackPhi f v = true) →
  (∀ i pid, (i, pid) ∈ l → b_Preds b !! i = Some pid) →
  foldlM (growPred f b s phis) l (live, false) = Ok (live', false) →
  live' = live ∧
  ∀ i pid, (i, pid) ∈ l →
    ∃ p old, blockOf f pid = Ok p ∧
             rowAt live (b_ID p) (succIndex (b_Succs p) (b_ID b)) = Some old ∧
             (∀ x, x ∈ s → x ∈ old) ∧
             (∀ v a, v ∈ phis → arg v i = Ok a → a ∈ old).
Proof.
  intros Hinv Hb HsU Hphis. induction l as [|[i pid] l IH]; intros Hl Hfold.
  - injection Hfold as <-. split; [done|]. intros i pid Hin.
    by apply elem_of_nil in Hin.
  - rewrite foldlM_cons in Hfold.
    destruct (growPred_step b s phis live false i pid Hinv Hb HsU Hphis)
      as (p & old & live1 & c1 & Hp & Hold & Hstep & _ & _ & Hcase).
    { apply Hl. by left. }
    rewrite Hstep in Hfold. simpl in Hfold.
    destruct Hcase as [(-> & -> & Hs & Hargs)|[-> _]].
    + destruct IH as [-> Hrest]; [|done|].
      { intros i' pid' Hin. apply Hl. by right. }
      split; [done|]. intros i' pid' Hin.
      apply elem_of_cons in Hin as [[= -> ->]|Hin]; [|by apply Hrest].
      exists p, old. done.
    + by apply growPreds_flag in Hfold.
Qed.

Lemma liveBlock_fixed b live live' :
  liveInv f live → b ∈ po →
  liveBlock f (live, false) b = Ok (live', false) →
  live' = live ∧ phiInputsOnEdges f live b ∧ startExcludesPhiInputs f live b.
Proof.
  intros Hinv Hb Hblock.
  destruct (liveAtStart_ok b live Hinv Hb) as (s & Hstart & HsU & Hschar).
  unfold liveBlock in Hblock. simpl in Hblock. rewrite Hstart in Hblock.
  simpl in Hblock.
  assert (∀ v, v ∈ filter (λ v, isStackPhi f v = true) (rev (b_Values b)) ↔
               v ∈ b_Values b ∧ isStackPhi f v = true) as Hphis.
  { intros v. rewrite list_elem_of_filter, !list_elem_of_In, <- in_rev. tauto. }
  apply growPreds_fixed in Hblock as [-> Hedges]; try done.
  - split; [done|]. split.
    + intros i pid Hpid. destruct (Hedges i pid) as (p & old & Hp & Hold & _ & Hargs).
      { apply elem_of_lookup_imap. eauto. }
      exists p, old. split; [done|]. split; [by rewrite liveAt_rowAt, Hold|].
      intros v Hv Hphi.
      destruct Hwf as [_ _ _ _ Hphiargs].
      destruct (lookup_lt_is_Some_2 (v_Args v) i) as [a Ha].
      { eapply Nat.lt_le_trans; [by eapply lookup_lt_Some|by eapply Hphiargs]. }
      assert (arg v i = Ok a) as Harg by (unfold arg, go_index; by rewrite Ha).
      exists a. split; [done|]. eapply Hargs; [|done]. by apply Hphis.
    + eexists _, _. split; [exact Hstart|]. intros x Hx.
      apply Hschar in Hx as [(i & l & ? & Hl & ?)|?]; [|by right].
      left. exists i, l. by rewrite liveAt_rowAt, Hl.
  - intros v Hv. by apply Hphis.
  - intros i pid Hin.
    by apply elem_of_lookup_imap in Hin as (? & ? & [= <- <-] & ?).
Qed.

Lemma liveBlocks_fixed live l live' :
  liveInv f live → (∀ b, b ∈ l → b ∈ po) →
  foldlM (liveBlock f) l (live, false) = Ok (live', false) →
  live' = live ∧
  ∀ b, b ∈ l → phiInputsOnEdges f live b ∧ startExcludesPhiInputs f live b.
Proof.
  intros Hinv. induction l as [|b l IH]; intros Hl Hfold.
  - injection Hfold as <-. split; [done|]. intros b Hb.
    by apply elem_of_nil in Hb.
  - rewrite foldlM_cons in Hfold.
    destruct (liveBlock_step b live false Hinv) as (live1 & c1 & Hstep & _ & _ & Hcase).
    { apply Hl. by left. }
    rewrite Hstep in Hfold. simpl in Hfold.
    destruct Hcase as [[-> ->]|[-> _]].
    + apply liveBlock_fixed in Hstep as (_ & Hedges & Hstart);
        [|done|apply Hl; by left].
      destruct IH as [-> Hrest]; [|done|].
      { intros b' Hb'. apply Hl. by right. }
      split; [done|]. intros b' Hb'.
      apply elem_of_cons in Hb' as [->|Hb']; [done|by apply Hrest].
    + by apply liveBlocks_flag in Hfold.
Qed.

Lemma liveLoop_more_fuel fuel : ∀ live live' n,
  liveLoop fuel f po live = Ok live' → (fuel ≤ n)%nat →
  liveLoop n f po live = Ok live'.
Proof.
  induction fuel as [|fuel IH]; intros live live' n; [done|].
  intros Hloop Hn. destruct n as [|n]; [lia|]. simpl in *.
  destruct (livePass f po live) as [[live1 c]|]; simpl in *; [|done].
  destruct c; [|done]. apply IH; [done|lia].
Qed.

End Live.

(** C8.  On a well-formed control-flow graph [liveSpills] returns, given
    enough fuel; in its result, for every block of the traversal and
    every predecessor index, the list of the edge from that predecessor
    holds the matching argument of each stack phi of the block, while the
    set at the start of the block holds only what is live at its end or
    loaded in the block. *)
Theorem liveSpills_phi_inputs_on_edges (postorder : Func → list Block)
    (f : Func) :
  wfCFG (postorder f) f →
  ∃ fuel live,
    (∀ n, (fuel ≤ n)%nat → liveSpills postorder n f = Ok live) ∧
    ∀ b, b ∈ postorder f →
         phiInputsOnEdges f live b ∧ startExcludesPhiInputs f live b.
Proof.
  intros Hwf.
  set (fuel := S (size (bound (liveInit f) (universe f)))).
  destruct (liveLoop_terminates f (postorder f) Hwf fuel (liveInit f))
    as (live & Hloop & Hinv & Hfix); [apply liveInv_init|unfold fuel; lia|].
  exists fuel, live. split.
  - intros n Hn. unfold liveSpills. by eapply liveLoop_more_fuel.
  - unfold livePass in Hfix.
    apply (liveBlocks_fixed f (postorder f) Hwf) in Hfix as [_ Hall]; done.
Qed.

(** ** The interference graph *)

Lemma interfering_addEdge itf a b x y :
  y ∈ interfering (addEdge itf a b) x ↔
  y ∈ interfering itf x ∨ (x = a ∧ y = b).
Proof.
  unfold addEdge, interfering at 1. destruct (decide (x = a)) as [->|Hne].
  - rewrite lookup_insert_eq. simpl. rewrite elem_of_app, list_elem_of_singleton.
    tauto.
  - rewrite lookup_insert_ne by done. fold (interfering itf x). tauto.
Qed.

Lemma interfere_edges_inv (f : Func) (types : gmap nat Typ) v ids :
  ∀ itf : Interfere,
  spillRef f (v_ID v) → (∀ id, id ∈ ids → spillRef f id) →
  symmetric itf ∧ (∀ x y, y ∈ interfering itf x → spillRef f y) →
  let itf' := foldl (λ itf id,
                       if Equal (v_Type v) (types !! id)
                       then addEdge (addEdge itf (v_ID v) id) id (v_ID v)
                       else itf) itf ids in
  symmetric itf' ∧ (∀ x y, y ∈ interfering itf' x → spillRef f y).
Proof.
  induction ids as [|id ids IH]; intros itf Hv Hids Hinv; simpl; [done|].
  apply IH; [done| |].
  { intros id' Hid'. apply Hids. by right. }
  destruct (Equal _ _); [|done]. destruct Hinv as [Hsym Href]. split.
  - intros x y. rewrite !interfering_addEdge. intros [[Hxy|[-> ->]]|[-> ->]].
    + left. left. by apply Hsym.
    + right. done.
    + left. right. done.
  - intros x y. rewrite !interfering_addEdge. intros [[Hxy|[-> ->]]|[-> ->]].
    + by eapply Href.
    + apply Hids. by left.
    + done.
Qed.

Lemma interfereStep_inv (f : Func) types (s : gset nat) itf v :
  v ∈ allValues f →
  (v_Op v = OpLoadReg → v_Args v ≠ []) →
  (∀ x, x ∈ s → x ∈ universe f) →
  symmetric itf ∧ (∀ x y, y ∈ interfering itf x → spillRef f y) →
  ∃ s' itf', interfereStep f types (s, itf) v = Ok (s', itf') ∧
    (∀ x, x ∈ s' → x ∈ universe f) ∧
    symmetric itf' ∧ (∀ x y, y ∈ interfering itf' x → spillRef f y).
Proof.
  intros Hv Hload Hs Hinv. unfold interfereStep.
  destruct (bool_decide (v_Op v = OpStoreReg) || isStackPhi f v) eqn:Hsp.
  - eexists _, _. split; [done|]. split.
    { intros x Hx. apply Hs. by apply elem_of_difference in Hx as [? _]. }
    apply interfere_edges_inv; [| |done].
    + right. exists v. split; [done|]. split; [|done].
      apply orb_true_iff in Hsp as [Hst|?]; [left|by right].
      by apply bool_decide_eq_true in Hst.
    + intros id Hid. left. apply Hs. apply elem_of_elements in Hid.
      by apply elem_of_difference in Hid as [? _].
  - destruct (decide (v_Op v = OpLoadReg)) as [Hld|Hld];
      [rewrite bool_decide_true by done|rewrite bool_decide_false by done].
    + destruct (arg v 0) as [a|] eqn:Ha.
      2:{ exfalso. unfold arg, go_index in Ha.
          destruct (v_Args v) eqn:E; [|done]. by apply Hload. }
      simpl. eexists _, _. split; [done|]. split; [|done].
      intros x Hx. apply elem_of_union in Hx as [?|Hx]; [by apply Hs|].
      apply elem_of_singleton in Hx as ->.
      by eapply elem_of_universe_load.
    + eexists _, _. split; [done|]. split; [exact Hs|exact Hinv].
Qed.

Lemma buildInterference_ok (f : Func) (live : LiveMap) :
  NoDup (b_ID <$> f_Blocks f) →
  (∀ v, v ∈ allValues f → v_Op v = OpLoadReg → v_Args v ≠ []) →
  liveInv f live →
  ∃ itf, buildInterference f live = Ok itf ∧ symmetric itf ∧
         ∀ x y, y ∈ interfering itf x → spillRef f y.
Proof.
  intros Hnd Hloads Hinv. unfold buildInterference.
  apply (foldlM_inv
    (λ itf : Interfere,
       symmetric itf ∧ ∀ x y, y ∈ interfering itf x → spillRef f y)).
  { split; intros x y Hy; unfold interfering in Hy;
      rewrite lookup_empty in Hy; by apply elem_of_nil in Hy. }
  intros itf b Hb Hitf. unfold interfereBlock.
  destruct (liveAtEnd_ok f live b Hnd Hb Hinv) as (s0 & -> & Hs0). simpl.
  destruct (foldlM_inv
    (λ st : gset nat * Interfere,
       (∀ x, x ∈ st.1 → x ∈ universe f) ∧
       symmetric st.2 ∧ ∀ x y, y ∈ interfering st.2 x → spillRef f y)
    (interfereStep f (valueTypes f)) (rev (b_Values b)) (s0, itf))
    as ([s' itf'] & -> & _ & Hitf').
  { simpl. split; [|done]. intros x Hx.
    apply Hs0 in Hx as (i & l & _ & Hl & Hx).
    destruct Hinv as [_ Hcont]. by eapply Hcont. }
  { intros [s1 itf1] v Hv (Hs1 & Hitf1). cbn [fst snd] in *.
    assert (v ∈ allValues f) as Hvall.
    { eapply elem_of_allValues; [done|].
      apply list_elem_of_In. apply in_rev. by apply list_elem_of_In. }
    destruct (interfereStep_inv f (valueTypes f) s1 itf1 v Hvall)
      as (s2 & itf2 & -> & ? & ?); try done.
    { by apply Hloads. }
    eexists. split; [done|]. done. }
  simpl. eauto.
Qed.

(** ** Picking slots *)

Lemma NoDup_fmap_eq {A B} (g : A → B) (l : list A) x y :
  NoDup (g <$> l) → x ∈ l → y ∈ l → g x = g y → x = y.
Proof.
  induction l as [|a l IH]; intros Hnd Hx Hy Heq.
  - by apply elem_of_nil in Hx.
  - rewrite fmap_cons in Hnd. apply list.NoDup_cons in Hnd as [Hnotin Hnd].
    apply elem_of_cons in Hx as [->|Hx]; apply elem_of_cons in Hy as [->|Hy].
    + done.
    + exfalso. apply Hnotin. rewrite Heq. by apply list_elem_of_fmap_2.
    + exfalso. apply Hnotin. rewrite <- Heq. by apply list_elem_of_fmap_2.
    + by apply IH.
Qed.

Lemma getHome_setHome_args (f : Func) (l : option Location) (args : list ID) id :
  getHome (foldl (λ f a, setHome f a l) f args) id =
  if decide (id ∈ args) then l else getHome f id.
Proof.
  revert f. induction args as [|a args IH]; intros f; cbn [foldl].
  - destruct (decide (id ∈ [])) as [Hin|_]; [|done].
    by apply elem_of_nil in Hin.
  - rewrite IH, getHome_setHome.
    destruct (decide (id ∈ a :: args)) as [Hin|Hnin].
    + destruct (decide (id ∈ args)) as [|Hn]; [done|].
      apply elem_of_cons in Hin as [->|?]; [|done].
      by destruct (decide (a = a)).
    + destruct (decide (id ∈ args)) as [Hin|_].
      * exfalso. apply Hnin. by right.
      * destruct (decide (id = a)) as [->|_]; [|done].
        exfalso. apply Hnin. by left.
Qed.

Lemma getHome_setHomes f v loc id :
  getHome (setHomes f v loc) id =
  if decide (id ∈ assigned v) then Some (LocSlot loc) else getHome f id.
Proof.
  unfold setHomes, assigned. destruct (bool_decide (v_Op v = OpPhi)).
  - rewrite getHome_setHome_args, getHome_setHome.
    destruct (decide (id ∈ v_ID v :: v_Args v)) as [Hin|Hnin].
    + destruct (decide (id ∈ v_Args v)) as [|Hn]; [done|].
      apply elem_of_cons in Hin as [->|?]; [|done].
      by destruct (decide (v_ID v = v_ID v)).
    + destruct (decide (id ∈ v_Args v)) as [Hin|_].
      * exfalso. apply Hnin. by right.
      * destruct (decide (id = v_ID v)) as [->|_]; [|done].
        exfalso. apply Hnin. by left.
  - rewrite getHome_setHome.
    destruct (decide (id ∈ [v_ID v])) as [Hin|Hnin].
    + apply list_elem_of_singleton in Hin as ->.
      by destruct (decide (v_ID v = v_ID v)).
    + destruct (decide (id = v_ID v)) as [->|_]; [|done].
      exfalso. apply Hnin. by left.
Qed.

Lemma f_autos_setHome_args (f : Func) (l : option Location) (args : list ID) :
  f_autos (foldl (λ f a, setHome f a l) f args) = f_autos f.
Proof. revert f. induction args as [|a args IH]; intros f; simpl; [done|]. by rewrite IH. Qed.

Lemma f_autos_setHomes f v loc : f_autos (setHomes f v loc) = f_autos f.
Proof.
  unfold setHomes. destruct (bool_decide _); [|done].
  by rewrite f_autos_setHome_args.
Qed.

(** The allocation of the Arg values. *)
Lemma allocArgs_ok (f : Func) :
  (∀ v, v ∈ b_Values (f_Entry f) → v_Op v = OpArg → ∃ n, v_Aux v = AuxNode n) →
  ∃ f1, allocArgs f = Ok f1 ∧ f_autos f1 = f_autos f ∧
        f_Blocks f1 = f_Blocks f ∧
        ∀ id, getHome f1 id = getHome f id ∨
              (∃ v l, v ∈ b_Values (f_Entry f) ∧ v_Op v = OpArg ∧
                      v_ID v = id ∧ getHome f1 id = Some (LocSlot l)).
Proof.
  intros Hargs. unfold allocArgs.
  generalize (b_Values (f_Entry f)) Hargs. clear Hargs. intros vs Hargs.
  assert (∃ f1, foldlM (λ f v,
            if negb (bool_decide (v_Op v = OpArg)) then Ok f
            else match v_Aux v with
                 | AuxNode n =>
                     Ok (setHome f (v_ID v)
                           (Some (LocSlot (mkLocalSlot (Some n) (v_Type v)
                                                       (v_AuxInt v)))))
                 | _ => Fail TypeAssertion
                 end) vs f = Ok f1 ∧ f_autos f1 = f_autos f ∧
        f_Blocks f1 = f_Blocks f ∧
        ∀ id, getHome f1 id = getHome f id ∨
              (∃ v l, v ∈ vs ∧ v_Op v = OpArg ∧
                      v_ID v = id ∧ getHome f1 id = Some (LocSlot l))) as H.
  2:{ exact H. }
  revert f. induction vs as [|v vs IH]; intros f.
  - exists f. split; [done|]. split; [done|]. split; [done|]. intros id. by left.
  - rewrite foldlM_cons.
    assert (∀ v', v' ∈ vs → v_Op v' = OpArg → ∃ n, v_Aux v' = AuxNode n)
      as Hargs'.
    { intros v' Hv'. apply Hargs. by right. }
    destruct (decide (v_Op v = OpArg)) as [Hop|Hop].
    + rewrite bool_decide_true by done. simpl.
      destruct (Hargs v) as [n ->]; [by left|done|]. simpl.
      destruct (IH Hargs' (setHome f (v_ID v)
                  (Some (LocSlot (mkLocalSlot (Some n) (v_Type v) (v_AuxInt v))))))
        as (f1 & -> & Hautos & Hblocks & Hhomes).
      exists f1. split; [done|]. split; [done|]. split; [done|]. intros id.
      destruct (Hhomes id) as [Heq|(v' & l & Hv' & ? & ? & ?)].
      * rewrite getHome_setHome in Heq.
        destruct (decide (id = v_ID v)) as [->|Hne]; [|by left].
        right. eexists v, _. split; [by left|]. split; [done|].
        split; [done|]. exact Heq.
      * right. exists v', l. split; [by right|done].
    + rewrite bool_decide_false by done. simpl.
      destruct (IH Hargs' f) as (f1 & -> & Hautos & Hblocks & Hhomes).
      exists f1. split; [done|]. split; [done|]. split; [done|]. intros id.
      destruct (Hhomes id) as [Heq|(v' & l & Hv' & ? & ? & ?)]; [by left|].
      right. exists v', l. split; [by right|done].
Qed.

(** [nameTaken] *)
Lemma nameTaken_total f name ids :
  (∀ y r, y ∈ ids → getHome f y ≠ Some (LocReg r)) →
  ∃ b, nameTaken f name ids = Ok b ∧
       (b = false → ∀ y, y ∈ ids → getHome f y ≠ Some (LocSlot name)).
Proof.
  induction ids as [|y ids IH]; intros Hreg; simpl.
  - exists false. split; [done|]. intros _ y Hy. by apply elem_of_nil in Hy.
  - destruct IH as (b & Hb & Hfalse).
    { intros y' r Hy'. apply Hreg. by right. }
    destruct (getHome f y) as [[r|s]|] eqn:Hy.
    + exfalso. eapply Hreg; [by left|done].
    + case_bool_decide as Hs.
      * exists true. done.
      * exists b. split; [done|]. intros Hbf y' Hy'.
        apply elem_of_cons in Hy' as [->|Hy']; [|by apply Hfalse].
        rewrite Hy. congruence.
    + exists b. split; [done|]. intros Hbf y' Hy'.
      apply elem_of_cons in Hy' as [->|Hy']; [|by apply Hfalse].
      by rewrite Hy.
Qed.

(** [markUsed] and [firstUnused] *)
Lemma elem_of_markUsed (slots : gmap nat nat) (used : gset nat) ids j :
  j ∈ markUsed slots used ids ↔
  j ∈ used ∨ ∃ y, y ∈ ids ∧ slots !! y = Some j.
Proof.
  unfold markUsed. revert used. induction ids as [|y ids IH]; intros used; simpl.
  - split; [by left|]. intros [?|(y & Hy & _)]; [done|].
    by apply elem_of_nil in Hy.
  - rewrite IH. destruct (slots !! y) as [k|] eqn:Hk.
    + rewrite elem_of_union, elem_of_singleton. split.
      * intros [[?| ->]|(y' & ? & ?)]; [by left| |].
        -- right. exists y. split; [by left|done].
        -- right. exists y'. split; [by right|done].
      * intros [?|(y' & Hy' & Hj)]; [by left; left|].
        apply elem_of_cons in Hy' as [->|Hy'].
        -- left. right. congruence.
        -- right. eauto.
    + split.
      * intros [?|(y' & ? & ?)]; [by left|].
        right. exists y'. split; [by right|done].
      * intros [?|(y' & Hy' & Hj)]; [by left|].
        apply elem_of_cons in Hy' as [->|Hy']; [congruence|].
        right. eauto.
Qed.

Lemma firstUnused_spec (used : gset nat) n : ∀ i,
  let k := firstUnused used i n in
  (i ≤ k ≤ i + n)%nat ∧
  (∀ j, (i ≤ j < k)%nat → j ∈ used) ∧
  ((k < i + n)%nat → k ∉ used).
Proof.
  induction n as [|n IH]; intros i; simpl.
  - split; [lia|]. split; [intros j ?; lia|lia].
  - case_bool_decide as Hi.
    + destruct (IH (S i)) as (Hr & Hall & Hk).
      split; [lia|]. split.
      * intros j Hj. destruct (decide (j = i)) as [->|]; [done|].
        apply Hall. lia.
      * intros Hlt. apply Hk. lia.
    + split; [lia|]. split; [intros j ?; lia|done].
Qed.

(** A fold that is followed along the list: [P] speaks of the part of
    the list already done. *)
Lemma foldlM_prefix {A B} (P : list A → B → Prop) (k : B → A → result B) l b :
  P [] b →
  (∀ done x todo b, l = done ++ x :: todo → P done b →
                    ∃ b', k b x = Ok b' ∧ P (done ++ [x]) b') →
  ∃ b', foldlM k l b = Ok b' ∧ P l b'.
Proof.
  intros Hb Hstep.
  assert (∀ todo done b, l = done ++ todo → P done b →
                         ∃ b', foldlM k todo b = Ok b' ∧ P l b') as H.
  { induction todo as [|x todo IH]; intros done b0 Hl Hdone.
    - exists b0. split; [done|]. rewrite Hl, app_nil_r. done.
    - rewrite foldlM_cons.
      destruct (Hstep done x todo b0 Hl Hdone) as (b1 & -> & Hb1). simpl.
      apply (IH (done ++ [x])); [|done].
      rewrite Hl, <- app_assoc. done. }
  by apply (H l []).
Qed.

Lemma elem_of_phiArg_fold (f : Func) (vs : list Value) (pa : gset nat) a :
  a ∈ foldl (λ (pa : gset nat) v,
               if isStackPhi f v then pa ∪ list_to_set (v_Args v) else pa)
            pa vs ↔
  a ∈ pa ∨ ∃ p, p ∈ vs ∧ isStackPhi f p = true ∧ a ∈ v_Args p.
Proof.
  revert pa. induction vs as [|v vs IH]; intros pa; cbn [foldl].
  - split; [by left|]. intros [?|(p & Hp & _)]; [done|].
    by apply elem_of_nil in Hp.
  - rewrite IH. destruct (isStackPhi f v) eqn:Hv.
    + rewrite elem_of_union. split.
      * intros [[?|Ha]|(p & ? & ? & ?)]; [by left| |].
        -- right. exists v. split; [by left|]. split; [done|].
           by apply elem_of_set_list.
        -- right. exists p. split; [by right|done].
      * intros [?|(p & Hp & Hsp & Ha)]; [by left; left|].
        apply elem_of_cons in Hp as [->|Hp].
        -- left. right. by apply set_list_elem_of.
        -- right. eauto.
    + split.
      * intros [?|(p & ? & ? & ?)]; [by left|].
        right. exists p. split; [by right|done].
      * intros [?|(p & Hp & Hsp & Ha)]; [by left|].
        apply elem_of_cons in Hp as [->|Hp]; [congruence|].
        right. eauto.
Qed.

Lemma elem_of_buildPhiArg (f : Func) a :
  a ∈ buildPhiArg f ↔
  ∃ p, p ∈ allValues f ∧ isStackPhi f p = true ∧ a ∈ v_Args p.
Proof.
  unfold buildPhiArg, allValues.
  assert (∀ bs (pa : gset nat),
            foldl (λ pa b,
                     foldl (λ (pa : gset nat) v,
                              if isStackPhi f v
                              then pa ∪ list_to_set (v_Args v) else pa)
                           pa (b_Values b)) pa bs =
            foldl (λ (pa : gset nat) v,
                     if isStackPhi f v
                     then pa ∪ list_to_set (v_Args v) else pa)
                  pa (mjoin (b_Values <$> bs))) as Hjoin.
  { induction bs as [|b bs IH]; intros pa; [done|].
    rewrite fmap_cons. cbn [mjoin list_join]. rewrite foldl_app. cbn [foldl]. apply IH. }
  rewrite Hjoin, elem_of_phiArg_fold. split.
  - intros [Hin|?]; [|done]. by apply elem_of_empty in Hin.
  - intros ?. by right.
Qed.

Lemma buildNames_elem (f : Func) id nm :
  buildNames f !! id = Some nm → nm ∈ f_Names f.
Proof.
  unfold buildNames.
  assert (∀ l (names : gmap nat LocalSlot),
            (∀ id nm, names !! id = Some nm → nm ∈ f_Names f) →
            (∀ x, x ∈ l → x ∈ f_Names f) →
            ∀ id nm,
              foldl (λ names name,
                       foldl (λ names vid, <[vid := name]> names) names
                             (f_NamedValues f name)) names l !! id = Some nm →
              nm ∈ f_Names f) as H.
  { induction l as [|x l IH]; intros names Hn Hl id' nm'; cbn [foldl]; [apply Hn|].
    apply IH; [|intros y Hy; apply Hl; by right].
    assert (x ∈ f_Names f) as Hx by (apply Hl; by left).
    generalize (f_NamedValues f x). intros vids. revert names Hn.
    induction vids as [|w vids IHv]; intros names Hn; cbn [foldl]; [done|].
    apply IHv. intros id2 nm2 Hlk.
    destruct (decide (w = id2)) as [->|Hne].
    - rewrite lookup_insert_eq in Hlk. congruence.
    - rewrite lookup_insert_ne in Hlk by done. by eapply Hn. }
  apply H; [|done]. intros id' nm' Hlk. by rewrite lookup_empty in Hlk.
Qed.

Lemma slots_insert_args (slots : gmap nat nat) (i : nat) (args : list ID) id :
  foldl (λ slots a, <[a := i]> slots) slots args !! id =
  if decide (id ∈ args) then Some i else slots !! id.
Proof.
  revert slots. induction args as [|a args IH]; intros slots; cbn [foldl].
  - destruct (decide (id ∈ [])) as [Hin|_]; [|done].
    by apply elem_of_nil in Hin.
  - rewrite IH.
    destruct (decide (id ∈ a :: args)) as [Hin|Hnin].
    + destruct (decide (id ∈ args)) as [|Hn]; [done|].
      apply elem_of_cons in Hin as [->|?]; [|done].
      by rewrite lookup_insert_eq.
    + destruct (decide (id ∈ args)) as [Hin|_].
      * exfalso. apply Hnin. by right.
      * rewrite lookup_insert_ne; [done|].
        intros ->. apply Hnin. by left.
Qed.

Lemma slots_assigned (slots : gmap nat nat) (i : nat) (v : Value) id :
  (if bool_decide (v_Op v = OpPhi)
   then foldl (λ slots a, <[a := i]> slots) (<[v_ID v := i]> slots) (v_Args v)
   else <[v_ID v := i]> slots) !! id =
  if decide (id ∈ assigned v) then Some i else slots !! id.
Proof.
  unfold assigned. destruct (bool_decide (v_Op v = OpPhi)).
  - rewrite slots_insert_args.
    destruct (decide (id ∈ v_ID v :: v_Args v)) as [Hin|Hnin].
    + destruct (decide (id ∈ v_Args v)) as [|Hn]; [done|].
      apply elem_of_cons in Hin as [->|?]; [|done].
      by rewrite lookup_insert_eq.
    + destruct (decide (id ∈ v_Args v)) as [Hin|_].
      * exfalso. apply Hnin. by right.
      * rewrite lookup_insert_ne; [done|].
        intros <-. apply Hnin. by left.
  - destruct (decide (id ∈ [v_ID v])) as [Hin|Hnin].
    + apply list_elem_of_singleton in Hin as ->. by rewrite lookup_insert_eq.
    + rewrite lookup_insert_ne; [done|].
      intros <-. apply Hnin. by left.
Qed.

(** The marks that [pickNoname] leaves in [used]. *)
Lemma elem_of_marks (itf : Interfere) (slots : gmap nat nat) (used : gset nat)
    (v : Value) j :
  j ∈ (if bool_decide (v_Op v = OpPhi)
       then markUsed slots (markUsed slots used (interfering itf (v_ID v)))
                     (argsInterfering itf v)
       else markUsed slots used (interfering itf (v_ID v))) ↔
  j ∈ used ∨ ∃ y, y ∈ checked itf v ∧ slots !! y = Some j.
Proof.
  unfold checked. destruct (bool_decide (v_Op v = OpPhi)).
  - rewrite !elem_of_markUsed. split.
    + intros [[?|(y & ? & ?)]|(y & ? & ?)]; [by left| |].
      * right. exists y. split; [|done]. apply elem_of_app. by left.
      * right. exists y. split; [|done]. apply elem_of_app. by right.
    + intros [?|(y & Hy & ?)]; [by left; left|].
      apply elem_of_app in Hy as [?|?]; [left; right|right]; eauto.
  - rewrite elem_of_markUsed, app_nil_r. done.
Qed.

(** The code after [noname]: it never fails; it takes the first index of
    the pool of [v]'s type that no checked value holds, and appends a new
    variable to the pool when every index is held. *)
Lemma pickNoname_spec (itf : Interfere) (st : SlotState) (v : Value) :
  ∃ st' i loc,
    pickNoname itf st v = Ok st' ∧
    (∀ id, getHome (ss_f st') id =
           if decide (id ∈ assigned v) then Some (LocSlot loc)
           else getHome (ss_f st) id) ∧
    (∀ id, ss_slots st' !! id =
           if decide (id ∈ assigned v) then Some i else ss_slots st !! id) ∧
    ss_locations st' (v_Type v) !! i = Some loc ∧
    (((i < length (ss_locations st (v_Type v)))%nat ∧
      ss_locations st' = ss_locations st ∧
      f_autos (ss_f st') = f_autos (ss_f st) ∧
      (∀ y, y ∈ checked itf v → ss_slots st !! y ≠ Some i)) ∨
     (i = length (ss_locations st (v_Type v)) ∧
      (∀ j, (j < length (ss_locations st (v_Type v)))%nat →
            ∃ y, y ∈ checked itf v ∧ ss_slots st !! y = Some j) ∧
      loc = mkLocalSlot (Some (f_autos (ss_f st))) (v_Type v) 0 ∧
      ss_locations st' =
        <[v_Type v := ss_locations st (v_Type v) ++ [loc]]> (ss_locations st) ∧
      f_autos (ss_f st') = S (f_autos (ss_f st)))).
Proof.
  unfold pickNoname.
  set (locs := ss_locations st (v_Type v)).
  set (used0 := ss_used st ∖ list_to_set (seq 0 (length locs))).
  set (used1 := if bool_decide (v_Op v = OpPhi)
                then markUsed (ss_slots st)
                       (markUsed (ss_slots st) used0 (interfering itf (v_ID v)))
                       (argsInterfering itf v)
                else markUsed (ss_slots st) used0 (interfering itf (v_ID v))).
  assert (∀ j, j ∈ used1 ↔
               j ∈ used0 ∨ ∃ y, y ∈ checked itf v ∧ ss_slots st !! y = Some j)
    as Hused by (intros j; apply elem_of_marks).
  assert (∀ j, (j < length locs)%nat → j ∉ used0) as Hused0.
  { intros j Hj Hin. apply elem_of_difference in Hin as [_ Hin].
    apply Hin. apply set_list_elem_of. apply elem_of_seq. lia. }
  replace (if bool_decide (v_Op v = OpPhi)
           then markUsed (ss_slots st)
                  (markUsed (ss_slots st) used0 (interfering itf (v_ID v)))
                  (argsInterfering itf v)
           else markUsed (ss_slots st) used0 (interfering itf (v_ID v)))
    with used1 by done.
  destruct (firstUnused_spec used1 (length locs) 0) as (Hrange & Hbelow & Hfree).
  set (i := firstUnused used1 0 (length locs)) in *.
  destruct (decide (i = length locs)) as [Hi|Hi].
  - rewrite bool_decide_true by done. cbn [Auto].
    unfold go_index. rewrite Hi, lookup_app_r by lia.
    rewrite Nat.sub_diag. cbn [lookup list_lookup]. simpl.
    eexists _, (length locs), _. split; [reflexivity|]. cbn [ss_f ss_slots ss_locations].
    split; [intros id; by rewrite getHome_setHomes|].
    split; [intros id; apply slots_assigned|].
    split.
    { rewrite fn_lookup_insert, lookup_app_r by lia.
      by rewrite Nat.sub_diag. }
    right. split; [done|]. split.
    { intros j Hj. assert (j ∈ used1) as Hin by (apply Hbelow; lia).
      apply Hused in Hin as [Hin|?]; [|done]. by apply Hused0 in Hin. }
    split; [done|]. split; [done|]. by rewrite f_autos_setHomes.
  - rewrite bool_decide_false by done.
    assert (i < length locs)%nat as Hlt by lia.
    destruct (lookup_lt_is_Some_2 locs i Hlt) as [loc Hloc].
    unfold go_index. rewrite Hloc. simpl.
    eexists _, i, loc. split; [reflexivity|]. cbn [ss_f ss_slots ss_locations].
    split; [intros id; by rewrite getHome_setHomes|].
    split; [intros id; apply slots_assigned|].
    split; [done|].
    left. split; [done|]. split; [done|].
    split; [by rewrite f_autos_setHomes|].
    intros y Hy Hslot. apply Hfree; [lia|]. apply Hused. right. eauto.
Qed.

Lemma assigned_cases v id :
  id ∈ assigned v → id = v_ID v ∨ (v_Op v = OpPhi ∧ id ∈ v_Args v).
Proof.
  unfold assigned. intros Hin. apply elem_of_cons in Hin as [?|Hin]; [by left|].
  destruct (decide (v_Op v = OpPhi)) as [Hop|Hop].
  - right. rewrite bool_decide_true in Hin by done. done.
  - rewrite bool_decide_false in Hin by done. by apply elem_of_nil in Hin.
Qed.

Lemma assigned_self v : v_ID v ∈ assigned v.
Proof. unfold assigned. by left. Qed.

Lemma assigned_arg v a : v_Op v = OpPhi → a ∈ v_Args v → a ∈ assigned v.
Proof.
  intros Hop Ha. unfold assigned. right. by rewrite bool_decide_true by done.
Qed.

Lemma slotted_app f done v id :
  slotted f (done ++ [v]) id ↔
  slotted f done id ∨ (pickedAlone f v ∧ id ∈ assigned v).
Proof.
  unfold slotted. split.
  - intros (w & Hw & Hp & Hid). apply elem_of_app in Hw as [Hw|Hw].
    + left. eauto.
    + apply list_elem_of_singleton in Hw as ->. by right.
  - intros [(w & Hw & Hp & Hid)|[Hp Hid]].
    + exists w. split; [|done]. apply elem_of_app. by left.
    + exists v. split; [|done]. apply elem_of_app. right. by left.
Qed.

Lemma foldlM_blocks {B} (k : B → Value → result B) (bs : list Block) b :
  foldlM (λ b blk, foldlM k (b_Values blk) b) bs b =
  foldlM k (mjoin (b_Values <$> bs)) b.
Proof.
  revert b. induction bs as [|blk bs IH]; intros b; [done|].
  rewrite fmap_cons. cbn [mjoin list_join]. rewrite foldlM_app, foldlM_cons.
  destruct (foldlM k (b_Values blk) b); simpl; [apply IH|done].
Qed.

Section Pick.
Variables (f0 f1 : Func) (itf : Interfere) (names : gmap nat LocalSlot).
Hypothesis Hwf : wfSpill f0.
Hypothesis Hsym : symmetric itf.
Hypothesis Hitf : ∀ x y, y ∈ interfering itf x → spillRef f0 y.
Hypothesis Hnames : ∀ id nm k, names !! id = Some nm → N nm = Some k →
                               (k < f_autos f0)%nat.
Hypothesis Hautos1 : f_autos f1 = f_autos f0.
Hypothesis Hhomes1 : ∀ id,
  getHome f1 id = getHome f0 id ∨
  (∃ v l, v ∈ b_Values (f_Entry f0) ∧ v_Op v = OpArg ∧ v_ID v = id ∧
          getHome f1 id = Some (LocSlot l)).

Lemma same_ID v w : v ∈ allValues f0 → w ∈ allValues f0 → v_ID v = v_ID w → v = w.
Proof. intros. eapply NoDup_fmap_eq; [apply (ws_ids _ Hwf)|done..]. Qed.

Lemma picked_phi v : pickedAlone f0 v → v_Op v = OpPhi → isStackPhi f0 v = true.
Proof. intros [[Hs|Hp] _] Hop; [congruence|done]. Qed.

Lemma picked_unique v w id :
  v ∈ allValues f0 → w ∈ allValues f0 → pickedAlone f0 v → pickedAlone f0 w →
  id ∈ assigned v → id ∈ assigned w → v = w.
Proof.
  intros Hv Hw Pv Pw Hi Hj.
  apply assigned_cases in Hi as [Hi|[Hopv Hav]];
    apply assigned_cases in Hj as [Hj|[Hopw Haw]].
  - apply same_ID; congruence.
  - exfalso. destruct Pv as [_ Hn]. apply Hn. apply elem_of_buildPhiArg.
    exists w. split; [done|]. split; [by apply picked_phi|congruence].
  - exfalso. destruct Pw as [_ Hn]. apply Hn. apply elem_of_buildPhiArg.
    exists v. split; [done|]. split; [by apply picked_phi|congruence].
  - eapply (ws_owner _ Hwf); eauto using picked_phi.
Qed.

Lemma phi_home_f1 v :
  v ∈ allValues f0 → v_Op v = OpPhi → getHome f1 (v_ID v) = getHome f0 (v_ID v).
Proof.
  intros Hv Hop.
  destruct (Hhomes1 (v_ID v)) as [?|(w & l & Hw & Hopw & Hid & _)]; [done|].
  exfalso.
  assert (w ∈ allValues f0) as Hw'
    by (eapply elem_of_allValues; [apply (ws_entry _ Hwf)|done]).
  assert (w = v) by (by apply same_ID). subst. congruence.
Qed.

Lemma stackPhi_picked p :
  p ∈ allValues f0 → isStackPhi f0 p = true → pickedAlone f0 p.
Proof.
  intros Hp Hsp. split; [by right|]. intros Hin.
  apply elem_of_buildPhiArg in Hin as (q & Hq & Hsq & Ha).
  apply isStackPhi_spec in Hsp as (Hop & _).
  by eapply (ws_phiargs _ Hwf q p).
Qed.


Lemma checked_intro v x y :
  x ∈ assigned v → y ∈ interfering itf x → y ∈ checked itf v.
Proof.
  intros Hx Hy. unfold checked. apply elem_of_app.
  apply assigned_cases in Hx as [->|[Hop Hx]]; [by left|].
  right. rewrite bool_decide_true by done. unfold argsInterfering.
  apply list_elem_of_join. exists (interfering itf x). split; [done|].
  by apply list_elem_of_fmap_2.
Qed.

Lemma checked_spillRef v y : y ∈ checked itf v → spillRef f0 y.
Proof.
  unfold checked. intros Hy. apply elem_of_app in Hy as [Hy|Hy].
  - by eapply Hitf.
  - destruct (bool_decide (v_Op v = OpPhi)); [|by apply elem_of_nil in Hy].
    unfold argsInterfering in Hy.
    apply list_elem_of_join in Hy as (l & Hy & Hl).
    apply list_elem_of_fmap in Hl as (a & -> & _). by eapply Hitf.
Qed.

Lemma pickInv_noreg done st y r :
  pickInv f0 f1 itf done st → spillRef f0 y →
  getHome (ss_f st) y ≠ Some (LocReg r).
Proof.
  intros Hinv Hy Hreg. apply (inv_reg _ _ _ _ _ Hinv) in Hreg.
  destruct (Hhomes1 y) as [Heq|(w & l & _ & _ & _ & Heq)]; [|congruence].
  rewrite Heq in Hreg. by eapply (ws_noreg _ Hwf).
Qed.

Lemma pickInv_keep done st v :
  pickInv f0 f1 itf done st → ¬ pickedAlone f0 v →
  pickInv f0 f1 itf (done ++ [v]) st.
Proof.
  intros Hinv Hnp.
  assert (∀ id, slotted f0 (done ++ [v]) id → slotted f0 done id) as Hs.
  { intros id Hid. apply slotted_app in Hid as [?|[? _]]; done. }
  assert (∀ id, slotted f0 done id → slotted f0 (done ++ [v]) id) as Hs'.
  { intros id Hid. apply slotted_app. by left. }
  destruct Hinv as [H1 H2 H3 H4 H5 H6 H7 H8 H9].
  split; try done.
  - intros w Hw Hp. apply elem_of_app in Hw as [Hw|Hw]; [by apply H4|].
    apply list_elem_of_singleton in Hw as ->. done.
  - intros id Hid. apply H5. intros Hc. apply Hid. by apply Hs'.
  - intros id Hid. apply H8. by apply Hs.
  - intros x y Hx Hy. apply H9; by apply Hs.
Qed.

Lemma pickInv_update done st v st' loc (o : option nat) :
  pickInv f0 f1 itf done st → v ∈ allValues f0 → pickedAlone f0 v →
  (∀ id, id ∈ assigned v → ¬ slotted f0 done id) →
  (∀ id, getHome (ss_f st') id =
         if decide (id ∈ assigned v) then Some (LocSlot loc)
         else getHome (ss_f st) id) →
  (f_autos (ss_f st) ≤ f_autos (ss_f st'))%nat →
  (∀ t i l, ss_locations st t !! i = Some l → ss_locations st' t !! i = Some l) →
  (∀ t i l, ss_locations st' t !! i = Some l →
            ∃ k, (f_autos f0 ≤ k < f_autos (ss_f st'))%nat ∧
                 l = mkLocalSlot (Some k) t 0) →
  (∀ t i j l, ss_locations st' t !! i = Some l →
              ss_locations st' t !! j = Some l → i = j) →
  (∀ id, ss_slots st' !! id =
         if decide (id ∈ assigned v) then o else ss_slots st !! id) →
  match o with
  | None => ∃ k, N loc = Some k ∧ (k < f_autos f0)%nat
  | Some i => ∃ t, ss_locations st' t !! i = Some loc
  end →
  (∀ y, y ∈ checked itf v → slotted f0 done y →
        getHome (ss_f st) y ≠ Some (LocSlot loc)) →
  pickInv f0 f1 itf (done ++ [v]) st'.
Proof.
  intros Hinv Hv Hp Hfresh Hhomes Hautos Hmono Hpool Hinj Hslots Ho Hchk.
  assert (∀ id, slotted f0 (done ++ [v]) id → id ∉ assigned v →
                slotted f0 done id) as Hold.
  { intros id Hid Hn. apply slotted_app in Hid as [?|[_ ?]]; done. }
  destruct Hinv as [H1 H2 H3 H4 H5 H6 H7 H8 H9].
  split.
  - lia.
  - intros id r. rewrite Hhomes.
    destruct (decide (id ∈ assigned v)); [done|apply H2].
  - intros id. rewrite Hhomes.
    destruct (decide (id ∈ assigned v)); [done|apply H3].
  - intros w Hw Hpw. apply elem_of_app in Hw as [Hw|Hw].
    + destruct (H4 w Hw Hpw) as [l Hl]. exists l. intros id Hid.
      rewrite Hhomes. destruct (decide (id ∈ assigned v)) as [Hin|_]; [|by apply Hl].
      exfalso. apply (Hfresh id Hin). by exists w.
    + apply list_elem_of_singleton in Hw as ->. exists loc. intros id Hid.
      rewrite Hhomes. by rewrite decide_True.
  - intros id Hid.
    assert (id ∉ assigned v) as Hn.
    { intros Hin. apply Hid. apply slotted_app. by right. }
    rewrite Hhomes, Hslots, !decide_False by done.
    apply H5. intros Hc. apply Hid. apply slotted_app. by left.
  - done.
  - done.
  - intros id Hid. rewrite Hhomes, Hslots.
    destruct (decide (id ∈ assigned v)) as [Hin|Hn].
    + exists loc. split; [done|]. destruct o; done.
    + destruct (H8 id (Hold id Hid Hn)) as (l & Hl & Hm).
      exists l. split; [done|].
      destruct (ss_slots st !! id); [|done].
      destruct Hm as [t Ht]. exists t. by apply Hmono.
  - intros x y Hx Hy Hne Hxy Hnc. rewrite !Hhomes.
    destruct (decide (x ∈ assigned v)) as [Hxa|Hxa];
      destruct (decide (y ∈ assigned v)) as [Hya|Hya].
    + exfalso. destruct (decide (v_Op v = OpPhi)) as [Hop|Hop].
      * apply Hnc. exists v. split; [done|]. split; [by apply picked_phi|done].
      * apply assigned_cases in Hxa as [->|[? _]]; [|done].
        apply assigned_cases in Hya as [->|[? _]]; done.
    + intros Heq. eapply (Hchk y); [by eapply checked_intro|by apply Hold|done].
    + intros Heq. eapply (Hchk x); [|by apply Hold|done].
      eapply checked_intro; [done|]. by apply Hsym.
    + apply H9; try done; by apply Hold.
Qed.

(** The code after [noname] keeps the invariant. *)
Lemma pickNoname_step done st v :
  pickInv f0 f1 itf done st → v ∈ allValues f0 → pickedAlone f0 v →
  (∀ id, id ∈ assigned v → ¬ slotted f0 done id) →
  ∃ st', pickNoname itf st v = Ok st' ∧ pickInv f0 f1 itf (done ++ [v]) st'.
Proof.
  intros Hinv Hv Hp Hfresh.
  destruct (pickNoname_spec itf st v)
    as (st' & i & loc & Hrun & Hhomes & Hslots & Hloc & Hcase).
  exists st'. split; [done|].
  pose proof (inv_autos _ _ _ _ _ Hinv) as Hautos0.
  pose proof (inv_pool _ _ _ _ _ Hinv) as Hpool0.
  pose proof (inv_inj _ _ _ _ _ Hinv) as Hinj0.
  assert (f_autos (ss_f st) ≤ f_autos (ss_f st'))%nat as Hautos.
  { destruct Hcase as [(_ & _ & -> & _)|(_ & _ & _ & _ & ->)]; lia. }
  assert (∀ t j l, ss_locations st' t !! j = Some l →
                   ss_locations st t !! j = Some l ∨
                   (t = v_Type v ∧ j = length (ss_locations st (v_Type v)) ∧
                    l = mkLocalSlot (Some (f_autos (ss_f st))) (v_Type v) 0 ∧
                    f_autos (ss_f st') = S (f_autos (ss_f st)))) as Hnew.
  { intros t j l Hl.
    destruct Hcase as [(_ & Heq & _ & _)|(_ & _ & Hloc' & Heq & Ha)].
    - left. by rewrite <- Heq.
    - rewrite Heq in Hl. destruct (decide (v_Type v = t)) as [<-|Hne].
      + rewrite fn_lookup_insert in Hl.
        apply lookup_app_Some in Hl as [Hl|[Hlen Hl]]; [by left|].
        right. apply list_lookup_singleton_Some in Hl as [Hj <-].
        split; [done|]. split; [lia|]. done.
      + rewrite fn_lookup_insert_ne in Hl by done. by left. }
  assert (∀ t j l, ss_locations st t !! j = Some l →
                   ss_locations st' t !! j = Some l) as Hmono.
  { intros t j l Hl.
    destruct Hcase as [(_ & Heq & _ & _)|(_ & _ & Hloc' & Heq & Ha)].
    - by rewrite Heq.
    - rewrite Heq. destruct (decide (v_Type v = t)) as [<-|Hne].
      + rewrite fn_lookup_insert. by apply lookup_app_l_Some.
      + by rewrite fn_lookup_insert_ne by done. }
  assert (∀ t j l, ss_locations st' t !! j = Some l →
                   ∃ k, (f_autos f0 ≤ k < f_autos (ss_f st'))%nat ∧
                        l = mkLocalSlot (Some k) t 0) as Hpool.
  { intros t j l Hl. apply Hnew in Hl as [Hl|(-> & _ & -> & Ha)].
    - destruct (Hpool0 t j l Hl) as (k & Hk & ->). exists k. split; [lia|done].
    - exists (f_autos (ss_f st)). split; [lia|done]. }
  eapply (pickInv_update done st v st' loc (Some i)); try done.
  - intros t j1 j2 l H1 H2.
    apply Hnew in H1 as [H1|(-> & -> & -> & Ha)];
      apply Hnew in H2 as [H2|(Ht & -> & Hl & _)]; [by eapply Hinj0| | |done].
    + destruct (Hpool0 t j1 l H1) as (k & Hk & Hl'). subst l.
      inversion Hl'. lia.
    + destruct (Hpool0 _ _ _ H2) as (k & Hk & Hl'). inversion Hl'. lia.
  - by exists (v_Type v).
  - intros y Hy Hsl Hhome.
    destruct (inv_home _ _ _ _ _ Hinv y Hsl) as (l & Hl & Hm).
    assert (l = loc) by congruence. subst l.
    destruct (Hpool _ _ _ Hloc) as (k & Hk & Hform).
    destruct (ss_slots st !! y) as [j|] eqn:Hj.
    + destruct Hm as [t Ht].
      destruct Hcase as [(_ & Heq & _ & Hfree)|(_ & _ & Hloc' & _ & _)].
      * destruct (Hpool0 _ _ _ Ht) as (k' & _ & Hform').
        assert (t = v_Type v) by (rewrite Hform in Hform'; by inversion Hform').
        subst t. rewrite Heq in Hloc.
        assert (j = i) by (by eapply Hinj0). subst j.
        by apply (Hfree y).
      * destruct (Hpool0 _ _ _ Ht) as (k' & Hk' & Hform').
        rewrite Hloc' in Hform'. inversion Hform'. lia.
    + destruct Hm as (k' & Hk' & ?). rewrite Hform in Hk'. simpl in Hk'.
      inversion Hk'. lia.
Qed.

(** One turn of the slot-picking loop. *)
Lemma pickSlot_step done v todo st :
  allValues f0 = done ++ v :: todo → pickInv f0 f1 itf done st →
  ∃ st', pickSlot names (buildPhiArg f0) itf st v = Ok st' ∧
         pickInv f0 f1 itf (done ++ [v]) st'.
Proof.
  intros Hall Hinv.
  assert (v ∈ allValues f0) as Hv.
  { rewrite Hall. apply elem_of_app. right. by left. }
  assert (∀ w, w ∈ done → w ∈ allValues f0) as Hdone.
  { intros w Hw. rewrite Hall. apply elem_of_app. by left. }
  assert (v ∉ done) as Hnotin.
  { intros Hin. pose proof (ws_ids _ Hwf) as Hnd.
    apply NoDup_fmap_1 in Hnd. rewrite Hall in Hnd.
    apply list.NoDup_app in Hnd as (_ & Hd & _). apply (Hd v Hin). by left. }
  assert (pickedAlone f0 v → ∀ id, id ∈ assigned v → ¬ slotted f0 done id)
    as Hfresh.
  { intros Hp id Hid (w & Hw & Hpw & Hidw).
    assert (w = v) by (eapply picked_unique; eauto). by subst. }
  assert (pickedAlone f0 v ↔
          (v_Op v = OpStoreReg ∨ isStackPhi (ss_f st) v = true) ∧
          v_ID v ∉ buildPhiArg f0) as Hpick.
  { split.
    - intros Hp. split; [|by destruct Hp].
      destruct Hp as [[Hs|Hsp] Hn]; [by left|right].
      assert (pickedAlone f0 v) as Hp by (split; [by right|done]).
      apply isStackPhi_spec. apply isStackPhi_spec in Hsp as (Hop & Hty & Hh).
      split; [done|]. split; [done|].
      destruct (inv_frame _ _ _ _ _ Hinv (v_ID v)) as [-> _].
      { apply Hfresh; [done|apply assigned_self]. }
      by rewrite phi_home_f1.
    - intros [[Hs|Hsp] Hn]; (split; [|done]); [by left|right].
      apply isStackPhi_spec. apply isStackPhi_spec in Hsp as (Hop & Hty & Hh).
      split; [done|]. split; [done|].
      rewrite <- phi_home_f1 by done. by apply (inv_grow _ _ _ _ _ Hinv). }
  unfold pickSlot.
  destruct (decide (pickedAlone f0 v)) as [Hp|Hnp].
  2:{ exists st. split; [|by apply pickInv_keep].
      destruct (decide (v_Op v = OpStoreReg)) as [Hs|Hs].
      - rewrite (bool_decide_true _ Hs). simpl.
        rewrite bool_decide_true; [done|].
        destruct (decide (v_ID v ∈ buildPhiArg f0)) as [|Hn]; [done|].
        exfalso. apply Hnp. apply Hpick. split; [by left|done].
      - rewrite (bool_decide_false _ Hs). simpl.
        destruct (isStackPhi (ss_f st) v) eqn:Hsp; [|done]. simpl.
        rewrite bool_decide_true; [done|].
        destruct (decide (v_ID v ∈ buildPhiArg f0)) as [|Hn]; [done|].
        exfalso. apply Hnp. apply Hpick. split; [by right|done]. }
  pose proof (proj1 Hpick Hp) as [Hcls Hn].
  assert (negb (bool_decide (v_Op v = OpStoreReg)) &&
          negb (isStackPhi (ss_f st) v) = false) as ->.
  { destruct Hcls as [Hs| ->].
    - by rewrite (bool_decide_true _ Hs).
    - apply andb_false_r. }
  rewrite (bool_decide_false _ Hn).
  pose proof (pickNoname_step done st v Hinv Hv Hp (Hfresh Hp)) as Hnoname.
  assert (∃ key, (if bool_decide (v_Op v = OpStoreReg)
                  then a ← arg v 0; Ok (names !! a)
                  else Ok (names !! v_ID v)) = Ok (names !! key)) as [key ->].
  { destruct (bool_decide (v_Op v = OpStoreReg)) eqn:Hs; [|by eexists].
    apply bool_decide_eq_true in Hs.
    pose proof (ws_store _ Hwf v Hv Hs) as Hargs.
    unfold arg, go_index. destruct (v_Args v) as [|a args]; [done|].
    simpl. by eexists. }
  simpl. destruct (names !! key) as [name|] eqn:Hname; [|done].
  destruct (bool_decide (N name ≠ None) &&
            bool_decide (v_Type v = SlotType name)) eqn:Hcond; [|done].
  apply andb_prop in Hcond as [HN _]. apply bool_decide_eq_true in HN.
  assert (∀ y r, y ∈ checked itf v → getHome (ss_f st) y ≠ Some (LocReg r))
    as Hnoreg.
  { intros y r Hy. eapply pickInv_noreg; [done|]. by eapply checked_spillRef. }
  destruct (nameTaken_total (ss_f st) name (interfering itf (v_ID v)))
    as (b1 & -> & Hb1).
  { intros y r Hy. apply Hnoreg. unfold checked. apply elem_of_app. by left. }
  simpl. destruct b1; [done|].
  assert (∃ b2, (if bool_decide (v_Op v = OpPhi)
                 then nameTaken (ss_f st) name (argsInterfering itf v)
                 else Ok false) = Ok b2 ∧
                (b2 = false → ∀ y, y ∈ checked itf v →
                              getHome (ss_f st) y ≠ Some (LocSlot name)))
    as (b2 & -> & Hb2).
  { unfold checked in *. destruct (bool_decide (v_Op v = OpPhi)).
    - destruct (nameTaken_total (ss_f st) name (argsInterfering itf v))
        as (b2 & -> & Hb2).
      { intros y r Hy. apply Hnoreg. apply elem_of_app. by right. }
      exists b2. split; [done|]. intros Hf y Hy.
      apply elem_of_app in Hy as [Hy|Hy]; [by apply Hb1|by apply Hb2].
    - exists false. split; [done|]. intros _ y Hy.
      rewrite app_nil_r in Hy. by apply Hb1. }
  simpl. destruct b2; [done|].
  eexists. split; [reflexivity|].
  destruct (N name) as [k|] eqn:Hk; [|done].
  eapply (pickInv_update done st v _ name None).
  - done.
  - done.
  - done.
  - by apply Hfresh.
  - intros id. cbn [ss_f]. by rewrite getHome_setHomes.
  - cbn [ss_f]. by rewrite f_autos_setHomes.
  - done.
  - cbn [ss_f ss_locations]. rewrite f_autos_setHomes.
    apply (inv_pool _ _ _ _ _ Hinv).
  - apply (inv_inj _ _ _ _ _ Hinv).
  - intros id. cbn [ss_slots].
    destruct (decide (id ∈ assigned v)) as [Hin|_]; [|done].
    by apply (inv_frame _ _ _ _ _ Hinv), Hfresh.
  - exists k. split; [done|]. by eapply Hnames.
  - intros y Hy _. by apply Hb2.
Qed.

(** The slot-picking loop returns, and the invariant holds of all the
    values at its end. *)
Lemma pickSlots_ok :
  ∃ st, pickSlots names (buildPhiArg f0) itf f0
          (mkSlotState f1 (λ _, []) ∅ ∅) = Ok st ∧
        pickInv f0 f1 itf (allValues f0) st.
Proof.
  unfold pickSlots. rewrite foldlM_blocks.
  apply (foldlM_prefix (pickInv f0 f1 itf)).
  - assert (∀ id, ¬ slotted f0 [] id) as Hnone.
    { intros id (w & Hw & _). by apply elem_of_nil in Hw. }
    split; cbn [ss_f ss_locations ss_slots].
    + lia.
    + done.
    + done.
    + intros w Hw. by apply elem_of_nil in Hw.
    + intros id _. split; [done|apply lookup_empty].
    + intros t i l Hl. by rewrite lookup_nil in Hl.
    + intros t i j l Hl. by rewrite lookup_nil in Hl.
    + intros id Hid. by apply Hnone in Hid.
    + intros x y Hx. by apply Hnone in Hx.
  - intros done v todo st Hall Hinv. by eapply pickSlot_step.
Qed.

End Pick.

(** [stackalloc] returns on the output of the register allocator, and
    the slot-picking loop ends with its invariant. *)
Lemma stackalloc_ok (postorder : Func → list Block) (f : Func) :
  wfCFG (postorder f) f → wfSpill f →
  ∃ fuel live itf f1 st,
    (∀ n, (fuel ≤ n)%nat → liveSpills postorder n f = Ok live) ∧
    buildInterference f live = Ok itf ∧
    (∀ n, (fuel ≤ n)%nat → stackalloc postorder n f = Ok (ss_f st)) ∧
    (∀ id, getHome f1 id = getHome f id ∨
           (∃ v l, v ∈ b_Values (f_Entry f) ∧ v_Op v = OpArg ∧ v_ID v = id ∧
                   getHome f1 id = Some (LocSlot l))) ∧
    pickInv f f1 itf (allValues f) st.
Proof.
  intros Hcfg Hwf.
  set (fuel := S (size (bound (liveInit f) (universe f)))).
  destruct (liveLoop_terminates f (postorder f) Hcfg fuel (liveInit f))
    as (live & Hloop & Hinv & _); [apply liveInv_init|unfold fuel; lia|].
  assert (∀ n, (fuel ≤ n)%nat → liveSpills postorder n f = Ok live) as Hlive.
  { intros n Hn. unfold liveSpills. by eapply liveLoop_more_fuel. }
  destruct (buildInterference_ok f live (wf_blockIDs _ _ Hcfg)
              (wf_loads _ _ Hcfg) Hinv) as (itf & Hitf & Hsym & Href).
  destruct (allocArgs_ok f (ws_args _ Hwf))
    as (f1 & Hargs & Hautos & Hblocks & Hhomes).
  destruct (pickSlots_ok f f1 itf (buildNames f) Hwf Hsym Href) as (st & Hst & Hpick).
  { intros id nm k Hnm. apply (ws_names _ Hwf). by eapply buildNames_elem. }
  { lia. }
  { done. }
  exists fuel, live, itf, f1, st. split; [done|]. split; [done|].
  split; [|done].
  intros n Hn. unfold stackalloc. rewrite (Hlive n Hn). simpl.
  rewrite Hitf. simpl. rewrite Hargs. simpl.
  unfold pickSlots in *. rewrite Hblocks, Hst. done.
Qed.

(** C2.  On the output of the register allocator [stackalloc] returns,
    and in its result every stack phi has a stack slot that is also the
    home of each of its arguments; every argument of a stack phi is in
    [phiArg], and the body of the slot-picking loop leaves the state as
    it is for a value in [phiArg]. *)
Theorem stack_phi_shares_slot_with_args (postorder : Func → list Block)
    (f : Func) :
  wfCFG (postorder f) f → wfSpill f →
  ∃ fuel f',
    (∀ n, (fuel ≤ n)%nat → stackalloc postorder n f = Ok f') ∧
    (∀ p, p ∈ allValues f → isStackPhi f p = true →
          ∃ loc, getHome f' (v_ID p) = Some (LocSlot loc) ∧
                 ∀ a, a ∈ v_Args p → getHome f' a = Some (LocSlot loc)) ∧
    (∀ p a, p ∈ allValues f → isStackPhi f p = true → a ∈ v_Args p →
            a ∈ buildPhiArg f) ∧
    (∀ names itf st v, v_ID v ∈ buildPhiArg f →
                       pickSlot names (buildPhiArg f) itf st v = Ok st).
Proof.
  intros Hcfg Hwf.
  destruct (stackalloc_ok postorder f Hcfg Hwf)
    as (fuel & live & itf & f1 & st & _ & _ & Hrun & _ & Hinv).
  exists fuel, (ss_f st). split; [done|]. split; [|split].
  - intros p Hp Hsp.
    destruct (inv_same _ _ _ _ _ Hinv p Hp (stackPhi_picked f Hwf p Hp Hsp))
      as [loc Hloc].
    exists loc. split; [apply Hloc, assigned_self|].
    intros a Ha. apply Hloc, assigned_arg; [|done].
    by apply isStackPhi_spec in Hsp as (? & _).
  - intros p a Hp Hsp Ha. apply elem_of_buildPhiArg. eauto.
  - intros names itf' st' v Hin. unfold pickSlot.
    destruct (negb _ && negb _); [done|]. by rewrite bool_decide_true.
Qed.



(** C10.  [isStackPhi] is false for a value that is not a phi or whose
    type is the memory type; for a phi of another type it is true
    exactly when the value has no home, its [RegAlloc] entry being
    missing or nil.  On the output of the register allocator
    [stackalloc] returns and leaves the home of every memory phi as it
    was, and the body of the slot-picking loop leaves the state as it is
    for a memory phi. *)
Theorem memory_phi_is_no_stack_phi (postorder : Func → list Block)
    (f : Func) :
  wfCFG (postorder f) f → wfSpill f →
  (∀ g v, v_Op v ≠ OpPhi ∨ v_Type v = TypeMem → isStackPhi g v = false) ∧
  (∀ g v, v_Op v = OpPhi → v_Type v ≠ TypeMem →
          (isStackPhi g v = true ↔
           (length (f_RegAlloc g) ≤ v_ID v)%nat ∨
           f_RegAlloc g !! v_ID v = Some None)) ∧
  (∀ names phiArg itf st v, v_Op v = OpPhi → v_Type v = TypeMem →
                            pickSlot names phiArg itf st v = Ok st) ∧
  ∃ fuel f',
    (∀ n, (fuel ≤ n)%nat → stackalloc postorder n f = Ok f') ∧
    ∀ v, v ∈ allValues f → v_Op v = OpPhi → v_Type v = TypeMem →
         getHome f' (v_ID v) = getHome f (v_ID v).
Proof.
  intros Hcfg Hwf.
  assert (∀ g v, v_Op v ≠ OpPhi ∨ v_Type v = TypeMem → isStackPhi g v = false)
    as Hfalse.
  { intros g v Hv. destruct (isStackPhi g v) eqn:Hsp; [|done].
    apply isStackPhi_spec in Hsp as (? & ? & _). by destruct Hv. }
  split; [done|]. split; [|split].
  - intros g v Hop Hty. rewrite isStackPhi_spec. unfold getHome.
    destruct (f_RegAlloc g !! v_ID v) as [h|] eqn:Hh.
    + split.
      * intros (_ & _ & Hnone). right. by subst.
      * intros [Hlen|Heq]; [|by simplify_eq].
        apply lookup_ge_None_2 in Hlen. congruence.
    + split; [|done]. intros _. left. by apply lookup_ge_None_1.
  - intros names phiArg itf st v Hop Hty. unfold pickSlot.
    rewrite (Hfalse (ss_f st) v) by (by right).
    rewrite bool_decide_false by congruence. done.
  - destruct (stackalloc_ok postorder f Hcfg Hwf)
      as (fuel & live & itf & f1 & st & _ & _ & Hrun & Hhomes & Hinv).
    exists fuel, (ss_f st). split; [done|].
    intros v Hv Hop Hty.
    destruct (inv_frame _ _ _ _ _ Hinv (v_ID v)) as [-> _].
    2:{ by apply (phi_home_f1 f f1 Hwf Hhomes). }
    intros (w & Hw & Hpw & Hid).
    apply assigned_cases in Hid as [Hid|[Hopw Hid]].
    + assert (v = w) by (by apply (same_ID f Hwf)). subst w.
      destruct Hpw as [[Hs|Hsp] _]; [congruence|].
      by rewrite Hfalse in Hsp by (by right).
    + by eapply (ws_phiargs _ Hwf w v); [|apply picked_phi|..].
Qed.

(** ** Checking the input contract *)

Lemma forallb_elem {A} (p : A → bool) (l : list A) x :
  forallb p l = true → x ∈ l → p x = true.
Proof.
  intros H Hx. eapply forallb_forall in H; [done|]. by apply list_elem_of_In.
Qed.

Lemma orb_negb_impl (a b : bool) : negb a || b = true → a = true → b = true.
Proof. by destruct a, b. Qed.

Lemma negb_decide_true (P : Prop) `{Decision P} :
  negb (bool_decide P) = true → ¬ P.
Proof. intros Hb. apply negb_true_iff in Hb. by apply bool_decide_eq_false in Hb. Qed.

Ltac imp H :=
  match type of H with
  | negb ?a || ?b = true => apply (orb_negb_impl a b) in H
  end.

Ltac pick H x := apply (forallb_elem _ _ x) in H; [cbv beta in H|done].

Lemma wfCFGb_sound po f : wfCFGb po f = true → wfCFG po f.
Proof.
  unfold wfCFGb. intros H.
  apply andb_prop in H as [H H5]. apply andb_prop in H as [H H4].
  apply andb_prop in H as [H H3]. apply andb_prop in H as [H1 H2].
  split.
  - by apply bool_decide_eq_true in H1.
  - intros b Hb. pick H2 b.
    by apply bool_decide_eq_true in H2.
  - intros b pid Hb Hpid. pick H3 b.
    pick H3 pid.
    apply existsb_exists in H3 as (p & Hp & Hc).
    apply andb_prop in Hc as [Hc1 Hc2].
    apply bool_decide_eq_true in Hc1, Hc2.
    exists p. split; [by apply list_elem_of_In|done].
  - intros v Hv Hop. pick H4 v.
    imp H4; [|by apply bool_decide_eq_true].
    by apply negb_decide_true in H4.
  - intros b v Hb Hv Hsp. pick H5 b.
    pick H5 v.
    imp H5; [|done]. by apply bool_decide_eq_true in H5.
Qed.

Lemma noRegb_sound f id r : noRegb f id = true → getHome f id ≠ Some (LocReg r).
Proof. unfold noRegb. intros H Heq. by rewrite Heq in H. Qed.

Lemma wfSpillb_sound f : wfSpillb f = true → wfSpill f.
Proof.
  unfold wfSpillb. intros H.
  apply andb_prop in H as [H H8]. apply andb_prop in H as [H H7].
  apply andb_prop in H as [H H6]. apply andb_prop in H as [H H5].
  apply andb_prop in H as [H H4]. apply andb_prop in H as [H H3].
  apply andb_prop in H as [H1 H2].
  split.
  - by apply bool_decide_eq_true in H1.
  - by apply bool_decide_eq_true in H2.
  - intros v Hv Hop. pick H3 v.
    imp H3; [|by apply bool_decide_eq_true].
    destruct (v_Aux v); try done. by eexists.
  - intros v Hv Hop. pick H4 v.
    imp H4; [|by apply bool_decide_eq_true].
    by apply negb_decide_true in H4.
  - intros p v Hp Hsp Hv Hin. pick H5 p.
    imp H5; [|done].
    pick H5 v.
    imp H5; [|by apply bool_decide_eq_true].
    by apply negb_decide_true in H5.
  - intros p q a Hp Hq Hsp Hsq Hap Haq.
    pick H6 p.
    imp H6; [|done].
    pick H6 q.
    imp H6; [|done].
    apply orb_prop in H6 as [H6|H6]; [by apply bool_decide_eq_true in H6|].
    pick H6 a.
    by apply negb_decide_true in H6.
  - intros id r [Hid|(v & Hv & Hc & <-)].
    + apply elem_of_universe in Hid as (v & Hv & Hid).
      pick H7 v.
      apply andb_prop in H7 as [H7 _].
      pick H7 id. by apply noRegb_sound.
    + pick H7 v.
      apply andb_prop in H7 as [_ H7].
      imp H7; [by apply noRegb_sound|].
      destruct Hc as [Hs| ->]; [|apply orb_true_r].
      by rewrite (bool_decide_true _ Hs).
  - intros nm k Hnm Hk. pick H8 nm.
    rewrite Hk in H8. by apply bool_decide_eq_true in H8.
Qed.


(** ** The examples *)

Import StackExamples.

(** C8 on the loop: its stack phi [v2] takes [v1] from b0 and [v3] from
    b2. *)
Lemma liveSpills_phi_inputs_on_edges_witness :
  ∃ fuel live,
    (∀ n, (fuel ≤ n)%nat → liveSpills revOrder n loopFunc = Ok live) ∧
    ∀ b, b ∈ revOrder loopFunc →
         phiInputsOnEdges loopFunc live b ∧
         startExcludesPhiInputs loopFunc live b.
Proof.
  apply (liveSpills_phi_inputs_on_edges revOrder loopFunc).
  apply wfCFGb_sound. vm_compute. reflexivity.
Defined.

(** C2 on the loop. *)
Lemma stack_phi_shares_slot_with_args_witness :
  ∃ fuel f',
    (∀ n, (fuel ≤ n)%nat → stackalloc revOrder n loopFunc = Ok f') ∧
    (∀ p, p ∈ allValues loopFunc → isStackPhi loopFunc p = true →
          ∃ loc, getHome f' (v_ID p) = Some (LocSlot loc) ∧
                 ∀ a, a ∈ v_Args p → getHome f' a = Some (LocSlot loc)).
Proof.
  destruct (stack_phi_shares_slot_with_args revOrder loopFunc)
    as (fuel & f' & Hrun & Hsame & _).
  - apply wfCFGb_sound. vm_compute. reflexivity.
  - apply wfSpillb_sound. vm_compute. reflexivity.
  - exists fuel, f'. split; [exact Hrun|exact Hsame].
Defined.

(** The loop does not meet [groupsApart]: its stack phi [v2] is loaded
    in b3 after its own argument [v3] is stored in b2, so the two have an
    edge in the interference graph; [stackalloc] gives both the variable
    100 all the same. *)
Lemma stack_phi_interferes_with_its_arg :
  let u := sval 2 OpPhi I32 [1%nat; 3%nat] in
  let w := sval 3 OpStoreReg I32 [11%nat] in
  let s := mkLocalSlot (Some 100%nat) I32 0 in
  ∃ live itf f',
    liveSpills revOrder 10 loopFunc = Ok live ∧
    buildInterference loopFunc live = Ok itf ∧
    stackalloc revOrder 10 loopFunc = Ok f' ∧
    u ∈ allValues loopFunc ∧ w ∈ allValues loopFunc ∧
    isStackPhi loopFunc u = true ∧ v_Op w = OpStoreReg ∧
    v_Type u = v_Type w ∧
    v_ID w ∈ interfering itf (v_ID u) ∧ v_ID u ∈ interfering itf (v_ID w) ∧
    getHome f' (v_ID u) = Some (LocSlot s) ∧
    getHome f' (v_ID w) = Some (LocSlot s).
Proof.
  cbn zeta. eexists _, _, _.
  split; [vm_compute; reflexivity|].
  split; [vm_compute; reflexivity|].
  split; [vm_compute; reflexivity|].
  split; [apply (bool_decide_unpack _); vm_compute; exact I|].
  split; [apply (bool_decide_unpack _); vm_compute; exact I|].
  split; [vm_compute; reflexivity|].
  split; [reflexivity|].
  split; [reflexivity|].
  split; [apply (bool_decide_unpack _); vm_compute; exact I|].
  split; [apply (bool_decide_unpack _); vm_compute; exact I|].
  split; vm_compute; reflexivity.
Defined.


(** C10 on the loop, whose memory phi is [v5]. *)
Lemma memory_phi_is_no_stack_phi_witness :
  isStackPhi loopFunc (sval 5 OpPhi TypeMem [12%nat; 5%nat]) = false ∧
  ∃ fuel f',
    (∀ n, (fuel ≤ n)%nat → stackalloc revOrder n loopFunc = Ok f') ∧
    getHome f' 5%nat = getHome loopFunc 5%nat.
Proof.
  destruct (memory_phi_is_no_stack_phi revOrder loopFunc)
    as (Hfalse & _ & _ & fuel & f' & Hrun & Hmem).
  - apply wfCFGb_sound. vm_compute. reflexivity.
  - apply wfSpillb_sound. vm_compute. reflexivity.
  - split; [apply Hfalse; right; reflexivity|].
    exists fuel, f'. split; [exact Hrun|].
    apply (Hmem (sval 5 OpPhi TypeMem [12%nat; 5%nat])).
    + apply (bool_decide_unpack _). vm_compute. exact I.
    + reflexivity.
    + reflexivity.
Defined.

End StackallocProofs.

(* ===================================================================== *)
(** * Properties of the MIPS rewriter                                     *)
(* ===================================================================== *)

Module RewriteMIPSProofs.
Import SSA RewriteMIPS RewriteExamples RewriteMIPSRules.

Lemma bind_Ok {A B} (m : result A) (k : A → result B) a :
  m = Ok a → (m ≫= k) = k a.
Proof. by intros ->. Qed.

Lemma deref_ID f k v : deref f k = Ok v → v_ID v = k.
Proof.
  unfold deref. destruct (f_values f !! k); [|done].
  case_bool_decide; [|done]. by intros [= ->].
Qed.

Lemma deref_setValue f v k :
  deref (setValue f v) k = if decide (k = v_ID v) then Ok v else deref f k.
Proof.
  unfold deref, setValue; simpl. destruct (decide (k = v_ID v)) as [->|Hne].
  - rewrite lookup_insert_eq. by rewrite bool_decide_true.
  - by rewrite lookup_insert_ne.
Qed.

Lemma look_Some f k v : look f k = Some v → ∃ v0, deref f k = Ok v0 ∧ v = with_Uses v0 0.
Proof. unfold look. destruct (deref f k); [|done]. intros [= <-]. eauto. Qed.

Lemma look_deref f k v : deref f k = Ok v → look f k = Some (with_Uses v 0).
Proof. unfold look. by intros ->. Qed.

Lemma same_refl f : same f f. Proof. done. Qed.
Lemma same_trans f1 f2 f3 : same f1 f2 → same f2 f3 → same f1 f3.
Proof. intros H1 H2 j. by rewrite H2. Qed.

Lemma addUses_same d f w :
  is_Some (look f w) → ∃ f', addUses d f w = Ok f' ∧ same f f'.
Proof.
  intros [x Hx]. apply look_Some in Hx as (x0 & Hx0 & ->).
  unfold addUses. rewrite Hx0. simpl. eexists; split; [done|].
  intros j. unfold look. rewrite deref_setValue. simpl.
  pose proof (deref_ID _ _ _ Hx0) as Hid.
  destruct (decide (j = v_ID x0)) as [->|]; [|done].
  rewrite Hid, Hx0. by destruct x0.
Qed.

Lemma foldlM_addUses_same d l f :
  Forall (λ w, is_Some (look f w)) l →
  ∃ f', foldlM (addUses d) l f = Ok f' ∧ same f f'.
Proof.
  revert f. induction l as [|w l IH]; intros f Hl; simpl.
  - eexists; split; [done|apply same_refl].
  - inversion Hl as [|?? Hw Hl']; subst.
    destruct (addUses_same d f w Hw) as (f1 & -> & H1). simpl.
    destruct (IH f1) as (f2 & -> & H2).
    { eapply List.Forall_impl; [|exact Hl']. intros k. simpl. by rewrite H1. }
    eexists; split; [done|]. by eapply same_trans.
Qed.

Lemma upd_same f1 f2 f3 k v : upd f1 f2 k v → same f2 f3 → upd f1 f3 k v.
Proof. intros H1 H2 j. by rewrite H2. Qed.
Lemma same_upd f1 f2 f3 k v : same f1 f2 → upd f2 f3 k v → upd f1 f3 k v.
Proof. intros H1 H2 j. rewrite H2. by rewrite H1. Qed.
Lemma upd_upd f1 f2 f3 k v v' : upd f1 f2 k v → upd f2 f3 k v' → upd f1 f3 k v'.
Proof. intros H1 H2 j. rewrite H2. case_decide; [done|]. rewrite H1. by rewrite decide_False. Qed.
Lemma upd_look f f' k v : upd f f' k v → look f' k = Some (with_Uses v 0).
Proof. intros Hu. rewrite Hu. by rewrite decide_True. Qed.
Lemma upd_look_ne f f' k v j : upd f f' k v → j ≠ k → look f' j = look f j.
Proof. intros Hu ?. rewrite Hu. by rewrite decide_False. Qed.

Lemma setField_upd (g : Value → Value) f k v :
  (∀ x, v_ID (g x) = v_ID x) →
  (∀ x n, with_Uses (g (with_Uses x n)) 0 = with_Uses (g x) 0) →
  look f k = Some v →
  ∃ f', (x ← deref f k; Ok (setValue f (g x))) = Ok f' ∧ upd f f' k (g v).
Proof.
  intros Hid Hg Hv. apply look_Some in Hv as (v0 & Hv0 & ->).
  rewrite Hv0. simpl. eexists; split; [done|].
  intros j. unfold look at 1. rewrite deref_setValue, Hid.
  rewrite (deref_ID _ _ _ Hv0).
  destruct (decide (j = k)); [|done]. by rewrite Hg.
Qed.

Lemma setAuxInt_upd f k v c :
  look f k = Some v → ∃ f', setAuxInt f k c = Ok f' ∧ upd f f' k (with_AuxInt v c).
Proof. intros. apply (setField_upd (λ x, with_AuxInt x c)); [done| |done]. by intros []. Qed.
Lemma setAux_upd f k v a :
  look f k = Some v → ∃ f', setAux f k a = Ok f' ∧ upd f f' k (with_Aux v a).
Proof. intros. apply (setField_upd (λ x, with_Aux x a)); [done| |done]. by intros []. Qed.
Lemma setType_upd f k v t :
  look f k = Some v → ∃ f', setType f k t = Ok f' ∧ upd f f' k (with_Type v t).
Proof. intros. apply (setField_upd (λ x, with_Type x t)); [done| |done]. by intros []. Qed.

Lemma reset_upd f k v op :
  look f k = Some v →
  Forall (λ w, is_Some (look f w)) (v_Args v) →
  ∃ f', reset f k op = Ok f' ∧
        upd f f' k (mkValue k op (v_Type v) 0 AuxNil [] (v_Block v) 0).
Proof.
  intros Hv Hargs. pose proof Hv as Hv'.
  apply look_Some in Hv' as (v0 & Hv0 & ->). simpl in Hargs.
  unfold reset. rewrite Hv0. simpl.
  destruct (foldlM_addUses_same (-1) (v_Args v0) f Hargs) as (f1 & -> & H1). simpl.
  assert (look f1 k = Some (with_Uses v0 0)) as Hk by (by rewrite H1).
  destruct (setField_upd (λ x, with_Aux (with_AuxInt (with_Args (with_Op x op) []) 0) AuxNil)
              f1 k _ ltac:(done) ltac:(by intros []) Hk) as (f2 & -> & H2).
  eexists; split; [done|]. eapply same_upd; [exact H1|].
  rewrite <- (deref_ID _ _ _ Hv0) at 2. exact H2.
Qed.

Lemma AddArg_upd f k v w :
  look f k = Some v → is_Some (look f w) →
  ∃ f', AddArg f k w = Ok f' ∧ upd f f' k (with_Args v (v_Args v ++ [w])).
Proof.
  intros Hv Hw. pose proof Hv as Hv'.
  apply look_Some in Hv' as (v0 & Hv0 & ->).
  unfold AddArg. rewrite Hv0. simpl.
  set (f1 := setValue f _).
  assert (upd f f1 k (with_Args (with_Uses v0 0) (v_Args v0 ++ [w]))) as H1.
  { intros j. unfold look at 1, f1. rewrite deref_setValue. simpl.
    rewrite (deref_ID _ _ _ Hv0). by destruct (decide (j = k)). }
  destruct (addUses_same 1 f1 w) as (f2 & -> & H2).
  { rewrite H1. by case_decide. }
  simpl. eexists; split; [done|]. by eapply upd_same.
Qed.

Lemma look_ID f k v : look f k = Some v → v_ID v = k.
Proof.
  intros Hv. apply look_Some in Hv as (v0 & Hv0 & ->).
  simpl. by eapply deref_ID.
Qed.

Lemma upd_is_Some f f' k v j :
  upd f f' k v → is_Some (look f j) → is_Some (look f' j).
Proof. intros Hu Hj. rewrite Hu. by case_decide. Qed.

Lemma look_with_Uses f k v : look f k = Some v → with_Uses v 0 = v.
Proof. intros Hv. apply look_Some in Hv as (v0 & _ & ->). by destruct v0. Qed.


(** Running the steps of a rule's right-hand side, one at a time. *)
Ltac step_with lem :=
  let f' := fresh "f" in
  let Hu := fresh "Hu" in
  edestruct lem as (f' & -> & Hu); [..|simpl].

Lemma upd_chain_look f f' k v :
  upd f f' k v → look f' k = Some (with_Uses v 0).
Proof. apply upd_look. Qed.

(** [(op [c] x)]: the shape that the immediate forms are built in. *)
Lemma rhs_imm f vid v op c x :
  look f vid = Some v →
  Forall (λ w, is_Some (look f w)) (v_Args v) →
  is_Some (look f x) →
  ∃ f', (f ← reset f vid op; f ← setAuxInt f vid c; f ← AddArg f vid x;
         fired f) = Ok (Some f') ∧
        upd f f' vid (rewritten v op c AuxNil [x]).
Proof.
  intros Hv Hold Hx. pose proof (look_ID _ _ _ Hv) as Hid.
  destruct (reset_upd f vid v op Hv Hold) as (f1 & -> & H1). simpl.
  destruct (setAuxInt_upd f1 vid _ c (upd_look _ _ _ _ H1)) as (f2 & -> & H2).
  simpl.
  destruct (AddArg_upd f2 vid _ x (upd_look _ _ _ _ H2)) as (f3 & -> & H3).
  { eapply upd_is_Some; [exact H2|]. by eapply upd_is_Some. }
  simpl. eexists; split; [done|].
  eapply upd_upd; [exact H1|]. eapply upd_upd; [exact H2|].
  unfold rewritten. rewrite Hid. exact H3.
Qed.

(** A copy of the operand [x]. *)
Lemma rhs_copy f vid v x :
  look f vid = Some v →
  Forall (λ w, is_Some (look f w)) (v_Args v) →
  is_Some (look f (v_ID x)) →
  ∃ f', (f ← reset f vid OpCopy; f ← setType f vid (v_Type x);
         f ← AddArg f vid (v_ID x); fired f) = Ok (Some f') ∧
        upd f f' vid (copyOf v x).
Proof.
  intros Hv Hold Hx. pose proof (look_ID _ _ _ Hv) as Hid.
  destruct (reset_upd f vid v OpCopy Hv Hold) as (f1 & -> & H1). simpl.
  destruct (setType_upd f1 vid _ (v_Type x) (upd_look _ _ _ _ H1))
    as (f2 & -> & H2).
  simpl.
  destruct (AddArg_upd f2 vid _ (v_ID x) (upd_look _ _ _ _ H2)) as (f3 & -> & H3).
  { eapply upd_is_Some; [exact H2|]. by eapply upd_is_Some. }
  simpl. eexists; split; [done|].
  eapply upd_upd; [exact H1|]. eapply upd_upd; [exact H2|].
  unfold copyOf. rewrite Hid. exact H3.
Qed.

(** [(op [c] {a} x y)]: the shape of a fused load. *)
Lemma rhs_load f vid v op c a x y :
  look f vid = Some v →
  Forall (λ w, is_Some (look f w)) (v_Args v) →
  is_Some (look f x) → is_Some (look f y) →
  ∃ f', (f ← reset f vid op; f ← setAuxInt f vid c; f ← setAux f vid a;
         f ← AddArg f vid x; f ← AddArg f vid y; fired f) = Ok (Some f') ∧
        upd f f' vid (rewritten v op c a [x; y]).
Proof.
  intros Hv Hold Hx Hy. pose proof (look_ID _ _ _ Hv) as Hid.
  destruct (reset_upd f vid v op Hv Hold) as (f1 & -> & H1). simpl.
  destruct (setAuxInt_upd f1 vid _ c (upd_look _ _ _ _ H1)) as (f2 & -> & H2).
  simpl.
  destruct (setAux_upd f2 vid _ a (upd_look _ _ _ _ H2)) as (f3 & -> & H3).
  simpl.
  destruct (AddArg_upd f3 vid _ x (upd_look _ _ _ _ H3)) as (f4 & -> & H4).
  { do 3 (eapply upd_is_Some; [eassumption|]). done. }
  simpl.
  destruct (AddArg_upd f4 vid _ y (upd_look _ _ _ _ H4)) as (f5 & -> & H5).
  { do 4 (eapply upd_is_Some; [eassumption|]). done. }
  simpl. eexists; split; [done|].
  do 4 (eapply upd_upd; [eassumption|]).
  unfold rewritten. rewrite Hid. exact H5.
Qed.

Lemma orElse_fired f' r : fired f' <||> r = fired f'.
Proof. done. Qed.

Lemma finish_fired f f' : finish f (Ok (Some f')) = Ok (f', true).
Proof. done. Qed.

Lemma hasOp_true v op : v_Op v = op → hasOp v op = true.
Proof. intros. unfold hasOp. by apply bool_decide_eq_true. Qed.
Lemma hasOp_false v op : v_Op v ≠ op → hasOp v op = false.
Proof. intros. unfold hasOp. by apply bool_decide_eq_false. Qed.

(** The first rule of the five commutative ops with an immediate form,
    under either argument order. *)
Lemma commute_imm f vid v x cv op' (swapped : bool) (r : rule) :
  look f vid = Some v →
  Forall (λ w, is_Some (look f w)) (v_Args v) →
  is_Some (look f (v_ID x)) →
  v_Op cv = OpMIPSMOVWconst → v_Op x ≠ OpMIPSMOVWconst →
  ∃ f',
    finish f
      (commute (λ v_0 v_1,
         let x := v_0 in
         if negb (hasOp v_1 OpMIPSMOVWconst) then nomatch else
         let c := v_AuxInt v_1 in
         f ← reset f vid op';
         f ← setAuxInt f vid c;
         f ← AddArg f vid (v_ID x);
         fired f)
         (if swapped then cv else x) (if swapped then x else cv)
       <||> r) = Ok (f', true) ∧
    upd f f' vid (rewritten v op' (v_AuxInt cv) AuxNil [v_ID x]).
Proof.
  intros Hv Hold Hx Hc Hnc.
  destruct (rhs_imm f vid v op' (v_AuxInt cv) (v_ID x) Hv Hold Hx)
    as (f' & Hrhs & Hu).
  exists f'. split; [|exact Hu].
  unfold commute. destruct swapped; simpl.
  - rewrite (hasOp_false x), (hasOp_true cv) by done. simpl.
    by rewrite Hrhs.
  - rewrite (hasOp_true cv) by done. simpl. by rewrite Hrhs.
Qed.

Lemma deref_is_Some f k v : deref f k = Ok v → is_Some (look f k).
Proof. intros Hv. rewrite (look_deref _ _ _ Hv). eauto. Qed.

Lemma rewritten_with_Uses v op c a args n :
  rewritten (with_Uses v n) op c a args = rewritten v op c a args.
Proof. done. Qed.

Section Canonical.
Context `{Helpers}.

(** C7 (amended).  A constant operand of ADD, AND, OR, XOR or NOR moves
    into the immediate of the op's constant form, whichever side it is
    on, when the other operand is no constant.  MUL has no constant
    form: with a constant other than 0, 1, -1 and the powers of two, on
    either side, and another operand that is no constant, it is left as
    it is.  SUB x (MOVWconst [c]) becomes SUBconst [c] x; SUBconst [0] x
    becomes a copy of x; and, for c other than 0, a SUBconst [c] of a
    SUBconst or of an ADDconst becomes an ADDconst of the negated,
    combined constant. *)
Theorem canonical_constant_operands (f : Func) (vid : ID) (v : Value) :
  deref f vid = Ok v →
  (∀ x cv op' (swapped : bool),
     immediateForm (v_Op v) = Some op' →
     deref f (v_ID x) = Ok x → deref f (v_ID cv) = Ok cv →
     v_Op cv = OpMIPSMOVWconst → v_Op x ≠ OpMIPSMOVWconst →
     v_Args v = (if swapped then [v_ID cv; v_ID x] else [v_ID x; v_ID cv]) →
     ∃ f', rewriteValueMIPS f vid = Ok (f', true) ∧
           upd f f' vid (rewritten v op' (v_AuxInt cv) AuxNil [v_ID x])) ∧
  (∀ x cv (swapped : bool),
     v_Op v = OpMIPSMUL →
     deref f (v_ID x) = Ok x → deref f (v_ID cv) = Ok cv →
     v_Op cv = OpMIPSMOVWconst → v_Op x ≠ OpMIPSMOVWconst →
     v_AuxInt cv ≠ 0 → v_AuxInt cv ≠ 1 → v_AuxInt cv ≠ -1 →
     isPowerOfTwo (uint32 (v_AuxInt cv)) = false →
     v_Args v = (if swapped then [v_ID cv; v_ID x] else [v_ID x; v_ID cv]) →
     rewriteValueMIPS f vid = Ok (f, false)) ∧
  (∀ x cv,
     v_Op v = OpMIPSSUB →
     deref f (v_ID x) = Ok x → deref f (v_ID cv) = Ok cv →
     v_Op cv = OpMIPSMOVWconst →
     v_Args v = [v_ID x; v_ID cv] →
     ∃ f', rewriteValueMIPS f vid = Ok (f', true) ∧
           upd f f' vid (rewritten v OpMIPSSUBconst (v_AuxInt cv) AuxNil
                                   [v_ID x])) ∧
  (∀ y,
     v_Op v = OpMIPSSUBconst → v_AuxInt v = 0 →
     deref f (v_ID y) = Ok y → v_Args v = [v_ID y] →
     ∃ f', rewriteValueMIPS f vid = Ok (f', true) ∧
           upd f f' vid (copyOf v y)) ∧
  (∀ y z,
     v_Op v = OpMIPSSUBconst → v_AuxInt v ≠ 0 →
     deref f (v_ID y) = Ok y → is_Some (look f z) →
     v_Args v = [v_ID y] → v_Args y = [z] →
     (v_Op y = OpMIPSSUBconst →
      ∃ f', rewriteValueMIPS f vid = Ok (f', true) ∧
            upd f f' vid
              (rewritten v OpMIPSADDconst
                 (int32 (int64 (int64 (- v_AuxInt v) - v_AuxInt y))) AuxNil [z])) ∧
     (v_Op y = OpMIPSADDconst →
      ∃ f', rewriteValueMIPS f vid = Ok (f', true) ∧
            upd f f' vid
              (rewritten v OpMIPSADDconst
                 (int32 (int64 (int64 (- v_AuxInt v) + v_AuxInt y))) AuxNil [z]))).
Proof.
  intros Hv. pose proof (look_deref _ _ _ Hv) as Hlv.
  refine (conj _ (conj _ (conj _ (conj _ _)))).
  - intros x cv op' swapped Himm Hx Hc Hcop Hxop Hargs.
    pose proof (deref_is_Some _ _ _ Hx) as Hlx.
    pose proof (deref_is_Some _ _ _ Hc) as Hlc.
    assert (Forall (λ w, is_Some (look f w)) (v_Args (with_Uses v 0))) as Hold.
    { simpl. rewrite Hargs. destruct swapped; repeat constructor; done. }
    unfold rewriteValueMIPS. rewrite Hv. simpl.
    destruct (v_Op v) eqn:Hop; try discriminate Himm;
      injection Himm as <-;
      [ unfold rewriteValueMIPS_OpMIPSADD
      | unfold rewriteValueMIPS_OpMIPSAND
      | unfold rewriteValueMIPS_OpMIPSOR
      | unfold rewriteValueMIPS_OpMIPSXOR
      | unfold rewriteValueMIPS_OpMIPSNOR ];
      rewrite Hv; simpl; unfold argv, arg, go_index; rewrite Hargs;
      (destruct swapped; simpl; rewrite Hx, Hc; simpl);
      try (rewrite <- (rewritten_with_Uses v _ _ _ _ 0);
           first [ apply (commute_imm f vid (with_Uses v 0) x cv _ true); done
                 | apply (commute_imm f vid (with_Uses v 0) x cv _ false); done ]).
    + (* NOR has a single rule *)
      rewrite <- (rewritten_with_Uses v _ _ _ _ 0).
      destruct (commute_imm f vid (with_Uses v 0) x cv OpMIPSNORconst true nomatch)
        as (f' & Hr & Hu); try done.
      exists f'. split; [|done]. simpl in Hr.
      destruct (commute _ cv x); [|done]. by destruct a.
    + rewrite <- (rewritten_with_Uses v _ _ _ _ 0).
      destruct (commute_imm f vid (with_Uses v 0) x cv OpMIPSNORconst false nomatch)
        as (f' & Hr & Hu); try done.
      exists f'. split; [|done]. simpl in Hr.
      destruct (commute _ x cv); [|done]. by destruct a.
  - intros x cv swapped Hop Hx Hc Hcop Hxop H0 H1 Hm1 Hpow Hargs.
    unfold rewriteValueMIPS. rewrite Hv. simpl. rewrite Hop.
    unfold rewriteValueMIPS_OpMIPSMUL. rewrite Hv. simpl.
    unfold argv, arg, go_index. rewrite Hargs.
    destruct swapped; simpl; rewrite Hx, Hc; simpl; unfold commute;
      rewrite (hasOp_true cv), (hasOp_false x) by done;
      rewrite (bool_decide_eq_false_2 _ H0), (bool_decide_eq_false_2 _ H1),
        (bool_decide_eq_false_2 _ Hm1), Hpow;
      reflexivity.
  - intros x cv Hop Hx Hc Hcop Hargs.
    pose proof (deref_is_Some _ _ _ Hx) as Hlx.
    pose proof (deref_is_Some _ _ _ Hc) as Hlc.
    unfold rewriteValueMIPS. rewrite Hv. simpl. rewrite Hop.
    unfold rewriteValueMIPS_OpMIPSSUB. rewrite Hv. simpl.
    unfold argv, arg, go_index. rewrite Hargs. simpl. rewrite Hx, Hc. simpl.
    rewrite (hasOp_true cv) by done. simpl.
    destruct (rhs_imm f vid (with_Uses v 0) OpMIPSSUBconst (v_AuxInt cv) (v_ID x))
      as (f' & -> & Hu); try done.
    { simpl. rewrite Hargs. repeat constructor; done. }
    exists f'. by split.
  - intros y Hop Hz Hy Hargs.
    pose proof (deref_is_Some _ _ _ Hy) as Hly.
    assert (Forall (λ w, is_Some (look f w)) (v_Args (with_Uses v 0))) as Hold.
    { simpl. rewrite Hargs. repeat constructor; done. }
    unfold rewriteValueMIPS. rewrite Hv. simpl. rewrite Hop.
    unfold rewriteValueMIPS_OpMIPSSUBconst. rewrite Hv. simpl.
    unfold argv, arg, go_index. rewrite Hargs. simpl. rewrite Hy. simpl.
    rewrite (bool_decide_eq_true_2 _ Hz). simpl.
    destruct (rhs_copy f vid (with_Uses v 0) y Hlv Hold Hly) as (f' & -> & Hu).
    exists f'. by split.
  - intros y z Hop Hnz Hy Hz Hargs Hyargs.
    pose proof (deref_is_Some _ _ _ Hy) as Hly.
    assert (Forall (λ w, is_Some (look f w)) (v_Args (with_Uses v 0))) as Hold.
    { simpl. rewrite Hargs. repeat constructor; done. }
    split; intros Hyop;
      unfold rewriteValueMIPS; rewrite Hv; simpl; rewrite Hop;
      unfold rewriteValueMIPS_OpMIPSSUBconst; rewrite Hv; simpl;
      unfold argv, arg, go_index; rewrite Hargs; simpl; rewrite Hy; simpl;
      rewrite (bool_decide_eq_false_2 _ Hnz); simpl;
      rewrite Hyargs; simpl.
    + rewrite (hasOp_false y OpMIPSMOVWconst), (hasOp_true y OpMIPSSUBconst)
        by (done || by rewrite Hyop).
      simpl.
      destruct (rhs_imm f vid (with_Uses v 0) OpMIPSADDconst
                  (int32 (int64 (int64 (- v_AuxInt v) - v_AuxInt y))) z)
        as (f' & -> & Hu); try done.
      exists f'. by split.
    + rewrite (hasOp_false y OpMIPSMOVWconst), (hasOp_false y OpMIPSSUBconst),
        (hasOp_true y OpMIPSADDconst) by (done || by rewrite Hyop).
      simpl.
      destruct (rhs_imm f vid (with_Uses v 0) OpMIPSADDconst
                  (int32 (int64 (int64 (- v_AuxInt v) + v_AuxInt y))) z)
        as (f' & -> & Hu); try done.
      exists f'. by split.
Qed.

End Canonical.

(** C7 at [ADD (MOVWconst [5]) x]: the constant on the left moves into
    the immediate. *)
Lemma canonical_constant_operands_witness :
  ∃ f', rewriteValueMIPS (H := exampleHelpers) addLeftFunc 3 = Ok (f', true) ∧
        upd addLeftFunc f' 3 (val 3 OpMIPSADDconst I32 5 [1%nat] 0).
Proof.
  destruct (canonical_constant_operands (H := exampleHelpers) addLeftFunc 3
              (val 3 OpMIPSADD I32 0 [2%nat; 1%nat] 0) eq_refl) as [Himm _].
  exact (Himm (val 1 OpArg I32 0 [] 1) (val 2 OpMIPSMOVWconst I32 5 [] 1)
              OpMIPSADDconst true eq_refl eq_refl eq_refl eq_refl
              ltac:(discriminate) eq_refl).
Defined.

(** C7 as stated fails twice.  [SUB x (MOVWconst [5])] is [SUBconst [5] x]
    at the fixpoint, not an addition of [-5]; and the commutative
    [MUL (MOVWconst [3]) x] keeps its constant on the left: no rule
    fires on it, whichever side the constant is on. *)
Lemma constants_left_where_they_are :
  (f' ← applyRewrite (H := exampleHelpers) oneBlock 3 subFunc; deref f' 3)
  = Ok (val 3 OpMIPSSUBconst I32 5 [1%nat] 0) ∧
  deref (constLeft OpMIPSMUL 3) 3
  = Ok (val 3 OpMIPSMUL I32 0 [2%nat; 1%nat] 0) ∧
  deref (constLeft OpMIPSMUL 3) 2
  = Ok (val 2 OpMIPSMOVWconst I32 3 [] 1) ∧
  rewriteValueMIPS (H := exampleHelpers) (constLeft OpMIPSMUL 3) 3
  = Ok (constLeft OpMIPSMUL 3, false) ∧
  applyRewrite (H := exampleHelpers) oneBlock 1 (constLeft OpMIPSMUL 3)
  = Ok (constLeft OpMIPSMUL 3) ∧
  applyRewrite (H := exampleHelpers) oneBlock 1 (constRight OpMIPSMUL 3)
  = Ok (constRight OpMIPSMUL 3).
Proof. repeat split; vm_compute; reflexivity. Qed.

Section Loads.
Context `{Helpers}.

(** C6 (amended).  The rule that folds an ADDconst into the displacement
    of a MOVWload fires exactly when the sum of the offsets fits 16 bits
    or the address has no other use; when it fires the load reads
    [MOVWload [off1+off2] {sym} ptr mem].  A load from [base + 4] becomes
    [MOVWload [4] base mem]. *)
Theorem MOVWload_folds_ADDconst (f : Func) (vid : ID) (v x mem : Value)
    (ptr : ID) :
  deref f vid = Ok v → deref f (v_ID x) = Ok x → deref f (v_ID mem) = Ok mem →
  is_Some (look f ptr) →
  v_Op v = OpMIPSMOVWload → v_Args v = [v_ID x; v_ID mem] →
  v_Op x = OpMIPSADDconst → v_Args x = [ptr] →
  let off := int64 (v_AuxInt v + v_AuxInt x) in
  ((∃ f', MOVWload_ADDconst f vid v x mem = Ok (Some f')) ↔
   (is16Bit off = true ∨ v_Uses x = 1)) ∧
  (is16Bit off = true ∨ v_Uses x = 1 →
   ∃ f', rewriteValueMIPS f vid = Ok (f', true) ∧
         upd f f' vid (rewritten v OpMIPSMOVWload off (v_Aux v)
                                 [ptr; v_ID mem])) ∧
  (f' ← rewriteValueMIPS (loadFunc 0 4 2) 4; deref (f'.1) 4)
  = Ok (val 4 OpMIPSMOVWload I32 4 [1%nat; 3%nat] 0).
Proof.
  intros Hv Hx Hmem Hptr Hop Hargs Hxop Hxargs off.
  assert (Forall (λ w, is_Some (look f w)) (v_Args (with_Uses v 0))) as Hold.
  { simpl. rewrite Hargs. repeat constructor; by eapply deref_is_Some. }
  destruct (rhs_load f vid (with_Uses v 0) OpMIPSMOVWload off (v_Aux v) ptr
              (v_ID mem) (look_deref _ _ _ Hv) Hold Hptr
              (deref_is_Some _ _ _ Hmem)) as (f' & Hrhs & Hu).
  assert (MOVWload_ADDconst f vid v x mem =
          if is16Bit off || bool_decide (v_Uses x = 1)
          then Ok (Some f') else Ok None) as Hrule.
  { unfold MOVWload_ADDconst. rewrite (hasOp_true x) by done. simpl.
    unfold arg, go_index. rewrite Hxargs. simpl. fold off.
    destruct (is16Bit off || bool_decide (v_Uses x = 1)); simpl; [|done].
    exact Hrhs. }
  split; [|split].
  - rewrite Hrule. split.
    + intros [f'' Hf]. destruct (is16Bit off) eqn:E1; [by left|]. simpl in Hf.
      case_bool_decide; [by right|done].
    + intros [->| ->]; [|rewrite bool_decide_true by done; rewrite orb_true_r];
        eauto.
  - intros Hcond. exists f'. split; [|exact Hu].
    unfold rewriteValueMIPS. rewrite Hv. simpl. rewrite Hop.
    unfold rewriteValueMIPS_OpMIPSMOVWload. rewrite Hv. simpl.
    unfold argv, arg, go_index. rewrite Hargs. simpl. rewrite Hx, Hmem. simpl.
    rewrite Hrule.
    destruct Hcond as [->| ->];
      [|rewrite bool_decide_true by done; rewrite orb_true_r]; done.
  - vm_compute. reflexivity.
Qed.

End Loads.

(** C6 at the load from [base + 4], whose address has another use. *)
Lemma MOVWload_folds_ADDconst_witness :
  ∃ f', rewriteValueMIPS (H := exampleHelpers) (loadFunc 0 4 2) 4 = Ok (f', true) ∧
        upd (loadFunc 0 4 2) f' 4 (val 4 OpMIPSMOVWload I32 4 [1%nat; 3%nat] 0).
Proof.
  destruct (MOVWload_folds_ADDconst (H := exampleHelpers) (loadFunc 0 4 2) 4
              (val 4 OpMIPSMOVWload I32 0 [2%nat; 3%nat] 0)
              (val 2 OpMIPSADDconst TypePtr 4 [1%nat] 2)
              (val 3 OpArg TypeMem 0 [] 1) 1%nat
              eq_refl eq_refl eq_refl ltac:(vm_compute; eauto)
              eq_refl eq_refl eq_refl eq_refl) as (_ & Hfold & _).
  apply Hfold. left. vm_compute. reflexivity.
Defined.

(** C6 as stated fails for a displacement of 100000 whose address has a
    single use: it does not fit 16 bits, and the rule fires. *)
Lemma MOVWload_folds_wide_displacement :
  is16Bit (int64 (0 + 100000)) = false ∧
  (f' ← rewriteValueMIPS (H := exampleHelpers) (loadFunc 0 100000 1) 4;
   deref (f'.1) 4)
  = Ok (val 4 OpMIPSMOVWload I32 100000 [1%nat; 3%nat] 0).
Proof. split; vm_compute; reflexivity. Qed.

Section Division.
Context `{Helpers}.

(** C1 at a zero divisor: folding [Select1] and [Select0] of
    [(DIV (MOVWconst [c]) (MOVWconst [0]))] divides by zero in the
    compiler. *)
Theorem select_DIV_by_zero_panics (c : Z) :
  rewriteValueMIPS (divFunc c 0) 4 = Fail DivideByZero ∧
  rewriteValueMIPS (divFunc c 0) 5 = Fail DivideByZero ∧
  rewriteValueMIPS_OpSelect1 (divFunc c 0) 4 = Fail DivideByZero ∧
  rewriteValueMIPS_OpSelect0 (divFunc c 0) 5 = Fail DivideByZero.
Proof. repeat split; vm_compute; reflexivity. Qed.

(** With a non-zero divisor the same rules fold to the quotient and the
    remainder. *)
Lemma select_DIV_folds :
  (f' ← rewriteValueMIPS (divFunc (-7) 2) 4; deref (f'.1) 4)
  = Ok (val 4 OpMIPSMOVWconst I32 (-3) [] 0) ∧
  (f' ← rewriteValueMIPS (divFunc (-7) 2) 5; deref (f'.1) 5)
  = Ok (val 5 OpMIPSMOVWconst I32 (-1) [] 0).
Proof. split; vm_compute; reflexivity. Qed.

(** C5 (amended).  The rewriter brings the value
    [v3 = Add32 (Const32 [14]) (Const32 [26])] to [MOVWconst [40]], with
    no argument: the constants lower to MOVWconst and the sum to ADD,
    then to [ADDconst [26]], which folds; a further round changes
    nothing.  No rule removes a value: the function at the fixpoint has
    the three values that it had, the former operands [v1] and [v2] being
    [MOVWconst [14]] and [MOVWconst [26]] with no use left. *)
Theorem add_constants_fold :
  let f3 := arena [val 1 OpMIPSMOVWconst I32 14 [] 0;
                   val 2 OpMIPSMOVWconst I32 26 [] 0;
                   val 3 OpMIPSMOVWconst I32 40 [] 0] in
  (∃ f1 f2,
     rewriteRound oneBlock addFunc = Ok (f1, true) ∧
     deref f1 1 = Ok (val 1 OpMIPSMOVWconst I32 14 [] 1) ∧
     deref f1 2 = Ok (val 2 OpMIPSMOVWconst I32 26 [] 1) ∧
     deref f1 3 = Ok (val 3 OpMIPSADD I32 0 [1%nat; 2%nat] 0) ∧
     rewriteRound oneBlock f1 = Ok (f2, true) ∧
     deref f2 1 = Ok (val 1 OpMIPSMOVWconst I32 14 [] 1) ∧
     deref f2 2 = Ok (val 2 OpMIPSMOVWconst I32 26 [] 0) ∧
     deref f2 3 = Ok (val 3 OpMIPSADDconst I32 26 [1%nat] 0) ∧
     rewriteRound oneBlock f2 = Ok (f3, true)) ∧
  rewriteRound oneBlock f3 = Ok (f3, false) ∧
  (∀ n : nat, applyRewrite oneBlock (4 + n) addFunc = Ok f3) ∧
  deref f3 1 = Ok (val 1 OpMIPSMOVWconst I32 14 [] 0) ∧
  deref f3 2 = Ok (val 2 OpMIPSMOVWconst I32 26 [] 0) ∧
  deref f3 3 = Ok (val 3 OpMIPSMOVWconst I32 40 [] 0) ∧
  (∀ id v, deref f3 id = Ok v →
           id ∈ [1; 2; 3]%nat ∧ v_Op v = OpMIPSMOVWconst ∧ v_Uses v = 0 ∧
           v_Args v = []).
Proof.
  cbn zeta. split.
  { eexists _, _. do 8 (split; [vm_compute; reflexivity|]).
    vm_compute. reflexivity. }
  split; [vm_compute; reflexivity|].
  split; [intros n; vm_compute; reflexivity|].
  do 3 (split; [vm_compute; reflexivity|]).
  intros id v Hv.
  assert (id = 1 ∨ id = 2 ∨ id = 3)%nat as Hid.
  { unfold deref in Hv.
    destruct (decide (id = 1%nat)) as [|H1]; [tauto|].
    destruct (decide (id = 2%nat)) as [|H2]; [tauto|].
    destruct (decide (id = 3%nat)) as [|H3]; [tauto|].
    exfalso. revert Hv. unfold arena, graph. simpl.
    rewrite !lookup_insert_ne by done. by rewrite lookup_empty. }
  destruct Hid as [-> | [-> | ->]];
    vm_compute in Hv; injection Hv as <-;
    (split; [apply (bool_decide_unpack _); vm_compute; exact I|done]).
Qed.

End Division.

(** C5 as stated fails on its own input: at the fixpoint the block lists
    the three values that it had, and the former operands are there as
    [MOVWconst [14]] and [MOVWconst [26]], next to [MOVWconst [40]]. *)
Lemma add_operands_remain :
  (f' ← applyRewrite (H := exampleHelpers) oneBlock 4 addFunc;
   b ← derefBlock f' 1; Ok (b_Values b)) = Ok [1; 2; 3]%nat ∧
  (f' ← applyRewrite (H := exampleHelpers) oneBlock 4 addFunc; deref f' 1)
  = Ok (val 1 OpMIPSMOVWconst I32 14 [] 0) ∧
  (f' ← applyRewrite (H := exampleHelpers) oneBlock 4 addFunc; deref f' 2)
  = Ok (val 2 OpMIPSMOVWconst I32 26 [] 0) ∧
  (f' ← applyRewrite (H := exampleHelpers) oneBlock 4 addFunc; deref f' 3)
  = Ok (val 3 OpMIPSMOVWconst I32 40 [] 0).
Proof. repeat split; vm_compute; reflexivity. Qed.

(** ** The block rewriter *)

Lemma derefBlock_ID f k b : derefBlock f k = Ok b → b_ID b = k.
Proof.
  unfold derefBlock. destruct (f_blocks f !! k); [|done].
  case_bool_decide; [|done]. by intros [= ->].
Qed.

Lemma derefBlock_setBlock f b : derefBlock (setBlock f b) (b_ID b) = Ok b.
Proof.
  unfold derefBlock, setBlock. simpl. rewrite lookup_insert_eq.
  by rewrite bool_decide_true.
Qed.

Lemma addUses_blocks d f w f' : addUses d f w = Ok f' → f_blocks f' = f_blocks f.
Proof.
  unfold addUses. destruct (deref f w); simpl; [|done]. by intros [= <-].
Qed.

Lemma foldlM_addUses_blocks d l : ∀ f f',
  foldlM (addUses d) l f = Ok f' → f_blocks f' = f_blocks f.
Proof.
  induction l as [|w l IH]; intros f f'; simpl; [by intros [= <-]|].
  destruct (addUses d f w) as [f1|] eqn:E; simpl; [|done].
  intros Hf. rewrite (IH _ _ Hf). by eapply addUses_blocks.
Qed.

Lemma derefBlock_blocks f f' k :
  f_blocks f' = f_blocks f → derefBlock f' k = derefBlock f k.
Proof. unfold derefBlock. by intros ->. Qed.

Lemma blockReset_spec f bid b kind :
  derefBlock f bid = Ok b →
  Forall (λ w, is_Some (look f w)) (b_Controls b) →
  ∃ f', blockReset f bid kind = Ok f' ∧ same f f' ∧
        derefBlock f' bid = Ok (mkBlock bid kind (b_Values b) (b_Succs b) []).
Proof.
  intros Hb Hc. unfold blockReset. rewrite Hb. simpl.
  destruct (foldlM_addUses_same (-1) (b_Controls b) f Hc) as (f1 & Hf1 & H1).
  rewrite Hf1. simpl. eexists; split; [done|]. split.
  - intros j. by rewrite <- H1.
  - rewrite (derefBlock_ID _ _ _ Hb).
    by rewrite <- (derefBlock_setBlock f1 (mkBlock bid kind _ _ [])).
Qed.

Lemma AddControl_spec f bid b w :
  derefBlock f bid = Ok b → (length (b_Controls b) < 2)%nat →
  is_Some (look f w) →
  ∃ f', AddControl f bid w = Ok f' ∧ same f f' ∧
        derefBlock f' bid =
          Ok (mkBlock bid (b_Kind b) (b_Values b) (b_Succs b) (b_Controls b ++ [w])).
Proof.
  intros Hb Hlen Hw. unfold AddControl. rewrite Hb. simpl.
  rewrite bool_decide_false by lia.
  destruct (addUses_same 1 f w Hw) as (f1 & Hf1 & H1). rewrite Hf1. simpl.
  eexists; split; [done|]. split.
  - intros j. by rewrite <- H1.
  - rewrite (derefBlock_ID _ _ _ Hb).
    by rewrite <- (derefBlock_setBlock f1 (mkBlock bid _ _ _ _)).
Qed.

Lemma retarget_spec f bid b kind c :
  derefBlock f bid = Ok b →
  Forall (λ w, is_Some (look f w)) (b_Controls b) →
  is_Some (look f c) →
  ∃ f', retarget f bid kind c = Ok (Some f') ∧ same f f' ∧
        derefBlock f' bid = Ok (mkBlock bid kind (b_Values b) (b_Succs b) [c]).
Proof.
  intros Hb Hctl Hc. unfold retarget.
  destruct (blockReset_spec f bid b kind Hb Hctl) as (f1 & -> & H1 & Hb1).
  simpl.
  destruct (AddControl_spec f1 bid _ c Hb1) as (f2 & -> & H2 & Hb2).
  { simpl. lia. }
  { by rewrite H1. }
  simpl. eexists; split; [done|]. split; [|done].
  by eapply same_trans.
Qed.

Lemma constRule_spec f bid b v_0 cond yes no (swap : bool) :
  derefBlock f bid = Ok b →
  Forall (λ w, is_Some (look f w)) (b_Controls b) →
  v_Op v_0 = OpMIPSMOVWconst → cond (v_AuxInt v_0) = true →
  b_Succs b = [yes; no] →
  ∃ f', constRule f bid v_0 cond swap = Ok (Some f') ∧ same f f' ∧
        derefBlock f' bid =
          Ok (mkBlock bid BlockFirst (b_Values b)
                      (if swap then [no; yes] else [yes; no]) []).
Proof.
  intros Hb Hctl Hop Hcond Hsucc. unfold constRule.
  rewrite (hasOp_true v_0) by done. simpl. rewrite Hcond. simpl.
  destruct (blockReset_spec f bid b BlockFirst Hb Hctl) as (f1 & -> & H1 & Hb1).
  simpl. destruct swap; simpl.
  - unfold swapSuccessors. rewrite Hb1. simpl. rewrite Hsucc. simpl.
    eexists; split; [done|]. split; [done|].
    by rewrite <- (derefBlock_setBlock f1 (mkBlock bid _ _ _ _)).
  - eexists; split; [done|]. split; [done|]. by rewrite Hb1, Hsucc.
Qed.

(** A rule that got as far as changing the block does not report "no
    match". *)
Lemma retarget_not_nomatch f bid kind c : retarget f bid kind c ≠ Ok None.
Proof.
  unfold retarget. destruct (blockReset f bid kind); simpl; [|done].
  by destruct (AddControl _ bid c).
Qed.

Lemma constRule_cond_not_nomatch f bid v_0 cond swap :
  v_Op v_0 = OpMIPSMOVWconst → cond (v_AuxInt v_0) = true →
  constRule f bid v_0 cond swap ≠ Ok None.
Proof.
  intros Hop Hcond. unfold constRule. rewrite (hasOp_true v_0) by done.
  simpl. rewrite Hcond. simpl.
  destruct (blockReset f bid BlockFirst); simpl; [|done].
  destruct swap; [|done]. by destruct (swapSuccessors _ bid).
Qed.

Lemma finish_false f r f' : finish f r = Ok (f', false) → r = Ok None.
Proof. destruct r as [[?|]|]; simpl; by intros. Qed.

Lemma orElse_nomatch_l r : nomatch <||> r = r.
Proof. done. Qed.

(** With a constant control, the rules ahead of the constant rules do
    not match. *)
Lemma const_skips f bid v_0 :
  v_Op v_0 = OpMIPSMOVWconst →
  (∀ op k, op ≠ OpMIPSMOVWconst → fpFlagRule f bid v_0 op k = nomatch) ∧
  (∀ k, xorconstRules f bid v_0 k = nomatch) ∧
  (∀ op c k, op ≠ OpMIPSMOVWconst → cmpRule f bid v_0 op c k = nomatch).
Proof.
  intros Hop. split; [|split].
  - intros op k Hne. unfold fpFlagRule. rewrite hasOp_false; [done|congruence].
  - intros k. unfold xorconstRules, xorconstRule.
    rewrite hasOp_false; [done|congruence].
  - intros op c k Hne. unfold cmpRule. rewrite hasOp_false; [done|congruence].
Qed.

(** C4.  A block that [rewriteBlockMIPS] leaves alone is not an If block,
    and is not an EQ or NE block on a MOVWconst.  An If block becomes an
    NE block on the same control.  An EQ or NE block on [MOVWconst [c]]
    becomes a First block, its successors exchanged exactly when the
    branch is not taken: [c] non-zero for EQ, zero for NE. *)
Theorem rewriteBlockMIPS_no_constant_If (f : Func) (bid : ID) (b : Block)
    (c : Value) :
  derefBlock f bid = Ok b →
  b_Controls b = [v_ID c] → deref f (v_ID c) = Ok c →
  (∀ f', rewriteBlockMIPS f bid = Ok (f', false) →
         b_Kind b ≠ BlockIf ∧
         (b_Kind b = BlockMIPSEQ ∨ b_Kind b = BlockMIPSNE →
          v_Op c ≠ OpMIPSMOVWconst)) ∧
  (b_Kind b = BlockIf →
   ∃ f', rewriteBlockMIPS f bid = Ok (f', true) ∧ same f f' ∧
         derefBlock f' bid =
           Ok (mkBlock bid BlockMIPSNE (b_Values b) (b_Succs b) [v_ID c])) ∧
  (∀ yes no,
     b_Kind b = BlockMIPSEQ ∨ b_Kind b = BlockMIPSNE →
     v_Op c = OpMIPSMOVWconst → b_Succs b = [yes; no] →
     ∃ f', rewriteBlockMIPS f bid = Ok (f', true) ∧ same f f' ∧
           derefBlock f' bid =
             Ok (mkBlock bid BlockFirst (b_Values b)
                   (if bool_decide (b_Kind b = BlockMIPSEQ ↔ v_AuxInt c = 0)
                    then [yes; no] else [no; yes]) [])).
Proof.
  intros Hb Hctl Hc.
  assert (Forall (λ w, is_Some (look f w)) (b_Controls b)) as Hall.
  { rewrite Hctl. repeat constructor. by eapply deref_is_Some. }
  assert (control0 f b = Ok c) as Hc0.
  { unfold control0. by rewrite Hctl. }
  split; [|split].
  - intros f' Hrw. unfold rewriteBlockMIPS in Hrw. rewrite Hb in Hrw.
    simpl in Hrw. split.
    + intros Hk. rewrite Hk, Hc0 in Hrw. simpl in Hrw.
      apply finish_false in Hrw. by apply retarget_not_nomatch in Hrw.
    + intros Hk Hop.
      destruct (const_skips f bid c Hop) as (Hfp & Hxor & Hcmp).
      destruct Hk as [Hk|Hk]; rewrite Hk, Hc0 in Hrw; simpl in Hrw;
        apply finish_false in Hrw;
        rewrite !Hfp, Hxor, !Hcmp in Hrw by done;
        rewrite !orElse_nomatch_l in Hrw;
        (destruct (decide (v_AuxInt c = 0)) as [Hz|Hz];
         [ destruct (constRule f bid c (λ c0, bool_decide (c0 = 0)) _)
             as [[?|]|] eqn:E; try done;
           eapply constRule_cond_not_nomatch in E; try done;
           by apply bool_decide_eq_true
         | destruct (constRule f bid c (λ c0, bool_decide (c0 = 0)) _)
             as [[?|]|] eqn:E; try done;
           simpl in Hrw;
           eapply constRule_cond_not_nomatch in Hrw; try done;
           by apply bool_decide_eq_true ]).
  - intros Hk. unfold rewriteBlockMIPS. rewrite Hb. simpl. rewrite Hk, Hc0.
    simpl.
    destruct (retarget_spec f bid b BlockMIPSNE (v_ID c) Hb Hall)
      as (f' & -> & Hs & Hb'); [by eapply deref_is_Some|].
    exists f'. done.
  - intros yes no Hk Hop Hsucc.
    destruct (const_skips f bid c Hop) as (Hfp & Hxor & Hcmp).
    unfold rewriteBlockMIPS. rewrite Hb. simpl.
    destruct Hk as [Hk|Hk]; rewrite Hk, Hc0; simpl;
      rewrite !Hfp, Hxor, !Hcmp by done; rewrite !orElse_nomatch_l;
      destruct (decide (v_AuxInt c = 0)) as [Hz|Hz].
    + destruct (constRule_spec f bid b c (λ c0, bool_decide (c0 = 0)) yes no
                  false Hb Hall Hop) as (f' & -> & Hs & Hb'); try done.
      { by apply bool_decide_eq_true. }
      exists f'. rewrite bool_decide_true by done. done.
    + assert (constRule f bid c (λ c0, bool_decide (c0 = 0)) false = nomatch)
        as ->.
      { unfold constRule. rewrite (hasOp_true c) by done. simpl.
        by rewrite bool_decide_false. }
      rewrite orElse_nomatch_l.
      destruct (constRule_spec f bid b c (λ c0, bool_decide (c0 ≠ 0)) yes no
                  true Hb Hall Hop) as (f' & -> & Hs & Hb'); try done.
      { by apply bool_decide_eq_true. }
      exists f'. rewrite bool_decide_false by tauto. done.
    + destruct (constRule_spec f bid b c (λ c0, bool_decide (c0 = 0)) yes no
                  true Hb Hall Hop) as (f' & -> & Hs & Hb'); try done.
      { by apply bool_decide_eq_true. }
      exists f'. rewrite bool_decide_false; [done|].
      intros [_ Hcontra]. by specialize (Hcontra Hz).
    + assert (constRule f bid c (λ c0, bool_decide (c0 = 0)) true = nomatch)
        as ->.
      { unfold constRule. rewrite (hasOp_true c) by done. simpl.
        by rewrite bool_decide_false. }
      rewrite orElse_nomatch_l.
      destruct (constRule_spec f bid b c (λ c0, bool_decide (c0 ≠ 0)) yes no
                  false Hb Hall Hop) as (f' & -> & Hs & Hb'); try done.
      { by apply bool_decide_eq_true. }
      exists f'. rewrite bool_decide_true; [done|].
      split; [discriminate|done].
Qed.

(** C4 at an EQ block on [MOVWconst [7]]: it becomes a First block with
    its successors exchanged. *)
Lemma rewriteBlockMIPS_no_constant_If_witness :
  ∃ f', rewriteBlockMIPS (branchFunc BlockMIPSEQ 7) 1 = Ok (f', true) ∧
        derefBlock f' 1 = Ok (mkBlock 1 BlockFirst [1%nat] [3%nat; 2%nat] []).
Proof.
  destruct (rewriteBlockMIPS_no_constant_If (branchFunc BlockMIPSEQ 7) 1
              (mkBlock 1 BlockMIPSEQ [1%nat] [2%nat; 3%nat] [1%nat])
              (val 1 OpMIPSMOVWconst TypeBool 7 [] 1)
              eq_refl eq_refl eq_refl) as (_ & _ & Hconst).
  destruct (Hconst 2%nat 3%nat (or_introl eq_refl) eq_refl eq_refl)
    as (f' & Hrw & _ & Hb).
  exists f'. split; [exact Hrw|exact Hb].
Defined.

End RewriteMIPSProofs.

(* ===================================================================== *)
(** * More properties of stackalloc.go                                    *)
(* ===================================================================== *)

Module StackallocMore.
Import SSA Stackalloc StackallocProofs StackExamples StackallocTerms.

(** ** The home map as a store *)

Lemma growRegAlloc_len ra vid :
  length (growRegAlloc ra vid) = (length ra `max` S vid)%nat.
Proof. unfold growRegAlloc. rewrite length_app, length_replicate. lia. Qed.

Lemma growRegAlloc_get ra vid j :
  growRegAlloc ra vid !! j =
  if decide (j < length ra `max` S vid)%nat then Some (mjoin (ra !! j)) else None.
Proof.
  unfold growRegAlloc. destruct (decide (j < length ra)%nat) as [Hj|Hj].
  - rewrite lookup_app_l by done. rewrite decide_True by lia.
    destruct (lookup_lt_is_Some_2 ra j Hj) as [h ->]. done.
  - rewrite lookup_app_r by lia. rewrite (lookup_ge_None_2 ra j) by lia.
    destruct (decide (j < length ra `max` S vid)%nat) as [Hlt|Hge].
    + apply lookup_replicate. split; [done|lia].
    + apply lookup_ge_None_2. rewrite length_replicate. lia.
Qed.

Lemma setHome_get f vid loc j :
  f_RegAlloc (setHome f vid loc) !! j =
  if decide (j = vid) then Some loc
  else if decide (j < length (f_RegAlloc f) `max` S vid)%nat
       then Some (mjoin (f_RegAlloc f !! j)) else None.
Proof.
  unfold setHome. simpl. destruct (decide (j = vid)) as [->|Hne].
  - apply list_lookup_insert_eq. rewrite growRegAlloc_len. lia.
  - rewrite list_lookup_insert_ne by done. apply growRegAlloc_get.
Qed.

(** X1.  [setHome] grows [RegAlloc] to hold the ID and no further, and
    never shrinks it; a second [setHome] of the same ID replaces the
    first, and [setHome]s of different IDs can be exchanged. *)
Theorem setHome_store_laws (f : Func) (a b : ID) (x y : option Location) :
  length (f_RegAlloc (setHome f a x)) = (length (f_RegAlloc f) `max` S a)%nat ∧
  setHome (setHome f a x) a y = setHome f a y ∧
  (a ≠ b → setHome (setHome f a x) b y = setHome (setHome f b y) a x).
Proof.
  assert (∀ g h : Func,
            f_Blocks g = f_Blocks h → f_Entry g = f_Entry h →
            f_Names g = f_Names h → f_NamedValues g = f_NamedValues h →
            f_autos g = f_autos h →
            (∀ j, f_RegAlloc g !! j = f_RegAlloc h !! j) → g = h) as Hext.
  { intros [] [] ?????. simpl in *. intros Hra. subst. f_equal.
    by apply list_eq. }
  assert (∀ g c z, length (f_RegAlloc (setHome g c z)) =
                   (length (f_RegAlloc g) `max` S c)%nat) as Hlen.
  { intros g c z. unfold setHome. simpl.
    by rewrite length_insert, growRegAlloc_len. }
  split; [apply Hlen|]. split.
  - apply Hext; try done. intros j. rewrite !setHome_get, Hlen.
    repeat case_decide; try lia; done.
  - intros Hab. apply Hext; try done. intros j. rewrite !setHome_get, !Hlen.
    repeat case_decide; subst; try lia; try done.
    all: rewrite ?(lookup_ge_None_2 (f_RegAlloc f) j) by lia; try done.
Qed.

(** ** The Arg values *)

Lemma elem_of_argValues vs v : v ∈ argValues vs ↔ v ∈ vs ∧ v_Op v = OpArg.
Proof. unfold argValues. rewrite list_elem_of_filter. tauto. Qed.

Lemma argValues_cons v vs :
  argValues (v :: vs) =
  if decide (v_Op v = OpArg) then v :: argValues vs else argValues vs.
Proof. unfold argValues. rewrite filter_cons. by destruct (decide _). Qed.

(** X2.  [stackalloc] gives every Arg value of the entry block the slot
    that its [Aux], [Type] and [AuxInt] name and leaves every other home
    as it was; when the [Aux] of an Arg value is not a variable, the type
    assertion [v.Aux.(GCNode)] panics. *)
Theorem allocArgs_homes (f : Func) :
  (NoDup (v_ID <$> argValues (b_Values (f_Entry f))) →
   (∀ v, v ∈ argValues (b_Values (f_Entry f)) → ∃ n, v_Aux v = AuxNode n) →
   ∃ f1, allocArgs f = Ok f1 ∧
         (∀ v n, v ∈ argValues (b_Values (f_Entry f)) → v_Aux v = AuxNode n →
                 getHome f1 (v_ID v) = Some (LocSlot (argSlot v n))) ∧
         (∀ id, id ∉ v_ID <$> argValues (b_Values (f_Entry f)) →
                getHome f1 id = getHome f id)) ∧
  ((∃ v, v ∈ argValues (b_Values (f_Entry f)) ∧ ∀ n, v_Aux v ≠ AuxNode n) →
   allocArgs f = Fail TypeAssertion).
Proof.
  unfold allocArgs. generalize (b_Values (f_Entry f)). intros vs.
  split.
  - revert f. induction vs as [|v vs IH]; intros f Hnd Hnode.
    + exists f. split; [done|]. split; [|done].
      intros v n Hv. by apply elem_of_nil in Hv.
    + rewrite foldlM_cons. rewrite argValues_cons in Hnd, Hnode |- *.
      destruct (decide (v_Op v = OpArg)) as [Hop|Hop].
      * rewrite bool_decide_true by done. simpl.
        rewrite fmap_cons in Hnd. apply list.NoDup_cons in Hnd as [Hnotin Hnd].
        destruct (Hnode v) as [n Hn]; [by left|]. rewrite Hn.
        destruct (IH (setHome f (v_ID v)
                        (Some (LocSlot (mkLocalSlot (Some n) (v_Type v)
                                                    (v_AuxInt v))))) Hnd)
          as (f1 & Hrun & Hargs & Hframe).
        { intros w Hw. apply Hnode. by right. }
        exists f1. split; [exact Hrun|]. split.
        -- intros w m Hw Hm. apply elem_of_cons in Hw as [->|Hw]; [|by apply Hargs].
           rewrite Hframe by done. rewrite getHome_setHome_eq.
           unfold argSlot. congruence.
        -- intros id Hid.
           apply not_elem_of_cons in Hid as [Hne Hid].
           rewrite Hframe by done. by apply getHome_setHome_ne.
      * rewrite bool_decide_false by done. simpl. by apply IH.
  - revert f. induction vs as [|v vs IH]; intros f (w & Hw & Hnone).
    + by apply elem_of_nil in Hw.
    + rewrite foldlM_cons. rewrite argValues_cons in Hw.
      destruct (decide (v_Op v = OpArg)) as [Hop|Hop].
      * rewrite bool_decide_true by done. simpl.
        destruct (v_Aux v) as [| |n] eqn:Haux; [done|done|]. simpl.
        apply IH. exists w. split; [|done].
        apply elem_of_cons in Hw as [->|Hw]; [|done]. by destruct (Hnone n).
      * rewrite bool_decide_false by done. simpl. apply IH. eauto.
Qed.

(** ** The names *)

Lemma names_of_one (names : gmap nat LocalSlot) (nm : LocalSlot)
    (vids : list ID) id :
  foldl (λ names vid, <[vid := nm]> names) names vids !! id =
  if decide (id ∈ vids) then Some nm else names !! id.
Proof.
  revert names. induction vids as [|w vids IH]; intros names; cbn [foldl].
  - destruct (decide (id ∈ [])) as [Hin|_]; [|done].
    by apply elem_of_nil in Hin.
  - rewrite IH. destruct (decide (id ∈ vids)) as [Hin|Hnin].
    + rewrite decide_True; [done|]. by right.
    + destruct (decide (id = w)) as [->|Hne].
      * rewrite lookup_insert_eq. rewrite decide_True; [done|]. by left.
      * rewrite lookup_insert_ne by done. rewrite decide_False; [done|].
        intros Hin. apply elem_of_cons in Hin as [?|?]; done.
Qed.

(** X3.  The name that [stackalloc] tries for a value is the last name
    of [f.Names] whose list of values holds it; a value that no name
    lists has none. *)
Theorem buildNames_last_name (f : Func) (id : ID) :
  buildNames f !! id =
  list.last (filter (λ nm, id ∈ f_NamedValues f nm) (f_Names f)).
Proof.
  unfold buildNames. generalize (f_Names f). intros l.
  induction l as [|nm l IH] using rev_ind.
  - cbn [foldl]. by rewrite lookup_empty.
  - rewrite foldl_app. cbn [foldl]. rewrite names_of_one, IH, list.filter_app.
    rewrite filter_cons, filter_nil.
    destruct (decide (id ∈ f_NamedValues f nm)) as [Hin|Hnin].
    + by rewrite last_snoc.
    + by rewrite app_nil_r.
Qed.

(** ** The interference graph *)

Lemma valueTypes_elem (f : Func) id t :
  valueTypes f !! id = Some t →
  ∃ w, w ∈ allValues f ∧ v_ID w = id ∧ v_Type w = t.
Proof.
  unfold valueTypes, allValues.
  assert (∀ vs (ty : gmap nat Typ),
            foldl (λ ty v, <[v_ID v := v_Type v]> ty) ty vs !! id = Some t →
            ty !! id = Some t ∨ ∃ w, w ∈ vs ∧ v_ID w = id ∧ v_Type w = t)
    as Hinner.
  { induction vs as [|v vs IH]; intros ty Hlk; cbn [foldl] in Hlk; [by left|].
    apply IH in Hlk as [Hlk|(w & Hw & ?)].
    - destruct (decide (v_ID v = id)) as [Heq|Hne].
      + rewrite Heq, lookup_insert_eq in Hlk. right. exists v.
        split; [by left|]. split; [done|congruence].
      + rewrite lookup_insert_ne in Hlk by done. by left.
    - right. exists w. split; [by right|done]. }
  assert (∀ bs (ty : gmap nat Typ),
            foldl (λ ty b, foldl (λ ty v, <[v_ID v := v_Type v]> ty) ty
                                 (b_Values b)) ty bs !! id = Some t →
            ty !! id = Some t ∨
            ∃ w, w ∈ mjoin (b_Values <$> bs) ∧ v_ID w = id ∧ v_Type w = t)
    as Houter.
  { induction bs as [|b bs IH]; intros ty Hlk; cbn [foldl] in Hlk; [by left|].
    rewrite fmap_cons. cbn [mjoin list_join].
    apply IH in Hlk as [Hlk|(w & Hw & ?)].
    - apply Hinner in Hlk as [Hlk|(w & Hw & ?)]; [by left|].
      right. exists w. split; [|done]. apply elem_of_app. by left.
    - right. exists w. split; [|done]. apply elem_of_app. by right. }
  intros Hlk. apply Houter in Hlk as [Hlk|?]; [|done].
  by rewrite lookup_empty in Hlk.
Qed.

Section Edges.
Variable f : Func.
Variable Q : ID → ID → Prop.
Hypothesis HQ : ∀ v id, v ∈ allValues f → spillClass f v → id ≠ v_ID v →
  Equal (v_Type v) (valueTypes f !! id) = true →
  Q (v_ID v) id ∧ Q id (v_ID v).

Lemma interfere_edges_post v ids : ∀ itf : Interfere,
  v ∈ allValues f → spillClass f v → (∀ id, id ∈ ids → id ≠ v_ID v) →
  (∀ x y, y ∈ interfering itf x → Q x y) →
  ∀ x y,
    y ∈ interfering
          (foldl (λ itf id,
                    if Equal (v_Type v) (valueTypes f !! id)
                    then addEdge (addEdge itf (v_ID v) id) id (v_ID v)
                    else itf) itf ids) x →
    Q x y.
Proof.
  induction ids as [|id ids IH]; intros itf Hv Hc Hids Hinv; cbn [foldl];
    [done|].
  apply IH; [done|done| |].
  { intros id' Hid'. apply Hids. by right. }
  destruct (Equal _ _) eqn:Heq; [|done].
  destruct (HQ v id Hv Hc) as [H1 H2]; [apply Hids; by left|done|].
  intros x y. rewrite !interfering_addEdge.
  intros [[Hxy|[-> ->]]|[-> ->]]; [by apply Hinv|done|done].
Qed.

Lemma interfereStep_post (s : gset nat) itf v s' itf' :
  v ∈ allValues f →
  interfereStep f (valueTypes f) (s, itf) v = Ok (s', itf') →
  (∀ x y, y ∈ interfering itf x → Q x y) →
  ∀ x y, y ∈ interfering itf' x → Q x y.
Proof.
  intros Hv Hstep Hinv. unfold interfereStep in Hstep.
  destruct (bool_decide (v_Op v = OpStoreReg) || isStackPhi f v) eqn:Hsp.
  - injection Hstep as <- <-. apply interfere_edges_post; try done.
    + apply orb_true_iff in Hsp as [Hst|?]; [left|by right].
      by apply bool_decide_eq_true in Hst.
    + intros id Hid. apply elem_of_elements in Hid.
      apply elem_of_difference in Hid as [_ Hid].
      intros ->. apply Hid. by apply elem_of_singleton.
  - destruct (bool_decide (v_Op v = OpLoadReg)).
    + destruct (arg v 0); simpl in Hstep; [|done]. by injection Hstep as <- <-.
    + by injection Hstep as <- <-.
Qed.

Lemma buildInterference_post live itf :
  buildInterference f live = Ok itf →
  ∀ x y, y ∈ interfering itf x → Q x y.
Proof.
  unfold buildInterference. intros Hrun.
  apply (foldlM_post (λ itf : Interfere, ∀ x y, y ∈ interfering itf x → Q x y)
           _ _ _ _ Hrun).
  { intros x y Hy. unfold interfering in Hy. rewrite lookup_empty in Hy.
    by apply elem_of_nil in Hy. }
  intros itf0 b itf1 Hb Hinv Hblock. unfold interfereBlock in Hblock.
  destruct (liveAtEnd live b) as [s0|]; simpl in Hblock; [|done].
  destruct (foldlM (interfereStep f (valueTypes f)) (rev (b_Values b)) (s0, itf0))
    as [[s1 itf2]|] eqn:Hfold; simpl in Hblock; [|done].
  injection Hblock as <-.
  apply (foldlM_post (λ st : gset nat * Interfere,
                        ∀ x y, y ∈ interfering st.2 x → Q x y)
           _ _ _ _ Hfold); [done|].
  intros [s2 itf3] v [s3 itf4] Hv Hinv3 Hstep. cbn [fst snd] in *.
  eapply interfereStep_post; [|exact Hstep|exact Hinv3].
  eapply elem_of_allValues; [exact Hb|].
  apply list_elem_of_In. apply in_rev. by apply list_elem_of_In.
Qed.

End Edges.

(** X4.  On a well-formed control-flow graph the interference graph is
    built, for any traversal order of [liveSpills]; it is symmetric, has
    no edge from a value to itself, and every edge joins two values of
    the function that have the same type, one of them a StoreReg or a
    stack phi. *)
Theorem interference_graph_edges (postorder : Func → list Block) (f : Func) :
  wfCFG (postorder f) f →
  ∃ fuel live itf,
    (∀ n, (fuel ≤ n)%nat → liveSpills postorder n f = Ok live) ∧
    buildInterference f live = Ok itf ∧
    symmetric itf ∧
    ∀ x y, y ∈ interfering itf x →
      x ≠ y ∧
      ∃ u w, u ∈ allValues f ∧ w ∈ allValues f ∧ v_ID u = x ∧ v_ID w = y ∧
             v_Type u = v_Type w ∧ (spillClass f u ∨ spillClass f w).
Proof.
  intros Hcfg.
  set (fuel := S (size (bound (liveInit f) (universe f)))).
  destruct (liveLoop_terminates f (postorder f) Hcfg fuel (liveInit f))
    as (live & Hloop & Hinv & _); [apply liveInv_init|unfold fuel; lia|].
  destruct (buildInterference_ok f live (wf_blockIDs _ _ Hcfg)
              (wf_loads _ _ Hcfg) Hinv) as (itf & Hitf & Hsym & _).
  exists fuel, live, itf. split.
  { intros n Hn. unfold liveSpills. by eapply liveLoop_more_fuel. }
  split; [done|]. split; [done|].
  refine (buildInterference_post f _ _ live itf Hitf).
  intros v id Hv Hc Hne Heq. unfold Equal in Heq.
  destruct (valueTypes f !! id) as [t|] eqn:Hty; [|done].
  apply bool_decide_eq_true in Heq. subst t.
  apply valueTypes_elem in Hty as (w & Hw & Hid & Hwt).
  split.
  - split; [done|]. exists v, w. repeat (split; [done|]). by left.
  - split; [done|]. exists w, v. repeat (split; [done|]). by right.
Qed.

(** ** What liveSpills finds *)

Lemma transparent_cons f x v vs :
  transparent f x (v :: vs) ↔ ¬ defines f x v ∧ transparent f x vs.
Proof.
  unfold transparent. split.
  - intros H. split; [apply H; by left|]. intros w Hw. apply H. by right.
  - intros [Hv Hvs] w Hw. apply elem_of_cons in Hw as [->|Hw]; [done|].
    by apply Hvs.
Qed.

Lemma exposed_cons f x v vs :
  exposed f x (v :: vs) ↔ loads x v ∨ (¬ defines f x v ∧ exposed f x vs).
Proof.
  split.
  - intros (pre & v0 & post & Heq & Hld & Htr).
    destruct pre as [|w pre]; simpl in Heq; injection Heq as <- ->.
    + by left.
    + apply transparent_cons in Htr as [Hv Hpre]. right. split; [done|].
      by exists pre, v0, post.
  - intros [Hld|[Hv (pre & v0 & post & -> & Hld & Htr)]].
    + exists [], v, vs. split; [done|]. split; [done|].
      intros w Hw. by apply elem_of_nil in Hw.
    + exists (v :: pre), v0, post. split; [done|]. split; [done|].
      by apply transparent_cons.
Qed.

Lemma spillStep_mem f (s0 : gset nat) phis0 v s1 phis1 x :
  spillStep f (s0, phis0) v = Ok (s1, phis1) →
  x ∈ s1 ↔ loads x v ∨ (¬ defines f x v ∧ x ∈ s0).
Proof.
  unfold spillStep, loads, defines.
  destruct (decide (v_Op v = OpStoreReg)) as [Hst|Hst].
  { rewrite bool_decide_true by done. intros [= <- <-].
    rewrite elem_of_difference, elem_of_singleton. split.
    - intros [Hx Hne]. right. split; [|done]. intros [_ ?]. by apply Hne.
    - intros [[? _]|[Hnd Hx]]; [congruence|]. split; [done|].
      intros ->. apply Hnd. split; [by left|done]. }
  rewrite bool_decide_false by done.
  destruct (decide (v_Op v = OpLoadReg)) as [Hld|Hld].
  { rewrite bool_decide_true by done.
    destruct (arg v 0) as [a|] eqn:Ha; simpl; [|done]. intros [= <- <-].
    assert (isStackPhi f v = false) as Hphi.
    { destruct (isStackPhi f v) eqn:E; [|done].
      apply isStackPhi_spec in E as [? _]. congruence. }
    rewrite elem_of_union, elem_of_singleton. split.
    - intros [Hx| ->]; [|by left]. right. split; [|done].
      intros [[?|?] _]; congruence.
    - intros [[_ [= ->]]|[_ ?]]; [by right|by left]. }
  rewrite bool_decide_false by done.
  destruct (isStackPhi f v) eqn:Hphi.
  - intros [= <- <-]. rewrite elem_of_difference, elem_of_singleton. split.
    + intros [Hx Hne]. right. split; [|done]. intros [_ ?]. by apply Hne.
    + intros [[? _]|[Hnd Hx]]; [congruence|]. split; [done|].
      intros ->. apply Hnd. split; [by right|done].
  - intros [= <- <-]. split.
    + intros Hx. right. split; [|done]. intros [[?|?] _]; congruence.
    + intros [[? _]|[_ ?]]; [congruence|done].
Qed.

(** The backward walk of a block: what is in the set at its start. *)
Lemma spill_walk_mem f x vs : ∀ (s0 : gset nat) phis0 s phis,
  foldlM (spillStep f) (rev vs) (s0, phis0) = Ok (s, phis) →
  x ∈ s ↔ exposed f x vs ∨ (transparent f x vs ∧ x ∈ s0).
Proof.
  induction vs as [|v vs IH]; intros s0 phis0 s phis Hfold.
  - injection Hfold as <- <-. split.
    + intros Hx. right. split; [|done]. intros w Hw. by apply elem_of_nil in Hw.
    + intros [(pre & v & post & Heq & _)|[_ ?]]; [|done].
      by destruct pre.
  - change (rev (v :: vs)) with (rev vs ++ [v]) in Hfold.
    rewrite foldlM_app in Hfold.
    destruct (foldlM (spillStep f) (rev vs) (s0, phis0)) as [[s1 phis1]|] eqn:H1;
      cbn [mbind result_bind foldlM] in Hfold; [|done].
    destruct (spillStep f (s1, phis1) v) as [[s2 phis2]|] eqn:H2;
      cbn [mbind result_bind foldlM] in Hfold; [|done].
    injection Hfold as <- <-.
    rewrite (spillStep_mem _ _ _ _ _ _ x H2), (IH _ _ _ _ H1).
    rewrite exposed_cons, transparent_cons. tauto.
Qed.

Section AtFixpoint.
Variable f : Func.
Variable po : list Block.
Hypothesis Hwf : wfCFG po f.
Variable live : LiveMap.
Hypothesis Hinv : liveInv f live.
Hypothesis Hfix : livePass f po live = Ok (live, false).

Lemma fixpoint_blocks l live' :
  (∀ b, b ∈ l → b ∈ po) →
  foldlM (liveBlock f) l (live, false) = Ok (live', false) →
  live' = live ∧ ∀ b, b ∈ l → liveBlock f (live, false) b = Ok (live, false).
Proof.
  induction l as [|b l IH]; intros Hl Hfold.
  - injection Hfold as <-. split; [done|]. intros b Hb.
    by apply elem_of_nil in Hb.
  - rewrite foldlM_cons in Hfold.
    destruct (liveBlock_step f po Hwf b live false Hinv)
      as (live1 & c1 & Hstep & _ & _ & Hcase).
    { apply Hl. by left. }
    rewrite Hstep in Hfold. simpl in Hfold.
    destruct Hcase as [[-> ->]|[-> _]].
    + destruct IH as [-> Hrest]; [|done|].
      { intros b' Hb'. apply Hl. by right. }
      split; [done|]. intros b' Hb'.
      apply elem_of_cons in Hb' as [->|Hb']; [done|by apply Hrest].
    + by apply (liveBlocks_flag f) in Hfold.
Qed.

Lemma fixpoint_block b :
  b ∈ po → liveBlock f (live, false) b = Ok (live, false).
Proof.
  intros Hb. unfold livePass in Hfix.
  by apply fixpoint_blocks in Hfix as [_ Hall]; [apply Hall|].
Qed.

(** At the fixpoint, what is in the set at the start of a block is on
    every edge into the block. *)
Lemma fixpoint_closed b x i pid :
  b ∈ po → liveIn f live b x → b_Preds b !! i = Some pid →
  ∃ p l, blockOf f pid = Ok p ∧
         rowAt live (b_ID p) (succIndex (b_Succs p) (b_ID b)) = Some l ∧ x ∈ l.
Proof.
  intros Hb (s & phis & Hstart & Hx) Hpid.
  pose proof (fixpoint_block b Hb) as Hblock.
  destruct (liveAtStart_ok f po Hwf b live Hinv Hb) as (s' & Hstart' & HsU & _).
  rewrite Hstart in Hstart'. injection Hstart' as <- ->.
  unfold liveBlock in Hblock. simpl in Hblock. rewrite Hstart in Hblock.
  simpl in Hblock.
  assert (∀ v, v ∈ filter (λ v, isStackPhi f v = true) (rev (b_Values b)) ↔
               v ∈ b_Values b ∧ isStackPhi f v = true) as Hphis.
  { intros v. rewrite list_elem_of_filter, !list_elem_of_In, <- in_rev. tauto. }
  apply (growPreds_fixed f po Hwf) in Hblock as [_ Hedges]; try done.
  - destruct (Hedges i pid) as (p & old & Hp & Hold & Hs & _).
    { apply elem_of_lookup_imap. eauto. }
    exists p, old. split; [done|]. split; [done|]. by apply Hs.
  - intros v Hv. by apply Hphis.
  - intros i' pid' Hin.
    by apply elem_of_lookup_imap in Hin as (? & ? & [= <- <-] & ?).
Qed.

(** At the fixpoint, the argument that a stack phi takes from a
    predecessor is on the edge from that predecessor. *)
Lemma fixpoint_phi_input b v x i pid :
  b ∈ po → v ∈ b_Values b → isStackPhi f v = true → arg v i = Ok x →
  b_Preds b !! i = Some pid →
  ∃ p l, blockOf f pid = Ok p ∧
         rowAt live (b_ID p) (succIndex (b_Succs p) (b_ID b)) = Some l ∧ x ∈ l.
Proof.
  intros Hb Hv Hsp Harg Hpid.
  pose proof (fixpoint_block b Hb) as Hblock.
  destruct (liveAtStart_ok f po Hwf b live Hinv Hb) as (s & Hstart & HsU & _).
  unfold liveBlock in Hblock. simpl in Hblock. rewrite Hstart in Hblock.
  simpl in Hblock.
  assert (∀ v, v ∈ filter (λ v, isStackPhi f v = true) (rev (b_Values b)) ↔
               v ∈ b_Values b ∧ isStackPhi f v = true) as Hphis.
  { intros w. rewrite list_elem_of_filter, !list_elem_of_In, <- in_rev. tauto. }
  apply (growPreds_fixed f po Hwf) in Hblock as [_ Hedges]; try done.
  - destruct (Hedges i pid) as (p & old & Hp & Hold & _ & Hargs).
    { apply elem_of_lookup_imap. eauto. }
    exists p, old. split; [done|]. split; [done|].
    eapply Hargs; [|done]. by apply Hphis.
  - intros w Hw. by apply Hphis.
  - intros i' pid' Hin.
    by apply elem_of_lookup_imap in Hin as (? & ? & [= <- <-] & ?).
Qed.

(** What is on an edge out of a block and not written in the block is in
    the set at the start of the block. *)
Lemma edge_to_start b c i p l x :
  b ∈ po → c ∈ po → b_Preds c !! i = Some (b_ID b) →
  blockOf f (b_ID b) = Ok p →
  rowAt live (b_ID p) (succIndex (b_Succs p) (b_ID c)) = Some l → x ∈ l →
  transparent f x (b_Values b) → liveIn f live b x.
Proof.
  intros Hb Hc Hpred Hp Hrow Hx Htr.
  pose proof Hwf as [Hnd Hpo Hpreds _ _].
  rewrite (blockOf_in f b Hnd (Hpo b Hb)) in Hp. injection Hp as <-.
  destruct (Hpreds c (b_ID b) Hc) as (p & Hp & Hid & Hsucc).
  { by eapply list_elem_of_lookup_2. }
  assert (p = b) as -> by (eapply NoDup_fmap_eq; eauto).
  apply succIndex_lookup in Hsucc.
  destruct (liveAtStart_ok f po Hwf b live Hinv Hb) as (s & Hstart & _).
  eexists s, _. split; [exact Hstart|].
  unfold liveAtStart in Hstart.
  destruct (liveAtEnd_ok f live b Hnd (Hpo b Hb) Hinv) as (s0 & Hs0 & Hin0).
  rewrite Hs0 in Hstart. simpl in Hstart.
  apply (spill_walk_mem f x) in Hstart. apply Hstart. right. split; [done|].
  apply Hin0. eexists _, l. split; [by eapply lookup_lt_Some|done].
Qed.

Lemma wanted_liveIn x b : wanted f po x b → liveIn f live b x.
Proof.
  induction 1 as [b Hb Hexp|b c i Hb Hc Hpred Htr _ IH
                  |b c i v Hb Hc Hpred Hv Hsp Harg Htr].
  - destruct (liveAtStart_ok f po Hwf b live Hinv Hb) as (s & Hstart & _).
    eexists s, _. split; [exact Hstart|].
    unfold liveAtStart in Hstart.
    destruct (liveAtEnd live b) as [s0|]; simpl in Hstart; [|done].
    apply (spill_walk_mem f x) in Hstart. apply Hstart. by left.
  - destruct (fixpoint_closed c x i (b_ID b) Hc IH Hpred) as (p & l & Hp & Hl & Hx).
    by eapply edge_to_start.
  - destruct (fixpoint_phi_input c v x i (b_ID b) Hc Hv Hsp Harg Hpred)
      as (p & l & Hp & Hl & Hx).
    by eapply edge_to_start.
Qed.

End AtFixpoint.

(** X5.  On a well-formed control-flow graph [liveSpills] returns, and in
    its result every block has one list for each of its successors and
    no more; a list has no ID twice, and every ID in it is the operand of
    a LoadReg or an argument of a stack phi. *)
Theorem liveSpills_lists (postorder : Func → list Block) (f : Func) :
  wfCFG (postorder f) f →
  ∃ fuel live,
    (∀ n, (fuel ≤ n)%nat → liveSpills postorder n f = Ok live) ∧
    ∀ b j, b ∈ f_Blocks f →
      ((j < length (b_Succs b))%nat →
       ∃ l, liveAt live (b_ID b) j = Ok l ∧ NoDup l ∧
            ∀ x, x ∈ l →
              ∃ v, v ∈ allValues f ∧
                   ((v_Op v = OpLoadReg ∧ arg v 0 = Ok x) ∨
                    (isStackPhi f v = true ∧ x ∈ v_Args v))) ∧
      ((length (b_Succs b) ≤ j)%nat →
       liveAt live (b_ID b) j = Fail IndexOutOfRange).
Proof.
  intros Hcfg.
  set (fuel := S (size (bound (liveInit f) (universe f)))).
  destruct (liveLoop_terminates f (postorder f) Hcfg fuel (liveInit f))
    as (live & Hloop & [Hshape Hcont] & _); [apply liveInv_init|unfold fuel; lia|].
  exists fuel, live. split.
  { intros n Hn. unfold liveSpills. by eapply liveLoop_more_fuel. }
  intros b j Hb. pose proof (wf_blockIDs _ _ Hcfg) as Hnd.
  rewrite liveAt_rowAt. split.
  - intros Hj.
    destruct (proj2 (Hshape (b_ID b) j)) as [l Hl].
    { rewrite liveInit_rowAt by done. eauto. }
    rewrite Hl. exists l. split; [done|].
    destruct (Hcont _ _ _ Hl) as [Hnodup Huniv]. split; [done|].
    intros x Hx. apply Huniv, elem_of_universe in Hx as (v & Hv & Hx).
    exists v. split; [done|]. unfold spillArgs in Hx.
    destruct (decide (v_Op v = OpLoadReg)) as [Hop|Hop].
    + rewrite bool_decide_true in Hx by done. left. split; [done|].
      unfold arg, go_index. destruct (v_Args v) as [|a args]; simpl in Hx.
      * by apply elem_of_nil in Hx.
      * apply list_elem_of_singleton in Hx as ->. done.
    + rewrite bool_decide_false in Hx by done.
      destruct (isStackPhi f v) eqn:Hsp; [by right|].
      by apply elem_of_nil in Hx.
  - intros Hj. destruct (rowAt live (b_ID b) j) as [l|] eqn:Hl; [|done].
    exfalso. destruct (proj1 (Hshape (b_ID b) j)) as [l' Hl']; [eauto|].
    apply rowAt_Some in Hl' as (rows & Hrows & Hl').
    unfold liveInit in Hrows. rewrite liveInit_fold_in in Hrows by done.
    injection Hrows as <-. apply lookup_lt_Some in Hl'.
    rewrite length_replicate in Hl'. lia.
Qed.

(** X6.  On a well-formed control-flow graph the result of [liveSpills]
    is sound: a spilled value that is read on a path from the start of a
    block before it is written is in the set at the start of the block,
    and what is in the set at the start of a block is on the list of
    every edge into the block. *)
Theorem liveSpills_sound (postorder : Func → list Block) (f : Func) :
  wfCFG (postorder f) f →
  ∃ fuel live,
    (∀ n, (fuel ≤ n)%nat → liveSpills postorder n f = Ok live) ∧
    (∀ x b, wanted f (postorder f) x b → liveIn f live b x) ∧
    (∀ x b i pid, b ∈ postorder f → liveIn f live b x →
                  b_Preds b !! i = Some pid →
                  ∃ p l, blockOf f pid = Ok p ∧
                         liveAt live (b_ID p) (succIndex (b_Succs p) (b_ID b))
                           = Ok l ∧
                         x ∈ l).
Proof.
  intros Hcfg.
  set (fuel := S (size (bound (liveInit f) (universe f)))).
  destruct (liveLoop_terminates f (postorder f) Hcfg fuel (liveInit f))
    as (live & Hloop & Hinv & Hfix); [apply liveInv_init|unfold fuel; lia|].
  exists fuel, live. split.
  { intros n Hn. unfold liveSpills. by eapply liveLoop_more_fuel. }
  split.
  - intros x b. by apply wanted_liveIn.
  - intros x b i pid Hb Hx Hpid.
    destruct (fixpoint_closed f (postorder f) Hcfg live Hinv Hfix b x i pid)
      as (p & l & Hp & Hl & Hxl); try done.
    exists p, l. split; [done|]. split; [|done]. by rewrite liveAt_rowAt, Hl.
Qed.

(** ** What the interference graph holds *)

Lemma foldlM_split {A B} (k : B → A → result B) l1 x l2 b b' :
  foldlM k (l1 ++ x :: l2) b = Ok b' →
  ∃ b1 b2, foldlM k l1 b = Ok b1 ∧ k b1 x = Ok b2 ∧ foldlM k l2 b2 = Ok b'.
Proof.
  rewrite foldlM_app. destruct (foldlM k l1 b) as [b1|] eqn:H1; [|done].
  cbn [mbind result_bind]. rewrite foldlM_cons.
  destruct (k b1 x) as [b2|] eqn:H2; [|done]. cbn [mbind result_bind].
  intros Hrest. exists b1, b2. split; [reflexivity|]. split; [exact H2|exact Hrest].
Qed.

Lemma liveAtEnd_mem live bid (idxs : list nat) x : ∀ (s0 s : gset nat),
  foldlM (λ (s : gset nat) i,
            l ← liveAt live bid i; Ok (s ∪ list_to_set l)) idxs s0 = Ok s →
  x ∈ s ↔ x ∈ s0 ∨ ∃ i l, i ∈ idxs ∧ liveAt live bid i = Ok l ∧ x ∈ l.
Proof.
  induction idxs as [|i idxs IH]; intros s0 s Hfold.
  - injection Hfold as <-. split; [by left|].
    intros [?|(i & l & Hi & _)]; [done|]. by apply elem_of_nil in Hi.
  - rewrite foldlM_cons in Hfold.
    destruct (liveAt live bid i) as [l|] eqn:Hl;
      cbn [mbind result_bind] in Hfold; [|done].
    rewrite (IH _ _ Hfold), elem_of_union. split.
    + intros [[?|Hx]|(i' & l' & Hi' & ? & ?)]; [by left| |].
      * right. exists i, l. split; [by left|]. split; [done|].
        by apply elem_of_set_list.
      * right. exists i', l'. split; [by right|done].
    + intros [?|(i' & l' & Hi' & Hl' & Hx)]; [by left; left|].
      apply elem_of_cons in Hi' as [->|Hi'].
      * left. right. rewrite Hl in Hl'. injection Hl' as <-.
        by apply set_list_elem_of.
      * right. eauto.
Qed.

Lemma valueTypes_lookup (f : Func) w :
  NoDup (v_ID <$> allValues f) → w ∈ allValues f →
  valueTypes f !! v_ID w = Some (v_Type w).
Proof.
  unfold valueTypes, allValues.
  assert (∀ bs (ty : gmap nat Typ),
            foldl (λ ty b, foldl (λ ty v, <[v_ID v := v_Type v]> ty) ty
                                 (b_Values b)) ty bs =
            foldl (λ ty v, <[v_ID v := v_Type v]> ty) ty
                  (mjoin (b_Values <$> bs))) as Hjoin.
  { induction bs as [|b bs IH]; intros ty; [done|].
    rewrite fmap_cons. cbn [mjoin list_join]. rewrite foldl_app. cbn [foldl].
    apply IH. }
  rewrite Hjoin. generalize (mjoin (b_Values <$> f_Blocks f)). intros vs.
  generalize (∅ : gmap nat Typ).
  induction vs as [|v vs IH]; intros ty Hnd Hw.
  - by apply elem_of_nil in Hw.
  - cbn [foldl]. rewrite fmap_cons in Hnd.
    apply list.NoDup_cons in Hnd as [Hnotin Hnd].
    apply elem_of_cons in Hw as [->|Hw]; [|by apply IH].
    assert (∀ (ty : gmap nat Typ),
              foldl (λ ty v, <[v_ID v := v_Type v]> ty) ty vs !! v_ID v
              = ty !! v_ID v) as Hkeep.
    { clear IH Hnd. induction vs as [|u vs IH]; intros ty'; [done|].
      cbn [foldl]. rewrite IH.
      - apply lookup_insert_ne. intros Heq. apply Hnotin. rewrite fmap_cons.
        rewrite <- Heq. by left.
      - intros Hin. apply Hnotin. rewrite fmap_cons. by right. }
    rewrite Hkeep. apply lookup_insert_eq.
Qed.

Section Complete.
Variable f : Func.

(** The set of [interfereStep] is the set of [spillStep]. *)
Lemma interfereStep_set (s : gset nat) itf phis v s' itf' :
  interfereStep f (valueTypes f) (s, itf) v = Ok (s', itf') →
  ∃ phis', spillStep f (s, phis) v = Ok (s', phis').
Proof.
  unfold interfereStep, spillStep.
  destruct (decide (v_Op v = OpStoreReg)) as [Hst|Hst].
  { rewrite !bool_decide_true by done. simpl. intros [= <- _]. eauto. }
  rewrite !bool_decide_false by done. simpl.
  destruct (isStackPhi f v) eqn:Hsp.
  - intros [= <- _].
    rewrite bool_decide_false; [eauto|].
    apply isStackPhi_spec in Hsp as [? _]. congruence.
  - destruct (bool_decide (v_Op v = OpLoadReg)).
    + destruct (arg v 0); simpl; [|done]. intros [= <- _]. eauto.
    + intros [= <- _]. eauto.
Qed.

Lemma interfere_walk_set vs : ∀ (s : gset nat) itf phis s' itf',
  foldlM (interfereStep f (valueTypes f)) vs (s, itf) = Ok (s', itf') →
  ∃ phis', foldlM (spillStep f) vs (s, phis) = Ok (s', phis').
Proof.
  induction vs as [|v vs IH]; intros s itf phis s' itf' Hfold.
  - injection Hfold as <- <-. eauto.
  - rewrite foldlM_cons in Hfold.
    destruct (interfereStep f (valueTypes f) (s, itf) v) as [[s1 itf1]|] eqn:H1;
      cbn [mbind result_bind] in Hfold; [|done].
    destruct (interfereStep_set _ _ phis _ _ _ H1) as [phis1 Hstep].
    destruct (IH _ _ phis1 _ _ Hfold) as [phis' Hrest].
    exists phis'. rewrite foldlM_cons, Hstep. exact Hrest.
Qed.

(** Edges are only added. *)
Lemma interfere_edges_mono v ids x y : ∀ itf : Interfere,
  y ∈ interfering itf x →
  y ∈ interfering
        (foldl (λ itf id,
                  if Equal (v_Type v) (valueTypes f !! id)
                  then addEdge (addEdge itf (v_ID v) id) id (v_ID v)
                  else itf) itf ids) x.
Proof.
  induction ids as [|id ids IH]; intros itf Hy; cbn [foldl]; [done|].
  apply IH. destruct (Equal _ _); [|done].
  rewrite !interfering_addEdge. by left; left.
Qed.

Lemma interfere_edges_new v ids id : ∀ itf : Interfere,
  id ∈ ids → Equal (v_Type v) (valueTypes f !! id) = true →
  let itf' := foldl (λ itf id,
                       if Equal (v_Type v) (valueTypes f !! id)
                       then addEdge (addEdge itf (v_ID v) id) id (v_ID v)
                       else itf) itf ids in
  id ∈ interfering itf' (v_ID v) ∧ v_ID v ∈ interfering itf' id.
Proof.
  induction ids as [|id' ids IH]; intros itf Hin Heq; cbn [foldl].
  - by apply elem_of_nil in Hin.
  - apply elem_of_cons in Hin as [<-|Hin]; [|by apply IH].
    rewrite Heq. split; apply interfere_edges_mono;
      rewrite !interfering_addEdge; [left|]; by right.
Qed.

Lemma interfereStep_mono (s : gset nat) itf v s' itf' x y :
  interfereStep f (valueTypes f) (s, itf) v = Ok (s', itf') →
  y ∈ interfering itf x → y ∈ interfering itf' x.
Proof.
  unfold interfereStep.
  destruct (bool_decide (v_Op v = OpStoreReg) || isStackPhi f v).
  - intros [= _ <-]. apply interfere_edges_mono.
  - destruct (bool_decide (v_Op v = OpLoadReg)).
    + destruct (arg v 0); simpl; [|done]. by intros [= _ <-].
    + by intros [= _ <-].
Qed.

Lemma interfere_walk_mono vs x y : ∀ (s : gset nat) itf s' itf',
  foldlM (interfereStep f (valueTypes f)) vs (s, itf) = Ok (s', itf') →
  y ∈ interfering itf x → y ∈ interfering itf' x.
Proof.
  induction vs as [|v vs IH]; intros s itf s' itf' Hfold Hy.
  - by injection Hfold as _ <-.
  - rewrite foldlM_cons in Hfold.
    destruct (interfereStep f (valueTypes f) (s, itf) v) as [[s1 itf1]|] eqn:H1;
      cbn [mbind result_bind] in Hfold; [|done].
    eapply IH; [exact Hfold|]. by eapply interfereStep_mono.
Qed.

Lemma interfereBlock_mono live itf b itf' x y :
  interfereBlock f (valueTypes f) live itf b = Ok itf' →
  y ∈ interfering itf x → y ∈ interfering itf' x.
Proof.
  unfold interfereBlock. destruct (liveAtEnd live b) as [s0|]; simpl; [|done].
  destruct (foldlM (interfereStep f (valueTypes f)) (rev (b_Values b)) (s0, itf))
    as [[s1 itf1]|] eqn:Hfold; simpl; [|done].
  intros [= <-]. by eapply interfere_walk_mono.
Qed.

Lemma interfereBlocks_mono live bs x y : ∀ itf itf',
  foldlM (interfereBlock f (valueTypes f) live) bs itf = Ok itf' →
  y ∈ interfering itf x → y ∈ interfering itf' x.
Proof.
  induction bs as [|b bs IH]; intros itf itf' Hfold Hy.
  - by injection Hfold as <-.
  - rewrite foldlM_cons in Hfold.
    destruct (interfereBlock f (valueTypes f) live itf b) as [itf1|] eqn:H1;
      cbn [mbind result_bind] in Hfold; [|done].
    eapply IH; [exact Hfold|]. by eapply interfereBlock_mono.
Qed.

(** The edge that the walk of a block makes at [v]. *)
Lemma interfereBlock_edge live itf b itf' pre v post x :
  interfereBlock f (valueTypes f) live itf b = Ok itf' →
  b_Values b = pre ++ v :: post → spillClass f v → x ≠ v_ID v →
  Equal (v_Type v) (valueTypes f !! x) = true →
  (exposed f x post ∨
   (transparent f x post ∧ ∃ s0, liveAtEnd live b = Ok s0 ∧ x ∈ s0)) →
  x ∈ interfering itf' (v_ID v) ∧ v_ID v ∈ interfering itf' x.
Proof.
  unfold interfereBlock. intros Hblock Hvals Hc Hne Heq Hlive.
  destruct (liveAtEnd live b) as [s0|] eqn:Hend; simpl in Hblock; [|done].
  destruct (foldlM (interfereStep f (valueTypes f)) (rev (b_Values b)) (s0, itf))
    as [[s1 itf1]|] eqn:Hfold; simpl in Hblock; [|done].
  injection Hblock as <-.
  rewrite Hvals, rev_app_distr in Hfold. simpl in Hfold.
  rewrite <- app_assoc in Hfold. simpl in Hfold.
  apply foldlM_split in Hfold as ([s2 itf2] & [s3 itf3] & Hpost & Hstep & Hpre).
  assert (x ∈ interfering itf3 (v_ID v) ∧ v_ID v ∈ interfering itf3 x) as [H1 H2];
    [|split; (eapply interfere_walk_mono; [exact Hpre|done])].
  assert (x ∈ s2) as Hx.
  { destruct (interfere_walk_set _ _ _ [] _ _ Hpost) as [phis' Hwalk].
    apply (spill_walk_mem f x) in Hwalk. apply Hwalk.
    destruct Hlive as [?|[? (s0' & [= <-] & ?)]]; [by left|by right]. }
  unfold interfereStep in Hstep.
  assert (bool_decide (v_Op v = OpStoreReg) || isStackPhi f v = true) as Hsp.
  { destruct Hc as [Hst| ->]; [|apply orb_true_r].
    by rewrite (bool_decide_true _ Hst). }
  rewrite Hsp in Hstep. injection Hstep as _ <-.
  apply interfere_edges_new; [|done].
  apply elem_of_elements, elem_of_difference. split; [done|].
  by rewrite elem_of_singleton.
Qed.

End Complete.

(** X7.  The interference graph is complete for what [liveSpills] found:
    when a StoreReg or stack phi [v] is made in a block at a point after
    which a value [w] of the same type is still to be read before it is
    written, in the rest of the block or beyond its end, the graph holds
    the edge between [v] and [w], in both directions. *)
Theorem interference_graph_complete (f : Func) (live : LiveMap)
    (itf : Interfere) (b : Block) (pre post : list Value) (v w : Value) :
  buildInterference f live = Ok itf →
  NoDup (v_ID <$> allValues f) →
  b ∈ f_Blocks f → b_Values b = pre ++ v :: post →
  spillClass f v → w ∈ allValues f → v_ID w ≠ v_ID v → v_Type w = v_Type v →
  (exposed f (v_ID w) post ∨
   (transparent f (v_ID w) post ∧
    ∃ j l, (j < length (b_Succs b))%nat ∧ liveAt live (b_ID b) j = Ok l ∧
           v_ID w ∈ l)) →
  v_ID w ∈ interfering itf (v_ID v) ∧ v_ID v ∈ interfering itf (v_ID w).
Proof.
  intros Hitf Hnd Hb Hvals Hc Hw Hne Hty Hlive.
  unfold buildInterference in Hitf.
  apply list_elem_of_split in Hb as (bs1 & bs2 & Hbs).
  rewrite Hbs in Hitf.
  apply foldlM_split in Hitf as (itf1 & itf2 & _ & Hblock & Hrest).
  assert (v_ID w ∈ interfering itf2 (v_ID v) ∧
          v_ID v ∈ interfering itf2 (v_ID w)) as [H1 H2];
    [|split; (eapply interfereBlocks_mono; [exact Hrest|done])].
  { eapply interfereBlock_edge; try done.
    - unfold Equal. rewrite valueTypes_lookup by done.
      by apply bool_decide_eq_true.
    - destruct Hlive as [?|[Htr (j & l & Hj & Hl & Hx)]]; [by left|].
      right. split; [done|].
      unfold interfereBlock in Hblock.
      destruct (liveAtEnd live b) as [s0|] eqn:Hend; [|done].
      exists s0. split; [done|].
      unfold liveAtEnd in Hend.
      apply (liveAtEnd_mem _ _ _ (v_ID w)) in Hend. apply Hend. right.
      exists j, l. split; [apply elem_of_seq; lia|done]. }
Qed.

(** ** What the slot-picking loop leaves alone *)

Lemma sameCode_refl f : sameCode f f.
Proof. by repeat split. Qed.

Lemma sameCode_trans f g h : sameCode f g → sameCode g h → sameCode f h.
Proof.
  intros (? & ? & ? & ? & ? & ?) (? & ? & ? & ? & ? & ?).
  repeat split; try congruence; lia.
Qed.

Lemma sameCode_setHome f vid loc : sameCode f (setHome f vid loc).
Proof.
  repeat split; try done. unfold setHome. simpl.
  rewrite length_insert, growRegAlloc_len. lia.
Qed.

Lemma sameCode_setHome_args (l : option Location) (args : list ID) : ∀ f,
  sameCode f (foldl (λ f a, setHome f a l) f args).
Proof.
  induction args as [|a args IH]; intros f; cbn [foldl]; [apply sameCode_refl|].
  eapply sameCode_trans; [apply sameCode_setHome|apply IH].
Qed.

Lemma sameCode_setHomes f v loc : sameCode f (setHomes f v loc).
Proof.
  unfold setHomes. destruct (bool_decide _).
  - eapply sameCode_trans; [apply sameCode_setHome|apply sameCode_setHome_args].
  - apply sameCode_setHome.
Qed.

Lemma sameCode_Auto f t : sameCode f (snd (Auto f t)).
Proof. repeat split; simpl; lia. Qed.

Lemma pickNoname_sameCode itf st v st' :
  pickNoname itf st v = Ok st' → sameCode (ss_f st) (ss_f st').
Proof.
  unfold pickNoname.
  destruct (bool_decide (firstUnused _ 0 (length (ss_locations st (v_Type v)))
                         = length (ss_locations st (v_Type v)))).
  - cbn [Auto]. destruct (go_index _ _); simpl; [|done]. intros [= <-]. simpl.
    eapply sameCode_trans; [|apply sameCode_setHomes].
    apply (sameCode_Auto (ss_f st) (v_Type v)).
  - destruct (go_index _ _); simpl; [|done]. intros [= <-]. simpl.
    apply sameCode_setHomes.
Qed.

(** The ways out of the body of the slot-picking loop. *)
Lemma pickSlot_inv names phiArg itf st v st' :
  pickSlot names phiArg itf st v = Ok st' →
  (((v_Op v ≠ OpStoreReg ∧ isStackPhi (ss_f st) v = false) ∨ v_ID v ∈ phiArg) ∧
   st' = st) ∨
  ((v_Op v = OpStoreReg ∨ isStackPhi (ss_f st) v = true) ∧ (v_ID v ∉ phiArg) ∧
   ((∃ key name,
       names !! key = Some name ∧ N name ≠ None ∧ v_Type v = SlotType name ∧
       st' = mkSlotState (setHomes (ss_f st) v name) (ss_locations st)
                         (ss_slots st) (ss_used st)) ∨
    pickNoname itf st v = Ok st')).
Proof.
  unfold pickSlot.
  destruct (decide (v_Op v = OpStoreReg)) as [Hst|Hst].
  - rewrite (bool_decide_true _ Hst). cbn [negb andb].
    destruct (decide (v_ID v ∈ phiArg)) as [Hin|Hin].
    { rewrite bool_decide_true by done. intros [= <-]. left. split; [by right|done]. }
    rewrite bool_decide_false by done. intros Hrun. right.
    split; [by left|]. split; [done|].
    destruct (arg v 0) as [a|]; simpl in Hrun; [|done].
    destruct (names !! a) as [name|] eqn:Hname; [|by right].
    destruct (bool_decide (N name ≠ None) &&
              bool_decide (v_Type v = SlotType name)) eqn:Hcond; [|by right].
    apply andb_prop in Hcond as [HN HT].
    apply bool_decide_eq_true in HN, HT.
    destruct (nameTaken (ss_f st) name (interfering itf (v_ID v))) as [b1|];
      simpl in Hrun; [|done].
    destruct b1; [by right|].
    destruct (if bool_decide (v_Op v = OpPhi)
              then nameTaken (ss_f st) name (argsInterfering itf v)
              else Ok false) as [b2|]; simpl in Hrun; [|done].
    destruct b2; [by right|]. injection Hrun as <-. left. eauto 6.
  - rewrite (bool_decide_false _ Hst). cbn [negb andb].
    destruct (isStackPhi (ss_f st) v) eqn:Hsp; cbn [negb].
    2:{ intros [= <-]. left. split; [by left|done]. }
    destruct (decide (v_ID v ∈ phiArg)) as [Hin|Hin].
    { rewrite bool_decide_true by done. intros [= <-]. left. split; [by right|done]. }
    rewrite bool_decide_false by done. intros Hrun. right.
    split; [by right|]. split; [done|]. simpl in Hrun.
    destruct (names !! v_ID v) as [name|] eqn:Hname; [|by right].
    destruct (bool_decide (N name ≠ None) &&
              bool_decide (v_Type v = SlotType name)) eqn:Hcond; [|by right].
    apply andb_prop in Hcond as [HN HT].
    apply bool_decide_eq_true in HN, HT.
    destruct (nameTaken (ss_f st) name (interfering itf (v_ID v))) as [b1|];
      simpl in Hrun; [|done].
    destruct b1; [by right|].
    destruct (if bool_decide (v_Op v = OpPhi)
              then nameTaken (ss_f st) name (argsInterfering itf v)
              else Ok false) as [b2|]; simpl in Hrun; [|done].
    destruct b2; [by right|]. injection Hrun as <-. left. eauto 6.
Qed.

Lemma pickSlot_sameCode names phiArg itf st v st' :
  pickSlot names phiArg itf st v = Ok st' → sameCode (ss_f st) (ss_f st').
Proof.
  intros Hrun. apply pickSlot_inv in Hrun
    as [[_ ->]|(_ & _ & [(key & name & _ & _ & _ & ->)|Hno])].
  - apply sameCode_refl.
  - apply sameCode_setHomes.
  - by eapply pickNoname_sameCode.
Qed.

Lemma allocArgs_sameCode f f1 : allocArgs f = Ok f1 → sameCode f f1.
Proof.
  unfold allocArgs. intros Hrun.
  apply (foldlM_post (sameCode f) _ _ _ _ Hrun); [apply sameCode_refl|].
  intros g v g' _ Hg Hstep.
  destruct (negb (bool_decide (v_Op v = OpArg))).
  - by injection Hstep as <-.
  - destruct (v_Aux v); try done. injection Hstep as <-.
    eapply sameCode_trans; [exact Hg|apply sameCode_setHome].
Qed.

(** The whole of [stackalloc], with what every part of it returns. *)
Lemma stackalloc_run (postorder : Func → list Block) (f : Func) :
  wfCFG (postorder f) f → wfSpill f →
  ∃ fuel live itf f1 st,
    (∀ n, (fuel ≤ n)%nat → liveSpills postorder n f = Ok live) ∧
    buildInterference f live = Ok itf ∧
    allocArgs f = Ok f1 ∧ f_autos f1 = f_autos f ∧
    foldlM (pickSlot (buildNames f) (buildPhiArg f) itf) (allValues f)
           (mkSlotState f1 (λ _, []) ∅ ∅) = Ok st ∧
    (∀ n, (fuel ≤ n)%nat → stackalloc postorder n f = Ok (ss_f st)) ∧
    (∀ id, getHome f1 id = getHome f id ∨
           (∃ v l, v ∈ b_Values (f_Entry f) ∧ v_Op v = OpArg ∧ v_ID v = id ∧
                   getHome f1 id = Some (LocSlot l))) ∧
    symmetric itf ∧ (∀ x y, y ∈ interfering itf x → spillRef f y) ∧
    pickInv f f1 itf (allValues f) st.
Proof.
  intros Hcfg Hwf.
  set (fuel := S (size (bound (liveInit f) (universe f)))).
  destruct (liveLoop_terminates f (postorder f) Hcfg fuel (liveInit f))
    as (live & Hloop & Hinv & _); [apply liveInv_init|unfold fuel; lia|].
  assert (∀ n, (fuel ≤ n)%nat → liveSpills postorder n f = Ok live) as Hlive.
  { intros n Hn. unfold liveSpills. by eapply liveLoop_more_fuel. }
  destruct (buildInterference_ok f live (wf_blockIDs _ _ Hcfg)
              (wf_loads _ _ Hcfg) Hinv) as (itf & Hitf & Hsym & Href).
  destruct (allocArgs_ok f (ws_args _ Hwf))
    as (f1 & Hargs & Hautos & Hblocks & Hhomes).
  destruct (pickSlots_ok f f1 itf (buildNames f) Hwf Hsym Href) as (st & Hst & Hpick).
  { intros id nm k Hnm. apply (ws_names _ Hwf). by eapply buildNames_elem. }
  { lia. }
  { done. }
  exists fuel, live, itf, f1, st. split; [done|]. split; [done|].
  split; [done|]. split; [done|]. split.
  { unfold pickSlots in Hst. by rewrite foldlM_blocks in Hst. }
  split; [|done].
  intros n Hn. unfold stackalloc. rewrite (Hlive n Hn). simpl.
  rewrite Hitf. simpl. rewrite Hargs. simpl.
  unfold pickSlots in *. rewrite Hblocks, Hst. done.
Qed.

(** X8.  [stackalloc] changes homes only: the blocks, the entry block
    and the names are as before, [RegAlloc] is not shorter, and the home
    of an ID that is neither a StoreReg, a stack phi or an argument of a
    stack phi, nor an Arg value of the entry block, is as before; a value
    keeps its register. *)
Theorem stackalloc_frame (postorder : Func → list Block) (f : Func) :
  wfCFG (postorder f) f → wfSpill f →
  ∃ fuel f',
    (∀ n, (fuel ≤ n)%nat → stackalloc postorder n f = Ok f') ∧
    sameCode f f' ∧
    ∀ id,
      (∀ v, v ∈ allValues f → spillClass f v → id ∉ assigned v) →
      id ∉ v_ID <$> argValues (b_Values (f_Entry f)) →
      getHome f' id = getHome f id.
Proof.
  intros Hcfg Hwf.
  destruct (stackalloc_run postorder f Hcfg Hwf)
    as (fuel & live & itf & f1 & st & _ & _ & Hargs & _ & Hst & Hrun & Hhomes & _
        & _ & Hinv).
  exists fuel, (ss_f st). split; [done|]. split.
  - eapply sameCode_trans; [by eapply allocArgs_sameCode|].
    apply (foldlM_post (λ st', sameCode f1 (ss_f st')) _ _ _ _ Hst);
      [apply sameCode_refl|].
    intros st1 v st2 _ H1 Hstep.
    eapply sameCode_trans; [exact H1|by eapply pickSlot_sameCode].
  - intros id Hspill Hnoarg.
    destruct (inv_frame _ _ _ _ _ Hinv id) as [-> _].
    + intros (v & Hv & [Hc _] & Hid). by apply (Hspill v).
    + destruct (Hhomes id) as [?|(v & l & Hv & Hop & Hid & _)]; [done|].
      exfalso. apply Hnoarg. rewrite <- Hid. apply list_elem_of_fmap_2.
      by apply elem_of_argValues.
Qed.

(** ** The slots that the loop picks *)

Lemma slotFor_mono f g h v l :
  (f_autos g ≤ f_autos h)%nat → slotFor f g v l → slotFor f h v l.
Proof.
  intros Hle [Hty [?|(k & Hk & ->)]]; (split; [done|]); [by left|].
  right. exists k. split; [lia|done].
Qed.

Section Slots.
Variables (f0 f1 : Func) (itf : Interfere).
Hypothesis Hwf : wfSpill f0.
Hypothesis Hsym : symmetric itf.
Hypothesis Hitf : ∀ x y, y ∈ interfering itf x → spillRef f0 y.
Hypothesis Hautos1 : f_autos f1 = f_autos f0.
Hypothesis Hhomes1 : ∀ id,
  getHome f1 id = getHome f0 id ∨
  (∃ v l, v ∈ b_Values (f_Entry f0) ∧ v_Op v = OpArg ∧ v_ID v = id ∧
          getHome f1 id = Some (LocSlot l)).

Lemma pickSlots_slotFor st :
  foldlM (pickSlot (buildNames f0) (buildPhiArg f0) itf) (allValues f0)
         (mkSlotState f1 (λ _, []) ∅ ∅) = Ok st →
  ∀ v, v ∈ allValues f0 → pickedAlone f0 v →
       ∃ l, getHome (ss_f st) (v_ID v) = Some (LocSlot l) ∧
            slotFor f0 (ss_f st) v l.
Proof.
  intros Hst.
  assert (∀ id nm k, buildNames f0 !! id = Some nm → N nm = Some k →
                     (k < f_autos f0)%nat) as Hnames.
  { intros id nm k Hnm. apply (ws_names _ Hwf). by eapply buildNames_elem. }
  destruct (foldlM_prefix
    (λ done st,
       pickInv f0 f1 itf done st ∧
       ∀ v, v ∈ done → pickedAlone f0 v →
            ∃ l, getHome (ss_f st) (v_ID v) = Some (LocSlot l) ∧
                 slotFor f0 (ss_f st) v l)
    (pickSlot (buildNames f0) (buildPhiArg f0) itf) (allValues f0)
    (mkSlotState f1 (λ _, []) ∅ ∅)) as (st' & Hst' & _ & Hall).
  - split; [|intros v Hv; by apply elem_of_nil in Hv].
    assert (∀ id, ¬ slotted f0 [] id) as Hnone.
    { intros id (w & Hw & _). by apply elem_of_nil in Hw. }
    split; cbn [ss_f ss_locations ss_slots].
    + lia.
    + done.
    + done.
    + intros w Hw. by apply elem_of_nil in Hw.
    + intros id _. split; [done|apply lookup_empty].
    + intros t i l Hl. by rewrite lookup_nil in Hl.
    + intros t i j l Hl. by rewrite lookup_nil in Hl.
    + intros id Hid. by apply Hnone in Hid.
    + intros x y Hx. by apply Hnone in Hx.
  - intros done v todo st0 Hsplit [Hinv Hslots].
    destruct (pickSlot_step f0 f1 itf (buildNames f0) Hwf Hsym Hitf Hnames
                Hautos1 Hhomes1 done v todo st0 Hsplit Hinv) as (st1 & Hrun & Hinv1).
    exists st1. split; [done|]. split; [done|].
    assert (v ∈ allValues f0) as Hv.
    { rewrite Hsplit. apply elem_of_app. right. by left. }
    assert (∀ w, w ∈ done → w ∈ allValues f0) as Hdone.
    { intros w Hw. rewrite Hsplit. apply elem_of_app. by left. }
    assert (v ∉ done) as Hnotin.
    { intros Hin. pose proof (ws_ids _ Hwf) as Hnd.
      apply NoDup_fmap_1 in Hnd. rewrite Hsplit in Hnd.
      apply list.NoDup_app in Hnd as (_ & Hd & _). apply (Hd v Hin). by left. }
    assert (∀ w, w ∈ done → pickedAlone f0 w → pickedAlone f0 v →
                 v_ID w ∉ assigned v) as Hother.
    { intros w Hw Hpw Hpv Hin.
      assert (w = v); [|by subst].
      eapply (picked_unique f0 Hwf w v (v_ID w)); eauto using assigned_self. }
    assert ((f_autos (ss_f st0) ≤ f_autos (ss_f st1))%nat) as Hle.
    { apply pickSlot_sameCode in Hrun. by destruct Hrun as (_ & _ & _ & _ & ? & _). }
    assert (∀ loc,
              (∀ id, getHome (ss_f st1) id =
                     if decide (id ∈ assigned v) then Some (LocSlot loc)
                     else getHome (ss_f st0) id) →
              pickedAlone f0 v → slotFor f0 (ss_f st1) v loc →
              ∀ w, w ∈ done ++ [v] → pickedAlone f0 w →
                   ∃ l, getHome (ss_f st1) (v_ID w) = Some (LocSlot l) ∧
                        slotFor f0 (ss_f st1) w l) as Hnew.
    { intros loc Hhomes Hpv Hfor w Hw Hpw.
      apply elem_of_app in Hw as [Hw|Hw].
      - destruct (Hslots w Hw Hpw) as (l & Hl & Hlf). exists l.
        rewrite Hhomes, decide_False by (by apply Hother).
        split; [done|]. by eapply slotFor_mono.
      - apply list_elem_of_singleton in Hw as ->. exists loc.
        rewrite Hhomes, decide_True by apply assigned_self. done. }
    assert ((v_Op v = OpStoreReg ∨ isStackPhi (ss_f st0) v = true) →
            v_ID v ∉ buildPhiArg f0 → pickedAlone f0 v) as Hpicked.
    { intros [Hop|Hsp] Hn; (split; [|done]); [by left|right].
      apply isStackPhi_spec. apply isStackPhi_spec in Hsp as (Hop & Hty & Hh).
      split; [done|]. split; [done|].
      rewrite <- (phi_home_f1 f0 f1 Hwf Hhomes1) by done.
      by apply (inv_grow _ _ _ _ _ Hinv). }
    pose proof Hrun as Hcase. apply pickSlot_inv in Hcase
      as [[Hskip ->]|(Hcls & Hn & [(key & name & Hkey & HN & HT & ->)|Hno])].
    + intros w Hw Hpw. apply elem_of_app in Hw as [Hw|Hw]; [by apply Hslots|].
      apply list_elem_of_singleton in Hw as ->. exfalso.
      destruct Hskip as [[Hop Hsp]|Hin]; [|by destruct Hpw].
      destruct Hpw as [[?|Hsp0] Hn]; [done|].
      assert (isStackPhi (ss_f st0) v = true); [|congruence].
      apply isStackPhi_spec. apply isStackPhi_spec in Hsp0 as (Hop0 & Hty & Hh).
      split; [done|]. split; [done|].
      destruct (inv_frame _ _ _ _ _ Hinv (v_ID v)) as [-> _].
      * intros (w & Hw & Hpw & Hid).
        assert (w = v); [|by subst].
        eapply (picked_unique f0 Hwf w v (v_ID v)); eauto using assigned_self.
        split; [right|done]. by apply isStackPhi_spec.
      * by rewrite (phi_home_f1 f0 f1 Hwf Hhomes1).
    + apply (Hnew name); [|by apply Hpicked|].
      * intros id. cbn [ss_f]. by rewrite getHome_setHomes.
      * split; [done|]. left. split; [|done]. by eapply buildNames_elem.
    + destruct (pickNoname_spec itf st0 v)
        as (st2 & i & loc & Hrun2 & Hhomes & _ & Hloc & _).
      rewrite Hno in Hrun2. injection Hrun2 as <-.
      destruct (inv_pool _ _ _ _ _ Hinv1 _ _ _ Hloc) as (k & Hk & ->).
      apply (Hnew (mkLocalSlot (Some k) (v_Type v) 0)); [done|by apply Hpicked|].
      split; [done|]. right. by exists k.
  - intros v Hv Hpv. rewrite Hst in Hst'. injection Hst' as <-. by apply Hall.
Qed.

End Slots.

(** X9.  On the output of the register allocator, every StoreReg and
    every stack phi that is not the argument of a stack phi gets a slot
    of its own type: a name of [f.Names] whose variable is not nil, or a
    variable that [Auto] made during this run, at offset 0. *)
Theorem stackalloc_slot_of_spill (postorder : Func → list Block) (f : Func) :
  wfCFG (postorder f) f → wfSpill f →
  ∃ fuel f',
    (∀ n, (fuel ≤ n)%nat → stackalloc postorder n f = Ok f') ∧
    ∀ v, v ∈ allValues f → spillClass f v → v_ID v ∉ buildPhiArg f →
         ∃ l, getHome f' (v_ID v) = Some (LocSlot l) ∧ slotFor f f' v l.
Proof.
  intros Hcfg Hwf.
  destruct (stackalloc_run postorder f Hcfg Hwf)
    as (fuel & live & itf & f1 & st & _ & _ & Hargs & Hautos & Hst & Hrun & Hhomes
        & Hsym & Href & Hinv).
  exists fuel, (ss_f st). split; [done|].
  intros v Hv Hc Hn.
  by apply (pickSlots_slotFor f f1 itf Hwf Hsym Href Hautos Hhomes st Hst).
Qed.

(** [stackalloc] asks the front end for a variable in the code after
    [noname] only. *)
Lemma pickSlot_autos names phiArg itf st v st' :
  pickSlot names phiArg itf st v = Ok st' →
  (f_autos (ss_f st') ≤
   f_autos (ss_f st) +
   (if bool_decide (v_Op v = OpStoreReg ∨ v_Op v = OpPhi) then 1 else 0))%nat.
Proof.
  intros Hrun. apply pickSlot_inv in Hrun
    as [[_ ->]|(Hcls & _ & [(key & name & _ & _ & _ & ->)|Hno])].
  - lia.
  - cbn [ss_f]. rewrite f_autos_setHomes. lia.
  - rewrite bool_decide_true.
    2:{ destruct Hcls as [?|Hsp]; [by left|right].
        by apply isStackPhi_spec in Hsp as (? & _). }
    destruct (pickNoname_spec itf st v)
      as (st2 & i & loc & Hrun2 & _ & _ & _ & Hcase).
    rewrite Hno in Hrun2. injection Hrun2 as <-.
    destruct Hcase as [(_ & _ & -> & _)|(_ & _ & _ & _ & ->)]; lia.
Qed.

(** X10.  [stackalloc] makes at most one new variable for each StoreReg
    and phi of the function, and none when there is none. *)
Theorem stackalloc_new_variables (postorder : Func → list Block) (f : Func) :
  wfCFG (postorder f) f → wfSpill f →
  ∃ fuel f',
    (∀ n, (fuel ≤ n)%nat → stackalloc postorder n f = Ok f') ∧
    (f_autos f ≤ f_autos f' ≤
     f_autos f +
     length (filter (λ v, v_Op v = OpStoreReg ∨ v_Op v = OpPhi) (allValues f)))%nat.
Proof.
  intros Hcfg Hwf.
  destruct (stackalloc_run postorder f Hcfg Hwf)
    as (fuel & live & itf & f1 & st & _ & _ & Hargs & Hautos & Hst & Hrun & _ & _
        & _ & Hinv).
  exists fuel, (ss_f st). split; [done|].
  split; [apply (inv_autos _ _ _ _ _ Hinv)|].
  rewrite <- Hautos. change f1 with (ss_f (mkSlotState f1 (λ _, []) ∅ ∅)).
  revert Hst. generalize (mkSlotState f1 (λ _, []) ∅ ∅). clear.
  induction (allValues f) as [|v vs IH]; intros st0 Hst.
  - injection Hst as <-. simpl. lia.
  - rewrite foldlM_cons in Hst.
    destruct (pickSlot _ _ _ st0 v) as [st1|] eqn:Hstep;
      cbn [mbind result_bind] in Hst; [|done].
    apply IH in Hst. apply pickSlot_autos in Hstep.
    rewrite filter_cons. destruct (decide _) as [Hd|Hd].
    + rewrite bool_decide_true in Hstep by done. simpl. lia.
    + rewrite bool_decide_false in Hstep by done. lia.
Qed.

(** ** The examples *)

(** X1 on the loop: the homes of [v1] and [v2] can be set in either
    order. *)
Lemma setHome_store_laws_witness :
  setHome (setHome loopFunc 1 None) 2 (Some (LocReg 3))
  = setHome (setHome loopFunc 2 (Some (LocReg 3))) 1 None.
Proof.
  apply (setHome_store_laws loopFunc 1 2 None (Some (LocReg 3))).
  discriminate.
Defined.

(** X2 on the two arguments: [v1] gets the slot of the variable 7 at
    offset 8. *)
Lemma allocArgs_homes_witness :
  ∃ f1, allocArgs argsFunc = Ok f1 ∧
        getHome f1 1%nat = Some (LocSlot (mkLocalSlot (Some 7%nat) I32 8)).
Proof.
  destruct (allocArgs_homes argsFunc) as [Hok _].
  destruct Hok as (f1 & Hrun & Hhome & _).
  - apply (bool_decide_unpack _). vm_compute. exact I.
  - apply list.Forall_forall.
    change (argValues (b_Values (f_Entry argsFunc)))
      with [mkValue 1 OpArg I32 8 (AuxNode 7%nat) [] 0%nat 0;
            mkValue 2 OpArg I32 12 (AuxNode 9%nat) [] 0%nat 0].
    repeat constructor; eexists; reflexivity.
  - exists f1. split; [exact Hrun|].
    apply (Hhome (mkValue 1 OpArg I32 8 (AuxNode 7%nat) [] 0%nat 0) 7%nat).
    + apply (bool_decide_unpack _). vm_compute. exact I.
    + reflexivity.
Defined.

(** X4 on the two spills. *)
Lemma interference_graph_edges_witness :
  ∃ fuel live itf,
    (∀ n, (fuel ≤ n)%nat → liveSpills revOrder n spillFunc = Ok live) ∧
    buildInterference spillFunc live = Ok itf ∧
    symmetric itf ∧
    ∀ x y, y ∈ interfering itf x →
      x ≠ y ∧
      ∃ u w, u ∈ allValues spillFunc ∧ w ∈ allValues spillFunc ∧
             v_ID u = x ∧ v_ID w = y ∧
             v_Type u = v_Type w ∧
             (spillClass spillFunc u ∨ spillClass spillFunc w).
Proof.
  apply (interference_graph_edges revOrder spillFunc).
  apply wfCFGb_sound. vm_compute. reflexivity.
Defined.

(** X5 on the loop. *)
Lemma liveSpills_lists_witness :
  ∃ fuel live,
    (∀ n, (fuel ≤ n)%nat → liveSpills revOrder n loopFunc = Ok live) ∧
    ∀ b j, b ∈ f_Blocks loopFunc →
      ((j < length (b_Succs b))%nat →
       ∃ l, liveAt live (b_ID b) j = Ok l ∧ NoDup l ∧
            ∀ x, x ∈ l →
              ∃ v, v ∈ allValues loopFunc ∧
                   ((v_Op v = OpLoadReg ∧ arg v 0 = Ok x) ∨
                    (isStackPhi loopFunc v = true ∧ x ∈ v_Args v))) ∧
      ((length (b_Succs b) ≤ j)%nat →
       liveAt live (b_ID b) j = Fail IndexOutOfRange).
Proof.
  apply (liveSpills_lists revOrder loopFunc).
  apply wfCFGb_sound. vm_compute. reflexivity.
Defined.

(** X6 on the loop. *)
Lemma liveSpills_sound_witness :
  ∃ fuel live,
    (∀ n, (fuel ≤ n)%nat → liveSpills revOrder n loopFunc = Ok live) ∧
    (∀ x b, wanted loopFunc (revOrder loopFunc) x b →
            liveIn loopFunc live b x) ∧
    (∀ x b i pid, b ∈ revOrder loopFunc → liveIn loopFunc live b x →
                  b_Preds b !! i = Some pid →
                  ∃ p l, blockOf loopFunc pid = Ok p ∧
                         liveAt live (b_ID p) (succIndex (b_Succs p) (b_ID b))
                           = Ok l ∧
                         x ∈ l).
Proof.
  apply (liveSpills_sound revOrder loopFunc).
  apply wfCFGb_sound. vm_compute. reflexivity.
Defined.

(** X7 on the two spills: [v2] is made while [v1] is still to be
    loaded. *)
Lemma interference_graph_complete_witness :
  ∃ live itf,
    liveSpills revOrder 10 spillFunc = Ok live ∧
    buildInterference spillFunc live = Ok itf ∧
    1%nat ∈ interfering itf 2%nat ∧ 2%nat ∈ interfering itf 1%nat.
Proof.
  assert (∃ l, liveSpills revOrder 10 spillFunc = Ok l ∧
               ∃ i, buildInterference spillFunc l = Ok i)
    as (l & Hl & i & Hi).
  { eexists. split; [vm_compute; reflexivity|].
    eexists. vm_compute. reflexivity. }
  exists l, i. split; [exact Hl|]. split; [exact Hi|].
  apply (interference_graph_complete spillFunc l i spillEntry
           [sval 10 OpMIPSMOVWconst I32 []; sval 11 OpMIPSMOVWconst I32 [];
            sval 1 OpStoreReg I32 [10%nat]]
           [sval 3 OpLoadReg I32 [1%nat]; sval 4 OpLoadReg I32 [2%nat]]
           (sval 2 OpStoreReg I32 [11%nat]) (sval 1 OpStoreReg I32 [10%nat])).
  - exact Hi.
  - apply (bool_decide_unpack _). vm_compute. exact I.
  - apply (bool_decide_unpack _). vm_compute. exact I.
  - reflexivity.
  - left. reflexivity.
  - apply (bool_decide_unpack _). vm_compute. exact I.
  - discriminate.
  - reflexivity.
  - left. exists [], (sval 3 OpLoadReg I32 [1%nat]),
                 [sval 4 OpLoadReg I32 [2%nat]].
    split; [reflexivity|]. split; [split; reflexivity|].
    intros w Hw. by apply elem_of_nil in Hw.
Defined.

(** X8 on the loop. *)
Lemma stackalloc_frame_witness :
  ∃ fuel f',
    (∀ n, (fuel ≤ n)%nat → stackalloc revOrder n loopFunc = Ok f') ∧
    sameCode loopFunc f' ∧
    ∀ id,
      (∀ v, v ∈ allValues loopFunc → spillClass loopFunc v →
            id ∉ assigned v) →
      id ∉ v_ID <$> argValues (b_Values (f_Entry loopFunc)) →
      getHome f' id = getHome loopFunc id.
Proof.
  apply (stackalloc_frame revOrder loopFunc).
  - apply wfCFGb_sound. vm_compute. reflexivity.
  - apply wfSpillb_sound. vm_compute. reflexivity.
Defined.

(** X9 on the two spills. *)
Lemma stackalloc_slot_of_spill_witness :
  ∃ fuel f',
    (∀ n, (fuel ≤ n)%nat → stackalloc revOrder n spillFunc = Ok f') ∧
    ∀ v, v ∈ allValues spillFunc → spillClass spillFunc v →
         v_ID v ∉ buildPhiArg spillFunc →
         ∃ l, getHome f' (v_ID v) = Some (LocSlot l) ∧
              slotFor spillFunc f' v l.
Proof.
  apply (stackalloc_slot_of_spill revOrder spillFunc).
  - apply wfCFGb_sound. vm_compute. reflexivity.
  - apply wfSpillb_sound. vm_compute. reflexivity.
Defined.

(** X10 on the loop: three StoreReg and phi values besides the memory
    phi, at most four new variables. *)
Lemma stackalloc_new_variables_witness :
  ∃ fuel f',
    (∀ n, (fuel ≤ n)%nat → stackalloc revOrder n loopFunc = Ok f') ∧
    (f_autos loopFunc ≤ f_autos f' ≤
     f_autos loopFunc +
     length (filter (λ v, v_Op v = OpStoreReg ∨ v_Op v = OpPhi)
                    (allValues loopFunc)))%nat.
Proof.
  apply (stackalloc_new_variables revOrder loopFunc).
  - apply wfCFGb_sound. vm_compute. reflexivity.
  - apply wfSpillb_sound. vm_compute. reflexivity.
Defined.

End StackallocMore.

(* ===================================================================== *)
(** * More properties of the MIPS rewriter                                *)
(* ===================================================================== *)

Module RewriteMIPSMore.
Import SSA RewriteMIPS RewriteExamples RewriteMIPSProofs RewriteMIPSRules.

(** ** Right-hand sides *)

(** [(op [c])]: a constant. *)
Lemma rhs_const f vid v op c :
  look f vid = Some v →
  Forall (λ w, is_Some (look f w)) (v_Args v) →
  ∃ f', (f ← reset f vid op; f ← setAuxInt f vid c; fired f) = Ok (Some f') ∧
        upd f f' vid (rewritten v op c AuxNil []).
Proof.
  intros Hv Hold. pose proof (look_ID _ _ _ Hv) as Hid.
  destruct (reset_upd f vid v op Hv Hold) as (f1 & -> & H1). simpl.
  destruct (setAuxInt_upd f1 vid _ c (upd_look _ _ _ _ H1)) as (f2 & -> & H2).
  simpl. eexists; split; [done|].
  eapply upd_upd; [exact H1|]. unfold rewritten. rewrite Hid. exact H2.
Qed.

(** [(op x)]: one operand, no immediate. *)
Lemma rhs_unary f vid v op x :
  look f vid = Some v →
  Forall (λ w, is_Some (look f w)) (v_Args v) →
  is_Some (look f x) →
  ∃ f', (f ← reset f vid op; f ← AddArg f vid x; fired f) = Ok (Some f') ∧
        upd f f' vid (rewritten v op 0 AuxNil [x]).
Proof.
  intros Hv Hold Hx. pose proof (look_ID _ _ _ Hv) as Hid.
  destruct (reset_upd f vid v op Hv Hold) as (f1 & -> & H1). simpl.
  destruct (AddArg_upd f1 vid _ x (upd_look _ _ _ _ H1)) as (f2 & -> & H2).
  { by eapply upd_is_Some. }
  simpl. eexists; split; [done|].
  eapply upd_upd; [exact H1|]. unfold rewritten. rewrite Hid. exact H2.
Qed.

(** The start of a rule function with one operand, and of one with two. *)
Ltac enter1 Hv Hargs Hx :=
  rewrite Hv; simpl; unfold argv, arg, go_index; rewrite Hargs; simpl;
  rewrite Hx; simpl.

Ltac enter2 Hv Hargs Hx Hy :=
  rewrite Hv; simpl; unfold argv, arg, go_index; rewrite Hargs; simpl;
  rewrite Hy; simpl; rewrite Hx; simpl.

Ltac enterSame Hv Hargs Hx :=
  rewrite Hv; simpl; unfold argv, arg, go_index; rewrite Hargs; simpl;
  rewrite Hx; simpl; rewrite ?Hx; simpl.

Ltac leave lem :=
  let f' := fresh "f" in
  let Hr := fresh "Hr" in
  let Hu := fresh "Hu" in
  edestruct lem as (f' & Hr & Hu);
  [..|rewrite Hr; exists f'; split; [reflexivity|exact Hu]].

(** ** Immediates that change nothing, or everything *)

(** X11.  An immediate that is the identity of its op makes the value a
    copy of the operand: 0 for ADDconst (unless the operand is a
    MOVWaddr, which the first rule folds), SUBconst, ORconst and
    XORconst, -1 for ANDconst.  An absorbing immediate makes it a
    constant whatever the operand is: ANDconst [0] gives MOVWconst [0]
    and ORconst [-1] gives MOVWconst [-1]. *)
Theorem immediate_identities (f : Func) (vid : ID) (v x : Value) :
  deref f vid = Ok v → deref f (v_ID x) = Ok x → v_Args v = [v_ID x] →
  (v_AuxInt v = 0 →
   (v_Op x ≠ OpMIPSMOVWaddr →
    ∃ f', rewriteValueMIPS_OpMIPSADDconst f vid = Ok (f', true) ∧
          upd f f' vid (copyOf v x)) ∧
   (∃ f', rewriteValueMIPS_OpMIPSSUBconst f vid = Ok (f', true) ∧
          upd f f' vid (copyOf v x)) ∧
   (∃ f', rewriteValueMIPS_OpMIPSORconst f vid = Ok (f', true) ∧
          upd f f' vid (copyOf v x)) ∧
   (∃ f', rewriteValueMIPS_OpMIPSXORconst f vid = Ok (f', true) ∧
          upd f f' vid (copyOf v x)) ∧
   (∃ f', rewriteValueMIPS_OpMIPSANDconst f vid = Ok (f', true) ∧
          upd f f' vid (rewritten v OpMIPSMOVWconst 0 AuxNil []))) ∧
  (v_AuxInt v = -1 →
   (∃ f', rewriteValueMIPS_OpMIPSANDconst f vid = Ok (f', true) ∧
          upd f f' vid (copyOf v x)) ∧
   (∃ f', rewriteValueMIPS_OpMIPSORconst f vid = Ok (f', true) ∧
          upd f f' vid (rewritten v OpMIPSMOVWconst (-1) AuxNil []))).
Proof.
  intros Hv Hx Hargs. pose proof (look_deref _ _ _ Hv) as Hlv.
  pose proof (deref_is_Some _ _ _ Hx) as Hlx.
  assert (Forall (λ w, is_Some (look f w)) (v_Args (with_Uses v 0))) as Hold.
  { simpl. rewrite Hargs. repeat constructor; done. }
  split; intros Hc.
  - split; [|split; [|split; [|split]]].
    + intros Hop. unfold rewriteValueMIPS_OpMIPSADDconst. enter1 Hv Hargs Hx.
      rewrite (hasOp_false x OpMIPSMOVWaddr) by done.
      rewrite (bool_decide_true _ Hc). simpl.
      leave (rhs_copy f vid (with_Uses v 0) x); done.
    + unfold rewriteValueMIPS_OpMIPSSUBconst. enter1 Hv Hargs Hx.
      rewrite (bool_decide_true _ Hc). simpl.
      leave (rhs_copy f vid (with_Uses v 0) x); done.
    + unfold rewriteValueMIPS_OpMIPSORconst. enter1 Hv Hargs Hx.
      rewrite (bool_decide_true _ Hc). simpl.
      leave (rhs_copy f vid (with_Uses v 0) x); done.
    + unfold rewriteValueMIPS_OpMIPSXORconst. enter1 Hv Hargs Hx.
      rewrite (bool_decide_true _ Hc). simpl.
      leave (rhs_copy f vid (with_Uses v 0) x); done.
    + unfold rewriteValueMIPS_OpMIPSANDconst. enter1 Hv Hargs Hx.
      rewrite (bool_decide_true _ Hc). simpl.
      leave (rhs_const f vid (with_Uses v 0) OpMIPSMOVWconst 0); done.
  - split.
    + unfold rewriteValueMIPS_OpMIPSANDconst. enter1 Hv Hargs Hx.
      rewrite bool_decide_false by lia. rewrite (bool_decide_true _ Hc). simpl.
      leave (rhs_copy f vid (with_Uses v 0) x); done.
    + unfold rewriteValueMIPS_OpMIPSORconst. enter1 Hv Hargs Hx.
      rewrite bool_decide_false by lia. rewrite (bool_decide_true _ Hc). simpl.
      leave (rhs_const f vid (with_Uses v 0) OpMIPSMOVWconst (-1)); done.
Qed.

(** ** Folding over a constant operand *)

Lemma isInt32_int32 x : isInt32 (int32 x).
Proof.
  unfold isInt32, int32.
  pose proof (Z.mod_pos_bound (x + 2 ^ 31) (2 ^ 32) ltac:(lia)). lia.
Qed.

Lemma isInt32_shiftr c :
  isInt32 c ↔ Z.shiftr c 31 = 0 ∨ Z.shiftr c 31 = -1.
Proof.
  unfold isInt32. rewrite Z.shiftr_div_pow2 by lia.
  pose proof (Z.div_mod c (2 ^ 31) ltac:(lia)) as Hdm.
  pose proof (Z.mod_pos_bound c (2 ^ 31) ltac:(lia)) as Hm.
  split.
  - intros Hc. destruct (Z_lt_le_dec c 0).
    + right. nia.
    + left. nia.
  - intros [Hq|Hq]; rewrite Hq in Hdm; lia.
Qed.

Lemma isInt32_land c d : isInt32 c → isInt32 d → isInt32 (Z.land c d).
Proof.
  rewrite !isInt32_shiftr, Z.shiftr_land.
  intros [-> | ->] [-> | ->]; simpl; auto.
Qed.

Lemma isInt32_lor c d : isInt32 c → isInt32 d → isInt32 (Z.lor c d).
Proof.
  rewrite !isInt32_shiftr, Z.shiftr_lor.
  intros [-> | ->] [-> | ->]; simpl; auto.
Qed.

Lemma isInt32_lxor c d : isInt32 c → isInt32 d → isInt32 (Z.lxor c d).
Proof.
  rewrite !isInt32_shiftr, Z.shiftr_lxor.
  intros [-> | ->] [-> | ->]; simpl; auto.
Qed.

Lemma isInt32_lnot c : isInt32 c → isInt32 (Z.lnot c).
Proof. unfold isInt32, Z.lnot. lia. Qed.

Lemma int32_int64 y : int32 (int64 y) = int32 y.
Proof.
  unfold int32, int64. rewrite (Z.mod_eq (y + 2 ^ 63) (2 ^ 64)) by lia.
  set (q := (y + 2 ^ 63) / 2 ^ 64).
  replace (y + 2 ^ 63 - 2 ^ 64 * q - 2 ^ 63 + 2 ^ 31)
    with (y + 2 ^ 31 + (- q * 2 ^ 32) * 2 ^ 32) by lia.
  by rewrite Z.mod_add by lia.
Qed.

(** X12.  The rules of ADDconst, SUBconst, NEG and SLLconst that fold a
    constant operand compute in 32 bits with wrap-around: whatever the
    two numbers are, the value becomes a MOVWconst whose number is a
    sign-extended 32-bit value. *)
Theorem wrapping_folds_stay_int32 (f : Func) (vid : ID) (v x : Value) :
  deref f vid = Ok v → deref f (v_ID x) = Ok x → v_Args v = [v_ID x] →
  v_Op x = OpMIPSMOVWconst →
  let c := v_AuxInt v in
  let d := v_AuxInt x in
  (c ≠ 0 → folds rewriteValueMIPS_OpMIPSADDconst f vid v (int32 (int64 (c + d)))) ∧
  (c ≠ 0 → folds rewriteValueMIPS_OpMIPSSUBconst f vid v (int32 (int64 (d - c)))) ∧
  folds rewriteValueMIPS_OpMIPSNEG f vid v (int32 (int64 (- d))) ∧
  folds rewriteValueMIPS_OpMIPSSLLconst f vid v (int32 (shl32 d c)) ∧
  isInt32 (int32 (int64 (c + d))) ∧ isInt32 (int32 (int64 (d - c))) ∧
  isInt32 (int32 (int64 (- d))) ∧ isInt32 (int32 (shl32 d c)) ∧
  int32 (int64 (c + d)) = int32 (c + d) ∧
  int32 (int64 (d - c)) = int32 (d - c).
Proof.
  intros Hv Hx Hargs Hop c d. pose proof (look_deref _ _ _ Hv) as Hlv.
  assert (Forall (λ w, is_Some (look f w)) (v_Args (with_Uses v 0))) as Hold.
  { simpl. rewrite Hargs. repeat constructor. by eapply deref_is_Some. }
  repeat split; try apply isInt32_int32; try apply int32_int64.
  - intros Hc. unfold folds, rewriteValueMIPS_OpMIPSADDconst.
    enter1 Hv Hargs Hx.
    rewrite (bool_decide_false (v_AuxInt v = 0)) by done.
    unfold hasOp. rewrite !Hop. simpl.
    leave (rhs_const f vid (with_Uses v 0)); done.
  - intros Hc. unfold folds, rewriteValueMIPS_OpMIPSSUBconst.
    enter1 Hv Hargs Hx.
    rewrite (bool_decide_false (v_AuxInt v = 0)) by done.
    unfold hasOp. rewrite !Hop. simpl.
    leave (rhs_const f vid (with_Uses v 0)); done.
  - unfold folds, rewriteValueMIPS_OpMIPSNEG.
    enter1 Hv Hargs Hx. unfold hasOp. rewrite !Hop. simpl.
    leave (rhs_const f vid (with_Uses v 0)); done.
  - unfold folds, rewriteValueMIPS_OpMIPSSLLconst.
    enter1 Hv Hargs Hx. unfold hasOp. rewrite !Hop. simpl.
    leave (rhs_const f vid (with_Uses v 0)); done.
Qed.

(** X13.  The bitwise immediate forms fold a constant operand bit by
    bit, and the result is a sign-extended 32-bit number when the two
    numbers are. *)
Theorem bitwise_folds_keep_int32 (f : Func) (vid : ID) (v x : Value) :
  deref f vid = Ok v → deref f (v_ID x) = Ok x → v_Args v = [v_ID x] →
  v_Op x = OpMIPSMOVWconst →
  let c := v_AuxInt v in
  let d := v_AuxInt x in
  (c ≠ -1 → folds rewriteValueMIPS_OpMIPSANDconst f vid v (Z.land c d)) ∧
  (c ≠ 0 → folds rewriteValueMIPS_OpMIPSORconst f vid v (Z.lor c d)) ∧
  (c ≠ 0 → c ≠ -1 →
   folds rewriteValueMIPS_OpMIPSXORconst f vid v (Z.lxor c d)) ∧
  folds rewriteValueMIPS_OpMIPSNORconst f vid v (Z.lnot (Z.lor c d)) ∧
  (isInt32 c → isInt32 d →
   isInt32 (Z.land c d) ∧ isInt32 (Z.lor c d) ∧ isInt32 (Z.lxor c d) ∧
   isInt32 (Z.lnot (Z.lor c d))).
Proof.
  intros Hv Hx Hargs Hop c d. pose proof (look_deref _ _ _ Hv) as Hlv.
  assert (Forall (λ w, is_Some (look f w)) (v_Args (with_Uses v 0))) as Hold.
  { simpl. rewrite Hargs. repeat constructor. by eapply deref_is_Some. }
  refine (conj _ (conj _ (conj _ (conj _ _)))).
  - intros Hc. unfold folds, rewriteValueMIPS_OpMIPSANDconst.
    enter1 Hv Hargs Hx.
    rewrite (bool_decide_false (v_AuxInt v = -1)) by done.
    unfold hasOp. rewrite !Hop. simpl.
    destruct (decide (v_AuxInt v = 0)) as [H0|H0].
    + rewrite (bool_decide_true _ H0). simpl. subst c d. rewrite H0, Z.land_0_l.
      leave (rhs_const f vid (with_Uses v 0)); done.
    + rewrite (bool_decide_false _ H0). simpl.
      leave (rhs_const f vid (with_Uses v 0)); done.
  - intros Hc. unfold folds, rewriteValueMIPS_OpMIPSORconst.
    enter1 Hv Hargs Hx.
    rewrite (bool_decide_false (v_AuxInt v = 0)) by done.
    unfold hasOp. rewrite !Hop. simpl.
    destruct (decide (v_AuxInt v = -1)) as [H0|H0].
    + rewrite (bool_decide_true _ H0). simpl. subst c d. rewrite H0.
      rewrite Z.lor_m1_l.
      leave (rhs_const f vid (with_Uses v 0)); done.
    + rewrite (bool_decide_false _ H0). simpl.
      leave (rhs_const f vid (with_Uses v 0)); done.
  - intros Hc Hc'. unfold folds, rewriteValueMIPS_OpMIPSXORconst.
    enter1 Hv Hargs Hx.
    rewrite (bool_decide_false (v_AuxInt v = 0)) by done.
    rewrite (bool_decide_false (v_AuxInt v = -1)) by done.
    unfold hasOp. rewrite !Hop. simpl.
    leave (rhs_const f vid (with_Uses v 0)); done.
  - unfold folds, rewriteValueMIPS_OpMIPSNORconst.
    enter1 Hv Hargs Hx. unfold hasOp. rewrite !Hop. simpl.
    leave (rhs_const f vid (with_Uses v 0)); done.
  - intros Hc Hd. split; [|split; [|split]].
    + by apply isInt32_land.
    + by apply isInt32_lor.
    + by apply isInt32_lxor.
    + by apply isInt32_lnot, isInt32_lor.
Qed.

Lemma shr32_range d c : 0 ≤ shr32 d c < 2 ^ 32.
Proof.
  unfold shr32, uint32. case_bool_decide; [|lia].
  pose proof (Z.mod_pos_bound d (2 ^ 32) ltac:(lia)) as Hd.
  pose proof (Z.mod_pos_bound c (2 ^ 32) ltac:(lia)) as Hc.
  rewrite Z.shiftr_div_pow2 by lia.
  assert (0 < 2 ^ (c mod 2 ^ 32)) as Hp by (apply Z.pow_pos_nonneg; lia).
  split; [apply Z.div_pos; lia|].
  apply Z.div_lt_upper_bound; nia.
Qed.

(** X14.  SRLconst over a constant operand folds to the logical shift of
    the low 32 bits, a number from 0 to 2^32 - 1: the constant left is
    zero-extended, so for a count of 0 (mod 2^32) and a negative operand
    it is the operand plus 2^32, which is no sign-extended 32-bit
    number. *)
Theorem SRLconst_fold_zero_extends (f : Func) (vid : ID) (v x : Value) :
  deref f vid = Ok v → deref f (v_ID x) = Ok x → v_Args v = [v_ID x] →
  v_Op x = OpMIPSMOVWconst →
  let c := v_AuxInt v in
  let d := v_AuxInt x in
  folds rewriteValueMIPS_OpMIPSSRLconst f vid v (shr32 d c) ∧
  0 ≤ shr32 d c < 2 ^ 32 ∧
  (uint32 c = 0 → isInt32 d → d < 0 →
   shr32 d c = d + 2 ^ 32 ∧ ¬ isInt32 (shr32 d c)).
Proof.
  intros Hv Hx Hargs Hop c d. pose proof (look_deref _ _ _ Hv) as Hlv.
  assert (Forall (λ w, is_Some (look f w)) (v_Args (with_Uses v 0))) as Hold.
  { simpl. rewrite Hargs. repeat constructor. by eapply deref_is_Some. }
  split; [|split; [apply shr32_range|]].
  - unfold folds, rewriteValueMIPS_OpMIPSSRLconst.
    enter1 Hv Hargs Hx. unfold hasOp. rewrite !Hop. simpl.
    leave (rhs_const f vid (with_Uses v 0)); done.
  - intros Hc Hd Hneg. unfold shr32. rewrite Hc. simpl.
    assert (uint32 d = d + 2 ^ 32) as ->.
    { unfold uint32, isInt32 in *. symmetry. apply Z.mod_unique_pos with (-1); lia. }
    rewrite Z.shiftr_0_r. split; [done|]. unfold isInt32 in *. lia.
Qed.

(** ** One operand twice, and immediates on immediates *)

(** X15.  An op whose two operands are the same value (no constant) needs
    no instruction: SUB and XOR become the constant 0, AND and OR a copy
    of the operand. *)
Theorem same_operand_rules (f : Func) (vid : ID) (v x : Value) :
  deref f vid = Ok v → deref f (v_ID x) = Ok x →
  v_Args v = [v_ID x; v_ID x] → v_Op x ≠ OpMIPSMOVWconst →
  folds rewriteValueMIPS_OpMIPSSUB f vid v 0 ∧
  folds rewriteValueMIPS_OpMIPSXOR f vid v 0 ∧
  rewritesTo rewriteValueMIPS_OpMIPSAND f vid (copyOf v x) ∧
  rewritesTo rewriteValueMIPS_OpMIPSOR f vid (copyOf v x).
Proof.
  intros Hv Hx Hargs Hop. pose proof (look_deref _ _ _ Hv) as Hlv.
  pose proof (deref_is_Some _ _ _ Hx) as Hlx.
  assert (Forall (λ w, is_Some (look f w)) (v_Args (with_Uses v 0))) as Hold.
  { simpl. rewrite Hargs. repeat constructor; done. }
  refine (conj _ (conj _ (conj _ _))).
  - unfold folds, rewriteValueMIPS_OpMIPSSUB. enterSame Hv Hargs Hx.
    rewrite (hasOp_false x OpMIPSMOVWconst) by done.
    rewrite (bool_decide_true (v_ID x = v_ID x)) by done. simpl.
    leave (rhs_const f vid (with_Uses v 0)); done.
  - unfold folds, rewriteValueMIPS_OpMIPSXOR. enterSame Hv Hargs Hx.
    unfold commute. rewrite (hasOp_false x OpMIPSMOVWconst) by done.
    rewrite (bool_decide_true (v_ID x = v_ID x)) by done. simpl.
    leave (rhs_const f vid (with_Uses v 0)); done.
  - unfold rewritesTo, rewriteValueMIPS_OpMIPSAND. enterSame Hv Hargs Hx.
    unfold commute. rewrite (hasOp_false x OpMIPSMOVWconst) by done.
    rewrite (bool_decide_true (v_ID x = v_ID x)) by done. simpl.
    leave (rhs_copy f vid (with_Uses v 0) x); done.
  - unfold rewritesTo, rewriteValueMIPS_OpMIPSOR. enterSame Hv Hargs Hx.
    unfold commute. rewrite (hasOp_false x OpMIPSMOVWconst) by done.
    rewrite (bool_decide_true (v_ID x = v_ID x)) by done. simpl.
    leave (rhs_copy f vid (with_Uses v 0) x); done.
Qed.

Lemma int32_shift x k : int32 (x + k * 2 ^ 64) = int32 x.
Proof.
  unfold int32.
  replace (x + k * 2 ^ 64 + 2 ^ 31) with (x + 2 ^ 31 + (k * 2 ^ 32) * 2 ^ 32)
    by lia.
  by rewrite Z.mod_add by lia.
Qed.

Lemma int64_shift y : ∃ k, int64 y = y + k * 2 ^ 64.
Proof.
  exists (- ((y + 2 ^ 63) / 2 ^ 64)). unfold int64.
  rewrite (Z.mod_eq (y + 2 ^ 63) (2 ^ 64)) by lia. lia.
Qed.

Lemma int32_neg_sub c d : int32 (int64 (int64 (- c) - d)) = int32 (- c - d).
Proof.
  rewrite int32_int64. destruct (int64_shift (- c)) as [k ->].
  replace (- c + k * 2 ^ 64 - d) with (- c - d + k * 2 ^ 64) by lia.
  apply int32_shift.
Qed.

Lemma int32_neg_add c d : int32 (int64 (int64 (- c) + d)) = int32 (d - c).
Proof.
  rewrite int32_int64. destruct (int64_shift (- c)) as [k ->].
  replace (- c + k * 2 ^ 64 + d) with (d - c + k * 2 ^ 64) by lia.
  apply int32_shift.
Qed.

(** X16.  An immediate op applied to the result of an immediate op of
    the same family becomes one immediate op on the inner operand:
    ADDconst and SUBconst in any combination leave an ADDconst whose
    number is the signed sum wrapped to 32 bits, and ANDconst, ORconst and
    XORconst merge their numbers bit by bit. *)
Theorem stacked_immediates_merge (f : Func) (vid : ID) (v y : Value) (z : ID) :
  deref f vid = Ok v → deref f (v_ID y) = Ok y → v_Args v = [v_ID y] →
  v_Args y = [z] → is_Some (look f z) →
  let c := v_AuxInt v in
  let d := v_AuxInt y in
  c ≠ 0 → c ≠ -1 →
  (v_Op y = OpMIPSADDconst →
   rewritesTo rewriteValueMIPS_OpMIPSADDconst f vid
     (rewritten v OpMIPSADDconst (int32 (c + d)) AuxNil [z]) ∧
   rewritesTo rewriteValueMIPS_OpMIPSSUBconst f vid
     (rewritten v OpMIPSADDconst (int32 (d - c)) AuxNil [z])) ∧
  (v_Op y = OpMIPSSUBconst →
   rewritesTo rewriteValueMIPS_OpMIPSADDconst f vid
     (rewritten v OpMIPSADDconst (int32 (c - d)) AuxNil [z]) ∧
   rewritesTo rewriteValueMIPS_OpMIPSSUBconst f vid
     (rewritten v OpMIPSADDconst (int32 (- c - d)) AuxNil [z])) ∧
  (v_Op y = OpMIPSANDconst →
   rewritesTo rewriteValueMIPS_OpMIPSANDconst f vid
     (rewritten v OpMIPSANDconst (Z.land c d) AuxNil [z])) ∧
  (v_Op y = OpMIPSORconst →
   rewritesTo rewriteValueMIPS_OpMIPSORconst f vid
     (rewritten v OpMIPSORconst (Z.lor c d) AuxNil [z])) ∧
  (v_Op y = OpMIPSXORconst →
   rewritesTo rewriteValueMIPS_OpMIPSXORconst f vid
     (rewritten v OpMIPSXORconst (Z.lxor c d) AuxNil [z])).
Proof.
  intros Hv Hy Hargs Hargs' Hz c d Hc Hc'. subst c d.
  pose proof (look_deref _ _ _ Hv) as Hlv.
  assert (Forall (λ w, is_Some (look f w)) (v_Args (with_Uses v 0))) as Hold.
  { simpl. rewrite Hargs. repeat constructor. by eapply deref_is_Some. }
  refine (conj _ (conj _ (conj _ (conj _ _)))); intros Hop; [split|split|..].
  - unfold rewritesTo, rewriteValueMIPS_OpMIPSADDconst.
    enter1 Hv Hargs Hy.
    rewrite (bool_decide_false (v_AuxInt v = 0)) by done.
    unfold hasOp. rewrite !Hop, Hargs'. simpl.
    rewrite int32_int64.
    leave (rhs_imm f vid (with_Uses v 0)); done.
  - unfold rewritesTo, rewriteValueMIPS_OpMIPSSUBconst.
    enter1 Hv Hargs Hy.
    rewrite (bool_decide_false (v_AuxInt v = 0)) by done.
    unfold hasOp. rewrite !Hop, Hargs'. simpl.
    rewrite int32_neg_add.
    leave (rhs_imm f vid (with_Uses v 0)); done.
  - unfold rewritesTo, rewriteValueMIPS_OpMIPSADDconst.
    enter1 Hv Hargs Hy.
    rewrite (bool_decide_false (v_AuxInt v = 0)) by done.
    unfold hasOp. rewrite !Hop, Hargs'. simpl.
    rewrite int32_int64.
    leave (rhs_imm f vid (with_Uses v 0)); done.
  - unfold rewritesTo, rewriteValueMIPS_OpMIPSSUBconst.
    enter1 Hv Hargs Hy.
    rewrite (bool_decide_false (v_AuxInt v = 0)) by done.
    unfold hasOp. rewrite !Hop, Hargs'. simpl.
    rewrite int32_neg_sub.
    leave (rhs_imm f vid (with_Uses v 0)); done.
  - unfold rewritesTo, rewriteValueMIPS_OpMIPSANDconst.
    enter1 Hv Hargs Hy.
    rewrite (bool_decide_false (v_AuxInt v = 0)) by done.
    rewrite (bool_decide_false (v_AuxInt v = -1)) by done.
    unfold hasOp. rewrite !Hop, Hargs'. simpl.
    leave (rhs_imm f vid (with_Uses v 0)); done.
  - unfold rewritesTo, rewriteValueMIPS_OpMIPSORconst.
    enter1 Hv Hargs Hy.
    rewrite (bool_decide_false (v_AuxInt v = 0)) by done.
    rewrite (bool_decide_false (v_AuxInt v = -1)) by done.
    unfold hasOp. rewrite !Hop, Hargs'. simpl.
    leave (rhs_imm f vid (with_Uses v 0)); done.
  - unfold rewritesTo, rewriteValueMIPS_OpMIPSXORconst.
    enter1 Hv Hargs Hy.
    rewrite (bool_decide_false (v_AuxInt v = 0)) by done.
    rewrite (bool_decide_false (v_AuxInt v = -1)) by done.
    unfold hasOp. rewrite !Hop, Hargs'. simpl.
    leave (rhs_imm f vid (with_Uses v 0)); done.
Qed.

(** ** Multiplication by a constant *)

Section Multiply.
Context `{Helpers}.

(** X17.  MUL with a constant operand, on either side: by 0 it is the
    constant 0 whatever the other operand is; by 1 a copy of the other
    operand, by -1 its NEG, and by another power of two (as isPowerOfTwo
    tells of the low 32 bits) a left shift by log2, when the other operand
    is no constant. *)
Theorem MUL_by_constant (swapped : bool) (f : Func) (vid : ID)
    (v x cv : Value) :
  deref f vid = Ok v → deref f (v_ID x) = Ok x → deref f (v_ID cv) = Ok cv →
  v_Args v = (if swapped then [v_ID cv; v_ID x] else [v_ID x; v_ID cv]) →
  v_Op cv = OpMIPSMOVWconst →
  let c := v_AuxInt cv in
  (c = 0 → folds rewriteValueMIPS_OpMIPSMUL f vid v 0) ∧
  (v_Op x ≠ OpMIPSMOVWconst →
   (c = 1 → rewritesTo rewriteValueMIPS_OpMIPSMUL f vid (copyOf v x)) ∧
   (c = -1 →
    rewritesTo rewriteValueMIPS_OpMIPSMUL f vid
      (rewritten v OpMIPSNEG 0 AuxNil [v_ID x])) ∧
   (c ≠ 0 → c ≠ 1 → c ≠ -1 → isPowerOfTwo (uint32 c) = true →
    rewritesTo rewriteValueMIPS_OpMIPSMUL f vid
      (rewritten v OpMIPSSLLconst (log2 (uint32 c)) AuxNil [v_ID x]))).
Proof.
  intros Hv Hx Hcv Hargs Hop c. subst c.
  pose proof (look_deref _ _ _ Hv) as Hlv.
  pose proof (deref_is_Some _ _ _ Hx) as Hlx.
  pose proof (deref_is_Some _ _ _ Hcv) as Hlc.
  assert (Forall (λ w, is_Some (look f w)) (v_Args (with_Uses v 0))) as Hold.
  { simpl. rewrite Hargs. destruct swapped; repeat constructor; done. }
  split; [|intros Hnc; refine (conj _ (conj _ _))].
  - intros Hc. unfold folds, rewriteValueMIPS_OpMIPSMUL.
    destruct (rhs_const f vid (with_Uses v 0) OpMIPSMOVWconst 0 Hlv Hold)
      as (f' & Hr & Hu).
    exists f'. split; [|exact Hu].
    rewrite Hv; simpl; unfold argv, arg, go_index; rewrite Hargs.
    destruct swapped; simpl.
    + destruct (decide (v_ID x = v_ID cv)) as [He|He].
      * rewrite He, Hcv. simpl. unfold commute.
        rewrite (hasOp_true cv) by done.
        rewrite (bool_decide_true _ Hc). simpl. by rewrite Hr.
      * rewrite Hx. simpl. rewrite Hcv. simpl. unfold commute.
        rewrite (hasOp_true cv) by done.
        rewrite (bool_decide_true _ Hc). simpl. by rewrite Hr.
    + destruct (decide (v_ID x = v_ID cv)) as [He|He].
      * rewrite He, Hcv. simpl. unfold commute.
        rewrite (hasOp_true cv) by done.
        rewrite (bool_decide_true _ Hc). simpl. by rewrite Hr.
      * rewrite Hcv. simpl. rewrite Hx. simpl. unfold commute.
        rewrite (hasOp_true cv) by done.
        rewrite (bool_decide_true _ Hc). simpl.
        destruct (negb (hasOp x OpMIPSMOVWconst)
                  || negb (bool_decide (v_AuxInt x = 0))); simpl;
          by rewrite Hr.
  - intros Hc. unfold rewritesTo, rewriteValueMIPS_OpMIPSMUL.
    destruct (rhs_copy f vid (with_Uses v 0) x Hlv Hold Hlx)
      as (f' & Hr & Hu).
    exists f'. split; [|exact Hu].
    assert (v_ID x ≠ v_ID cv) as He by (intros He; rewrite He, Hcv in Hx; congruence).
    rewrite Hv; simpl; unfold argv, arg, go_index; rewrite Hargs.
    destruct swapped; simpl.
    + rewrite Hx. simpl. rewrite Hcv. simpl. unfold commute.
      rewrite (hasOp_true cv), (hasOp_false x) by done.
      rewrite (bool_decide_false (v_AuxInt cv = 0)) by lia.
      rewrite (bool_decide_true _ Hc). simpl. by rewrite Hr.
    + rewrite Hcv. simpl. rewrite Hx. simpl. unfold commute.
      rewrite (hasOp_true cv), (hasOp_false x) by done.
      rewrite (bool_decide_false (v_AuxInt cv = 0)) by lia.
      rewrite (bool_decide_true _ Hc). simpl. by rewrite Hr.
  - intros Hc. unfold rewritesTo, rewriteValueMIPS_OpMIPSMUL.
    destruct (rhs_unary f vid (with_Uses v 0) OpMIPSNEG (v_ID x) Hlv Hold Hlx)
      as (f' & Hr & Hu).
    exists f'. split; [|exact Hu].
    rewrite Hv; simpl; unfold argv, arg, go_index; rewrite Hargs.
    destruct swapped; simpl.
    + rewrite Hx. simpl. rewrite Hcv. simpl. unfold commute.
      rewrite (hasOp_true cv), (hasOp_false x) by done.
      rewrite (bool_decide_false (v_AuxInt cv = 0)) by lia.
      rewrite (bool_decide_false (v_AuxInt cv = 1)) by lia.
      rewrite (bool_decide_true _ Hc). simpl. by rewrite Hr.
    + rewrite Hcv. simpl. rewrite Hx. simpl. unfold commute.
      rewrite (hasOp_true cv), (hasOp_false x) by done.
      rewrite (bool_decide_false (v_AuxInt cv = 0)) by lia.
      rewrite (bool_decide_false (v_AuxInt cv = 1)) by lia.
      rewrite (bool_decide_true _ Hc). simpl. by rewrite Hr.
  - intros Hc0 Hc1 Hcm Hpow. unfold rewritesTo, rewriteValueMIPS_OpMIPSMUL.
    destruct (rhs_imm f vid (with_Uses v 0) OpMIPSSLLconst
                (log2 (uint32 (v_AuxInt cv))) (v_ID x) Hlv Hold Hlx)
      as (f' & Hr & Hu).
    exists f'. split; [|exact Hu].
    rewrite Hv; simpl; unfold argv, arg, go_index; rewrite Hargs.
    destruct swapped; simpl.
    + rewrite Hx. simpl. rewrite Hcv. simpl. unfold commute.
      rewrite (hasOp_true cv), (hasOp_false x) by done.
      rewrite (bool_decide_false (v_AuxInt cv = 0)) by lia.
      rewrite (bool_decide_false (v_AuxInt cv = 1)) by lia.
      rewrite (bool_decide_false (v_AuxInt cv = -1)) by lia.
      rewrite Hpow. simpl. by rewrite Hr.
    + rewrite Hcv. simpl. rewrite Hx. simpl. unfold commute.
      rewrite (hasOp_true cv), (hasOp_false x) by done.
      rewrite (bool_decide_false (v_AuxInt cv = 0)) by lia.
      rewrite (bool_decide_false (v_AuxInt cv = 1)) by lia.
      rewrite (bool_decide_false (v_AuxInt cv = -1)) by lia.
      rewrite Hpow. simpl. by rewrite Hr.
Qed.

Lemma int32_uint32 z : int32 (uint32 z) = int32 z.
Proof.
  unfold int32, uint32. rewrite (Z.mod_eq z (2 ^ 32)) by lia.
  replace (z - 2 ^ 32 * (z / 2 ^ 32) + 2 ^ 31)
    with (z + 2 ^ 31 + (- (z / 2 ^ 32)) * 2 ^ 32) by lia.
  by rewrite Z.mod_add by lia.
Qed.

(** X18.  Select1 and Select0 of a MULTU of two constants (neither 0, 1,
    -1 nor a power of two) fold to constants.  Select1 gets the low word
    of the unsigned product, sign-extended.  Select0 gets the signed
    64-bit product of the two numbers as they are stored, shifted right
    by 32: for sign-extended 32-bit numbers that is the floor of c*d /
    2^32, which is the high word of the unsigned product when both are
    non-negative and is negative when the two have opposite signs. *)
Theorem select_MULTU_constants (f : Func) (vid : ID) (v t x y : Value) :
  deref f vid = Ok v → v_Args v = [v_ID t] →
  deref f (v_ID t) = Ok t → v_Op t = OpMIPSMULTU →
  v_Args t = [v_ID x; v_ID y] →
  deref f (v_ID x) = Ok x → deref f (v_ID y) = Ok y →
  v_Op x = OpMIPSMOVWconst → v_Op y = OpMIPSMOVWconst →
  let c := v_AuxInt x in
  let d := v_AuxInt y in
  c ≠ 0 → c ≠ 1 → c ≠ -1 → d ≠ 0 → d ≠ 1 → d ≠ -1 →
  isPowerOfTwo (uint32 c) = false → isPowerOfTwo (uint32 d) = false →
  folds rewriteValueMIPS_OpSelect1 f vid v (int32 (uint32 c * uint32 d)) ∧
  folds rewriteValueMIPS_OpSelect0 f vid v (Z.shiftr (int64 (c * d)) 32) ∧
  (isInt32 c → isInt32 d →
   Z.shiftr (int64 (c * d)) 32 = (c * d) / 2 ^ 32 ∧
   (0 ≤ c → 0 ≤ d → (c * d) / 2 ^ 32 = (uint32 c * uint32 d) / 2 ^ 32) ∧
   (c * d < 0 → (c * d) / 2 ^ 32 < 0)).
Proof.
  intros Hv Hargs Ht Hopt Hargst Hx Hy Hopx Hopy c d Hc0 Hc1 Hcm Hd0 Hd1 Hdm
    Hpc Hpd. subst c d.
  pose proof (look_deref _ _ _ Hv) as Hlv.
  assert (Forall (λ w, is_Some (look f w)) (v_Args (with_Uses v 0))) as Hold.
  { simpl. rewrite Hargs. repeat constructor. by eapply deref_is_Some. }
  assert (isInt32 (v_AuxInt x) → isInt32 (v_AuxInt y) →
          int64 (v_AuxInt x * v_AuxInt y) = v_AuxInt x * v_AuxInt y) as H64.
  { unfold isInt32, int64. intros Hc Hd.
    rewrite Z.mod_small; [lia|]. nia. }
  refine (conj _ (conj _ _)).
  - unfold folds, rewriteValueMIPS_OpSelect1. enter1 Hv Hargs Ht.
    unfold multuConst, hasOp. rewrite !Hopt. simpl.
    unfold argv, arg, go_index. rewrite Hargst. simpl.
    rewrite Hx. simpl. rewrite ?Hx, ?Hy. simpl.
    unfold commute. rewrite !Hopx, !Hopy. simpl.
    rewrite (bool_decide_false (v_AuxInt x = 0)),
      (bool_decide_false (v_AuxInt x = 1)),
      (bool_decide_false (v_AuxInt x = -1)),
      (bool_decide_false (v_AuxInt y = 0)),
      (bool_decide_false (v_AuxInt y = 1)),
      (bool_decide_false (v_AuxInt y = -1)) by done.
    rewrite Hpc, Hpd. simpl. rewrite int32_uint32.
    leave (rhs_const f vid (with_Uses v 0)); done.
  - unfold folds, rewriteValueMIPS_OpSelect0. enter1 Hv Hargs Ht.
    unfold multuConst, hasOp. rewrite !Hopt. simpl.
    unfold argv, arg, go_index. rewrite Hargst. simpl.
    rewrite Hx. simpl. rewrite ?Hx, ?Hy. simpl.
    unfold commute. rewrite !Hopx, !Hopy. simpl.
    rewrite (bool_decide_false (v_AuxInt x = 0)),
      (bool_decide_false (v_AuxInt x = 1)),
      (bool_decide_false (v_AuxInt x = -1)),
      (bool_decide_false (v_AuxInt y = 0)),
      (bool_decide_false (v_AuxInt y = 1)),
      (bool_decide_false (v_AuxInt y = -1)) by done.
    rewrite Hpc, Hpd. simpl.
    leave (rhs_const f vid (with_Uses v 0)); done.
  - intros Hc Hd. rewrite (H64 Hc Hd), Z.shiftr_div_pow2 by lia.
    refine (conj eq_refl (conj _ _)).
    + intros Hc' Hd'. unfold uint32, isInt32 in *.
      rewrite !Z.mod_small by lia. done.
    + intros Hneg. apply Z.div_lt_upper_bound; lia.
Qed.

Lemma int32_id z : isInt32 z → int32 z = z.
Proof. unfold isInt32, int32. intros Hz. rewrite Z.mod_small; lia. Qed.

Lemma rem_int32 c d : isInt32 c → d ≠ 0 → isInt32 (Z.rem c d).
Proof.
  unfold isInt32. intros Hc Hd.
  pose proof (Z.rem_sign_mul c d Hd) as Hs.
  pose proof (Z.quot_rem' c d) as Hqr.
  pose proof (Z.rem_bound_abs c d Hd) as Hb.
  pose proof (Z.quot_abs c d Hd) as Hqa.
  pose proof (Z.rem_abs c d Hd) as Hra.
  assert (Z.abs (Z.rem c d) ≤ Z.abs c) as Hle.
  { rewrite <- Hra. apply Z.rem_le; lia. }
  lia.
Qed.

Lemma quot_int32 c d :
  isInt32 c → d ≠ 0 → ¬ (c = - 2 ^ 31 ∧ d = -1) → isInt32 (Z.quot c d).
Proof.
  unfold isInt32. intros Hc Hd Hn.
  destruct (decide (d = 1)) as [->|H1]; [rewrite Z.quot_1_r; lia|].
  destruct (decide (d = -1)) as [->|Hm].
  { change (-1) with (- (1)). rewrite Z.quot_opp_r, Z.quot_1_r by lia. lia. }
  pose proof (Z.quot_abs c d Hd) as Hqa.
  assert (Z.abs c ÷ Z.abs d ≤ Z.abs c ÷ 2) as Hle.
  { apply Z.quot_le_compat_l; lia. }
  assert (Z.abs c ÷ 2 ≤ 2 ^ 30) as Hle'.
  { rewrite Z.quot_div_nonneg by lia. apply Z.div_le_upper_bound; lia. }
  lia.
Qed.

(** The right-hand side of the division rules: the value is reset before
    the quotient is computed. *)
Lemma rhs_const_late f vid v op :
  look f vid = Some v →
  Forall (λ w, is_Some (look f w)) (v_Args v) →
  ∃ f1, reset f vid op = Ok f1 ∧
    ∀ c, ∃ f', (f ← setAuxInt f1 vid c; fired f) = Ok (Some f') ∧
               upd f f' vid (rewritten v op c AuxNil []).
Proof.
  intros Hv Hold. pose proof (look_ID _ _ _ Hv) as Hid.
  destruct (reset_upd f vid v op Hv Hold) as (f1 & -> & H1).
  exists f1. split; [done|]. intros c.
  destruct (setAuxInt_upd f1 vid _ c (upd_look _ _ _ _ H1)) as (f2 & -> & H2).
  simpl. eexists; split; [done|].
  eapply upd_upd; [exact H1|]. unfold rewritten. rewrite Hid. exact H2.
Qed.

(** X19.  Select1 and Select0 of a division of two constants by a divisor
    that is not zero fold to the quotient and the remainder.  For DIV the
    two are taken of the sign-extended low words, truncating toward zero:
    dividend = divisor * q + r with r never wrapped, and q wraps only for
    MinInt32 / -1, which gives MinInt32.  For DIVU they are those of the
    zero-extended low words. *)
Theorem select_DIV_constants (f : Func) (vid : ID) (v t x y : Value) :
  deref f vid = Ok v → v_Args v = [v_ID t] →
  deref f (v_ID t) = Ok t → v_Args t = [v_ID x; v_ID y] →
  deref f (v_ID x) = Ok x → deref f (v_ID y) = Ok y →
  v_Op x = OpMIPSMOVWconst → v_Op y = OpMIPSMOVWconst →
  (v_Op t = OpMIPSDIV →
   let c := int32 (v_AuxInt x) in
   let d := int32 (v_AuxInt y) in
   d ≠ 0 →
   folds rewriteValueMIPS_OpSelect1 f vid v (int32 (Z.quot c d)) ∧
   folds rewriteValueMIPS_OpSelect0 f vid v (Z.rem c d) ∧
   c = d * Z.quot c d + Z.rem c d ∧
   (¬ (c = - 2 ^ 31 ∧ d = -1) → int32 (Z.quot c d) = Z.quot c d) ∧
   (c = - 2 ^ 31 → d = -1 → int32 (Z.quot c d) = - 2 ^ 31 ∧ Z.rem c d = 0)) ∧
  (v_Op t = OpMIPSDIVU →
   let c := uint32 (v_AuxInt x) in
   let d := uint32 (v_AuxInt y) in
   d ≠ 0 →
   folds rewriteValueMIPS_OpSelect1 f vid v (int32 (c / d)) ∧
   folds rewriteValueMIPS_OpSelect0 f vid v (int32 (c mod d)) ∧
   c = d * (c / d) + c mod d ∧ 0 ≤ c mod d < d).
Proof.
  intros Hv Hargs Ht Hargst Hx Hy Hopx Hopy.
  pose proof (look_deref _ _ _ Hv) as Hlv.
  assert (Forall (λ w, is_Some (look f w)) (v_Args (with_Uses v 0))) as Hold.
  { simpl. rewrite Hargs. repeat constructor. by eapply deref_is_Some. }
  destruct (rhs_const_late f vid (with_Uses v 0) OpMIPSMOVWconst Hlv Hold)
    as (f1 & Hreset & Hset).
  split; intros Hopt c d Hd.
  - pose proof (isInt32_int32 (v_AuxInt x)) as Hc32. fold c in Hc32.
    refine (conj _ (conj _ (conj _ (conj _ _)))).
    + unfold folds, rewriteValueMIPS_OpSelect1. enter1 Hv Hargs Ht.
      unfold multuConst, hasOp. rewrite !Hopt. simpl.
      unfold argv, arg, go_index. rewrite Hargst. simpl.
      rewrite Hx. simpl. rewrite Hopx. simpl. rewrite Hy. simpl.
      rewrite Hopy. simpl. rewrite Hreset. simpl.
      unfold div32. fold c d. rewrite (bool_decide_false _ Hd). simpl.
      destruct (Hset (int32 (Z.quot c d))) as (f' & Hr & Hu).
      rewrite Hr. by exists f'.
    + unfold folds, rewriteValueMIPS_OpSelect0. enter1 Hv Hargs Ht.
      unfold multuConst, hasOp. rewrite !Hopt. simpl.
      unfold argv, arg, go_index. rewrite Hargst. simpl.
      rewrite Hx. simpl. rewrite Hopx. simpl. rewrite Hy. simpl.
      rewrite Hopy. simpl. rewrite Hreset. simpl.
      unfold mod32. fold c d. rewrite (bool_decide_false _ Hd). simpl.
      rewrite (int32_id (Z.rem c d)) by (by apply rem_int32).
      destruct (Hset (Z.rem c d)) as (f' & Hr & Hu).
      rewrite Hr. by exists f'.
    + apply Z.quot_rem'.
    + intros Hn. apply int32_id, quot_int32; done.
    + intros -> ->. split; reflexivity.
  - refine (conj _ (conj _ (conj _ _))).
    + unfold folds, rewriteValueMIPS_OpSelect1. enter1 Hv Hargs Ht.
      unfold multuConst, hasOp. rewrite !Hopt. simpl.
      unfold argv, arg, go_index. rewrite Hargst. simpl.
      rewrite Hx. simpl. rewrite Hopx. simpl. rewrite Hy. simpl.
      rewrite Hopy. simpl. rewrite Hreset. simpl.
      unfold divu32. fold c d. rewrite (bool_decide_false _ Hd). simpl.
      destruct (Hset (int32 (c / d))) as (f' & Hr & Hu).
      rewrite Hr. by exists f'.
    + unfold folds, rewriteValueMIPS_OpSelect0. enter1 Hv Hargs Ht.
      unfold multuConst, hasOp. rewrite !Hopt. simpl.
      unfold argv, arg, go_index. rewrite Hargst. simpl.
      rewrite Hx. simpl. rewrite Hopx. simpl. rewrite Hy. simpl.
      rewrite Hopy. simpl. rewrite Hreset. simpl.
      unfold modu32. fold c d. rewrite (bool_decide_false _ Hd). simpl.
      destruct (Hset (int32 (c mod d))) as (f' & Hr & Hu).
      rewrite Hr. by exists f'.
    + apply Z.div_mod. done.
    + apply Z.mod_pos_bound. unfold d, uint32 in *.
      pose proof (Z.mod_pos_bound (v_AuxInt y) (2 ^ 32) ltac:(lia)). lia.
Qed.

End Multiply.

(** ** Comparisons with zero *)

(** X20.  A comparison with zero is decided when its operand is a
    constant: SGTzero becomes the constant 1 when the low 32 bits are a
    positive signed number and 0 otherwise, SGTUzero the constant 1 when
    the low 32 bits are not all zero and 0 otherwise.  SGT and SGTU of a
    value that is no constant and the constant 0 become SGTzero and
    SGTUzero of that value. *)
Theorem comparisons_with_zero (f : Func) (vid : ID) (v x : Value) :
  deref f vid = Ok v → deref f (v_ID x) = Ok x →
  (v_Args v = [v_ID x] → v_Op x = OpMIPSMOVWconst →
   folds rewriteValueMIPS_OpMIPSSGTzero f vid v
     (if bool_decide (0 < int32 (v_AuxInt x)) then 1 else 0) ∧
   folds rewriteValueMIPS_OpMIPSSGTUzero f vid v
     (if bool_decide (uint32 (v_AuxInt x) = 0) then 0 else 1)) ∧
  (∀ z, v_Args v = [v_ID x; v_ID z] → deref f (v_ID z) = Ok z →
        v_Op x ≠ OpMIPSMOVWconst → v_Op z = OpMIPSMOVWconst →
        v_AuxInt z = 0 →
   rewritesTo rewriteValueMIPS_OpMIPSSGT f vid
     (rewritten v OpMIPSSGTzero 0 AuxNil [v_ID x]) ∧
   rewritesTo rewriteValueMIPS_OpMIPSSGTU f vid
     (rewritten v OpMIPSSGTUzero 0 AuxNil [v_ID x])).
Proof.
  intros Hv Hx. pose proof (look_deref _ _ _ Hv) as Hlv.
  pose proof (deref_is_Some _ _ _ Hx) as Hlx.
  split.
  - intros Hargs Hop.
    assert (Forall (λ w, is_Some (look f w)) (v_Args (with_Uses v 0))) as Hold.
    { simpl. rewrite Hargs. repeat constructor; done. }
    split.
    + unfold folds, rewriteValueMIPS_OpMIPSSGTzero. enter1 Hv Hargs Hx.
      unfold hasOp. rewrite !Hop. simpl.
      destruct (decide (0 < int32 (v_AuxInt x))) as [Hd|Hd].
      * rewrite (bool_decide_true (int32 (v_AuxInt x) > 0)) by lia.
        rewrite (bool_decide_true _ Hd). simpl.
        leave (rhs_const f vid (with_Uses v 0)); done.
      * rewrite (bool_decide_false (int32 (v_AuxInt x) > 0)) by lia.
        rewrite (bool_decide_true (int32 (v_AuxInt x) <= 0)) by lia.
        rewrite (bool_decide_false _ Hd). simpl.
        leave (rhs_const f vid (with_Uses v 0)); done.
    + unfold folds, rewriteValueMIPS_OpMIPSSGTUzero. enter1 Hv Hargs Hx.
      unfold hasOp. rewrite !Hop. simpl.
      destruct (decide (uint32 (v_AuxInt x) = 0)) as [Hd|Hd].
      * rewrite (bool_decide_false (uint32 (v_AuxInt x) ≠ 0)) by tauto.
        rewrite (bool_decide_true _ Hd). simpl.
        leave (rhs_const f vid (with_Uses v 0)); done.
      * rewrite (bool_decide_true (uint32 (v_AuxInt x) ≠ 0)) by done.
        rewrite (bool_decide_false _ Hd). simpl.
        leave (rhs_const f vid (with_Uses v 0)); done.
  - intros z Hargs Hz Hopx Hopz Hz0.
    assert (Forall (λ w, is_Some (look f w)) (v_Args (with_Uses v 0))) as Hold.
    { simpl. rewrite Hargs. repeat constructor; [done|].
      by eapply deref_is_Some. }
    split.
    + unfold rewritesTo, rewriteValueMIPS_OpMIPSSGT. enter2 Hv Hargs Hx Hz.
      rewrite (hasOp_false x), (hasOp_true z) by done.
      rewrite (bool_decide_true _ Hz0). simpl.
      leave (rhs_unary f vid (with_Uses v 0)); done.
    + unfold rewritesTo, rewriteValueMIPS_OpMIPSSGTU. enter2 Hv Hargs Hx Hz.
      rewrite (hasOp_false x), (hasOp_true z) by done.
      rewrite (bool_decide_true _ Hz0). simpl.
      leave (rhs_unary f vid (with_Uses v 0)); done.
Qed.

(** ** Blocks that test the sign of a constant *)

Lemma constRule_nomatch f bid v_0 cond swap :
  cond (v_AuxInt v_0) = false → constRule f bid v_0 cond swap = nomatch.
Proof.
  intros Hc. unfold constRule. destruct (hasOp v_0 OpMIPSMOVWconst); [|done].
  simpl. by rewrite Hc.
Qed.

(** X21.  A GEZ, GTZ, LEZ or LTZ block whose control is a constant
    becomes a First block without control: its successors stay as they
    are when the low 32 bits of the constant, as a signed number, pass
    the test of the kind, and are exchanged when they do not. *)
Theorem sign_test_on_constant (f : Func) (bid : ID) (b : Block) (c : Value)
    (taken : bool) (yes no : ID) :
  derefBlock f bid = Ok b →
  b_Controls b = [v_ID c] → deref f (v_ID c) = Ok c →
  v_Op c = OpMIPSMOVWconst → b_Succs b = [yes; no] →
  signTest (b_Kind b) (v_AuxInt c) = Some taken →
  ∃ f', rewriteBlockMIPS f bid = Ok (f', true) ∧ same f f' ∧
        derefBlock f' bid =
          Ok (mkBlock bid BlockFirst (b_Values b)
                (if taken then [yes; no] else [no; yes]) []).
Proof.
  intros Hb Hctl Hc Hop Hsucc Htest.
  assert (Forall (λ w, is_Some (look f w)) (b_Controls b)) as Hall.
  { rewrite Hctl. repeat constructor. by eapply deref_is_Some. }
  assert (control0 f b = Ok c) as Hc0.
  { unfold control0. by rewrite Hctl. }
  assert (∀ cond1 cond2 : Z → bool,
            cond1 (v_AuxInt c) = taken → cond2 (v_AuxInt c) = negb taken →
            ∃ f', finish f (constRule f bid c cond1 false
                            <||> constRule f bid c cond2 true) = Ok (f', true) ∧
                  same f f' ∧
                  derefBlock f' bid =
                    Ok (mkBlock bid BlockFirst (b_Values b)
                          (if taken then [yes; no] else [no; yes]) [])) as Hpair.
  { intros cond1 cond2 H1 H2. destruct taken; simpl in H2.
    - destruct (constRule_spec f bid b c cond1 yes no false Hb Hall Hop H1 Hsucc)
        as (f' & -> & Hs & Hb').
      by exists f'.
    - rewrite (constRule_nomatch f bid c cond1 false H1), orElse_nomatch_l.
      destruct (constRule_spec f bid b c cond2 yes no true Hb Hall Hop H2 Hsucc)
        as (f' & -> & Hs & Hb').
      by exists f'. }
  unfold rewriteBlockMIPS. rewrite Hb. simpl.
  destruct (b_Kind b); simpl in Htest; try discriminate;
    injection Htest as <-; rewrite Hc0; simpl; apply Hpair;
    repeat case_bool_decide; simpl; try reflexivity; lia.
Qed.

(** ** EQ and NE blocks are rewritten as mirror images *)

Lemma setBlock_setBlock f i k1 v1 s1 c1 k2 v2 s2 c2 :
  setBlock (setBlock f (mkBlock i k1 v1 s1 c1)) (mkBlock i k2 v2 s2 c2)
  = setBlock f (mkBlock i k2 v2 s2 c2).
Proof. unfold setBlock. simpl. by rewrite insert_insert_eq. Qed.

Lemma addUses_setBlock d f b w :
  addUses d (setBlock f b) w = (f1 ← addUses d f w; Ok (setBlock f1 b)).
Proof.
  unfold addUses. change (deref (setBlock f b) w) with (deref f w).
  by destruct (deref f w).
Qed.

Lemma foldlM_addUses_setBlock d l : ∀ f b,
  foldlM (addUses d) l (setBlock f b)
  = (f1 ← foldlM (addUses d) l f; Ok (setBlock f1 b)).
Proof.
  induction l as [|w l IH]; intros f b; simpl; [done|].
  rewrite addUses_setBlock. destruct (addUses d f w) as [f1|]; simpl; [|done].
  apply IH.
Qed.

Lemma derefBlock_setBlock_at f i k v s c :
  derefBlock (setBlock f (mkBlock i k v s c)) i = Ok (mkBlock i k v s c).
Proof. apply (derefBlock_setBlock f (mkBlock i k v s c)). Qed.

(** [Reset] does not look at the kind that it overwrites. *)
Lemma blockReset_opposite f bid b k :
  derefBlock f bid = Ok b → b_Kind b ≠ BlockFirst →
  blockReset (setBlock f (opposite b)) bid k = blockReset f bid k.
Proof.
  intros Hb Hk. pose proof (derefBlock_ID _ _ _ Hb) as Hid.
  unfold blockReset. rewrite Hb. unfold opposite.
  rewrite (bool_decide_false _ Hk), Hid, derefBlock_setBlock_at. simpl.
  rewrite foldlM_addUses_setBlock.
  destruct (foldlM (addUses (-1)) (b_Controls b) f) as [f1|]; simpl; [|done].
  by rewrite setBlock_setBlock, Hid.
Qed.

Lemma mirror_orElse bid r1 r1' r2 r2' :
  mirror bid r1 r1' → mirror bid r2 r2' →
  mirror bid (r1 <||> r2) (r1' <||> r2').
Proof.
  destruct r1 as [[f1|]|e]; simpl.
  - intros (b1 & Hb1 & ->) _. simpl. by exists b1.
  - by intros -> ?.
  - by intros -> _.
Qed.

Lemma mirror_bind {A} bid (m : result A) (k k' : A → rule) :
  (∀ x, mirror bid (k x) (k' x)) → mirror bid (m ≫= k) (m ≫= k').
Proof. intros Hk. destruct m; simpl; [apply Hk|done]. Qed.

Lemma mirror_guard bid (c : bool) r r' :
  mirror bid r r' →
  mirror bid (if c then nomatch else r) (if c then nomatch else r').
Proof. by destruct c. Qed.

(** The same retargeting to the two kinds of a pair. *)
Lemma retarget_mirror f bid k c :
  k ≠ BlockFirst → mirror bid (retarget f bid k c) (retarget f bid (negKind k) c).
Proof.
  intros Hk. unfold retarget, blockReset.
  destruct (derefBlock f bid) as [b|] eqn:Hb; simpl; [|done].
  pose proof (derefBlock_ID _ _ _ Hb) as Hid. rewrite Hid.
  destruct (foldlM (addUses (-1)) (b_Controls b) f) as [f1|]; simpl; [|done].
  unfold AddControl. rewrite !derefBlock_setBlock_at. simpl.
  rewrite !addUses_setBlock.
  destruct (addUses 1 f1 c) as [f2|]; simpl; [|done].
  eexists. split; [apply derefBlock_setBlock_at|].
  rewrite !setBlock_setBlock. unfold opposite. simpl.
  rewrite (bool_decide_false _ Hk), setBlock_setBlock. done.
Qed.

(** The same constant rule with and without the exchange of the
    successors. *)
Lemma constRule_mirror f bid b v_0 cond (swap : bool) :
  derefBlock f bid = Ok b → length (b_Succs b) = 2%nat →
  mirror bid (constRule f bid v_0 cond swap)
             (constRule f bid v_0 cond (negb swap)).
Proof.
  intros Hb Hlen. pose proof (derefBlock_ID _ _ _ Hb) as Hid.
  unfold constRule. apply mirror_guard. apply mirror_guard.
  unfold blockReset. rewrite Hb. simpl. rewrite Hid.
  destruct (foldlM (addUses (-1)) (b_Controls b) f) as [f1|]; simpl; [|done].
  destruct (b_Succs b) as [|s0 [|s1 [|]]] eqn:Hs; try done.
  destruct swap; simpl; unfold swapSuccessors;
    rewrite derefBlock_setBlock_at; simpl.
  - eexists. split; [apply derefBlock_setBlock_at|].
    unfold opposite. simpl. by rewrite !setBlock_setBlock.
  - eexists. split; [reflexivity|].
    unfold opposite. simpl. by rewrite !setBlock_setBlock.
Qed.

Section Mirror.
Variables (f : Func) (bid : ID) (b : Block).
Hypothesis Hb : derefBlock f bid = Ok b.
Hypothesis Hkind : b_Kind b ≠ BlockFirst.
Hypothesis Hlen : length (b_Succs b) = 2%nat.

Lemma retarget_opposite k c :
  k ≠ BlockFirst →
  mirror bid (retarget f bid k c)
             (retarget (setBlock f (opposite b)) bid (negKind k) c).
Proof.
  intros Hk.
  assert (retarget (setBlock f (opposite b)) bid (negKind k) c
          = retarget f bid (negKind k) c) as ->.
  { unfold retarget. by rewrite blockReset_opposite. }
  by apply retarget_mirror.
Qed.

Lemma fpFlagRule_opposite v_0 op k :
  k ≠ BlockFirst →
  mirror bid (fpFlagRule f bid v_0 op k)
             (fpFlagRule (setBlock f (opposite b)) bid v_0 op (negKind k)).
Proof.
  intros Hk. unfold fpFlagRule. apply mirror_guard, mirror_bind.
  intros cmp. by apply retarget_opposite.
Qed.

Lemma xorconstRule_opposite v_0 op two k :
  k ≠ BlockFirst →
  mirror bid (xorconstRule f bid v_0 op two k)
             (xorconstRule (setBlock f (opposite b)) bid v_0 op two (negKind k)).
Proof.
  intros Hk. unfold xorconstRule. apply mirror_guard, mirror_guard.
  change (argv (setBlock f (opposite b)) v_0 0) with (argv f v_0 0).
  apply mirror_bind. intros cmp. apply mirror_guard, mirror_bind.
  intros _. by apply retarget_opposite.
Qed.

Lemma cmpRule_opposite v_0 op c k :
  k ≠ BlockFirst →
  mirror bid (cmpRule f bid v_0 op c k)
             (cmpRule (setBlock f (opposite b)) bid v_0 op c (negKind k)).
Proof.
  intros Hk. unfold cmpRule. apply mirror_guard, mirror_guard, mirror_bind.
  intros x. by apply retarget_opposite.
Qed.

Lemma constRule_opposite v_0 cond (swap : bool) :
  mirror bid (constRule f bid v_0 cond swap)
             (constRule (setBlock f (opposite b)) bid v_0 cond (negb swap)).
Proof.
  assert (constRule (setBlock f (opposite b)) bid v_0 cond (negb swap)
          = constRule f bid v_0 cond (negb swap)) as ->.
  { unfold constRule. by rewrite blockReset_opposite. }
  by eapply constRule_mirror.
Qed.

Lemma finish_mirror r r' :
  mirror bid r r' →
  match finish f r with
  | Ok (f', ch) =>
      ∃ b', derefBlock f' bid = Ok b' ∧
            finish (setBlock f (opposite b)) r'
            = Ok (setBlock f' (opposite b'), ch)
  | Fail e => finish (setBlock f (opposite b)) r' = Fail e
  end.
Proof.
  destruct r as [[f1|]|e]; simpl.
  - intros (b1 & Hb1 & ->). by exists b1.
  - intros ->. by exists b.
  - by intros ->.
Qed.

End Mirror.

(** X22.  An EQ block and an NE block on the same control are rewritten
    as mirror images.  Take a two-way EQ or NE block and the block of the
    other kind in its place: where rewriteBlockMIPS stops on the one with
    an error, leaves it alone or rewrites it, it does the same on the
    other, and the two results differ only in that the rewritten blocks
    branch the opposite way (EQ for NE, GEZ for LTZ, LEZ for GTZ, FPF for
    FPT, and for a First block the other successor first). *)
Theorem EQ_and_NE_mirror (f : Func) (bid : ID) (b : Block) :
  derefBlock f bid = Ok b →
  b_Kind b = BlockMIPSEQ ∨ b_Kind b = BlockMIPSNE →
  length (b_Succs b) = 2%nat →
  match rewriteBlockMIPS f bid with
  | Ok (f', ch) =>
      ∃ b', derefBlock f' bid = Ok b' ∧
            rewriteBlockMIPS (setBlock f (opposite b)) bid
            = Ok (setBlock f' (opposite b'), ch)
  | Fail e => rewriteBlockMIPS (setBlock f (opposite b)) bid = Fail e
  end.
Proof.
  intros Hb Hk Hlen. pose proof (derefBlock_ID _ _ _ Hb) as Hid.
  assert (b_Kind b ≠ BlockFirst) as Hnf by (destruct Hk as [-> | ->]; done).
  assert (derefBlock (setBlock f (opposite b)) bid = Ok (opposite b)) as Hb'.
  { rewrite <- Hid. apply (derefBlock_setBlock f (opposite b)). }
  unfold rewriteBlockMIPS. rewrite Hb, Hb'. simpl.
  change (control0 (setBlock f (opposite b)) (opposite b))
    with (control0 f b).
  destruct Hk as [Hk|Hk]; rewrite Hk; simpl;
    (destruct (control0 f b) as [v_0|]; simpl; [|done]);
    apply (finish_mirror f bid b Hb);
    repeat apply mirror_orElse;
    first [ by apply (fpFlagRule_opposite f bid b Hb Hnf)
          | by apply (xorconstRule_opposite f bid b Hb Hnf)
          | by apply (cmpRule_opposite f bid b Hb Hnf)
          | by apply (constRule_opposite f bid b Hb Hnf Hlen) ].
Qed.

(** ** Loads from a symbol's address, and loads after a store *)

Section MoreLoads.
Context `{Helpers}.

(** X23.  MOVWload from a MOVWaddr folds the address into the load when
    [canMergeSym] lets the two symbols merge, whatever the size of the
    displacement (it is the 64-bit sum, with no 16-bit test); when the
    symbols do not merge and the memory operand is no MOVWstore, the load
    stays as it is. *)
Theorem MOVWload_merges_MOVWaddr (f : Func) (vid : ID) (v p mem : Value)
    (ptr : ID) :
  deref f vid = Ok v → v_Args v = [v_ID p; v_ID mem] →
  deref f (v_ID p) = Ok p → deref f (v_ID mem) = Ok mem →
  v_Op p = OpMIPSMOVWaddr → v_Args p = [ptr] → is_Some (look f ptr) →
  (canMergeSym (v_Aux v) (v_Aux p) = true →
   rewritesTo rewriteValueMIPS_OpMIPSMOVWload f vid
     (rewritten v OpMIPSMOVWload (int64 (v_AuxInt v + v_AuxInt p))
                (mergeSym (v_Aux v) (v_Aux p)) [ptr; v_ID mem])) ∧
  (canMergeSym (v_Aux v) (v_Aux p) = false → v_Op mem ≠ OpMIPSMOVWstore →
   rewriteValueMIPS_OpMIPSMOVWload f vid = Ok (f, false)).
Proof.
  intros Hv Hargs Hp Hmem Hop Hargs' Hptr.
  pose proof (look_deref _ _ _ Hv) as Hlv.
  assert (Forall (λ w, is_Some (look f w)) (v_Args (with_Uses v 0))) as Hold.
  { simpl. rewrite Hargs. repeat constructor; by eapply deref_is_Some. }
  split.
  - intros Hmerge. unfold rewritesTo, rewriteValueMIPS_OpMIPSMOVWload.
    rewrite Hv; simpl; unfold argv, arg, go_index; rewrite Hargs; simpl.
    rewrite Hmem. simpl. rewrite Hp. simpl.
    unfold MOVWload_ADDconst, MOVWload_MOVWaddr, hasOp. rewrite !Hop. simpl.
    unfold arg, go_index. rewrite Hargs'. simpl. rewrite Hmerge. simpl.
    leave (rhs_load f vid (with_Uses v 0)); try done.
    by eapply deref_is_Some.
  - intros Hmerge Hst. unfold rewriteValueMIPS_OpMIPSMOVWload.
    rewrite Hv; simpl; unfold argv, arg, go_index; rewrite Hargs; simpl.
    rewrite Hmem. simpl. rewrite Hp. simpl.
    unfold MOVWload_ADDconst, MOVWload_MOVWaddr, MOVWload_MOVWstore, hasOp.
    rewrite !Hop. simpl.
    unfold arg, go_index. rewrite Hargs'. simpl. rewrite Hmerge. simpl.
    by rewrite (bool_decide_false _ Hst).
Qed.

(** X24.  MOVWload of an address that is neither an ADDconst nor a
    MOVWaddr, from the memory of a MOVWstore, becomes a copy of the stored
    value exactly when the store has the symbol and the displacement of
    the load and [isSamePtr] holds of the two addresses; otherwise the
    load stays as it is. *)
Theorem MOVWload_forwards_store (f : Func) (vid : ID) (v p st x : Value)
    (ptr2 mem : ID) :
  deref f vid = Ok v → v_Args v = [v_ID p; v_ID st] →
  deref f (v_ID p) = Ok p → deref f (v_ID st) = Ok st →
  v_Op p ≠ OpMIPSADDconst → v_Op p ≠ OpMIPSMOVWaddr →
  v_Op st = OpMIPSMOVWstore → v_Args st = [ptr2; v_ID x; mem] →
  deref f (v_ID x) = Ok x →
  if bool_decide (v_Aux v = v_Aux st) && bool_decide (v_AuxInt v = v_AuxInt st)
     && isSamePtr f (v_ID p) ptr2
  then rewritesTo rewriteValueMIPS_OpMIPSMOVWload f vid (copyOf v x)
  else rewriteValueMIPS_OpMIPSMOVWload f vid = Ok (f, false).
Proof.
  intros Hv Hargs Hp Hst Hop1 Hop2 Hop Hargs' Hx.
  pose proof (look_deref _ _ _ Hv) as Hlv.
  assert (Forall (λ w, is_Some (look f w)) (v_Args (with_Uses v 0))) as Hold.
  { simpl. rewrite Hargs. repeat constructor; by eapply deref_is_Some. }
  unfold rewritesTo, rewriteValueMIPS_OpMIPSMOVWload.
  rewrite Hv; simpl; unfold argv, arg, go_index; rewrite Hargs; simpl.
  rewrite Hst. simpl. rewrite Hp. simpl.
  unfold MOVWload_ADDconst, MOVWload_MOVWaddr, MOVWload_MOVWstore.
  rewrite (hasOp_false p OpMIPSADDconst), (hasOp_false p OpMIPSMOVWaddr),
    (hasOp_true st OpMIPSMOVWstore) by done.
  simpl. unfold argv, arg, go_index. rewrite Hargs'. simpl. rewrite Hx. simpl.
  destruct (bool_decide (v_Aux v = v_Aux st)
            && bool_decide (v_AuxInt v = v_AuxInt st)
            && isSamePtr f (v_ID p) ptr2); simpl; [|done].
  leave (rhs_copy f vid (with_Uses v 0) x); try done.
  by eapply deref_is_Some.
Qed.

End MoreLoads.

(** ** The examples *)

(** X11 at [ADDconst [0] x]. *)
Lemma immediate_identities_witness :
  ∃ f', rewriteValueMIPS_OpMIPSADDconst (argOperand OpMIPSADDconst 0) 2
        = Ok (f', true) ∧
        upd (argOperand OpMIPSADDconst 0) f' 2
            (val 2 OpCopy I32 0 [1%nat] 0).
Proof.
  destruct (immediate_identities (argOperand OpMIPSADDconst 0) 2
              (val 2 OpMIPSADDconst I32 0 [1%nat] 0) (val 1 OpArg I32 0 [] 1)
              eq_refl eq_refl eq_refl) as [Hzero _].
  destruct (Hzero eq_refl) as [Hadd _].
  apply Hadd. discriminate.
Defined.

(** X12 at [ADDconst [2147483647] (MOVWconst [1])]: the sum wraps. *)
Lemma wrapping_folds_stay_int32_witness :
  folds rewriteValueMIPS_OpMIPSADDconst
        (constOperand OpMIPSADDconst 2147483647 1) 2
        (val 2 OpMIPSADDconst I32 2147483647 [1%nat] 0) (-2147483648).
Proof.
  destruct (wrapping_folds_stay_int32
              (constOperand OpMIPSADDconst 2147483647 1) 2
              (val 2 OpMIPSADDconst I32 2147483647 [1%nat] 0)
              (val 1 OpMIPSMOVWconst I32 1 [] 1)
              eq_refl eq_refl eq_refl eq_refl) as [Hadd _].
  apply Hadd. discriminate.
Defined.

(** X13 at [ANDconst [12] (MOVWconst [10])]. *)
Lemma bitwise_folds_keep_int32_witness :
  folds rewriteValueMIPS_OpMIPSANDconst (constOperand OpMIPSANDconst 12 10) 2
        (val 2 OpMIPSANDconst I32 12 [1%nat] 0) 8.
Proof.
  destruct (bitwise_folds_keep_int32 (constOperand OpMIPSANDconst 12 10) 2
              (val 2 OpMIPSANDconst I32 12 [1%nat] 0)
              (val 1 OpMIPSMOVWconst I32 10 [] 1)
              eq_refl eq_refl eq_refl eq_refl) as [Hand _].
  apply Hand. discriminate.
Defined.

(** X14 at [SRLconst [0] (MOVWconst [-1])]: the constant left is
    4294967295. *)
Lemma SRLconst_fold_zero_extends_witness :
  folds rewriteValueMIPS_OpMIPSSRLconst (constOperand OpMIPSSRLconst 0 (-1)) 2
        (val 2 OpMIPSSRLconst I32 0 [1%nat] 0) 4294967295 ∧
  ¬ isInt32 4294967295.
Proof.
  destruct (SRLconst_fold_zero_extends (constOperand OpMIPSSRLconst 0 (-1)) 2
              (val 2 OpMIPSSRLconst I32 0 [1%nat] 0)
              (val 1 OpMIPSMOVWconst I32 (-1) [] 1)
              eq_refl eq_refl eq_refl eq_refl) as (Hfold & _ & Hneg).
  split; [exact Hfold|].
  apply Hneg; [reflexivity|unfold isInt32; simpl; lia|simpl; lia].
Defined.

(** X15 at [SUB x x]. *)
Lemma same_operand_rules_witness :
  folds rewriteValueMIPS_OpMIPSSUB (sameOperand OpMIPSSUB) 2
        (val 2 OpMIPSSUB I32 0 [1%nat; 1%nat] 0) 0.
Proof.
  apply (same_operand_rules (sameOperand OpMIPSSUB) 2
           (val 2 OpMIPSSUB I32 0 [1%nat; 1%nat] 0) (val 1 OpArg I32 0 [] 2)
           eq_refl eq_refl eq_refl).
  discriminate.
Defined.

(** X16 at [ADDconst [3] (SUBconst [5] x)]. *)
Lemma stacked_immediates_merge_witness :
  rewritesTo rewriteValueMIPS_OpMIPSADDconst
    (stackedImm OpMIPSADDconst 3 OpMIPSSUBconst 5) 3
    (val 3 OpMIPSADDconst I32 (-2) [1%nat] 0).
Proof.
  destruct (stacked_immediates_merge
              (stackedImm OpMIPSADDconst 3 OpMIPSSUBconst 5) 3
              (val 3 OpMIPSADDconst I32 3 [2%nat] 0)
              (val 2 OpMIPSSUBconst I32 5 [1%nat] 1) 1%nat
              eq_refl eq_refl eq_refl eq_refl
              (ex_intro _ _ eq_refl))
    as (_ & Hsub & _).
  - discriminate.
  - discriminate.
  - destruct (Hsub eq_refl) as [Hadd _]. exact Hadd.
Defined.

(** X17 at [MUL (MOVWconst [8]) x]. *)
Lemma MUL_by_constant_witness :
  rewritesTo (rewriteValueMIPS_OpMIPSMUL (H := exampleHelpers))
    (constLeft OpMIPSMUL 8) 3 (val 3 OpMIPSSLLconst I32 3 [1%nat] 0).
Proof.
  destruct (MUL_by_constant (H := exampleHelpers) true
              (constLeft OpMIPSMUL 8) 3
              (val 3 OpMIPSMUL I32 0 [2%nat; 1%nat] 0)
              (val 1 OpArg I32 0 [] 1) (val 2 OpMIPSMOVWconst I32 8 [] 1)
              eq_refl eq_refl eq_refl eq_refl eq_refl) as [_ Hx].
  destruct Hx as (_ & _ & Hpow); [discriminate|].
  apply Hpow; [discriminate|discriminate|discriminate|reflexivity].
Defined.

(** X18 at the MULTU of -2 and 3: the high word left is -1. *)
Lemma select_MULTU_constants_witness :
  folds (rewriteValueMIPS_OpSelect0 (H := exampleHelpers))
        (tupleFunc OpMIPSMULTU (-2) 3) 5 (val 5 OpSelect0 I32 0 [3%nat] 0) (-1).
Proof.
  destruct (select_MULTU_constants (H := exampleHelpers)
              (tupleFunc OpMIPSMULTU (-2) 3) 5
              (val 5 OpSelect0 I32 0 [3%nat] 0)
              (val 3 OpMIPSMULTU (TypeTuple I32 I32) 0 [1%nat; 2%nat] 2)
              (val 1 OpMIPSMOVWconst I32 (-2) [] 1)
              (val 2 OpMIPSMOVWconst I32 3 [] 1)
              eq_refl eq_refl eq_refl eq_refl eq_refl eq_refl eq_refl
              eq_refl eq_refl) as (_ & Hhigh & _);
    [discriminate..|reflexivity|reflexivity|exact Hhigh].
Defined.

(** X19 at the DIV of -7 by 2: the quotient is -3. *)
Lemma select_DIV_constants_witness :
  folds (rewriteValueMIPS_OpSelect1 (H := exampleHelpers))
        (tupleFunc OpMIPSDIV (-7) 2) 4 (val 4 OpSelect1 I32 0 [3%nat] 0) (-3).
Proof.
  destruct (select_DIV_constants (H := exampleHelpers)
              (tupleFunc OpMIPSDIV (-7) 2) 4
              (val 4 OpSelect1 I32 0 [3%nat] 0)
              (val 3 OpMIPSDIV (TypeTuple I32 I32) 0 [1%nat; 2%nat] 2)
              (val 1 OpMIPSMOVWconst I32 (-7) [] 1)
              (val 2 OpMIPSMOVWconst I32 2 [] 1)
              eq_refl eq_refl eq_refl eq_refl eq_refl eq_refl eq_refl
              eq_refl) as [Hdiv _].
  destruct Hdiv as [Hq _]; [reflexivity|discriminate|exact Hq].
Defined.

(** X20 at [SGTzero (MOVWconst [5])]. *)
Lemma comparisons_with_zero_witness :
  folds rewriteValueMIPS_OpMIPSSGTzero (constOperand OpMIPSSGTzero 0 5) 2
        (val 2 OpMIPSSGTzero I32 0 [1%nat] 0) 1.
Proof.
  destruct (comparisons_with_zero (constOperand OpMIPSSGTzero 0 5) 2
              (val 2 OpMIPSSGTzero I32 0 [1%nat] 0)
              (val 1 OpMIPSMOVWconst I32 5 [] 1) eq_refl eq_refl)
    as [Hconst _].
  destruct (Hconst eq_refl eq_refl) as [Hsgt _]. exact Hsgt.
Defined.

(** X21 at a GEZ block on [MOVWconst [-1]]: the branch is not taken. *)
Lemma sign_test_on_constant_witness :
  ∃ f', rewriteBlockMIPS (branchFunc BlockMIPSGEZ (-1)) 1 = Ok (f', true) ∧
        same (branchFunc BlockMIPSGEZ (-1)) f' ∧
        derefBlock f' 1 = Ok (mkBlock 1 BlockFirst [1%nat] [3%nat; 2%nat] []).
Proof.
  apply (sign_test_on_constant (branchFunc BlockMIPSGEZ (-1)) 1
           (mkBlock 1 BlockMIPSGEZ [1%nat] [2%nat; 3%nat] [1%nat])
           (val 1 OpMIPSMOVWconst TypeBool (-1) [] 1) false 2%nat 3%nat
           eq_refl eq_refl eq_refl eq_refl eq_refl eq_refl).
Defined.

(** X22 at an NE block on [MOVWconst [7]] and the EQ block in its
    place. *)
Lemma EQ_and_NE_mirror_witness :
  match rewriteBlockMIPS (branchFunc BlockMIPSNE 7) 1 with
  | Ok (f', ch) =>
      ∃ b', derefBlock f' 1 = Ok b' ∧
            rewriteBlockMIPS
              (setBlock (branchFunc BlockMIPSNE 7)
                 (opposite (mkBlock 1 BlockMIPSNE [1%nat] [2%nat; 3%nat]
                                    [1%nat]))) 1
            = Ok (setBlock f' (opposite b'), ch)
  | Fail e =>
      rewriteBlockMIPS
        (setBlock (branchFunc BlockMIPSNE 7)
           (opposite (mkBlock 1 BlockMIPSNE [1%nat] [2%nat; 3%nat] [1%nat]))) 1
      = Fail e
  end.
Proof.
  apply (EQ_and_NE_mirror (branchFunc BlockMIPSNE 7) 1
           (mkBlock 1 BlockMIPSNE [1%nat] [2%nat; 3%nat] [1%nat])
           eq_refl (or_intror eq_refl) eq_refl).
Defined.

(** X23 at a load at 4 from the address 100000 of a symbol: the
    displacement becomes 100004. *)
Lemma MOVWload_merges_MOVWaddr_witness :
  rewritesTo (rewriteValueMIPS_OpMIPSMOVWload (H := exampleHelpers))
    (addrLoadFunc 4 100000) 4
    (val 4 OpMIPSMOVWload I32 100004 [1%nat; 3%nat] 0).
Proof.
  apply (MOVWload_merges_MOVWaddr (H := exampleHelpers)
           (addrLoadFunc 4 100000) 4
           (val 4 OpMIPSMOVWload I32 4 [2%nat; 3%nat] 0)
           (val 2 OpMIPSMOVWaddr TypePtr 100000 [1%nat] 1)
           (val 3 OpArg TypeMem 0 [] 1) 1%nat
           eq_refl eq_refl eq_refl eq_refl eq_refl eq_refl
           (ex_intro _ _ eq_refl)).
  reflexivity.
Defined.

(** X24 at a load at 8 after a store at 8 to the same address, and after
    a store at 12. *)
Lemma MOVWload_forwards_store_witness :
  rewritesTo (rewriteValueMIPS_OpMIPSMOVWload (H := exampleHelpers))
    (storeLoadFunc 8 8) 5 (val 5 OpCopy I32 0 [2%nat] 0) ∧
  rewriteValueMIPS_OpMIPSMOVWload (H := exampleHelpers) (storeLoadFunc 8 12) 5
  = Ok (storeLoadFunc 8 12, false).
Proof.
  split.
  - apply (MOVWload_forwards_store (H := exampleHelpers)
             (storeLoadFunc 8 8) 5
             (val 5 OpMIPSMOVWload I32 8 [1%nat; 4%nat] 0)
             (val 1 OpArg TypePtr 0 [] 2)
             (val 4 OpMIPSMOVWstore TypeMem 8 [1%nat; 2%nat; 3%nat] 1)
             (val 2 OpArg I32 0 [] 1) 1%nat 3%nat
             eq_refl eq_refl eq_refl eq_refl ltac:(discriminate)
             ltac:(discriminate) eq_refl eq_refl eq_refl).
  - apply (MOVWload_forwards_store (H := exampleHelpers)
             (storeLoadFunc 8 12) 5
             (val 5 OpMIPSMOVWload I32 8 [1%nat; 4%nat] 0)
             (val 1 OpArg TypePtr 0 [] 2)
             (val 4 OpMIPSMOVWstore TypeMem 12 [1%nat; 2%nat; 3%nat] 1)
             (val 2 OpArg I32 0 [] 1) 1%nat 3%nat
             eq_refl eq_refl eq_refl eq_refl ltac:(discriminate)
             ltac:(discriminate) eq_refl eq_refl eq_refl).
Defined.

End RewriteMIPSMore.
